(** * S-box analysis dashboard: a shallow embedding of [analyzer.js] and of the
    S-box handling of [script.js], with the properties of the specification.

    Numbers are JavaScript integers, modelled as [Z]; arrays are lists read
    with [nth]; loops [for (let i = lo; i < hi; i++)] are folds over the list
    of their counters.  The lazily filled caches of the analyzer object are
    fields of a record that every method threads through.  What the
    evaluators can throw, and the [try] and [catch] of the full analysis,
    are in module [Throwing]. *)

From Stdlib Require Import String Ascii DecimalString.
From Stdlib Require Import ZArith QArith Qabs List Bool Lia Permutation Finite.
From Stdlib Require Import Btauto FMapPositive.
Import ListNotations.
Local Open Scope Z_scope.

(** ** JavaScript arrays and loops *)
Module JS.

(** [arr[i]] for an index inside the array. *)
Definition get (arr : list Z) (i : Z) : Z := nth (Z.to_nat i) arr 0.

(** [t[i][j]]. *)
Definition get2 (t : list (list Z)) (i j : Z) : Z :=
  get (nth (Z.to_nat i) t []) j.

Fixpoint upd {A : Type} (k : nat) (f : A -> A) (l : list A) : list A :=
  match l, k with
  | [], _ => []
  | a :: l', O => f a :: l'
  | a :: l', S k' => a :: upd k' f l'
  end.

(** A write at index [i].  The arrays of the analyzer are allocated with
    their final length and read at indices [0 .. length-1] only; a write
    outside that range would land in a slot (or property) that no loop
    reads, and is dropped here. *)
Definition updZ {A : Type} (i : Z) (f : A -> A) (l : list A) : list A :=
  if 0 <=? i then upd (Z.to_nat i) f l else l.

(** [arr[i] = v]. *)
Definition set {A : Type} (arr : list A) (i : Z) (v : A) : list A :=
  updZ i (fun _ => v) arr.

(** [t[i][j] = v]. *)
Definition set2 {A : Type} (t : list (list A)) (i j : Z) (v : A)
  : list (list A) :=
  updZ i (fun row => set row j v) t.

(** Reads of arrays of fractions. *)
Definition getQ (arr : list Q) (i : Z) : Q := nth (Z.to_nat i) arr 0%Q.

Definition get2Q (t : list (list Q)) (i j : Z) : Q :=
  getQ (nth (Z.to_nat i) t []) j.

(** [Math.max(a, b)] on fractions. *)
Definition maxQ (a b : Q) : Q := if Qle_bool a b then b else a.

(** [Math.max(...xs)] and [Math.min(...xs)] for a non-empty [xs] (the
    spread arrays of the analyzer hold 64 and 28 entries). *)
Definition max_ofQ (xs : list Q) : Q := fold_left maxQ xs (hd 0%Q xs).

(** [xs.reduce((a, b) => a + b, 0)]. *)
Definition sumZ (xs : list Z) : Z := fold_left Z.add xs 0.
Definition sumQ (xs : list Q) : Q := fold_left Qplus xs 0%Q.

(** [t[i][j]++]. *)
Definition incr2 (t : list (list Z)) (i j : Z) : list (list Z) :=
  updZ i (updZ j Z.succ) t.

(** [arr[i]++]. *)
Definition incr (arr : list Z) (i : Z) : list Z := updZ i Z.succ arr.

(** The counters of [for (let i = lo; i < hi; i++)]. *)
Definition zrange (lo hi : Z) : list Z :=
  map (fun k => lo + Z.of_nat k) (seq 0 (Z.to_nat (hi - lo))).

(** [for (let i = lo; i < hi; i++) s = body(i, s)]. *)
Definition for_ {S : Type} (lo hi : Z) (body : Z -> S -> S) (s : S) : S :=
  fold_left (fun s i => body i s) (zrange lo hi) s.

(** A loop whose body may [break]: the body returns the new state and
    whether the loop goes on. *)
Fixpoint for_break_list {S : Type} (l : list Z) (body : Z -> S -> S * bool)
         (s : S) : S :=
  match l with
  | [] => s
  | i :: l' =>
      let '(s', go_on) := body i s in
      if go_on then for_break_list l' body s' else s'
  end.

Definition for_break {S : Type} (lo hi : Z) (body : Z -> S -> S * bool)
           (s : S) : S :=
  for_break_list (zrange lo hi) body s.

(** [for (const v of arr) s = body(v, s)]. *)
Definition for_of {A S : Type} (arr : list A) (body : A -> S -> S) (s : S) : S :=
  fold_left (fun s v => body v s) arr s.

(** [Array(n).fill(v)]. *)
Definition fill {A : Type} (n : Z) (v : A) : list A := repeat v (Z.to_nat n).

(** A number that may be [Infinity]. *)
Inductive num : Type :=
| Fin (z : Z)
| Infinity.

(** [Math.min(a, b)] with a possibly infinite [a]. *)
Definition min_num (a : num) (b : Z) : num :=
  match a with
  | Fin z => Fin (Z.min z b)
  | Infinity => Fin b
  end.

(** [a >= b] with a possibly infinite [a]. *)
Definition geb_num (a : num) (b : Z) : bool :=
  match a with
  | Fin z => b <=? z
  | Infinity => true
  end.

(** [for (let i = hi; i > lo; i--) s = body(i, s)]. *)
Definition for_down {S : Type} (hi lo : Z) (body : Z -> S -> S) (s : S) : S :=
  fold_left (fun s i => body i s) (rev (zrange (lo + 1) (hi + 1))) s.

(** A number that may be [-Infinity]. *)
Inductive lower : Type :=
| Above (z : Z)
| MinusInfinity.

(** [Math.min(...xs)] and [Math.max(...xs)]; of no argument they are
    [Infinity] and [-Infinity]. *)
Definition min_of (xs : list Z) : num := fold_left min_num xs Infinity.

Definition max_lower (a : lower) (b : Z) : lower :=
  match a with
  | Above z => Above (Z.max z b)
  | MinusInfinity => Above b
  end.

Definition max_of (xs : list Z) : lower := fold_left max_lower xs MinusInfinity.

(** ** Strings

    A string is the sequence of its UTF-16 code units. *)
Definition code (c : ascii) : Z := Z.of_N (N_of_ascii c).

Definition lit (s : string) : list Z := map code (list_ascii_of_string s).

(** White space and line terminators: the characters that [trim()] strips
    and that [\s] matches. *)
Definition isWhiteSpace (c : Z) : bool :=
  ((9 <=? c) && (c <=? 13)) || (c =? 32) || (c =? 0xA0) || (c =? 0x1680)
  || ((0x2000 <=? c) && (c <=? 0x200A)) || (c =? 0x2028) || (c =? 0x2029)
  || (c =? 0x202F) || (c =? 0x205F) || (c =? 0x3000) || (c =? 0xFEFF).

Fixpoint trimStart (s : list Z) : list Z :=
  match s with
  | [] => []
  | c :: rest => if isWhiteSpace c then trimStart rest else s
  end.

Definition trimEnd (s : list Z) : list Z := rev (trimStart (rev s)).

(** [s.trim()]. *)
Definition trim (s : list Z) : list Z := trimEnd (trimStart s).

(** The piece under construction grows by one character at its front. *)
Definition push (c : Z) (pieces : list (list Z)) : list (list Z) :=
  match pieces with
  | piece :: rest => (c :: piece) :: rest
  | [] => [[c]]
  end.

(** [s.split(sep)] for a separator of one character; the empty string gives
    one empty piece. *)
Fixpoint splitChar (sep : Z) (s : list Z) : list (list Z) :=
  match s with
  | [] => [[]]
  | c :: rest =>
      if c =? sep then [] :: splitChar sep rest
      else push c (splitChar sep rest)
  end.

(** [s.split(/\r?\n/)]: a line feed, with the carriage return before it if
    there is one, separates two pieces. *)
Fixpoint splitLines (s : list Z) : list (list Z) :=
  match s with
  | [] => [[]]
  | c :: rest =>
      if c =? 10 then [] :: splitLines rest
      else
        match rest with
        | d :: rest' =>
            if (c =? 13) && (d =? 10) then [] :: splitLines rest'
            else push c (splitLines rest)
        | [] => [[c]]
        end
  end.

(** [s.split(/\s+/)]: a maximal run of white space separates two pieces;
    [inRun] tells that the character before was white space. *)
Fixpoint splitSpaces (inRun : bool) (s : list Z) : list (list Z) :=
  match s with
  | [] => [[]]
  | c :: rest =>
      if isWhiteSpace c
      then if inRun then splitSpaces true rest
           else [] :: splitSpaces true rest
      else push c (splitSpaces false rest)
  end.

(** [pieces.join(sep)]. *)
Fixpoint join (sep : list Z) (pieces : list (list Z)) : list Z :=
  match pieces with
  | [] => []
  | piece :: rest =>
      match rest with
      | [] => piece
      | _ :: _ => piece ++ sep ++ join sep rest
      end
  end.

(** The value of a digit, letters counting from ten in either case; 36 for
    any other character. *)
Definition digitOf (c : Z) : Z :=
  if (48 <=? c) && (c <=? 57) then c - 48
  else if (97 <=? c) && (c <=? 122) then c - 87
  else if (65 <=? c) && (c <=? 90) then c - 55
  else 36.

(** The values of the longest prefix of digits of the radix. *)
Fixpoint digitsOf (radix : Z) (s : list Z) : list Z :=
  match s with
  | [] => []
  | c :: rest =>
      if digitOf c <? radix then digitOf c :: digitsOf radix rest else []
  end.

(** [parseInt(s, radix)] for radix 10 or 16: leading white space, a sign,
    for radix 16 a prefix [0x] or [0X], then the longest prefix of digits;
    [None] is [NaN].  The value is the integer the digits denote, which is
    the number the code gets as long as it is below [2^53]. *)
Definition parseInt (s : list Z) (radix : Z) : option Z :=
  let s := trimStart s in
  let '(sign, s) :=
    match s with
    | c :: rest =>
        if c =? code "-" then (-1, rest)
        else if c =? code "+" then (1, rest)
        else (1, s)
    | [] => (1, s)
    end in
  let s :=
    if radix =? 16
    then match s with
         | c :: x :: rest =>
             if (c =? code "0") && ((x =? code "x") || (x =? code "X"))
             then rest else s
         | _ => s
         end
    else s in
  match digitsOf radix s with
  | [] => None
  | d :: ds =>
      Some (sign * fold_left (fun acc d => acc * radix + d) (d :: ds) 0)
  end.

(** The digits of a hexadecimal numeral, in lower case. *)
Fixpoint hexChars (u : Hexadecimal.uint) : list Z :=
  match u with
  | Hexadecimal.Nil => []
  | Hexadecimal.D0 u => code "0" :: hexChars u
  | Hexadecimal.D1 u => code "1" :: hexChars u
  | Hexadecimal.D2 u => code "2" :: hexChars u
  | Hexadecimal.D3 u => code "3" :: hexChars u
  | Hexadecimal.D4 u => code "4" :: hexChars u
  | Hexadecimal.D5 u => code "5" :: hexChars u
  | Hexadecimal.D6 u => code "6" :: hexChars u
  | Hexadecimal.D7 u => code "7" :: hexChars u
  | Hexadecimal.D8 u => code "8" :: hexChars u
  | Hexadecimal.D9 u => code "9" :: hexChars u
  | Hexadecimal.Da u => code "a" :: hexChars u
  | Hexadecimal.Db u => code "b" :: hexChars u
  | Hexadecimal.Dc u => code "c" :: hexChars u
  | Hexadecimal.Dd u => code "d" :: hexChars u
  | Hexadecimal.De u => code "e" :: hexChars u
  | Hexadecimal.Df u => code "f" :: hexChars u
  end.

(** [v.toString(16)] for an integer [v]. *)
Definition toString16 (v : Z) : list Z :=
  match Z.to_hex_int v with
  | Hexadecimal.Pos u => hexChars u
  | Hexadecimal.Neg u => code "-" :: hexChars u
  end.

(** [s.padStart(targetLength, pad)] for a [pad] of one character. *)
Definition padStart (s : list Z) (targetLength : Z) (pad : Z) : list Z :=
  repeat pad (Z.to_nat (targetLength - Z.of_nat (length s))) ++ s.

(** [s.toUpperCase()] and [s.toLowerCase()] on the letters a-z and A-Z;
    the strings they are applied to here are numerals and prefixes of
    numerals, and no other character becomes one of [0-9a-zA-Z]. *)
Definition toUpperCase (s : list Z) : list Z :=
  map (fun c => if (97 <=? c) && (c <=? 122) then c - 32 else c) s.

Definition toLowerCase (s : list Z) : list Z :=
  map (fun c => if (65 <=? c) && (c <=? 90) then c + 32 else c) s.

(** [s.startsWith(prefix)]. *)
Fixpoint startsWith (s prefix : list Z) : bool :=
  match prefix, s with
  | [], _ => true
  | p :: prefix', c :: s' => (c =? p) && startsWith s' prefix'
  | _ :: _, [] => false
  end.

(** The UTF-8 bytes of a code point. *)
Definition utf8 (cp : Z) : list Z :=
  if cp <? 0x80 then [cp]
  else if cp <? 0x800
  then [Z.lor 0xC0 (Z.shiftr cp 6); Z.lor 0x80 (Z.land cp 0x3F)]
  else if cp <? 0x10000
  then [Z.lor 0xE0 (Z.shiftr cp 12);
        Z.lor 0x80 (Z.land (Z.shiftr cp 6) 0x3F);
        Z.lor 0x80 (Z.land cp 0x3F)]
  else [Z.lor 0xF0 (Z.shiftr cp 18);
        Z.lor 0x80 (Z.land (Z.shiftr cp 12) 0x3F);
        Z.lor 0x80 (Z.land (Z.shiftr cp 6) 0x3F);
        Z.lor 0x80 (Z.land cp 0x3F)].

(** [new TextEncoder().encode(s)]: the UTF-8 bytes of the string; a
    surrogate pair is one code point, a surrogate without its partner is
    replaced by U+FFFD. *)
Fixpoint encode (s : list Z) : list Z :=
  match s with
  | [] => []
  | c :: rest =>
      if (0xD800 <=? c) && (c <? 0xDC00)
      then match rest with
           | d :: rest' =>
               if (0xDC00 <=? d) && (d <? 0xE000)
               then utf8 (0x10000 + (c - 0xD800) * 0x400 + (d - 0xDC00))
                    ++ encode rest'
               else utf8 0xFFFD ++ encode rest
           | [] => utf8 0xFFFD
           end
      else if (0xDC00 <=? c) && (c <? 0xE000)
      then utf8 0xFFFD ++ encode rest
      else utf8 c ++ encode rest
  end.

End JS.
Import JS.

(** ** [analyzer.js]: class [SBoxAnalyzer] *)
Module Analyzer.

(** The errors thrown at the input boundary.  [InvalidSBoxLength] is
    'S-box must be an array of exactly 256 values' (constructor) and
    'S-box must contain exactly 256 values, found n' (validator);
    [InvalidSBoxValue] is 'Invalid value at position i: v'; the two last are
    'Duplicate value v at position i. S-box must be a permutation' and
    'S-box is missing values: ...'. *)
Inductive Error : Type :=
| InvalidSBoxLength (found : Z)
| InvalidSBoxValue (pos val : Z)
| DuplicateValue (val pos : Z)
| MissingValues (missing : list Z).

(** The specification's error kind [NotAPermutation]. *)
Definition NotAPermutation (e : Error) : Prop :=
  match e with
  | DuplicateValue _ _ | MissingValues _ => True
  | _ => False
  end.

Definition IsInvalidSBoxLength (e : Error) : Prop :=
  match e with
  | InvalidSBoxLength _ => True
  | _ => False
  end.

(** [this.n = 8] and [this.size = 256] are assigned once, in the
    constructor, and never written again. *)
Definition n : Z := 8.
Definition size : Z := 256.

(** The analyzer object: the copied S-box, the Hamming-weight table and the
    three lazily initialised caches ([None] is [null]). *)
Record SBoxAnalyzer : Type := mkAnalyzer {
  sbox : list Z;
  hammingWeights : list Z;
  booleanFunctions : option (list (option (list Z)));
  linearApproxTable : option (list (list Z));
  differenceTable : option (list (list Z))
}.

(** [while (n) { weight += n & 1; n >>= 1; }]; the fuel is the width of a
    JavaScript shift operand, enough for every non-negative argument. *)
Fixpoint hammingWeight_loop (fuel : nat) (n weight : Z) : Z :=
  match fuel with
  | O => weight
  | S fuel' =>
      if n =? 0 then weight
      else hammingWeight_loop fuel' (Z.shiftr n 1) (weight + Z.land n 1)
  end.

Definition hammingWeight (n : Z) : Z := hammingWeight_loop 32 n 0.

Definition precomputeHammingWeights : list Z :=
  for_ 0 256 (fun i weights => set weights i (hammingWeight i)) (fill 256 0).

(** [new SBoxAnalyzer(sboxArray)]. *)
Definition constructor (sboxArray : list Z) : Error + SBoxAnalyzer :=
  if negb (Z.of_nat (length sboxArray) =? 256)
  then inl (InvalidSBoxLength (Z.of_nat (length sboxArray)))
  else inr {| sbox := sboxArray;
              hammingWeights := precomputeHammingWeights;
              booleanFunctions := None;
              linearApproxTable := None;
              differenceTable := None |}.

Definition with_booleanFunctions (this : SBoxAnalyzer) bf : SBoxAnalyzer :=
  {| sbox := sbox this; hammingWeights := hammingWeights this;
     booleanFunctions := bf;
     linearApproxTable := linearApproxTable this;
     differenceTable := differenceTable this |}.

Definition with_linearApproxTable (this : SBoxAnalyzer) t : SBoxAnalyzer :=
  {| sbox := sbox this; hammingWeights := hammingWeights this;
     booleanFunctions := booleanFunctions this;
     linearApproxTable := t;
     differenceTable := differenceTable this |}.

Definition with_differenceTable (this : SBoxAnalyzer) t : SBoxAnalyzer :=
  {| sbox := sbox this; hammingWeights := hammingWeights this;
     booleanFunctions := booleanFunctions this;
     linearApproxTable := linearApproxTable this;
     differenceTable := t |}.

(** The truth table filled by [getBooleanFunction] on a cache miss. *)
Definition truthTableOf (sb : list Z) (outputBit : Z) : list Z :=
  for_ 0 256
       (fun i truthTable =>
          set truthTable i (Z.land (Z.shiftr (get sb i) outputBit) 1))
       (fill 256 0).

(** [getBooleanFunction(outputBit)]: allocates the cache on first use,
    fills the slot of [outputBit] if it is empty, returns the slot. *)
Definition getBooleanFunction (outputBit : Z) (this : SBoxAnalyzer)
  : list Z * SBoxAnalyzer :=
  let cache :=
    match booleanFunctions this with
    | None => repeat None 8
    | Some c => c
    end in
  match nth (Z.to_nat outputBit) cache None with
  | Some truthTable =>
      (truthTable, with_booleanFunctions this (Some cache))
  | None =>
      let truthTable := truthTableOf (sbox this) outputBit in
      (truthTable,
       with_booleanFunctions this
         (Some (updZ outputBit (fun _ => Some truthTable) cache)))
  end.

(** [walshHadamardTransform(truthTable)]. *)
Definition walshHadamardTransform (this : SBoxAnalyzer) (truthTable : list Z)
  : list Z :=
  let size := Z.shiftl 1 n in
  for_ 0 size
       (fun w walsh =>
          let sum :=
            for_ 0 size
                 (fun x sum =>
                    let dotProduct :=
                      Z.land (get (hammingWeights this) (Z.land x w)) 1 in
                    sum + Z.pow (-1) (Z.lxor (get truthTable x) dotProduct))
                 0 in
          set walsh w sum)
       (fill size 0).

(** [calculateNonlinearity()].  [maxWalsh / 2] is an exact division: every
    Walsh coefficient is even (lemma [walsh_entry_even] below). *)
Definition maxAbsWalsh (walsh : list Z) : Z :=
  for_ 1 (Z.of_nat (length walsh))
       (fun i maxWalsh => Z.max maxWalsh (Z.abs (get walsh i))) 0.

Definition calculateNonlinearity (this : SBoxAnalyzer) : num * SBoxAnalyzer :=
  for_ 0 n
       (fun bit '(minNonlinearity, this) =>
          let '(truthTable, this) := getBooleanFunction bit this in
          let walsh := walshHadamardTransform this truthTable in
          let maxWalsh := maxAbsWalsh walsh in
          let nonlinearity := Z.shiftl 1 (n - 1) - maxWalsh / 2 in
          (min_num minNonlinearity nonlinearity, this))
       (Infinity, this).

(** The object returned by [calculateSAC()]. *)
Record SAC : Type := mkSAC {
  sac_matrix : list (list Q);
  sac_score : Q;
  sac_maxDeviation : Q
}.

Definition flipCount (sb : list Z) (inputBit outputBit : Z) : Z :=
  for_ 0 size
       (fun x flipCount =>
          let flippedX := Z.lxor x (Z.shiftl 1 inputBit) in
          let y1 := get sb x in
          let y2 := get sb flippedX in
          if negb (Z.land (Z.shiftr y1 outputBit) 1
                   =? Z.land (Z.shiftr y2 outputBit) 1)
          then flipCount + 1 else flipCount)
       0.

Definition calculateSAC (this : SBoxAnalyzer) : SAC :=
  let sacMatrix :=
    for_ 0 n
         (fun inputBit sacMatrix =>
            for_ 0 n
                 (fun outputBit sacMatrix =>
                    set2 sacMatrix inputBit outputBit
                         (inject_Z (flipCount (sbox this) inputBit outputBit)
                          / inject_Z size)%Q)
                 sacMatrix)
         (fill n (fill n 0%Q)) in
  let sacScore :=
    for_ 0 n
         (fun i sacScore =>
            for_ 0 n
                 (fun j sacScore =>
                    (sacScore + Qabs (get2Q sacMatrix i j - (1 # 2)))%Q)
                 sacScore)
         0%Q in
  {| sac_matrix := sacMatrix;
     sac_score := (sacScore / inject_Z (n * n))%Q;
     sac_maxDeviation :=
       max_ofQ (map (fun x => Qabs (x - (1 # 2))%Q) (concat sacMatrix)) |}.

(** The object returned by [calculateBIC_NL()]; the mean is the exact
    quotient, which JavaScript rounds to the nearest double. *)
Record BIC_NL : Type := mkBIC_NL {
  bicnl_minNonlinearity : num;
  bicnl_averageNonlinearity : Q;
  bicnl_correlations : list Z
}.

Definition calculateBIC_NL (this : SBoxAnalyzer) : BIC_NL * SBoxAnalyzer :=
  let '(correlations, this) :=
    for_ 0 n
         (fun bit1 st =>
            for_ (bit1 + 1) n
                 (fun bit2 '(correlations, this) =>
                    let '(f1, this) := getBooleanFunction bit1 this in
                    let '(f2, this) := getBooleanFunction bit2 this in
                    let combined :=
                      for_ 0 size
                           (fun x combined =>
                              set combined x (Z.lxor (get f1 x) (get f2 x)))
                           (fill size 0) in
                    let walsh := walshHadamardTransform this combined in
                    let maxWalsh := maxAbsWalsh walsh in
                    let nonlinearity := Z.shiftl 1 (n - 1) - maxWalsh / 2 in
                    (correlations ++ [nonlinearity], this))
                 st)
         ([], this) in
  ({| bicnl_minNonlinearity := fold_left min_num correlations Infinity;
      bicnl_averageNonlinearity :=
        (inject_Z (sumZ correlations)
         / inject_Z (Z.of_nat (length correlations)))%Q;
      bicnl_correlations := correlations |}, this).

(** The object returned by [calculateBIC_SAC()]. *)
Record BIC_SAC : Type := mkBIC_SAC {
  bicsac_maxCorrelation : Q;
  bicsac_averageCorrelation : Q;
  bicsac_correlations : list Q
}.

Definition calculateBIC_SAC (this : SBoxAnalyzer) : BIC_SAC :=
  let correlations :=
    for_ 0 n
         (fun bit1 correlations =>
            for_ (bit1 + 1) n
                 (fun bit2 correlations =>
                    let correlation :=
                      for_ 0 size
                           (fun x correlation =>
                              let y := get (sbox this) x in
                              let bit1Val := Z.land (Z.shiftr y bit1) 1 in
                              let bit2Val := Z.land (Z.shiftr y bit2) 1 in
                              correlation
                              + (2 * bit1Val - 1) * (2 * bit2Val - 1))
                           0 in
                    correlations
                      ++ [Qabs (inject_Z correlation / inject_Z size)%Q])
                 correlations)
         [] in
  {| bicsac_maxCorrelation := max_ofQ correlations;
     bicsac_averageCorrelation :=
       (sumQ correlations / inject_Z (Z.of_nat (length correlations)))%Q;
     bicsac_correlations := correlations |}.

(** [buildLinearApproximationTable()]: the table it stores. *)
Definition latCount (hw sb : list Z) (a b : Z) : Z :=
  for_ 0 size
       (fun x count =>
          let inputParity := Z.land (get hw (Z.land a x)) 1 in
          let outputParity := Z.land (get hw (Z.land b (get sb x))) 1 in
          if inputParity =? outputParity then count + 1 else count)
       0.

Definition latOf (hw sb : list Z) : list (list Z) :=
  for_ 0 size
       (fun a table =>
          for_ 0 size
               (fun b table =>
                  set2 table a b (latCount hw sb a b - size / 2))
               table)
       (fill size (fill size 0)).

Definition buildLinearApproximationTable (this : SBoxAnalyzer)
  : SBoxAnalyzer :=
  with_linearApproxTable this
    (Some (latOf (hammingWeights this) (sbox this))).

(** The object returned by [calculateLAP()]. *)
Record LAP : Type := mkLAP {
  lap_maxBias : Z;
  lap_maxLAP : Q;
  lap_table : list (list Z)
}.

Definition maxBiasOf (table : list (list Z)) : Z :=
  for_ 0 size
       (fun a maxBias =>
          for_ 0 size
               (fun b maxBias =>
                  if negb (a =? 0) || negb (b =? 0)
                  then Z.max maxBias (Z.abs (get2 table a b))
                  else maxBias)
               maxBias)
       0.

Definition calculateLAP (this : SBoxAnalyzer) : LAP * SBoxAnalyzer :=
  let this :=
    match linearApproxTable this with
    | None => buildLinearApproximationTable this
    | Some _ => this
    end in
  let table :=
    match linearApproxTable this with
    | Some t => t
    | None => []
    end in
  let maxBias := maxBiasOf table in
  let maxLAP :=
    ((inject_Z maxBias / inject_Z (Z.shiftl 1 (n - 1))) ^ 2)%Q in
  ({| lap_maxBias := maxBias; lap_maxLAP := maxLAP; lap_table := table |},
   this).

(** [buildDifferenceDistributionTable()]: the table it stores.  The
    operator [^] works on 32-bit integers, on which it is [Z.lxor]; the
    bytes of an S-box are such numbers. *)
Definition ddtOf (sb : list Z) : list (list Z) :=
  for_ 0 size
       (fun x1 table =>
          for_ 0 size
               (fun x2 table =>
                  let inputDiff := Z.lxor x1 x2 in
                  let outputDiff := Z.lxor (get sb x1) (get sb x2) in
                  incr2 table inputDiff outputDiff)
               table)
       (fill size (fill size 0)).

Definition buildDifferenceDistributionTable (this : SBoxAnalyzer)
  : SBoxAnalyzer :=
  with_differenceTable this (Some (ddtOf (sbox this))).

(** The object returned by [calculateDAP()]. *)
Record DAP : Type := mkDAP {
  dap_maxDifferential : Z;
  dap_maxDAP : Q;
  dap_table : list (list Z)
}.

Definition maxDiffOf (table : list (list Z)) : Z :=
  for_ 1 size
       (fun i maxDiff =>
          for_ 0 size
               (fun j maxDiff => Z.max maxDiff (get2 table i j))
               maxDiff)
       0.

Definition calculateDAP (this : SBoxAnalyzer) : DAP * SBoxAnalyzer :=
  let this :=
    match differenceTable this with
    | None => buildDifferenceDistributionTable this
    | Some _ => this
    end in
  let table :=
    match differenceTable this with
    | Some t => t
    | None => []
    end in
  let maxDiff := maxDiffOf table in
  ({| dap_maxDifferential := maxDiff;
      dap_maxDAP := (inject_Z maxDiff / inject_Z size)%Q;
      dap_table := table |}, this).

Definition calculateDifferentialUniformity (this : SBoxAnalyzer)
  : Z * SBoxAnalyzer :=
  let '(dap, this) := calculateDAP this in
  (dap_maxDifferential dap, this).

(** [computeANF(truthTable)], the in-place Moebius transform.  The
    operator [^] works on 32-bit integers, on which it is [Z.lxor]; the
    truth tables that [calculateBooleanFunctionDegree] passes hold 0 and
    1. *)
Definition computeANF (truthTable : list Z) : list Z :=
  for_ 0 n
       (fun i anf =>
          for_ 0 size
               (fun mask anf =>
                  if negb (Z.land (Z.shiftr mask i) 1 =? 0)
                  then set anf mask
                           (Z.lxor (get anf mask)
                                   (get anf (Z.lxor mask (Z.shiftl 1 i))))
                  else anf)
               anf)
       truthTable.

Definition calculateBooleanFunctionDegree (this : SBoxAnalyzer)
           (truthTable : list Z) : Z :=
  let anf := computeANF truthTable in
  for_ 0 size
       (fun term maxDegree =>
          if get anf term =? 1
          then let degree := get (hammingWeights this) term in
               Z.max maxDegree degree
          else maxDegree)
       0.

Definition calculateAlgebraicDegree (this : SBoxAnalyzer)
  : Z * SBoxAnalyzer :=
  for_ 0 n
       (fun bit '(maxDegree, this) =>
          let '(truthTable, this) := getBooleanFunction bit this in
          let degree := calculateBooleanFunctionDegree this truthTable in
          (Z.max maxDegree degree, this))
       (0, this).

(** [computeTransparencyOrderForMask]: the chi-squared statistic whose
    [Math.sqrt] the method returns.  The statistic is a sum of squares
    divided by 32, exact in binary floating point. *)
Definition chiSquaredForMask (this : SBoxAnalyzer)
           (inputBit1 inputBit2 outputMask : Z) : Q :=
  let contingencyTable :=
    for_ 0 size
         (fun x contingencyTable =>
            let bit1 := Z.land (Z.shiftr x inputBit1) 1 in
            let bit2 := Z.land (Z.shiftr x inputBit2) 1 in
            let index := Z.lor (Z.shiftl bit1 1) bit2 in
            let output := get (sbox this) x in
            let maskedOutput :=
              Z.land (get (hammingWeights this) (Z.land output outputMask)) 1 in
            incr2 contingencyTable index maskedOutput)
         (fill 4 (fill 256 0)) in
  let expected := (inject_Z size / 8)%Q in
  for_ 0 4
       (fun i chiSquared =>
          for_ 0 2
               (fun j chiSquared =>
                  let observed := get2 contingencyTable i j in
                  if Qle_bool expected 0 then chiSquared
                  else (chiSquared
                        + (inject_Z observed - expected) ^ 2 / expected)%Q)
               chiSquared)
       0%Q.

(** [calculateTransparencyOrder()], as the square of the value returned:
    the method takes the maximum of the square roots, which is the square
    root of the maximum since [Math.sqrt] is monotone. *)
Definition calculateTransparencyOrderSquared (this : SBoxAnalyzer) : Q :=
  for_ 0 n
       (fun i maxOrder =>
          for_ (i + 1) n
               (fun j maxOrder =>
                  for_ 1 size
                       (fun outputMask maxOrder =>
                          maxQ maxOrder (chiSquaredForMask this i j outputMask))
                       maxOrder)
               maxOrder)
       0%Q.

(** The inner loop of [calculateCorrelationImmunity], which stops at the
    first mask of the given weight whose Walsh coefficient is zero. *)
Definition hasZeroWalshAt (this : SBoxAnalyzer) (walsh : list Z) (weight : Z)
  : bool :=
  for_break 0 size
            (fun mask hasZeroWalsh =>
               if (get (hammingWeights this) mask =? weight)
                  && (get walsh mask =? 0)
               then (true, false)
               else (hasZeroWalsh, true))
            false.

(** The loop over the weights, which stops at the first weight without a
    zero coefficient. *)
Definition ciOfWalsh (this : SBoxAnalyzer) (walsh : list Z) : Z :=
  for_break 1 (n + 1)
            (fun weight ci =>
               if hasZeroWalshAt this walsh weight
               then (weight, true)
               else (ci, false))
            0.

Definition calculateCorrelationImmunity (this : SBoxAnalyzer)
  : Z * SBoxAnalyzer :=
  for_ 0 n
       (fun bit '(maxCI, this) =>
          let '(truthTable, this) := getBooleanFunction bit this in
          let walsh := walshHadamardTransform this truthTable in
          let ci := ciOfWalsh this walsh in
          (Z.max maxCI ci, this))
       (0, this).

(** [isBalanced()]. *)
Definition isBalanced (this : SBoxAnalyzer) : bool :=
  let counts :=
    for_of (sbox this) (fun value counts => incr counts value) (fill size 0) in
  forallb (fun count => count =? 1) counts.

(** [isBijection()]; the [Set] is the list of the distinct values. *)
Definition isBijection (this : SBoxAnalyzer) : bool :=
  let seen := nodup Z.eq_dec (sbox this) in
  Z.of_nat (length seen) =? size.

(** The object built by [runFullAnalysis()].  The [timestamp] field (the
    wall clock) is left out; the [error] field is written by the [catch]
    block only, which module [Throwing] has. *)
Record Results : Type := mkResults {
  res_size : Z;
  res_isBalanced : bool;
  res_isBijection : bool;
  res_nonlinearity : num;
  res_sac : SAC;
  res_differentialUniformity : Z;
  res_algebraicDegree : Z;
  res_lap : LAP;
  res_dap : DAP;
  res_bicNL : BIC_NL;
  res_bicSAC : BIC_SAC;
  res_correlationImmunity : Z;
  res_transparencyOrderSquared : Q
}.

(** [runFullAnalysis()], when nothing is thrown ([Throwing.runFullAnalysis]
    has the [try] and the [catch]): the evaluators in the order of the
    source, the analyzer (with its caches) handed from one to the next.
    [calculateTransparencyOrderAsync] resolves with the value of
    [calculateTransparencyOrder]. *)
Definition runFullAnalysis (this : SBoxAnalyzer) : Results * SBoxAnalyzer :=
  let balanced := isBalanced this in
  let bijection := isBijection this in
  let '(nonlinearity, this) := calculateNonlinearity this in
  let sac := calculateSAC this in
  let '(differentialUniformity, this) :=
    calculateDifferentialUniformity this in
  let '(algebraicDegree, this) := calculateAlgebraicDegree this in
  let '(lap, this) := calculateLAP this in
  let '(dap, this) := calculateDAP this in
  let '(bicNL, this) := calculateBIC_NL this in
  let bicSAC := calculateBIC_SAC this in
  let '(correlationImmunity, this) := calculateCorrelationImmunity this in
  let transparencyOrder := calculateTransparencyOrderSquared this in
  ({| res_size := size;
      res_isBalanced := balanced;
      res_isBijection := bijection;
      res_nonlinearity := nonlinearity;
      res_sac := sac;
      res_differentialUniformity := differentialUniformity;
      res_algebraicDegree := algebraicDegree;
      res_lap := lap;
      res_dap := dap;
      res_bicNL := bicNL;
      res_bicSAC := bicSAC;
      res_correlationImmunity := correlationImmunity;
      res_transparencyOrderSquared := transparencyOrder |}, this).

(** The object returned by [generateSummary(results)]. *)
Record Summary : Type := mkSummary {
  securityLevel : string;
  recommendations : list string;
  strengths : list string;
  weaknesses : list string
}.

(** A number inside a template literal. *)
Definition showZ (z : Z) : string := NilZero.string_of_int (Z.to_int z).

Definition showNum (x : num) : string :=
  match x with
  | Fin z => showZ z
  | Infinity => "Infinity"
  end.

(** The literal [0.1]: the double nearest to one tenth,
    3602879701896397 / 2^55. *)
Definition js_0_1 : Q := 3602879701896397 # 36028797018963968.

(** The four tests of [generateSummary], in the order of the source; each
    pushes onto [strengths] or onto [weaknesses]. *)
Definition generateSummary (results : Results) : Summary :=
  let strengths := [] in
  let weaknesses := [] in
  let '(strengths, weaknesses) :=
    if geb_num (res_nonlinearity results) 100
    then (strengths ++ ["High nonlinearity (≥100)"%string], weaknesses)
    else (strengths,
          weaknesses
            ++ [("Low nonlinearity (" ++ showNum (res_nonlinearity results)
                 ++ ")")%string]) in
  let '(strengths, weaknesses) :=
    if res_differentialUniformity results <=? 4
    then (strengths ++ ["Good differential uniformity (≤4)"%string],
          weaknesses)
    else (strengths,
          weaknesses
            ++ [("High differential uniformity ("
                 ++ showZ (res_differentialUniformity results)
                 ++ ")")%string]) in
  let '(strengths, weaknesses) :=
    if lap_maxBias (res_lap results) <=? 32
    then (strengths ++ ["Good linear resistance"%string], weaknesses)
    else (strengths,
          weaknesses ++ ["Vulnerable to linear cryptanalysis"%string]) in
  let '(strengths, weaknesses) :=
    if Qle_bool (sac_score (res_sac results)) js_0_1
    then (strengths ++ ["Satisfies SAC criterion"%string], weaknesses)
    else (strengths, weaknesses ++ ["Poor avalanche properties"%string]) in
  let level :=
    if Nat.eqb (length weaknesses) 0 then "High"%string
    else if Nat.leb (length weaknesses) 2 then "Medium"%string
    else "Low"%string in
  {| securityLevel := level;
     recommendations := [];
     strengths := strengths;
     weaknesses := weaknesses |}.

End Analyzer.

(** ** [analyzer.js]: what the analyzer can throw

    The constructor throws for an array that has not 256 entries
    ([Analyzer.constructor]).  The evaluators do arithmetic on numbers and
    index arrays.  Reading [arr[i]] in an array never throws; the one
    expression of the evaluators that can throw is an element access
    [t[i][j]] on a table of rows, which is a
    [TypeError] when [t] has no row [i] ([t[i]] is [undefined]) and when the
    table itself is still [null], as the two caches are before they are
    built.  The methods with such an access are given here once more, with
    that outcome, side by side with the [try] block of [runFullAnalysis]
    and its [catch]; every other evaluator is the one of [Analyzer], which
    has no expression that throws.  [Analyzer] also has the values of the
    methods below on the path on which nothing is thrown. *)
Module Throwing.
Import Analyzer.

(** "Cannot read properties of undefined" and the like. *)
Inductive Exception : Type :=
| TypeError.

(** What follows a computation that has not thrown. *)
Definition bind {A B : Type} (m : Exception + A) (k : A -> Exception + B)
  : Exception + B :=
  match m with
  | inl e => inl e
  | inr a => k a
  end.

Notation "x <- m ;; k" := (bind m (fun x => k))
  (at level 100, m at next level, right associativity).

(** [t[i]] on the way to [t[i][j]]: the row, or the [TypeError] of
    indexing [undefined]. *)
Definition row {A : Type} (t : list (list A)) (i : Z)
  : Exception + list A :=
  if 0 <=? i
  then match nth_error t (Z.to_nat i) with
       | Some r => inr r
       | None => inl TypeError
       end
  else inl TypeError.

(** [for (let i = lo; i < hi; i++) s = body(i, s)] with a body that may
    throw: the loop ends with the first throw. *)
Fixpoint for_list {S : Type} (l : list Z) (body : Z -> S -> Exception + S)
         (s : S) : Exception + S :=
  match l with
  | [] => inr s
  | i :: l' =>
      match body i s with
      | inl e => inl e
      | inr s' => for_list l' body s'
      end
  end.

Definition for_throwing {S : Type} (lo hi : Z)
           (body : Z -> S -> Exception + S) (s : S) : Exception + S :=
  for_list (zrange lo hi) body s.

(** [calculateSAC()]: [sacMatrix[inputBit][outputBit] = ...] and
    [sacMatrix[i][j]] need their rows. *)
Definition calculateSAC (this : SBoxAnalyzer) : Exception + SAC :=
  sacMatrix <-
    for_throwing
      0 n
      (fun inputBit sacMatrix =>
         for_throwing
           0 n
           (fun outputBit sacMatrix =>
              _ <- row sacMatrix inputBit ;;
              inr (set2 sacMatrix inputBit outputBit
                        (inject_Z (flipCount (sbox this) inputBit outputBit)
                         / inject_Z size)%Q))
           sacMatrix)
      (fill n (fill n 0%Q)) ;;
  sacScore <-
    for_throwing
      0 n
      (fun i sacScore =>
         for_throwing
           0 n
           (fun j sacScore =>
              r <- row sacMatrix i ;;
              inr (sacScore + Qabs (getQ r j - (1 # 2)))%Q)
           sacScore)
      0%Q ;;
  inr {| sac_matrix := sacMatrix;
         sac_score := (sacScore / inject_Z (n * n))%Q;
         sac_maxDeviation :=
           max_ofQ (map (fun x => Qabs (x - (1 # 2))%Q) (concat sacMatrix)) |}.

(** [buildLinearApproximationTable()]: the new table is stored, then
    [this.linearApproxTable[a][b] = ...] needs row [a]. *)
Definition buildLinearApproximationTable (this : SBoxAnalyzer)
  : Exception + SBoxAnalyzer :=
  table <-
    for_throwing
      0 size
      (fun a table =>
         for_throwing
           0 size
           (fun b table =>
              _ <- row table a ;;
              inr (set2 table a b
                        (latCount (hammingWeights this) (sbox this) a b
                         - size / 2)))
           table)
      (fill size (fill size 0)) ;;
  inr (with_linearApproxTable this (Some table)).

(** [calculateLAP()]: [this.linearApproxTable[a][b]] needs the table and
    its row [a]; with the table still [null] the first read, at [a = 0] and
    [b = 1], throws. *)
Definition calculateLAP (this : SBoxAnalyzer)
  : Exception + LAP * SBoxAnalyzer :=
  this <-
    match linearApproxTable this with
    | None => buildLinearApproximationTable this
    | Some _ => inr this
    end ;;
  match linearApproxTable this with
  | None => inl TypeError
  | Some table =>
      maxBias <-
        for_throwing
          0 size
          (fun a maxBias =>
             for_throwing
               0 size
               (fun b maxBias =>
                  if negb (a =? 0) || negb (b =? 0)
                  then r <- row table a ;;
                       inr (Z.max maxBias (Z.abs (get r b)))
                  else inr maxBias)
               maxBias)
          0 ;;
      let maxLAP :=
        ((inject_Z maxBias / inject_Z (Z.shiftl 1 (n - 1))) ^ 2)%Q in
      inr ({| lap_maxBias := maxBias; lap_maxLAP := maxLAP;
              lap_table := table |}, this)
  end.

(** [buildDifferenceDistributionTable()]:
    [this.differenceTable[inputDiff][outputDiff]++] needs row
    [inputDiff]. *)
Definition buildDifferenceDistributionTable (this : SBoxAnalyzer)
  : Exception + SBoxAnalyzer :=
  table <-
    for_throwing
      0 size
      (fun x1 table =>
         for_throwing
           0 size
           (fun x2 table =>
              let inputDiff := Z.lxor x1 x2 in
              let outputDiff :=
                Z.lxor (get (sbox this) x1) (get (sbox this) x2) in
              _ <- row table inputDiff ;;
              inr (incr2 table inputDiff outputDiff))
           table)
      (fill size (fill size 0)) ;;
  inr (with_differenceTable this (Some table)).

(** [calculateDAP()]: [this.differenceTable[i][j]] needs the table and its
    row [i]. *)
Definition calculateDAP (this : SBoxAnalyzer)
  : Exception + DAP * SBoxAnalyzer :=
  this <-
    match differenceTable this with
    | None => buildDifferenceDistributionTable this
    | Some _ => inr this
    end ;;
  match differenceTable this with
  | None => inl TypeError
  | Some table =>
      maxDiff <-
        for_throwing
          1 size
          (fun i maxDiff =>
             for_throwing
               0 size
               (fun j maxDiff =>
                  r <- row table i ;;
                  inr (Z.max maxDiff (get r j)))
               maxDiff)
          0 ;;
      inr ({| dap_maxDifferential := maxDiff;
              dap_maxDAP := (inject_Z maxDiff / inject_Z size)%Q;
              dap_table := table |}, this)
  end.

Definition calculateDifferentialUniformity (this : SBoxAnalyzer)
  : Exception + Z * SBoxAnalyzer :=
  r <- calculateDAP this ;;
  let '(dap, this) := r in
  inr (dap_maxDifferential dap, this).

(** [computeTransparencyOrderForMask], as in [Analyzer] the statistic
    before [Math.sqrt]: [contingencyTable[index][maskedOutput]++] and
    [contingencyTable[i][j]] need their rows. *)
Definition chiSquaredForMask (this : SBoxAnalyzer)
           (inputBit1 inputBit2 outputMask : Z) : Exception + Q :=
  contingencyTable <-
    for_throwing
      0 size
      (fun x contingencyTable =>
         let bit1 := Z.land (Z.shiftr x inputBit1) 1 in
         let bit2 := Z.land (Z.shiftr x inputBit2) 1 in
         let index := Z.lor (Z.shiftl bit1 1) bit2 in
         let output := get (sbox this) x in
         let maskedOutput :=
           Z.land (get (hammingWeights this) (Z.land output outputMask)) 1 in
         _ <- row contingencyTable index ;;
         inr (incr2 contingencyTable index maskedOutput))
      (fill 4 (fill 256 0)) ;;
  let expected := (inject_Z size / 8)%Q in
  for_throwing
    0 4
    (fun i chiSquared =>
       for_throwing
         0 2
         (fun j chiSquared =>
            r <- row contingencyTable i ;;
            let observed := get r j in
            inr (if Qle_bool expected 0 then chiSquared
                 else (chiSquared
                       + (inject_Z observed - expected) ^ 2 / expected)%Q))
         chiSquared)
    0%Q.

Definition calculateTransparencyOrderSquared (this : SBoxAnalyzer)
  : Exception + Q :=
  for_throwing
    0 n
    (fun i maxOrder =>
       for_throwing
         (i + 1) n
         (fun j maxOrder =>
            for_throwing
              1 size
              (fun outputMask maxOrder =>
                 order <- chiSquaredForMask this i j outputMask ;;
                 inr (maxQ maxOrder order))
              maxOrder)
         maxOrder)
    0%Q.

(** [calculateTransparencyOrderAsync()] has a [try] of its own: the promise
    is resolved with the value, or with [null] ([None]) after a throw. *)
Definition calculateTransparencyOrderAsync (this : SBoxAnalyzer) : option Q :=
  match calculateTransparencyOrderSquared this return option Q with
  | inl _ => None
  | inr transparencyOrder => Some transparencyOrder
  end.

(** The fields of the object [results], each named by its constructor;
    [Error] is the field that the [catch] block writes.  The [timestamp]
    is left out, as in [Results]. *)
Inductive Field : Type :=
| SBoxProperties (size : Z) (isBalanced isBijection : bool)
| Nonlinearity (v : num)
| Sac (v : SAC)
| DifferentialUniformity (v : Z)
| AlgebraicDegree (v : Z)
| Lap (v : LAP)
| Dap (v : DAP)
| BicNL (v : BIC_NL)
| BicSAC (v : BIC_SAC)
| CorrelationImmunity (v : Z)
| TransparencyOrder (v : option Q)
| Error (e : Exception).

(** One assignment [results.field = evaluator()] of the [try] block: after
    a throw the [catch] block adds the [error] field and nothing else of the
    block runs. *)
Definition assign {A : Type} (value : Exception + A * SBoxAnalyzer)
           (field : A -> Field) (results : list Field)
           (rest : list Field -> SBoxAnalyzer -> list Field) : list Field :=
  match value with
  | inl e => results ++ [Error e]
  | inr (v, this) => rest (results ++ [field v]) this
  end.

(** [runFullAnalysis()]: the object [results] it returns, as the list of
    its fields in the order in which they are assigned. *)
Definition runFullAnalysis (this : SBoxAnalyzer) : list Field :=
  let results :=
    [SBoxProperties size (isBalanced this) (isBijection this)] in
  assign (inr (calculateNonlinearity this)) Nonlinearity results
  (fun results this =>
  assign (sac <- calculateSAC this ;; inr (sac, this)) Sac results
  (fun results this =>
  assign (calculateDifferentialUniformity this) DifferentialUniformity results
  (fun results this =>
  assign (inr (calculateAlgebraicDegree this)) AlgebraicDegree results
  (fun results this =>
  assign (calculateLAP this) Lap results
  (fun results this =>
  assign (calculateDAP this) Dap results
  (fun results this =>
  assign (inr (calculateBIC_NL this)) BicNL results
  (fun results this =>
  assign (inr (calculateBIC_SAC this, this)) BicSAC results
  (fun results this =>
  assign (inr (calculateCorrelationImmunity this)) CorrelationImmunity results
  (fun results this =>
  assign (inr (calculateTransparencyOrderAsync this, this)) TransparencyOrder
         results
  (fun results _ => results)))))))))).

(** The object [results] of a run in which nothing was thrown, from the
    values of its fields. *)
Definition complete (results : Results) : list Field :=
  [SBoxProperties (res_size results) (res_isBalanced results)
                  (res_isBijection results);
   Nonlinearity (res_nonlinearity results);
   Sac (res_sac results);
   DifferentialUniformity (res_differentialUniformity results);
   AlgebraicDegree (res_algebraicDegree results);
   Lap (res_lap results);
   Dap (res_dap results);
   BicNL (res_bicNL results);
   BicSAC (res_bicSAC results);
   CorrelationImmunity (res_correlationImmunity results);
   TransparencyOrder (Some (res_transparencyOrderSquared results))].

End Throwing.

(** ** [script.js]: the S-box handling of class [SBoxDashboard] *)
Module Dashboard.
Import Analyzer.

(** The loop of [validateSBoxValues] over the values, with the set [seen].
    Values are integers here, so [Number.isInteger] holds. *)
Fixpoint checkValues (values : list Z) (i : Z) (seen : list Z)
  : Error + list Z :=
  match values with
  | [] => inr seen
  | val :: rest =>
      if (val <? 0) || (255 <? val) then inl (InvalidSBoxValue i val)
      else if existsb (Z.eqb val) seen then inl (DuplicateValue val i)
      else checkValues rest (i + 1) (val :: seen)
  end.

(** [validateSBoxValues(values)]: returns normally ([inr tt]) or throws. *)
Definition validateSBoxValues (values : list Z) : Error + unit :=
  if negb (Z.of_nat (length values) =? 256)
  then inl (InvalidSBoxLength (Z.of_nat (length values)))
  else
    match checkValues values 0 [] with
    | inl e => inl e
    | inr seen =>
        let missingValues :=
          for_ 0 256
               (fun i missingValues =>
                  if negb (existsb (Z.eqb i) seen)
                  then missingValues ++ [i] else missingValues)
               [] in
        if (0 <? Z.of_nat (length missingValues))%Z
        then inl (MissingValues missingValues)
        else inr tt
    end.

(** The table in [loadStandardAESSBox()], as the source has it. *)
Definition standardSBox : list Z :=
  [0x63; 0x7c; 0x77; 0x7b; 0xf2; 0x6b; 0x6f; 0xc5; 0x30; 0x01; 0x67; 0x2b; 0xfe; 0xd7; 0xab; 0x76;
   0xca; 0x82; 0xc9; 0x7d; 0xfa; 0x59; 0x47; 0xf0; 0xad; 0xd4; 0xa2; 0xaf; 0x9c; 0xa4; 0x72; 0xc0;
   0xb7; 0xfd; 0x93; 0x26; 0x36; 0x3f; 0xf7; 0xcc; 0x34; 0xa5; 0xe5; 0xf1; 0x71; 0xd8; 0x31; 0x15;
   0x04; 0xc7; 0x23; 0xc3; 0x18; 0x96; 0x05; 0x9a; 0x07; 0x12; 0x80; 0xe2; 0xeb; 0x27; 0xb2; 0x75;
   0x09; 0x83; 0x2c; 0x1a; 0x1b; 0x6e; 0x5a; 0xa0; 0x52; 0x3b; 0xd6; 0xb3; 0x29; 0xe3; 0x2f; 0x84;
   0x53; 0xd1; 0x00; 0xed; 0x20; 0xfc; 0xb1; 0x5b; 0x6a; 0xcb; 0xbe; 0x39; 0x4a; 0x4c; 0x58; 0xcf;
   0xd0; 0xef; 0xaa; 0xfb; 0x43; 0x4d; 0x33; 0x67; 0x85; 0x45; 0xf9; 0x02; 0x7f; 0x50; 0x3c; 0x9f;
   0xa8; 0x51; 0xa3; 0x40; 0x8f; 0x92; 0x9d; 0x38; 0xf5; 0xbc; 0xb6; 0xda; 0x21; 0x10; 0xff; 0xf3;
   0xd2; 0xcd; 0x0c; 0x13; 0xec; 0x5f; 0x97; 0x44; 0x17; 0xc4; 0xa7; 0x7e; 0x3d; 0x64; 0x5d; 0x19;
   0x73; 0x60; 0x81; 0x4f; 0xdc; 0x22; 0x2a; 0x90; 0x88; 0x46; 0xee; 0xb8; 0x14; 0xde; 0x5e; 0x0b;
   0xdb; 0xe0; 0x32; 0x3a; 0x0a; 0x49; 0x06; 0x24; 0x5c; 0xc2; 0xd3; 0xac; 0x62; 0x91; 0x95; 0xe4;
   0x79; 0xe7; 0xc8; 0x37; 0x6d; 0x8d; 0xd5; 0x4e; 0xa9; 0x6c; 0x56; 0xf4; 0xea; 0x65; 0x7a; 0xae;
   0x08; 0xba; 0x78; 0x25; 0x2e; 0x1c; 0xa6; 0xb4; 0xc6; 0xe8; 0xdd; 0x74; 0x1f; 0x4b; 0xbd; 0x8b;
   0x8a; 0x70; 0x3e; 0xb5; 0x66; 0x48; 0x03; 0xf6; 0x0e; 0x61; 0x35; 0x57; 0xb9; 0x86; 0xc1; 0x1d;
   0x9e; 0xe1; 0xf8; 0x98; 0x11; 0x69; 0xd9; 0x8e; 0x94; 0x9b; 0x1e; 0x87; 0xe9; 0xce; 0x55; 0x28;
   0xdf; 0x8c; 0xa1; 0x89; 0x0d; 0xbf; 0xe6; 0x42; 0x68; 0x41; 0x99; 0x2d; 0x0f; 0xb0; 0x54; 0xbb].

(** [runAnalysis()] with an S-box loaded: construct the analyzer, run the
    full analysis, summarise; a throw of the constructor is caught and
    reported as 'Analysis failed', and nothing is displayed or stored. *)
Definition runAnalysis (currentSBox : list Z) : Error + Results * Summary :=
  match constructor currentSBox with
  | inl e => inl e
  | inr analyzer =>
      let '(results, analyzer) := runFullAnalysis analyzer in
      let summary := generateSummary results in
      inr (results, summary)
  end.

(** [[arr[i], arr[j]] = [arr[j], arr[i]]]: both reads come before both
    writes. *)
Definition swap (arr : list Z) (i j : Z) : list Z :=
  let vj := get arr j in
  let vi := get arr i in
  set (set arr i vj) j vi.

(** [generateRandomSBox()]: the array it stores as the current S-box.
    [draw i] is the value of [Math.floor(Math.random() * (i + 1))] in the
    round of counter [i]; [Math.random()] lies in [0, 1), so that the draw
    lies in [0 .. i]. *)
Definition generateRandomSBox (draw : Z -> Z) : list Z :=
  let sbox := zrange 0 256 in
  for_down (Z.of_nat (length sbox) - 1) 0
           (fun i sbox => let j := draw i in swap sbox i j)
           sbox.

(** The loop of [isValidPermutation()]: [None] is the early [return false],
    [Some seen] the set at the end of the loop. *)
Fixpoint collectDistinct (values seen : list Z) : option (list Z) :=
  match values with
  | [] => Some seen
  | value :: rest =>
      if existsb (Z.eqb value) seen then None
      else collectDistinct rest (value :: seen)
  end.

(** [isValidPermutation()]; [currentSBox] is [None] when no S-box is
    loaded. *)
Definition isValidPermutation (currentSBox : option (list Z)) : bool :=
  match currentSBox with
  | None => false
  | Some sb =>
      if negb (Z.of_nat (length sb) =? 256) then false
      else match collectDistinct sb [] with
           | None => false
           | Some seen => Z.of_nat (length seen) =? 256
           end
  end.

(** The object returned by [getStatistics()] with an S-box loaded. *)
Record Statistics : Type := mkStatistics {
  stat_size : Z;
  stat_min : num;
  stat_max : lower;
  stat_isPermutation : bool;
  stat_uniqueValues : Z;
  stat_duplicates : Z
}.

Definition getStatistics (currentSBox : option (list Z)) : option Statistics :=
  match currentSBox with
  | None => None
  | Some sbox =>
      Some {| stat_size := Z.of_nat (length sbox);
              stat_min := min_of sbox;
              stat_max := max_of sbox;
              stat_isPermutation := isValidPermutation currentSBox;
              stat_uniqueValues := Z.of_nat (length (nodup Z.eq_dec sbox));
              stat_duplicates :=
                Z.of_nat (length sbox)
                - Z.of_nat (length (nodup Z.eq_dec sbox)) |}
  end.

(** [parseValue(value)] for a string [value], as the cells of a CSV file
    are ([typeof value === 'number'] holds for cells of a spreadsheet only);
    [None] is [null]. *)
Definition parseValue (value : list Z) : option Z :=
  let str := trim value in
  if (Z.of_nat (length str) =? 0) then None
  else if startsWith (toLowerCase str) (lit "0x") then parseInt str 16
  else if forallb (fun c => digitOf c <? 16) str
          && (Z.of_nat (length str) <=? 2)
  then parseInt str 16
  else parseInt str 10.

(** What the promise of [parseCSVFile] is rejected with: 'Expected 256
    values, found n', or the error of [validateSBoxValues]. *)
Inductive FileError : Type :=
| ExpectedValues (found : Z)
| Rejected (e : Error).

(** [parseCSVFile(file)] for a file whose text was read: the promise is
    resolved ([inr]) or rejected ([inl]). *)
Definition parseCSVFile (text : list Z) : FileError + list Z :=
  let lines := splitLines text in
  let values :=
    for_of lines
           (fun line values =>
              if 0 <? Z.of_nat (length (trim line))
              then
                let rowValues := map trim (splitChar (code ",") line) in
                for_of rowValues
                       (fun val values =>
                          if 0 <? Z.of_nat (length val)
                          then match parseValue val with
                               | Some num => values ++ [num]
                               | None => values
                               end
                          else values)
                       values
              else values)
           [] in
  if negb (Z.of_nat (length values) =? 256)
  then inl (ExpectedValues (Z.of_nat (length values)))
  else
    match validateSBoxValues values with
    | inl e => inl (Rejected e)
    | inr _ => inr values
    end.

(** The formats of [exportSBox] whose content is a function of the S-box
    ('json' adds the time of the export). *)
Inductive Format : Type :=
| CSV
| HEX.

(** [val.toString(16).padStart(2, '0').toUpperCase()]. *)
Definition hexByte (val : Z) : list Z :=
  toUpperCase (padStart (toString16 val) 2 (code "0")).

(** [exportSBox(format)] with an S-box of 256 entries loaded: the content
    of the file that is downloaded. *)
Definition exportSBox (format : Format) (currentSBox : list Z) : list Z :=
  match format with
  | CSV =>
      for_ 0 16
           (fun row content =>
              let rowData :=
                for_ 0 16
                     (fun col rowData =>
                        let index := row * 16 + col in
                        rowData ++ [hexByte (get currentSBox index)])
                     [] in
              content ++ join (lit ",") rowData ++ [10])
           []
  | HEX => join (lit " ") (map hexByte currentSBox)
  end.

End Dashboard.

(** ** [script.js]: the inputs of class [AESSimulationController] *)
Module Simulation.

(** [textToHex(text)]: the UTF-8 bytes of the text, cut or padded with
    zeros to 16 bytes, each as two hexadecimal digits. *)
Definition textToHex (text : list Z) : list Z :=
  let bytes := encode text in
  let bytes :=
    if 16 <? Z.of_nat (length bytes) then firstn 16 bytes
    else bytes ++ repeat 0 (16 - length bytes) in
  join (lit " ") (map (fun b => padStart (toString16 b) 2 (code "0")) bytes).

(** What [parseHexString] throws: 'Must provide exactly 16 hex bytes' or
    'Invalid hex byte: b'. *)
Inductive HexError : Type :=
| WrongByteCount
| InvalidHexByte (b : list Z).

(** The [map] of [parseHexString], which throws at the first byte that
    does not parse or is out of range. *)
Fixpoint parseBytes (bytes : list (list Z)) : HexError + list Z :=
  match bytes with
  | [] => inr []
  | b :: rest =>
      match parseInt b 16 with
      | None => inl (InvalidHexByte b)
      | Some parsed =>
          if (parsed <? 0) || (255 <? parsed) then inl (InvalidHexByte b)
          else match parseBytes rest with
               | inl e => inl e
               | inr parsedRest => inr (parsed :: parsedRest)
               end
      end
  end.

(** [parseHexString(hexString)] for a string: [inr None] is [null], [inl]
    a throw. *)
Definition parseHexString (hexString : list Z) : HexError + option (list Z) :=
  if Z.of_nat (length hexString) =? 0 then inr None
  else
    let value := trim hexString in
    if Z.of_nat (length value) =? 0 then inr None
    else
      let bytes :=
        filter (fun b => 0 <? Z.of_nat (length b)) (splitSpaces false value) in
      if negb (Z.of_nat (length bytes) =? 16) then inl WrongByteCount
      else
        match parseBytes bytes with
        | inl e => inl e
        | inr parsed => inr (Some parsed)
        end.

End Simulation.

(** ** Section 4.8 of the specification: the AES-128 core

    The block cipher lives in [aes-visualizer.js], which is not among the
    sources at hand; [script.js] only calls it.  The definitions of this
    module follow the words of the specification. *)
Module AES.
Import Analyzer.

(** Modelled from the spec: the error kinds of [encrypt_block] and
    [decrypt_block] ([aes-visualizer.js] is missing). *)
Inductive BlockError : Type :=
| BadSBoxLength
| SBoxNotAPermutation
| InvalidBlockLength.

(** Modelled from the spec: [AESState], a 4x4 byte matrix in column-major
    order, as the list of its four columns; column [c] holds
    [state[0][c] .. state[3][c]] ([aes-visualizer.js] is missing). *)
Definition AESState : Type := list (list Z).

Definition at_ (state : AESState) (r c : nat) : Z :=
  nth r (nth c state []) 0.

(** Modelled from the spec: the byte sequence loaded column-major, byte [k]
    at row [k mod 4], column [k / 4], and read back in the same order
    ([aes-visualizer.js] is missing). *)
Definition load (bytes : list Z) : AESState :=
  map (fun c => map (fun r => nth (r + 4 * c) bytes 0) (seq 0 4)) (seq 0 4).

Definition unload (state : AESState) : list Z := concat state.

(** Modelled from the spec: [xtime(b) = (b<<1) xor (0x1B if high bit of b
    else 0)], on bytes: the bit shifted out of the byte is dropped
    ([aes-visualizer.js] is missing). *)
Definition xtime (b : Z) : Z :=
  Z.land (Z.lxor (Z.shiftl b 1) (if Z.testbit b 7 then 0x1B else 0)) 0xFF.

(** Modelled from the spec: [mul(b, c)], the standard double-and-add over
    the eight bits of [c] ([aes-visualizer.js] is missing). *)
Fixpoint mul_loop (k : nat) (b c p : Z) : Z :=
  match k with
  | O => p
  | S k' =>
      mul_loop k' (xtime b) (Z.shiftr c 1)
               (if Z.testbit c 0 then Z.lxor p b else p)
  end.

Definition mul (b c : Z) : Z := mul_loop 8 b c 0.

(** Modelled from the spec: [AddRoundKey(state, rk)]:
    [state[i][j] xor= rk[i][j]] ([aes-visualizer.js] is missing). *)
Definition xorWord (u v : list Z) : list Z :=
  map (fun '(x, y) => Z.lxor x y) (combine u v).

Definition AddRoundKey (state rk : AESState) : AESState :=
  map (fun '(col, k) => xorWord col k) (combine state rk).

(** Modelled from the spec: [SubBytes(state, sbox)]:
    [state[i][j] := sbox[state[i][j]]] ([aes-visualizer.js] is missing). *)
Definition SubWord (sb : list Z) (w : list Z) : list Z := map (get sb) w.

Definition SubBytes (sb : list Z) (state : AESState) : AESState :=
  map (SubWord sb) state.

(** Modelled from the spec: [ShiftRows(state)]: row [r] cyclically
    left-shifted by [r]; its inverse shifts right
    ([aes-visualizer.js] is missing). *)
Definition ShiftRows (state : AESState) : AESState :=
  map (fun c => map (fun r => at_ state r ((c + r) mod 4)) (seq 0 4))
      (seq 0 4).

Definition InvShiftRows (state : AESState) : AESState :=
  map (fun c => map (fun r => at_ state r ((c + 4 - r) mod 4)) (seq 0 4))
      (seq 0 4).

(** Modelled from the spec: [MixColumns(state)]: each column multiplied by
    the fixed MDS matrix over GF(2^8); the inverse uses the matrix
    [[0e,0b,0d,09],[09,0e,0b,0d],[0d,09,0e,0b],[0b,0d,09,0e]]
    ([aes-visualizer.js] is missing). *)
Definition mdsMatrix : list (list Z) :=
  [[2; 3; 1; 1]; [1; 2; 3; 1]; [1; 1; 2; 3]; [3; 1; 1; 2]].

Definition invMdsMatrix : list (list Z) :=
  [[0x0e; 0x0b; 0x0d; 0x09]; [0x09; 0x0e; 0x0b; 0x0d];
   [0x0d; 0x09; 0x0e; 0x0b]; [0x0b; 0x0d; 0x09; 0x0e]].

Definition dot (row col : list Z) : Z :=
  fold_left Z.lxor (map (fun '(m, b) => mul b m) (combine row col)) 0.

Definition mulMatrix (m : list (list Z)) (col : list Z) : list Z :=
  map (fun row => dot row col) m.

Definition MixColumns (state : AESState) : AESState :=
  map (mulMatrix mdsMatrix) state.

Definition InvMixColumns (state : AESState) : AESState :=
  map (mulMatrix invMdsMatrix) state.

(** Modelled from the spec: the inverse S-box, derived by inverting the
    permutation: [inv[sbox[i]] = i] ([aes-visualizer.js] is missing). *)
Definition invertSBox (sb : list Z) : list Z :=
  for_ 0 256 (fun i inv => set inv (get sb i) i) (fill 256 0).

(** Modelled from the spec: [KeyExpansion(key, sbox)]: 44 words of four
    bytes; [Rcon[k] = (rc_k, 0, 0, 0)] with [rc_1 = 1] and
    [rc_(k+1) = xtime(rc_k)]; [RotWord] rotates left by one byte
    ([aes-visualizer.js] is missing). *)
Definition RotWord (w : list Z) : list Z :=
  match w with
  | [] => []
  | b :: rest => rest ++ [b]
  end.

Fixpoint rc (k : nat) : Z :=
  match k with
  | O => 0
  | S O => 1
  | S k' => xtime (rc k')
  end.

Definition Rcon (k : nat) : list Z := [rc k; 0; 0; 0].

Definition nextWord (sb : list Z) (w : list (list Z)) (i : nat) : list Z :=
  let prev := nth (i - 1) w [] in
  let back := nth (i - 4) w [] in
  if Nat.eqb (i mod 4) 0
  then xorWord (xorWord back (SubWord sb (RotWord prev))) (Rcon (i / 4))
  else xorWord back prev.

Fixpoint expandWords (sb : list Z) (count : nat) (w : list (list Z))
  : list (list Z) :=
  match count with
  | O => w
  | S count' => expandWords sb count' (w ++ [nextWord sb w (length w)])
  end.

Definition words (key sb : list Z) : list (list Z) :=
  expandWords sb 40 (load key).

(** Round key [r]: the words [4r .. 4r+3] as the four columns. *)
Definition roundKey (w : list (list Z)) (r : nat) : AESState :=
  firstn 4 (skipn (4 * r) w).

Definition KeyExpansion (key sb : list Z) : list AESState :=
  map (roundKey (words key sb)) (seq 0 11).

(** Modelled from the spec: the forward cipher: AddRoundKey(rk0); for
    r = 1..9 SubBytes, ShiftRows, MixColumns, AddRoundKey(rk_r); then
    SubBytes, ShiftRows, AddRoundKey(rk10) ([aes-visualizer.js] is
    missing). *)
Definition encRound (sb : list Z) (state rk : AESState) : AESState :=
  AddRoundKey (MixColumns (ShiftRows (SubBytes sb state))) rk.

Definition cipher (sb : list Z) (rks : list AESState) (state : AESState)
  : AESState :=
  let rk r := nth r rks [] in
  let state := AddRoundKey state (rk 0%nat) in
  let state :=
    fold_left (fun st r => encRound sb st (rk r)) (seq 1 9) state in
  AddRoundKey (ShiftRows (SubBytes sb state)) (rk 10%nat).

(** Modelled from the spec: the inverse cipher: AddRoundKey(rk10); for
    r = 9..1 InvShiftRows, InvSubBytes, AddRoundKey(rk_r), InvMixColumns;
    then InvShiftRows, InvSubBytes, AddRoundKey(rk0)
    ([aes-visualizer.js] is missing). *)
Definition decRound (inv : list Z) (state rk : AESState) : AESState :=
  InvMixColumns (AddRoundKey (SubBytes inv (InvShiftRows state)) rk).

Definition invCipher (inv : list Z) (rks : list AESState) (state : AESState)
  : AESState :=
  let rk r := nth r rks [] in
  let state := AddRoundKey state (rk 10%nat) in
  let state :=
    fold_left (fun st r => decRound inv st (rk r)) (rev (seq 1 9)) state in
  AddRoundKey (SubBytes inv (InvShiftRows state)) (rk 0%nat).

(** The S-box test shared by both operations: 256 entries that are a
    permutation of the bytes. *)
Definition isPermutation256 (sb : list Z) : bool :=
  forallb (fun v => existsb (Z.eqb v) sb) (zrange 0 256).

Definition checkInputs (block key sb : list Z) : option BlockError :=
  if negb (Nat.eqb (length sb) 256) then Some BadSBoxLength
  else if negb (isPermutation256 sb) then Some SBoxNotAPermutation
  else if negb (Nat.eqb (length block) 16 && Nat.eqb (length key) 16)
       then Some InvalidBlockLength
  else None.

(** Modelled from the spec: [encrypt_block(plaintext, key, sbox)] and
    [decrypt_block(ciphertext, key, sbox)], which return the terminal
    16-byte state or fail with [InvalidSBoxLength], [NotAPermutation] or
    [InvalidBlockLength] ([aes-visualizer.js] is missing). *)
Definition encrypt_block (plaintext key sb : list Z) : BlockError + list Z :=
  match checkInputs plaintext key sb with
  | Some e => inl e
  | None => inr (unload (cipher sb (KeyExpansion key sb) (load plaintext)))
  end.

Definition decrypt_block (ciphertext key sb : list Z) : BlockError + list Z :=
  match checkInputs ciphertext key sb with
  | Some e => inl e
  | None =>
      inr (unload (invCipher (invertSBox sb) (KeyExpansion key sb)
                             (load ciphertext)))
  end.

(** Words of four bytes and states of four such words. *)
Definition wfWord (w : list Z) : Prop :=
  length w = 4%nat /\ forall b, In b w -> 0 <= b < 256.

Definition wfState (state : AESState) : Prop :=
  length state = 4%nat /\ forall w, In w state -> wfWord w.

End AES.

(** ** The S-boxes the scenarios of the specification name *)
Module Inputs.

(** The identity permutation [S[i] = i]. *)
Definition identitySBox : list Z := zrange 0 256.

(** The identity with the images of 0 and 255 exchanged. *)
Definition swappedSBox : list Z := [255] ++ zrange 1 255 ++ [0].

(** The identity with [S[42] = 7]: 7 occurs twice, 42 is missing. *)
Definition duplicateSBox : list Z := zrange 0 42 ++ [7] ++ zrange 43 256.

(** The AES S-box of FIPS-197, Figure 7. *)
Definition fipsSBox : list Z :=
  [0x63; 0x7c; 0x77; 0x7b; 0xf2; 0x6b; 0x6f; 0xc5; 0x30; 0x01; 0x67; 0x2b; 0xfe; 0xd7; 0xab; 0x76;
   0xca; 0x82; 0xc9; 0x7d; 0xfa; 0x59; 0x47; 0xf0; 0xad; 0xd4; 0xa2; 0xaf; 0x9c; 0xa4; 0x72; 0xc0;
   0xb7; 0xfd; 0x93; 0x26; 0x36; 0x3f; 0xf7; 0xcc; 0x34; 0xa5; 0xe5; 0xf1; 0x71; 0xd8; 0x31; 0x15;
   0x04; 0xc7; 0x23; 0xc3; 0x18; 0x96; 0x05; 0x9a; 0x07; 0x12; 0x80; 0xe2; 0xeb; 0x27; 0xb2; 0x75;
   0x09; 0x83; 0x2c; 0x1a; 0x1b; 0x6e; 0x5a; 0xa0; 0x52; 0x3b; 0xd6; 0xb3; 0x29; 0xe3; 0x2f; 0x84;
   0x53; 0xd1; 0x00; 0xed; 0x20; 0xfc; 0xb1; 0x5b; 0x6a; 0xcb; 0xbe; 0x39; 0x4a; 0x4c; 0x58; 0xcf;
   0xd0; 0xef; 0xaa; 0xfb; 0x43; 0x4d; 0x33; 0x85; 0x45; 0xf9; 0x02; 0x7f; 0x50; 0x3c; 0x9f; 0xa8;
   0x51; 0xa3; 0x40; 0x8f; 0x92; 0x9d; 0x38; 0xf5; 0xbc; 0xb6; 0xda; 0x21; 0x10; 0xff; 0xf3; 0xd2;
   0xcd; 0x0c; 0x13; 0xec; 0x5f; 0x97; 0x44; 0x17; 0xc4; 0xa7; 0x7e; 0x3d; 0x64; 0x5d; 0x19; 0x73;
   0x60; 0x81; 0x4f; 0xdc; 0x22; 0x2a; 0x90; 0x88; 0x46; 0xee; 0xb8; 0x14; 0xde; 0x5e; 0x0b; 0xdb;
   0xe0; 0x32; 0x3a; 0x0a; 0x49; 0x06; 0x24; 0x5c; 0xc2; 0xd3; 0xac; 0x62; 0x91; 0x95; 0xe4; 0x79;
   0xe7; 0xc8; 0x37; 0x6d; 0x8d; 0xd5; 0x4e; 0xa9; 0x6c; 0x56; 0xf4; 0xea; 0x65; 0x7a; 0xae; 0x08;
   0xba; 0x78; 0x25; 0x2e; 0x1c; 0xa6; 0xb4; 0xc6; 0xe8; 0xdd; 0x74; 0x1f; 0x4b; 0xbd; 0x8b; 0x8a;
   0x70; 0x3e; 0xb5; 0x66; 0x48; 0x03; 0xf6; 0x0e; 0x61; 0x35; 0x57; 0xb9; 0x86; 0xc1; 0x1d; 0x9e;
   0xe1; 0xf8; 0x98; 0x11; 0x69; 0xd9; 0x8e; 0x94; 0x9b; 0x1e; 0x87; 0xe9; 0xce; 0x55; 0x28; 0xdf;
   0x8c; 0xa1; 0x89; 0x0d; 0xbf; 0xe6; 0x42; 0x68; 0x41; 0x99; 0x2d; 0x0f; 0xb0; 0x54; 0xbb; 0x16].

(** The block and the key of FIPS-197, Appendix B, and its ciphertext. *)
Definition fipsPlaintext : list Z :=
  [0x32; 0x43; 0xf6; 0xa8; 0x88; 0x5a; 0x30; 0x8d;
   0x31; 0x31; 0x98; 0xa2; 0xe0; 0x37; 0x07; 0x34].

Definition fipsKey : list Z :=
  [0x2b; 0x7e; 0x15; 0x16; 0x28; 0xae; 0xd2; 0xa6;
   0xab; 0xf7; 0x15; 0x88; 0x09; 0xcf; 0x4f; 0x3c].

Definition fipsCiphertext : list Z :=
  [0x39; 0x25; 0x84; 0x1d; 0x02; 0xdc; 0x09; 0xfb;
   0xdc; 0x11; 0x85; 0x97; 0x19; 0x6a; 0x0b; 0x32].

End Inputs.

(** ** Closed forms of the loops, used to state and to prove the properties *)
Module Kernel.
Import Analyzer.

(** Sum of [f] over a list. *)
Fixpoint zsum {A : Type} (f : A -> Z) (l : list A) : Z :=
  match l with
  | [] => 0
  | x :: r => f x + zsum f r
  end.

Definition b2z (b : bool) : Z := if b then 1 else 0.

(** The permutations of the 256 bytes. *)
Definition permutation256 (sb : list Z) : Prop :=
  Permutation sb (zrange 0 256).

(** Parity of the number of one bits. *)
Fixpoint pparity (p : positive) : bool :=
  match p with
  | xH => true
  | xO q => pparity q
  | xI q => negb (pparity q)
  end.

Definition parity (v : Z) : Z :=
  match v with
  | Zpos p => b2z (pparity p)
  | _ => 0
  end.

(** The Walsh coefficient of a truth table at mask [w]. *)
Definition walshSum (xs : list (Z * Z)) (w : Z) : Z :=
  zsum (fun '(x, t) => Z.pow (-1) (Z.lxor t (parity (Z.land x w)))) xs.

Definition walshAt (truthTable : list Z) (w : Z) : Z :=
  walshSum (combine (zrange 0 256) truthTable) w.

Definition walshOf (truthTable : list Z) : list Z :=
  let xs := combine (zrange 0 256) truthTable in
  map (walshSum xs) (zrange 0 256).

Definition bitOf (outputBit : Z) (v : Z) : Z :=
  Z.land (Z.shiftr v outputBit) 1.

(** Nonlinearity of one output bit, and of the S-box as the analyzer
    reports it. *)
Definition maxAbs (l : list Z) : Z :=
  fold_left (fun m v => Z.max m (Z.abs v)) l 0.

Definition nlOfBit (sb : list Z) (outputBit : Z) : Z :=
  128 - maxAbs (tl (walshOf (map (bitOf outputBit) sb))) / 2.

Definition nonlinearityOf (sb : list Z) : num :=
  for_ 0 8 (fun bit m => min_num m (nlOfBit sb bit)) Infinity.

(** Entry [a][b] of the linear approximation table. *)
Definition latAt (sb : list Z) (a b : Z) : Z :=
  zsum (fun '(x, y) =>
          b2z (parity (Z.land a x) =? parity (Z.land b y)))
       (combine (zrange 0 256) sb) - 128.

(** The largest absolute bias outside entry [0][0], from the rows of input
    parities and the rows of output parities. *)
Definition agree (p q : list Z) : Z :=
  zsum (fun '(u, v) => b2z (u =? v)) (combine p q).

Definition maxBiasFast (sb : list Z) : Z :=
  let ps := map (fun a => map (fun x => parity (Z.land a x)) (zrange 0 256))
                (zrange 0 256) in
  let qs := map (fun b => map (fun y => parity (Z.land b y)) sb)
                (zrange 0 256) in
  let bqs := combine (zrange 0 256) qs in
  fold_left
    (fun m '(a, p) =>
       fold_left
         (fun m '(b, q) =>
            if negb (a =? 0) || negb (b =? 0)
            then Z.max m (Z.abs (agree p q - 128))
            else m)
         bqs m)
    (combine (zrange 0 256) ps) 0.

(** Entry [alpha][beta] of the difference distribution table. *)
Definition ddtAt (sb : list Z) (alpha beta : Z) : Z :=
  zsum (fun x1 =>
          zsum (fun x2 =>
                  b2z ((Z.lxor x1 x2 =? alpha)
                       && (Z.lxor (get sb x1) (get sb x2) =? beta)))
               (zrange 0 256))
       (zrange 0 256).

(** A table of [rows] rows of [cols] entries each. *)
Definition shape (rows cols : nat) (t : list (list Z)) : Prop :=
  length t = rows /\ Forall (fun row => length row = cols) t.

(** Entry [alpha][beta] again, counted over the first input alone: the second
    one is then [x xor alpha]. *)
Definition ddtCount (sb : list Z) (alpha beta : Z) : Z :=
  zsum (fun x => b2z (Z.lxor (get sb x) (get sb (Z.lxor x alpha)) =? beta))
       (zrange 0 256).

(** A bound on every row [alpha >= 1] of the difference distribution table,
    decided row by row; the S-box and the histogram of a row are held in
    binary tries, so that reading them takes a number of steps that does not
    grow with the index. *)
Definition key (v : Z) : positive := Z.to_pos (v + 1).

Definition lookup (t : PositiveMap.t Z) (v : Z) : Z :=
  match PositiveMap.find (key v) t with
  | Some y => y
  | None => 0
  end.

Definition trieOf (l : list Z) : PositiveMap.t Z :=
  fold_left (fun t '(x, y) => PositiveMap.add (key x) y t)
            (combine (zrange 0 (Z.of_nat (length l))) l)
            (PositiveMap.empty Z).

Definition histogram (row : list Z) : PositiveMap.t Z :=
  fold_left (fun h v => PositiveMap.add (key v) (lookup h v + 1) h)
            row (PositiveMap.empty Z).

Definition rowBounded (m : Z) (row : list Z) : bool :=
  let h := histogram row in
  forallb (fun v => lookup h v <=? m) row.

Definition diffRow (t : PositiveMap.t Z) (xs : list Z) (alpha : Z) : list Z :=
  map (fun x => Z.lxor (lookup t x) (lookup t (Z.lxor x alpha))) xs.

Definition ddtBounded (m : Z) (sb : list Z) : bool :=
  let t := trieOf sb in
  let xs := zrange 0 256 in
  forallb (fun alpha => rowBounded m (diffRow t xs alpha)) (zrange 1 256).

(** Correlation immunity of one Walsh spectrum as the specification words
    it: the largest [k] such that the coefficient is zero at every non-zero
    mask of weight at most [k]. *)
Definition zeroUpTo (walsh : list Z) (k : Z) : bool :=
  forallb (fun w => negb ((1 <=? hammingWeight w) && (hammingWeight w <=? k))
                    || (get walsh w =? 0))
          (zrange 0 256).

Definition ciAllOf (walsh : list Z) : Z :=
  fold_left (fun ci k => if zeroUpTo walsh k then Z.max ci k else ci)
            (zrange 1 9) 0.

Definition correlationImmunityAll (sb : list Z) : Z :=
  fold_left (fun m bit => Z.max m (ciAllOf (walshOf (map (bitOf bit) sb))))
            (zrange 0 8) 0.

(** Correlation immunity as the source computes it: [k] is such that every
    weight [1 .. k] has some mask with a zero coefficient, and weight
    [k + 1] has none. *)
Definition isCIExists (walsh : list Z) (k : Z) : Prop :=
  0 <= k <= 8
  /\ (forall weight, 1 <= weight <= k ->
       exists mask, 0 <= mask < 256 /\ hammingWeight mask = weight
                    /\ get walsh mask = 0)
  /\ (k < 8 ->
      forall mask, 0 <= mask < 256 -> hammingWeight mask = k + 1 ->
                   get walsh mask <> 0).

(** The loops of [calculateCorrelationImmunity] in closed form. *)
Definition zeroAtWeight (walsh : list Z) (weight : Z) : bool :=
  existsb (fun mask => (hammingWeight mask =? weight)
                       && (get walsh mask =? 0))
          (zrange 0 256).

Fixpoint ciExistsFrom (walsh : list Z) (weights : list Z) (ci : Z) : Z :=
  match weights with
  | [] => ci
  | weight :: rest =>
      if zeroAtWeight walsh weight then ciExistsFrom walsh rest weight
      else ci
  end.

Definition ciExistsOf (walsh : list Z) : Z :=
  ciExistsFrom walsh (zrange 1 9) 0.

Definition correlationImmunityOf (sb : list Z) : Z :=
  for_ 0 8
       (fun bit m => Z.max m (ciExistsOf (walshOf (map (bitOf bit) sb))))
       0.

(** A freshly constructed analyzer, and the algebraic degree in closed
    form. *)
Definition freshAnalyzer (sb : list Z) : SBoxAnalyzer :=
  mkAnalyzer sb precomputeHammingWeights None None None.

Definition algebraicDegreeOf (sb : list Z) : Z :=
  for_ 0 8
       (fun bit m =>
          Z.max m (calculateBooleanFunctionDegree (freshAnalyzer sb)
                                                  (map (bitOf bit) sb)))
       0.

(** The invariant of the analyzer object: the S-box it was built from, the
    Hamming-weight table, and caches that are empty or hold what their
    builders compute. *)
Definition coherent (sb : list Z) (this : SBoxAnalyzer) : Prop :=
  sbox this = sb
  /\ hammingWeights this = precomputeHammingWeights
  /\ (forall c, booleanFunctions this = Some c ->
       length c = 8%nat
       /\ forall bit truthTable,
            0 <= bit < 8 ->
            nth (Z.to_nat bit) c None = Some truthTable ->
            truthTable = truthTableOf sb bit)
  /\ (forall t, linearApproxTable this = Some t ->
       t = latOf precomputeHammingWeights sb)
  /\ (forall t, differenceTable this = Some t -> t = ddtOf sb).

(** One pass of the Moebius transform of [computeANF], and the eight passes,
    on functions of the mask: pass [i] adds to the value at every mask with
    bit [i] set the value at the mask with that bit cleared. *)
Definition moebiusStep (i : Z) (f : Z -> Z) : Z -> Z :=
  fun mask =>
    if negb (Z.land (Z.shiftr mask i) 1 =? 0)
    then Z.lxor (f mask) (f (Z.lxor mask (Z.shiftl 1 i)))
    else f mask.

Definition moebius (f : Z -> Z) : Z -> Z := for_ 0 8 moebiusStep f.

(** The exclusive or of the values of [f] on [lo .. hi - 1]. *)
Definition xorAll (f : Z -> Z) (lo hi : Z) : Z :=
  for_ lo hi (fun x acc => Z.lxor acc (f x)) 0.

(** The nonlinearity of the exclusive or of two output bits, and the list
    that [calculateBIC_NL] builds, in closed form. *)
Definition bicPairOf (sb : list Z) (bit1 bit2 : Z) : Z :=
  128 - maxAbs (tl (walshOf
                      (map (fun x => Z.lxor (bitOf bit1 (get sb x))
                                            (bitOf bit2 (get sb x)))
                           (zrange 0 256)))) / 2.

Definition bicCorrelationsOf (sb : list Z) : list Z :=
  for_ 0 8
       (fun bit1 correlations =>
          for_ (bit1 + 1) 8
               (fun bit2 correlations =>
                  correlations ++ [bicPairOf sb bit1 bit2])
               correlations)
       [].

(** The sum that [calculateBIC_SAC] forms for a pair of output bits. *)
Definition bitCorrelationOf (sb : list Z) (bit1 bit2 : Z) : Z :=
  zsum (fun x => (2 * bitOf bit1 (get sb x) - 1)
                 * (2 * bitOf bit2 (get sb x) - 1))
       (zrange 0 256).

(** A cell of a CSV file as [parseCSVFile] takes it apart: not empty, no
    white space at either end, and none of the characters that separate
    cells and lines. *)
Definition cell (tok : list Z) : Prop :=
  tok <> []
  /\ isWhiteSpace (hd 32 tok) = false
  /\ isWhiteSpace (last tok 32) = false
  /\ Forall (fun c => c <> 44 /\ c <> 10 /\ c <> 13) tok.

(** The same as a test. *)
Definition isCell (tok : list Z) : bool :=
  negb (Nat.eqb (length tok) 0)
  && negb (isWhiteSpace (hd 32 tok))
  && negb (isWhiteSpace (last tok 32))
  && forallb (fun c => negb ((c =? 44) || (c =? 10) || (c =? 13))) tok.

(** How [parseValue] reads a decimal numeral below 256: as hexadecimal if
    it has one or two digits. *)
Definition readAsHex (v : Z) : Z :=
  if v <? 100 then 16 * (v / 10) + v mod 10 else v.

End Kernel.

Import Analyzer Dashboard Inputs Kernel.
Import Simulation.

(** ** Loops and arrays *)
Section Loops.

Lemma zrange_length lo hi : length (zrange lo hi) = Z.to_nat (hi - lo).
Proof. unfold zrange. now rewrite length_map, length_seq. Qed.

Lemma zrange_In lo hi i : In i (zrange lo hi) <-> lo <= i < hi.
Proof.
  unfold zrange. rewrite in_map_iff. split.
  - intros (k & <- & Hk). apply in_seq in Hk. lia.
  - intros H. exists (Z.to_nat (i - lo)). split; [lia|].
    apply in_seq. lia.
Qed.

Lemma zrange_nil lo hi : hi <= lo -> zrange lo hi = [].
Proof.
  intros H. unfold zrange. replace (Z.to_nat (hi - lo)) with 0%nat by lia.
  reflexivity.
Qed.

Lemma zrange_cons lo hi : lo < hi -> zrange lo hi = lo :: zrange (lo + 1) hi.
Proof.
  intros H. unfold zrange.
  replace (Z.to_nat (hi - lo)) with (S (Z.to_nat (hi - (lo + 1)))) by lia.
  cbn [seq map]. f_equal; [lia|].
  rewrite <- seq_shift, map_map. apply map_ext. intros k. lia.
Qed.

Lemma zrange_snoc lo hi : lo <= hi -> zrange lo (hi + 1) = zrange lo hi ++ [hi].
Proof.
  intros H. unfold zrange.
  replace (Z.to_nat (hi + 1 - lo)) with (Z.to_nat (hi - lo) + 1)%nat by lia.
  rewrite seq_app, map_app. cbn [seq map]. do 2 f_equal. lia.
Qed.

Lemma zrange_nth lo hi k d :
  (k < Z.to_nat (hi - lo))%nat -> nth k (zrange lo hi) d = lo + Z.of_nat k.
Proof.
  intros H. unfold zrange.
  rewrite nth_indep with (d' := lo + Z.of_nat 0)
    by now rewrite length_map, length_seq.
  change (lo + Z.of_nat 0) with ((fun k => lo + Z.of_nat k) 0%nat).
  rewrite map_nth, seq_nth by assumption. reflexivity.
Qed.

Lemma fold_left_ext_in {A B} (f g : A -> B -> A) l s :
  (forall s x, In x l -> f s x = g s x) ->
  fold_left f l s = fold_left g l s.
Proof.
  revert s. induction l as [|x l IH]; intros s H; cbn; auto.
  rewrite H by now left. apply IH. intros s' y Hy. apply H. now right.
Qed.

Lemma for_ext {S} lo hi (f g : Z -> S -> S) s :
  (forall i s, lo <= i < hi -> f i s = g i s) ->
  for_ lo hi f s = for_ lo hi g s.
Proof.
  intros H. unfold for_. apply fold_left_ext_in.
  intros s' i Hi. apply H. now apply zrange_In.
Qed.

Lemma zrange_NoDup lo hi : NoDup (zrange lo hi).
Proof.
  unfold zrange. apply Finite.Injective_map_NoDup.
  - intros x y. lia.
  - apply seq_NoDup.
Qed.

Lemma upd_length {A} k (f : A -> A) l : length (upd k f l) = length l.
Proof.
  revert k; induction l as [|a l IH]; intros [|k]; cbn; auto.
Qed.

Lemma updZ_length {A} i (f : A -> A) l : length (updZ i f l) = length l.
Proof. unfold updZ. destruct (0 <=? i); auto using upd_length. Qed.

Lemma nth_upd_same {A} k (f : A -> A) l d :
  (k < length l)%nat -> nth k (upd k f l) d = f (nth k l d).
Proof.
  revert k; induction l as [|a l IH]; intros [|k] H; cbn in *;
    try lia; auto. apply IH. lia.
Qed.

Lemma nth_upd_other {A} k k' (f : A -> A) l d :
  k <> k' -> nth k' (upd k f l) d = nth k' l d.
Proof.
  revert k k'; induction l as [|a l IH]; intros [|k] [|k'] H; cbn;
    try congruence; auto.
Qed.

Lemma upd_app_here {A} (f : A -> A) l1 x l2 :
  upd (length l1) f (l1 ++ x :: l2) = l1 ++ f x :: l2.
Proof. induction l1 as [|a l1 IH]; cbn; [reflexivity|]. now rewrite IH. Qed.

Lemma upd_ext {A} k (f g : A -> A) l :
  (forall x, In x l -> f x = g x) -> upd k f l = upd k g l.
Proof.
  revert k; induction l as [|a l IH]; intros [|k] H; cbn; auto.
  - f_equal. apply H. now left.
  - f_equal. apply IH. intros x Hx. apply H. now right.
Qed.

Lemma upd_upd {A} k (f g : A -> A) l :
  upd k f (upd k g l) = upd k (fun x => f (g x)) l.
Proof.
  revert k; induction l as [|a l IH]; intros [|k]; cbn; auto.
  now rewrite IH.
Qed.

Lemma upd_In {A} k (f : A -> A) l y :
  In y (upd k f l) -> In y l \/ exists x, In x l /\ y = f x.
Proof.
  revert k; induction l as [|a l IH]; intros [|k]; cbn; auto.
  - intros [<-|H]; [right; exists a; auto | auto].
  - intros [<-|H]; auto. destruct (IH _ H) as [H1|(x & H1 & H2)]; auto.
    right. exists x. auto.
Qed.

(** A loop that rewrites slot [i] at step [i] maps over the array. *)
Lemma for_upd_map_gen {A} (g : Z -> A -> A) init pre lo hi :
  Z.of_nat (length pre) = lo -> Z.of_nat (length init) = hi - lo ->
  for_ lo hi (fun i arr => updZ i (g i) arr) (pre ++ init)
  = pre ++ map (fun '(i, v) => g i v) (combine (zrange lo hi) init).
Proof.
  revert pre lo. induction init as [|v init IH]; intros pre lo Hpre Hlen.
  - cbn in Hlen. unfold for_. rewrite zrange_nil by lia. reflexivity.
  - cbn [length] in Hlen. unfold for_. rewrite zrange_cons by lia.
    cbn [fold_left combine map].
    unfold updZ at 2. replace (0 <=? lo) with true by (symmetry; apply Z.leb_le; lia).
    replace (Z.to_nat lo) with (length pre) by lia.
    rewrite upd_app_here.
    change (pre ++ g lo v :: init) with (pre ++ [g lo v] ++ init).
    rewrite app_assoc. fold (for_ (lo + 1) hi (fun i arr => updZ i (g i) arr) ((pre ++ [g lo v]) ++ init)).
    rewrite IH.
    + now rewrite <- app_assoc.
    + rewrite length_app. cbn. lia.
    + lia.
Qed.

Lemma for_upd_map {A} (g : Z -> A -> A) init n :
  Z.of_nat (length init) = n ->
  for_ 0 n (fun i arr => updZ i (g i) arr) init
  = map (fun '(i, v) => g i v) (combine (zrange 0 n) init).
Proof.
  intros H. apply (for_upd_map_gen g init [] 0 n); cbn; lia.
Qed.

Lemma map_combine_l {A B C} (f : A -> C) (l : list A) (l' : list B) :
  length l = length l' ->
  map (fun '(i, _) => f i) (combine l l') = map f l.
Proof.
  revert l'; induction l as [|a l IH]; intros [|b l'] H; cbn in *;
    try discriminate; auto. f_equal. apply IH. lia.
Qed.

(** The array-filling loop [for (i...) arr[i] = f(i)]. *)
Lemma for_set_map {A} (f : Z -> A) (init : list A) n :
  Z.of_nat (length init) = n ->
  for_ 0 n (fun i arr => set arr i (f i)) init = map f (zrange 0 n).
Proof.
  intros H. unfold set.
  rewrite (for_upd_map (fun i _ => f i)) by assumption.
  apply map_combine_l. rewrite zrange_length. lia.
Qed.

Lemma fill_length {A} n (v : A) : 0 <= n -> Z.of_nat (length (fill n v)) = n.
Proof. intros H. unfold fill. rewrite repeat_length. lia. Qed.

Lemma get_map_zrange (f : Z -> Z) n i :
  0 <= i < n -> get (map f (zrange 0 n)) i = f i.
Proof.
  intros H. unfold get.
  rewrite nth_indep with (d' := f 0)
    by (rewrite length_map, zrange_length; lia).
  rewrite map_nth, zrange_nth by lia. f_equal. lia.
Qed.

Lemma nth_map_zrange {A} (f : Z -> A) n k d :
  (k < Z.to_nat n)%nat -> nth k (map f (zrange 0 n)) d = f (Z.of_nat k).
Proof.
  intros H.
  rewrite nth_indep with (d' := f 0)
    by (rewrite length_map, zrange_length; lia).
  rewrite map_nth, zrange_nth by lia. f_equal.
Qed.

Lemma fold_updZ_commute {A B} (a : Z) (h : B -> A -> A) (l : list B) t :
  fold_left (fun t b => updZ a (h b) t) l t
  = updZ a (fun row => fold_left (fun row b => h b row) l row) t.
Proof.
  revert t. induction l as [|b l IH]; intros t; cbn [fold_left].
  - unfold updZ. destruct (0 <=? a); auto.
    clear. generalize (Z.to_nat a) as k.
    induction t as [|x t IH]; intros [|k]; cbn; auto. now rewrite <- IH.
  - rewrite IH. unfold updZ. destruct (0 <=? a); auto.
    now rewrite upd_upd.
Qed.

(** The table-filling loops [for (a...) for (b...) t[a][b] = f(a, b)]. *)
Lemma for_set2_map {A} (f : Z -> Z -> A) (d : A) n m :
  0 <= n -> 0 <= m ->
  for_ 0 n
       (fun a t => for_ 0 m (fun b t => set2 t a b (f a b)) t)
       (fill n (fill m d))
  = map (fun a => map (f a) (zrange 0 m)) (zrange 0 n).
Proof.
  intros Hn Hm.
  transitivity
    (for_ 0 n
          (fun a t =>
             updZ a (fun row => for_ 0 m (fun b row => set row b (f a b)) row) t)
          (fill n (fill m d))).
  { apply for_ext. intros a t _. unfold for_, set2.
    apply fold_updZ_commute. }
  rewrite for_upd_map by now apply fill_length.
  rewrite <- (map_combine_l (fun a => map (f a) (zrange 0 m))
                            (zrange 0 n) (fill n (fill m d)))
    by (rewrite zrange_length; unfold fill; rewrite repeat_length; lia).
  apply map_ext_in. intros [a row] Hin.
  apply in_combine_r in Hin. unfold fill in Hin.
  apply repeat_spec in Hin. subst row.
  apply for_set_map. now apply fill_length.
Qed.

Lemma get2_map_zrange (f : Z -> Z -> Z) n m i j :
  0 <= i < n -> 0 <= j < m ->
  get2 (map (fun a => map (f a) (zrange 0 m)) (zrange 0 n)) i j = f i j.
Proof.
  intros Hi Hj. unfold get2.
  rewrite nth_map_zrange by lia.
  rewrite get_map_zrange by assumption. f_equal. lia.
Qed.

End Loops.

(** ** Sums *)
Section Sums.

Lemma fold_left_add_zsum {A} (f : A -> Z) l s0 :
  fold_left (fun s x => s + f x) l s0 = s0 + zsum f l.
Proof.
  revert s0. induction l as [|x l IH]; intros s0; cbn; [lia|].
  rewrite IH. lia.
Qed.

Lemma for_add_zsum (f : Z -> Z) lo hi s0 :
  for_ lo hi (fun x s => s + f x) s0 = s0 + zsum f (zrange lo hi).
Proof. apply fold_left_add_zsum. Qed.

Lemma for_count_zsum (p : Z -> bool) lo hi c0 :
  for_ lo hi (fun x c => if p x then c + 1 else c) c0
  = c0 + zsum (fun x => b2z (p x)) (zrange lo hi).
Proof.
  rewrite <- for_add_zsum. apply for_ext. intros i c _.
  destruct (p i); cbn; lia.
Qed.

Lemma zsum_ext_in {A} (f g : A -> Z) l :
  (forall x, In x l -> f x = g x) -> zsum f l = zsum g l.
Proof.
  induction l as [|x l IH]; intros H; cbn; auto.
  rewrite H by now left. rewrite IH; auto. intros y Hy. apply H. now right.
Qed.

Lemma zsum_map {A B} (f : B -> Z) (g : A -> B) l :
  zsum f (map g l) = zsum (fun x => f (g x)) l.
Proof. induction l as [|x l IH]; cbn; auto. now rewrite IH. Qed.

Lemma zsum_app {A} (f : A -> Z) l l' :
  zsum f (l ++ l') = zsum f l + zsum f l'.
Proof. induction l as [|x l IH]; cbn; auto. rewrite IH. lia. Qed.

Lemma zsum_perm {A} (f : A -> Z) l l' :
  Permutation l l' -> zsum f l = zsum f l'.
Proof. induction 1; cbn; lia. Qed.

Lemma zsum_add {A} (f g : A -> Z) l :
  zsum (fun x => f x + g x) l = zsum f l + zsum g l.
Proof. induction l as [|x l IH]; cbn; auto. rewrite IH. lia. Qed.

Lemma zsum_scale {A} (f : A -> Z) k l :
  zsum (fun x => k * f x) l = k * zsum f l.
Proof. induction l as [|x l IH]; cbn; [lia|]. rewrite IH. lia. Qed.

Lemma zsum_const {A} (l : list A) k :
  zsum (fun _ => k) l = k * Z.of_nat (length l).
Proof. induction l as [|x l IH]; cbn [zsum length]; [lia|]. rewrite IH. lia. Qed.

Lemma zsum_nonneg {A} (f : A -> Z) l :
  (forall x, In x l -> 0 <= f x) -> 0 <= zsum f l.
Proof.
  induction l as [|x l IH]; intros H; cbn; [lia|].
  assert (0 <= f x) by (apply H; now left).
  assert (0 <= zsum f l) by (apply IH; intros y Hy; apply H; now right).
  lia.
Qed.

(** Reading an array at the loop counter is walking the array. *)
Lemma map_get_combine_gen (l : list Z) lo :
  map (fun x => (x, nth (Z.to_nat (x - lo)) l 0))
      (zrange lo (lo + Z.of_nat (length l)))
  = combine (zrange lo (lo + Z.of_nat (length l))) l.
Proof.
  revert lo. induction l as [|v l IH]; intros lo.
  - cbn. rewrite zrange_nil by lia. reflexivity.
  - cbn [length]. rewrite zrange_cons by lia. cbn [map combine].
    replace (lo - lo) with 0 by lia. cbn [Z.to_nat nth]. f_equal.
    replace (lo + Z.of_nat (S (length l)))
      with (lo + 1 + Z.of_nat (length l)) by lia.
    rewrite <- IH. apply map_ext_in. intros x Hx. apply zrange_In in Hx.
    f_equal. replace (Z.to_nat (x - lo)) with (S (Z.to_nat (x - (lo + 1)))) by lia.
    reflexivity.
Qed.

Lemma map_get_combine (l : list Z) n :
  Z.of_nat (length l) = n ->
  map (fun x => (x, get l x)) (zrange 0 n) = combine (zrange 0 n) l.
Proof.
  intros <-. pose proof (map_get_combine_gen l 0) as G.
  rewrite Z.add_0_l in G. rewrite <- G. apply map_ext.
  intros x. unfold get. now rewrite Z.sub_0_r.
Qed.

Lemma zsum_get_combine (F : Z -> Z -> Z) (l : list Z) n :
  Z.of_nat (length l) = n ->
  zsum (fun x => F x (get l x)) (zrange 0 n)
  = zsum (fun '(x, v) => F x v) (combine (zrange 0 n) l).
Proof.
  intros H. rewrite <- (map_get_combine l n H), zsum_map. reflexivity.
Qed.

Lemma map_snd_combine_eq {A B} (l' : list A) (l : list B) :
  length l' = length l -> map snd (combine l' l) = l.
Proof.
  revert l'. induction l as [|v l IH]; intros [|x l'] Hl; cbn in *;
    try discriminate; auto. f_equal. apply IH. lia.
Qed.

Lemma map_get_zrange (l : list Z) n :
  Z.of_nat (length l) = n -> map (get l) (zrange 0 n) = l.
Proof.
  intros H.
  pose proof (f_equal (map snd) (map_get_combine l n H)) as E.
  rewrite map_map, map_snd_combine_eq in E
    by (rewrite zrange_length; lia).
  exact E.
Qed.

(** A loop over the indices of an array that reads the array only at its
    counter is a fold over the array. *)
Lemma for_get_fold_gen {S} (F : S -> Z -> S) (pre l : list Z) s0 :
  for_ (Z.of_nat (length pre)) (Z.of_nat (length pre) + Z.of_nat (length l))
       (fun i s => F s (get (pre ++ l) i)) s0
  = fold_left F l s0.
Proof.
  revert pre s0. induction l as [|v l IH]; intros pre s0.
  - unfold for_. rewrite zrange_nil by (cbn; lia). reflexivity.
  - unfold for_. rewrite zrange_cons by (cbn [length]; lia).
    cbn [fold_left]. unfold get at 2. rewrite Nat2Z.id, nth_middle.
    specialize (IH (pre ++ [v]) (F s0 v)).
    rewrite length_app in IH. cbn [length] in IH.
    rewrite <- app_assoc in IH. cbn [app] in IH.
    rewrite <- IH. unfold for_. f_equal. f_equal; cbn [length]; lia.
Qed.

Lemma for_get_fold_tl {S} (F : S -> Z -> S) (l : list Z) s0 :
  for_ 1 (Z.of_nat (length l)) (fun i s => F s (get l i)) s0
  = fold_left F (tl l) s0.
Proof.
  destruct l as [|v l].
  - unfold for_. rewrite zrange_nil by (cbn; lia). reflexivity.
  - pose proof (for_get_fold_gen F [v] l s0) as G.
    cbn [length app tl] in *. rewrite <- G. f_equal. lia.
Qed.

End Sums.

(** ** Bytes, Hamming weights and parities *)
Section Bytes.

Lemma walshOf_unfold truthTable :
  walshOf truthTable = map (walshAt truthTable) (zrange 0 256).
Proof. reflexivity. Qed.

Lemma byte_forallb (P : Z -> bool) :
  forallb P (zrange 0 256) = true -> forall v, 0 <= v < 256 -> P v = true.
Proof.
  intros H v Hv. rewrite forallb_forall in H. apply H, zrange_In. lia.
Qed.

Lemma byte_land_255 v : 0 <= v < 256 <-> Z.land v 255 = v.
Proof.
  change 255 with (Z.ones 8). rewrite Z.land_ones by lia.
  change (2 ^ 8) with 256. split.
  - intros H. now apply Z.mod_small.
  - intros <-. apply Z.mod_pos_bound. lia.
Qed.

Lemma land_byte x w : 0 <= x < 256 -> 0 <= Z.land x w < 256.
Proof.
  intros H. apply byte_land_255.
  rewrite <- Z.land_assoc, (Z.land_comm w), Z.land_assoc.
  f_equal. now apply byte_land_255.
Qed.

Lemma land_byte_r x w : 0 <= w < 256 -> 0 <= Z.land x w < 256.
Proof. rewrite Z.land_comm. apply land_byte. Qed.

Lemma lxor_byte x y : 0 <= x < 256 -> 0 <= y < 256 -> 0 <= Z.lxor x y < 256.
Proof.
  intros Hx Hy. apply byte_land_255.
  apply byte_land_255 in Hx, Hy.
  apply Z.bits_inj'. intros k _.
  rewrite Z.land_spec, !Z.lxor_spec, <- Hx, <- Hy, !Z.land_spec.
  destruct (Z.testbit x k), (Z.testbit y k), (Z.testbit 255 k); reflexivity.
Qed.

Lemma land_1_cases v : Z.land v 1 = 0 \/ Z.land v 1 = 1.
Proof.
  change 1 with (Z.ones 1) at 1 2. rewrite Z.land_ones by lia.
  change (2 ^ 1) with 2. pose proof (Z.mod_pos_bound v 2). lia.
Qed.

Lemma parity_cases v : parity v = 0 \/ parity v = 1.
Proof.
  destruct v as [|p|p]; cbn; auto. destruct (pparity p); cbn; auto.
Qed.

Lemma hammingWeights_eq :
  precomputeHammingWeights = map hammingWeight (zrange 0 256).
Proof. unfold precomputeHammingWeights. now apply for_set_map. Qed.

Lemma hammingWeights_get v :
  0 <= v < 256 -> get precomputeHammingWeights v = hammingWeight v.
Proof. rewrite hammingWeights_eq. apply get_map_zrange. Qed.

Lemma hammingWeights_parity v :
  0 <= v < 256 -> Z.land (get precomputeHammingWeights v) 1 = parity v.
Proof.
  intros H. apply Z.eqb_eq. revert v H.
  apply (byte_forallb
           (fun v => Z.land (get precomputeHammingWeights v) 1 =? parity v)).
  vm_compute. reflexivity.
Qed.

(** On a byte the loop of [hammingWeight] reaches [n = 0] within eight
    rounds, so the fuel is never what stops it. *)
Lemma hammingWeight_fuel v :
  0 <= v < 256 ->
  Z.shiftr v 8 = 0 /\ hammingWeight_loop 8 v 0 = hammingWeight v.
Proof.
  intros H.
  assert (E : (Z.shiftr v 8 =? 0)
              && (hammingWeight_loop 8 v 0 =? hammingWeight v) = true).
  { revert v H.
    apply (byte_forallb
             (fun v => (Z.shiftr v 8 =? 0)
                       && (hammingWeight_loop 8 v 0 =? hammingWeight v))).
    vm_compute. reflexivity. }
  apply andb_true_iff in E. destruct E as [E1 E2].
  split; now apply Z.eqb_eq.
Qed.

End Bytes.

(** ** The analyzer object and its caches *)
Ltac coherent_split :=
  unfold coherent;
  cbn [sbox hammingWeights booleanFunctions linearApproxTable differenceTable];
  refine (conj _ (conj _ (conj _ (conj _ _)))).

Section Caches.

Lemma some_inj {A} (a b : A) : Some a = Some b -> a = b.
Proof. intros [= H]. exact H. Qed.

Lemma constructor_coherent (sboxArray : list Z) :
  length sboxArray = 256%nat ->
  exists this, constructor sboxArray = inr this /\ coherent sboxArray this.
Proof.
  intros H. unfold constructor. rewrite H.
  change (Z.of_nat 256 =? 256) with true. cbn [negb].
  eexists. split; [reflexivity|].
  coherent_split; [reflexivity | reflexivity | | | ]; intros; discriminate.
Qed.

Lemma constructor_inr (sboxArray : list Z) this :
  constructor sboxArray = inr this ->
  length sboxArray = 256%nat /\ coherent sboxArray this.
Proof.
  unfold constructor.
  destruct (Z.of_nat (length sboxArray) =? 256) eqn:E; cbn [negb];
    [|discriminate].
  intros [= <-]. apply Z.eqb_eq in E. split; [lia|].
  coherent_split; [reflexivity | reflexivity | | | ]; intros; discriminate.
Qed.

Lemma truthTableOf_eq sb bit :
  length sb = 256%nat -> truthTableOf sb bit = map (bitOf bit) sb.
Proof.
  intros H. unfold truthTableOf. rewrite for_set_map by reflexivity.
  transitivity (map (bitOf bit) (map (get sb) (zrange 0 256))).
  - now rewrite map_map.
  - rewrite map_get_zrange by lia. reflexivity.
Qed.

Lemma getBooleanFunction_spec sb this bit :
  coherent sb this -> 0 <= bit < 8 ->
  fst (getBooleanFunction bit this) = truthTableOf sb bit
  /\ coherent sb (snd (getBooleanFunction bit this)).
Proof.
  intros (Hs & Hh & Hb & Hl & Hd) Hbit. unfold getBooleanFunction.
  set (cache := match booleanFunctions this with
                | Some c => c
                | None => repeat None 8
                end).
  assert (Hc : length cache = 8%nat
               /\ forall b tt, 0 <= b < 8 ->
                               nth (Z.to_nat b) cache None = Some tt ->
                               tt = truthTableOf sb b).
  { subst cache. destruct (booleanFunctions this) as [c|].
    - now apply Hb.
    - split; [reflexivity|]. intros b tt Hb' E.
      rewrite nth_repeat in E. discriminate. }
  destruct Hc as [Hc1 Hc2].
  destruct (nth (Z.to_nat bit) cache None) as [tt|] eqn:E; cbn [fst snd].
  - split; [now apply Hc2|].
    unfold with_booleanFunctions.
    coherent_split; [assumption | assumption | | assumption | assumption].
    intros c' [= <-]. now split.
  - split; [now rewrite Hs|].
    unfold with_booleanFunctions.
    coherent_split; [assumption | assumption | | assumption | assumption].
    intros c' [= <-]. split.
    + now rewrite updZ_length.
    + intros b tt Hb' E'. unfold updZ in E'.
      replace (0 <=? bit) with true in E' by (symmetry; apply Z.leb_le; lia).
      destruct (Z.eq_dec b bit) as [->|Hne].
      * rewrite nth_upd_same in E' by lia.
        rewrite <- (some_inj _ _ E'), Hs. reflexivity.
      * rewrite nth_upd_other in E' by lia. now apply Hc2.
Qed.

(** A loop that hands the analyzer from one round to the next computes
    what the same loop computes on the S-box alone. *)
Lemma for_thread {A} sb (body : Z -> A * SBoxAnalyzer -> A * SBoxAnalyzer)
      (g : Z -> A -> A) lo hi :
  (forall i a this, lo <= i < hi -> coherent sb this ->
                    fst (body i (a, this)) = g i a
                    /\ coherent sb (snd (body i (a, this)))) ->
  forall a this, coherent sb this ->
                 fst (for_ lo hi body (a, this)) = for_ lo hi g a
                 /\ coherent sb (snd (for_ lo hi body (a, this))).
Proof.
  intros H. unfold for_.
  assert (G : forall l, (forall i, In i l -> lo <= i < hi) ->
              forall a this, coherent sb this ->
                fst (fold_left (fun s i => body i s) l (a, this))
                = fold_left (fun s i => g i s) l a
                /\ coherent sb
                     (snd (fold_left (fun s i => body i s) l (a, this)))).
  { induction l as [|i l IH]; intros Hl a this Hc; cbn [fold_left].
    - now split.
    - destruct (H i a this (Hl i (or_introl eq_refl)) Hc) as [E1 E2].
      destruct (body i (a, this)) as [a' this'] eqn:Eb. cbn [fst snd] in *.
      subst a'. apply IH; auto. intros j Hj. apply Hl. now right. }
  apply G. intros i Hi. now apply zrange_In.
Qed.

Lemma walshHadamardTransform_eq this truthTable :
  hammingWeights this = precomputeHammingWeights ->
  length truthTable = 256%nat ->
  walshHadamardTransform this truthTable = walshOf truthTable.
Proof.
  intros Hh Hl. rewrite walshOf_unfold. unfold walshHadamardTransform.
  change (Z.shiftl 1 n) with 256.
  rewrite for_set_map by reflexivity.
  apply map_ext_in. intros w Hw. apply zrange_In in Hw.
  rewrite for_add_zsum, Z.add_0_l. unfold walshAt, walshSum.
  rewrite <- (zsum_get_combine
                (fun x t => (-1) ^ Z.lxor t (parity (Z.land x w)))
                truthTable 256) by lia.
  apply zsum_ext_in. intros x Hx. apply zrange_In in Hx.
  rewrite Hh, hammingWeights_parity by now apply land_byte.
  reflexivity.
Qed.

Lemma maxAbsWalsh_eq walsh : maxAbsWalsh walsh = maxAbs (tl walsh).
Proof.
  unfold maxAbsWalsh, maxAbs.
  apply (for_get_fold_tl (fun m v => Z.max m (Z.abs v))).
Qed.

Lemma coherent_hw sb this :
  coherent sb this -> hammingWeights this = precomputeHammingWeights.
Proof. intros (_ & H & _). exact H. Qed.

Lemma coherent_sbox sb this : coherent sb this -> sbox this = sb.
Proof. intros (H & _). exact H. Qed.

Lemma calculateNonlinearity_eq sb this :
  length sb = 256%nat -> coherent sb this ->
  fst (calculateNonlinearity this) = nonlinearityOf sb
  /\ coherent sb (snd (calculateNonlinearity this)).
Proof.
  intros Hl Hc. unfold calculateNonlinearity, nonlinearityOf.
  change n with 8.
  apply (for_thread sb _ (fun bit m => min_num m (nlOfBit sb bit)));
    [|exact Hc].
  intros bit m this' Hbit Hc'.
  destruct (getBooleanFunction_spec sb this' bit Hc' Hbit) as [E1 E2].
  destruct (getBooleanFunction bit this') as [tt this''].
  cbn [fst snd] in *. split; [|assumption].
  f_equal. unfold nlOfBit.
  rewrite maxAbsWalsh_eq, walshHadamardTransform_eq.
  - subst tt. rewrite truthTableOf_eq by assumption. reflexivity.
  - now apply coherent_hw with sb.
  - subst tt. rewrite truthTableOf_eq, length_map by assumption. assumption.
Qed.

End Caches.

(** ** Walsh spectra *)
Section Walsh.

Lemma zsum_signs {A} (f : A -> Z) l :
  (forall x, In x l -> f x = 1 \/ f x = -1) ->
  exists k, 0 <= k <= Z.of_nat (length l)
            /\ zsum f l = Z.of_nat (length l) - 2 * k.
Proof.
  induction l as [|x l IH]; intros H.
  - exists 0. cbn. lia.
  - destruct IH as (k & Hk & E).
    { intros y Hy. apply H. now right. }
    cbn [zsum length]. rewrite E.
    destruct (H x (or_introl eq_refl)) as [-> | ->].
    + exists k. lia.
    + exists (k + 1). lia.
Qed.

Lemma sign_cases t d :
  (t = 0 \/ t = 1) -> (d = 0 \/ d = 1) ->
  (-1) ^ Z.lxor t d = 1 \/ (-1) ^ Z.lxor t d = -1.
Proof. intros [-> | ->] [-> | ->]; cbn; auto. Qed.

Lemma bitOf_cases bit v : bitOf bit v = 0 \/ bitOf bit v = 1.
Proof. apply land_1_cases. Qed.

Lemma combine_length_eq {A B} (l : list A) (l' : list B) :
  length l = length l' -> length (combine l l') = length l.
Proof. intros H. rewrite length_combine. lia. Qed.

Lemma walshAt_signs truthTable w :
  length truthTable = 256%nat ->
  (forall t, In t truthTable -> t = 0 \/ t = 1) ->
  exists k, 0 <= k <= 256 /\ walshAt truthTable w = 256 - 2 * k.
Proof.
  intros Hl Ht. unfold walshAt, walshSum.
  destruct (zsum_signs
              (fun '(x, t) => (-1) ^ Z.lxor t (parity (Z.land x w)))
              (combine (zrange 0 256) truthTable)) as (k & Hk & E).
  - intros [x t] Hin. apply in_combine_r in Hin.
    apply sign_cases; [now apply Ht | apply parity_cases].
  - rewrite combine_length_eq in * by (rewrite zrange_length; lia).
    rewrite zrange_length in *. exists k. split; [lia|]. rewrite E. lia.
Qed.

Lemma walshOf_get truthTable w :
  0 <= w < 256 -> get (walshOf truthTable) w = walshAt truthTable w.
Proof. intros H. rewrite walshOf_unfold. now apply get_map_zrange. Qed.

End Walsh.

(** C8. For every 256-permutation S-box, every output bit and every mask
    (zero or not), the Walsh coefficient computed by
    [walshHadamardTransform] on the truth table of [getBooleanFunction] is
    an even integer between -256 and 256. *)
Theorem walsh_coefficient_even_in_range
        (sboxArray : list Z) (this : SBoxAnalyzer) (bit w : Z) :
  permutation256 sboxArray ->
  constructor sboxArray = inr this ->
  0 <= bit < 8 -> 0 <= w < 256 ->
  let truthTable := fst (getBooleanFunction bit this) in
  let this' := snd (getBooleanFunction bit this) in
  let walsh := walshHadamardTransform this' truthTable in
  Z.even (get walsh w) = true /\ -256 <= get walsh w <= 256.
Proof.
  intros Hp Hc Hbit Hw. cbn zeta.
  apply constructor_inr in Hc. destruct Hc as [Hl Hc].
  destruct (getBooleanFunction_spec sboxArray this bit Hc Hbit) as [E1 E2].
  rewrite E1, truthTableOf_eq by assumption.
  rewrite walshHadamardTransform_eq;
    [|now apply coherent_hw with sboxArray | now rewrite length_map].
  rewrite walshOf_get by assumption.
  destruct (walshAt_signs (map (bitOf bit) sboxArray) w) as (k & Hk & E).
  - now rewrite length_map.
  - intros t Ht. apply in_map_iff in Ht. destruct Ht as (v & <- & _).
    apply bitOf_cases.
  - rewrite E. split; [|lia].
    replace (256 - 2 * k) with (2 * (128 - k)) by lia.
    now rewrite Z.even_mul.
Qed.

Lemma walsh_coefficient_even_in_range_witness :
  Z.even (get (walshHadamardTransform
                 (snd (getBooleanFunction 3
                         (mkAnalyzer identitySBox precomputeHammingWeights
                                     None None None)))
                 (fst (getBooleanFunction 3
                         (mkAnalyzer identitySBox precomputeHammingWeights
                                     None None None)))) 8) = true
  /\ -256 <= get (walshHadamardTransform
                   (snd (getBooleanFunction 3
                           (mkAnalyzer identitySBox precomputeHammingWeights
                                       None None None)))
                   (fst (getBooleanFunction 3
                           (mkAnalyzer identitySBox precomputeHammingWeights
                                       None None None)))) 8 <= 256.
Proof.
  apply (walsh_coefficient_even_in_range
           identitySBox
           (mkAnalyzer identitySBox precomputeHammingWeights None None None)
           3 8).
  - apply Permutation_refl.
  - reflexivity.
  - lia.
  - lia.
Defined.

(** ** The difference distribution table *)
Section DDT.

Lemma shape_fill rows cols :
  0 <= rows -> 0 <= cols ->
  shape (Z.to_nat rows) (Z.to_nat cols) (fill rows (fill cols 0)).
Proof.
  intros Hr Hc. unfold shape, fill. split.
  - apply repeat_length.
  - apply Forall_forall. intros row Hin. apply repeat_spec in Hin.
    subst row. apply repeat_length.
Qed.

Lemma shape_incr2 rows cols t i j :
  shape rows cols t -> shape rows cols (incr2 t i j).
Proof.
  intros [H1 H2]. unfold incr2. split.
  - now rewrite updZ_length.
  - apply Forall_forall. intros row Hin. rewrite Forall_forall in H2.
    unfold updZ in Hin. destruct (0 <=? i); [|now apply H2].
    apply upd_In in Hin. destruct Hin as [Hin|(row' & Hin & ->)].
    + now apply H2.
    + change (length (updZ j Z.succ row') = cols).
      rewrite updZ_length. now apply H2.
Qed.

Lemma shape_row rows cols t k :
  shape rows cols t -> (k < rows)%nat -> length (nth k t []) = cols.
Proof.
  intros [H1 H2] Hk. rewrite Forall_forall in H2. apply H2.
  apply nth_In. lia.
Qed.

Lemma get2_incr2 rows cols t i' j' i j :
  shape rows cols t ->
  0 <= i < Z.of_nat rows -> 0 <= j < Z.of_nat cols ->
  get2 (incr2 t i' j') i j = get2 t i j + b2z ((i' =? i) && (j' =? j)).
Proof.
  intros Hs Hi Hj. unfold get2, incr2, updZ at 1.
  destruct (Z.leb_spec 0 i') as [Hi'|Hi'].
  - destruct (Z.eqb_spec i' i) as [->|Hne].
    + rewrite nth_upd_same by (destruct Hs; lia).
      unfold get, updZ. destruct (Z.leb_spec 0 j') as [Hj'|Hj'].
      * destruct (Z.eqb_spec j' j) as [->|Hne].
        -- rewrite nth_upd_same
             by (rewrite (shape_row rows cols) by (auto; lia); lia).
           cbn. lia.
        -- rewrite nth_upd_other by lia. cbn. lia.
      * destruct (Z.eqb_spec j' j) as [->|Hne]; [lia|]. cbn. lia.
    + rewrite nth_upd_other by lia. cbn. lia.
  - destruct (Z.eqb_spec i' i) as [->|Hne]; [lia|]. cbn. lia.
Qed.

Lemma fold_incr2 {A} rows cols (I O : A -> Z) l t i j :
  shape rows cols t ->
  0 <= i < Z.of_nat rows -> 0 <= j < Z.of_nat cols ->
  shape rows cols (fold_left (fun t x => incr2 t (I x) (O x)) l t)
  /\ get2 (fold_left (fun t x => incr2 t (I x) (O x)) l t) i j
     = get2 t i j + zsum (fun x => b2z ((I x =? i) && (O x =? j))) l.
Proof.
  intros Hs Hi Hj. revert t Hs. induction l as [|x l IH]; intros t Hs.
  - cbn [fold_left zsum]. split; [assumption | now rewrite Z.add_0_r].
  - cbn [fold_left zsum].
    destruct (IH (incr2 t (I x) (O x)) (shape_incr2 _ _ _ _ _ Hs)) as [S1 E1].
    split; [assumption|].
    rewrite E1, (get2_incr2 rows cols) by assumption. lia.
Qed.

Lemma fold_fold_incr2 {A B} rows cols (I O : A -> B -> Z) l1 l2 t i j :
  shape rows cols t ->
  0 <= i < Z.of_nat rows -> 0 <= j < Z.of_nat cols ->
  shape rows cols
        (fold_left
           (fun t x1 => fold_left (fun t x2 => incr2 t (I x1 x2) (O x1 x2))
                                  l2 t) l1 t)
  /\ get2 (fold_left
             (fun t x1 => fold_left (fun t x2 => incr2 t (I x1 x2) (O x1 x2))
                                    l2 t) l1 t) i j
     = get2 t i j
       + zsum (fun x1 =>
                 zsum (fun x2 => b2z ((I x1 x2 =? i) && (O x1 x2 =? j))) l2)
              l1.
Proof.
  intros Hs Hi Hj. revert t Hs. induction l1 as [|x l1 IH]; intros t Hs.
  - cbn [fold_left zsum]. split; [assumption | now rewrite Z.add_0_r].
  - cbn [fold_left zsum].
    destruct (fold_incr2 rows cols (I x) (O x) l2 t i j Hs Hi Hj) as [S0 E0].
    destruct (IH _ S0) as [S1 E1].
    split; [assumption|]. rewrite E1, E0. lia.
Qed.

Lemma get2_fill rows cols i j : get2 (fill rows (fill cols 0)) i j = 0.
Proof.
  unfold get2, get, fill.
  generalize (Z.to_nat i) as k, (Z.to_nat j) as k', (Z.to_nat rows) as r,
             (Z.to_nat cols) as c.
  intros k k' r c.
  assert (G : forall m, nth k' (repeat 0 m) 0 = 0).
  { intros m. revert k'. induction m as [|m IH]; intros [|k']; cbn; auto. }
  revert k. induction r as [|r IH]; intros [|k]; cbn [repeat nth]; auto.
  - now destruct k'.
  - now destruct k'.
Qed.

(** Entry [alpha][beta] of the table counts the ordered pairs with input
    difference [alpha] and output difference [beta]. *)
Lemma ddtOf_get2 sb alpha beta :
  0 <= alpha < 256 -> 0 <= beta < 256 ->
  get2 (ddtOf sb) alpha beta = ddtAt sb alpha beta.
Proof.
  intros Ha Hb. unfold ddtOf, ddtAt, for_. change size with 256.
  destruct (fold_fold_incr2
              256 256 (fun x1 x2 => Z.lxor x1 x2)
              (fun x1 x2 => Z.lxor (get sb x1) (get sb x2))
              (zrange 0 256) (zrange 0 256) (fill 256 (fill 256 0))
              alpha beta) as [_ E].
  - apply (shape_fill 256 256); lia.
  - lia.
  - lia.
  - rewrite E, get2_fill. lia.
Qed.

Lemma zsum_double_sym (c : Z -> Z -> Z) l :
  (forall x y, c x y = c y x) ->
  exists k, zsum (fun x => zsum (c x) l) l = zsum (fun x => c x x) l + 2 * k.
Proof.
  intros Hsym. induction l as [|a l (k & IH)].
  - exists 0. reflexivity.
  - exists (k + zsum (c a) l). cbn [zsum].
    rewrite (zsum_add (fun x => c x a) (fun x => zsum (c x) l)), IH.
    rewrite (zsum_ext_in (fun x => c x a) (c a)) by (intros; apply Hsym).
    lia.
Qed.

Lemma ddtAt_even sb alpha beta : Z.even (ddtAt sb alpha beta) = true.
Proof.
  unfold ddtAt.
  destruct (zsum_double_sym
              (fun x1 x2 => b2z ((Z.lxor x1 x2 =? alpha)
                                 && (Z.lxor (get sb x1) (get sb x2) =? beta)))
              (zrange 0 256)) as (k & E).
  - intros x y. now rewrite (Z.lxor_comm x y), (Z.lxor_comm (get sb x)).
  - rewrite E.
    rewrite (zsum_ext_in _ (fun _ => b2z ((0 =? alpha) && (0 =? beta))))
      by (intros x _; now rewrite !Z.lxor_nilpotent).
    rewrite zsum_const, zrange_length.
    change (Z.of_nat (Z.to_nat (256 - 0))) with 256.
    replace (b2z ((0 =? alpha) && (0 =? beta)) * 256 + 2 * k)
      with (2 * (b2z ((0 =? alpha) && (0 =? beta)) * 128 + k)) by lia.
    now rewrite Z.even_mul.
Qed.

Lemma zsum_swap {A B} (f : A -> B -> Z) l l' :
  zsum (fun b => zsum (fun x => f b x) l) l'
  = zsum (fun x => zsum (fun b => f b x) l') l.
Proof.
  induction l' as [|b l' IH]; cbn [zsum].
  - induction l as [|x l IHl]; cbn [zsum]; [reflexivity|].
    now rewrite <- IHl.
  - rewrite IH, <- zsum_add. reflexivity.
Qed.

Lemma zsum_indicator v l :
  NoDup l -> In v l -> zsum (fun b => b2z (v =? b)) l = 1.
Proof.
  induction 1 as [|a l Hn Hd IH]; intros Hin; [contradiction|].
  cbn [zsum]. destruct Hin as [->|Hin].
  - rewrite Z.eqb_refl. cbn [b2z].
    rewrite (zsum_ext_in _ (fun _ => 0)), zsum_const; [lia|].
    intros b Hb. destruct (Z.eqb_spec v b) as [->|]; [contradiction|reflexivity].
  - rewrite IH by assumption.
    destruct (Z.eqb_spec v a) as [->|]; [contradiction|]. reflexivity.
Qed.

Lemma lxor_eq_iff x y a : Z.lxor x y = a <-> y = Z.lxor x a.
Proof.
  split; intros H; subst.
  - now rewrite <- Z.lxor_assoc, Z.lxor_nilpotent, Z.lxor_0_l.
  - now rewrite <- Z.lxor_assoc, Z.lxor_nilpotent, Z.lxor_0_l.
Qed.

Lemma ddtAt_row_sum sb alpha :
  (forall x, 0 <= x < 256 -> 0 <= get sb x < 256) ->
  0 <= alpha < 256 ->
  zsum (fun beta => ddtAt sb alpha beta) (zrange 0 256) = 256.
Proof.
  intros Hsb Ha. unfold ddtAt.
  rewrite zsum_swap.
  rewrite (zsum_ext_in _ (fun _ => 1)).
  { rewrite zsum_const, zrange_length. reflexivity. }
  intros x1 H1. apply zrange_In in H1.
  rewrite zsum_swap.
  rewrite (zsum_ext_in _ (fun x2 => b2z (Z.lxor x1 alpha =? x2))).
  { apply zsum_indicator; [apply zrange_NoDup|].
    apply zrange_In. now apply lxor_byte. }
  intros x2 H2. apply zrange_In in H2.
  rewrite (zsum_ext_in
             _ (fun b => b2z (Z.lxor x1 x2 =? alpha)
                         * b2z (Z.lxor (get sb x1) (get sb x2) =? b)))
    by (intros b _; now destruct (Z.lxor x1 x2 =? alpha),
                      (Z.lxor (get sb x1) (get sb x2) =? b)).
  rewrite zsum_scale, zsum_indicator;
    [ | apply zrange_NoDup | apply zrange_In, lxor_byte; now apply Hsb ].
  rewrite Z.mul_1_r. f_equal.
  destruct (Z.eqb_spec (Z.lxor x1 x2) alpha) as [E|E];
    destruct (Z.eqb_spec (Z.lxor x1 alpha) x2) as [E'|E']; auto.
  - apply lxor_eq_iff in E. congruence.
  - symmetry in E'. apply lxor_eq_iff in E'. congruence.
Qed.

Lemma ddtAt_0_0 sb : ddtAt sb 0 0 = 256.
Proof.
  unfold ddtAt.
  rewrite (zsum_ext_in _ (fun _ => 1)).
  { rewrite zsum_const, zrange_length. reflexivity. }
  intros x1 H1. apply zrange_In in H1.
  rewrite (zsum_ext_in _ (fun x2 => b2z (x1 =? x2))).
  { apply zsum_indicator; [apply zrange_NoDup | now apply zrange_In]. }
  intros x2 _.
  destruct (Z.eqb_spec x1 x2) as [->|Hne].
  - now rewrite !Z.lxor_nilpotent.
  - destruct (Z.eqb_spec (Z.lxor x1 x2) 0) as [E|E]; [|reflexivity].
    apply Z.lxor_eq in E. contradiction.
Qed.

End DDT.

(** ** Permutations of the bytes *)
Section Permutations.

Lemma permutation256_length sb : permutation256 sb -> length sb = 256%nat.
Proof.
  intros H. apply Permutation_length in H. now rewrite zrange_length in H.
Qed.

Lemma permutation256_byte sb y :
  permutation256 sb -> In y sb -> 0 <= y < 256.
Proof.
  intros H Hy. apply zrange_In. now apply (Permutation_in _ H).
Qed.

Lemma get_In (l : list Z) x :
  0 <= x < Z.of_nat (length l) -> In (get l x) l.
Proof. intros H. unfold get. apply nth_In. lia. Qed.

Lemma permutation256_get sb x :
  permutation256 sb -> 0 <= x < 256 -> 0 <= get sb x < 256.
Proof.
  intros H Hx. apply (permutation256_byte sb); [assumption|].
  apply get_In. rewrite (permutation256_length sb H). lia.
Qed.

(** A list of 256 numbers in which every byte occurs is a permutation. *)
Lemma covering_permutation sb :
  length sb = 256%nat ->
  (forall v, 0 <= v < 256 -> In v sb) ->
  permutation256 sb.
Proof.
  intros Hl Hc. unfold permutation256. symmetry.
  apply NoDup_Permutation_bis.
  - apply zrange_NoDup.
  - rewrite zrange_length, Hl. reflexivity.
  - intros v Hv. apply Hc. now apply zrange_In.
Qed.

Lemma covering_checked sb :
  length sb = 256%nat ->
  forallb (fun v => existsb (Z.eqb v) sb) (zrange 0 256) = true ->
  permutation256 sb.
Proof.
  intros Hl Hc. apply covering_permutation; [assumption|].
  intros v Hv.
  pose proof (byte_forallb _ Hc v Hv) as E. cbn beta in E.
  apply existsb_exists in E. destruct E as (y & Hy & E).
  apply Z.eqb_eq in E. now subst y.
Qed.

(** A list of 256 distinct bytes is a permutation. *)
Lemma nodup_permutation sb :
  length sb = 256%nat -> NoDup sb ->
  (forall y, In y sb -> 0 <= y < 256) ->
  permutation256 sb.
Proof.
  intros Hl Hn Hb. apply NoDup_Permutation_bis.
  - assumption.
  - rewrite zrange_length, Hl. reflexivity.
  - intros y Hy. apply zrange_In. now apply Hb.
Qed.

Lemma identitySBox_permutation : permutation256 identitySBox.
Proof. apply Permutation_refl. Qed.

Lemma swappedSBox_permutation : permutation256 swappedSBox.
Proof. apply covering_checked; vm_compute; reflexivity. Qed.

Lemma fipsSBox_permutation : permutation256 fipsSBox.
Proof. apply covering_checked; vm_compute; reflexivity. Qed.

End Permutations.

(** ** The linear approximation table *)
Section LAT.

Lemma latCount_eq sb a b :
  length sb = 256%nat -> 0 <= a < 256 -> 0 <= b < 256 ->
  latCount precomputeHammingWeights sb a b - 128 = latAt sb a b.
Proof.
  intros Hl Ha Hb. unfold latCount, latAt. change size with 256.
  rewrite for_count_zsum, Z.add_0_l. f_equal.
  rewrite <- (zsum_get_combine
                (fun x y => b2z (parity (Z.land a x) =? parity (Z.land b y)))
                sb 256) by lia.
  apply zsum_ext_in. intros x Hx.
  now rewrite !hammingWeights_parity by now apply land_byte.
Qed.

Lemma latOf_get2 sb a b :
  length sb = 256%nat -> 0 <= a < 256 -> 0 <= b < 256 ->
  get2 (latOf precomputeHammingWeights sb) a b = latAt sb a b.
Proof.
  intros Hl Ha Hb. unfold latOf. change size with 256.
  rewrite for_set2_map by lia.
  rewrite (get2_map_zrange
             (fun a b => latCount precomputeHammingWeights sb a b - 256 / 2))
    by assumption.
  now apply latCount_eq.
Qed.

Lemma latAt_0_0 sb : length sb = 256%nat -> latAt sb 0 0 = 128.
Proof.
  intros Hl. unfold latAt.
  rewrite (zsum_ext_in _ (fun _ => 1)).
  - rewrite zsum_const, combine_length_eq, zrange_length
      by (rewrite zrange_length; lia).
    reflexivity.
  - intros [x y] _. now rewrite !Z.land_0_l.
Qed.

Lemma buildLinearApproximationTable_eq sb this :
  coherent sb this ->
  linearApproxTable (buildLinearApproximationTable this)
  = Some (latOf precomputeHammingWeights sb).
Proof.
  intros (Hs & Hh & _). unfold buildLinearApproximationTable.
  cbn [linearApproxTable with_linearApproxTable]. now rewrite Hs, Hh.
Qed.

Lemma buildDifferenceDistributionTable_eq sb this :
  coherent sb this ->
  differenceTable (buildDifferenceDistributionTable this)
  = Some (ddtOf sb).
Proof.
  intros (Hs & _). unfold buildDifferenceDistributionTable.
  cbn [differenceTable with_differenceTable]. now rewrite Hs.
Qed.

End LAT.

(** C7. For every 256-permutation S-box, every entry of the difference
    distribution table is even, every row of it sums to 256, its entry
    [0][0] is 256, and entry [0][0] of the linear approximation table is
    128. *)
Theorem ddt_even_rows_256_and_origins
        (sboxArray : list Z) (this : SBoxAnalyzer) :
  permutation256 sboxArray ->
  constructor sboxArray = inr this ->
  exists ddt lat,
    differenceTable (buildDifferenceDistributionTable this) = Some ddt
    /\ linearApproxTable (buildLinearApproximationTable this) = Some lat
    /\ (forall alpha beta, 0 <= alpha < 256 -> 0 <= beta < 256 ->
                           Z.even (get2 ddt alpha beta) = true)
    /\ (forall alpha, 0 <= alpha < 256 ->
                      zsum (fun beta => get2 ddt alpha beta) (zrange 0 256)
                      = 256)
    /\ get2 ddt 0 0 = 256
    /\ get2 lat 0 0 = 128.
Proof.
  intros Hp Hc. apply constructor_inr in Hc. destruct Hc as [Hl Hc].
  exists (ddtOf sboxArray), (latOf precomputeHammingWeights sboxArray).
  split; [now apply buildDifferenceDistributionTable_eq|].
  split; [now apply buildLinearApproximationTable_eq|].
  split; [|split; [|split]].
  - intros alpha beta Ha Hb. rewrite ddtOf_get2 by assumption.
    apply ddtAt_even.
  - intros alpha Ha.
    rewrite (zsum_ext_in _ (fun beta => ddtAt sboxArray alpha beta)).
    + apply ddtAt_row_sum; [|assumption].
      intros x Hx. now apply permutation256_get.
    + intros beta Hb. apply zrange_In in Hb. now apply ddtOf_get2.
  - rewrite ddtOf_get2 by lia. apply ddtAt_0_0.
  - rewrite latOf_get2 by (assumption || lia). now apply latAt_0_0.
Qed.

Lemma ddt_even_rows_256_and_origins_witness :
  exists ddt lat,
    differenceTable
      (buildDifferenceDistributionTable
         (mkAnalyzer identitySBox precomputeHammingWeights None None None))
    = Some ddt
    /\ linearApproxTable
         (buildLinearApproximationTable
            (mkAnalyzer identitySBox precomputeHammingWeights None None None))
       = Some lat
    /\ (forall alpha beta, 0 <= alpha < 256 -> 0 <= beta < 256 ->
                           Z.even (get2 ddt alpha beta) = true)
    /\ (forall alpha, 0 <= alpha < 256 ->
                      zsum (fun beta => get2 ddt alpha beta) (zrange 0 256)
                      = 256)
    /\ get2 ddt 0 0 = 256
    /\ get2 lat 0 0 = 128.
Proof.
  apply (ddt_even_rows_256_and_origins
           identitySBox
           (mkAnalyzer identitySBox precomputeHammingWeights None None None)).
  - apply Permutation_refl.
  - reflexivity.
Defined.

(** ** Linear approximation table against Walsh spectra *)
Section LatWalsh.

Lemma zrange_forallb (P : Z -> bool) lo hi :
  forallb P (zrange lo hi) = true -> forall v, lo <= v < hi -> P v = true.
Proof.
  intros H v Hv. rewrite forallb_forall in H. now apply H, zrange_In.
Qed.

Lemma parity_sum a :
  0 <= a < 256 ->
  zsum (fun x => parity (Z.land a x)) (zrange 0 256)
  = if a =? 0 then 0 else 128.
Proof.
  intros H. apply Z.eqb_eq. revert a H.
  apply (byte_forallb
           (fun a => zsum (fun x => parity (Z.land a x)) (zrange 0 256)
                     =? (if a =? 0 then 0 else 128))).
  vm_compute. reflexivity.
Qed.

Lemma parity_single_bit bit y :
  0 <= bit < 8 -> 0 <= y < 256 ->
  parity (Z.land (Z.shiftl 1 bit) y) = bitOf bit y.
Proof.
  intros Hb Hy. apply Z.eqb_eq. revert y Hy.
  apply (byte_forallb
           (fun y => parity (Z.land (Z.shiftl 1 bit) y) =? bitOf bit y)).
  revert bit Hb.
  apply (zrange_forallb
           (fun bit =>
              forallb (fun y => parity (Z.land (Z.shiftl 1 bit) y)
                                =? bitOf bit y) (zrange 0 256)) 0 8).
  vm_compute. reflexivity.
Qed.

Lemma single_bit_masks b :
  0 <= b < 256 -> hammingWeight b <= 1 ->
  b = 0 \/ exists bit, 0 <= bit < 8 /\ b = Z.shiftl 1 bit.
Proof.
  intros Hb Hw.
  assert (E : (1 <? hammingWeight b) || (b =? 0)
              || existsb (fun bit => b =? Z.shiftl 1 bit) (zrange 0 8)
              = true).
  { revert b Hb Hw. intros b Hb _. revert b Hb.
    apply (byte_forallb
             (fun b => (1 <? hammingWeight b) || (b =? 0)
                       || existsb (fun bit => b =? Z.shiftl 1 bit)
                                  (zrange 0 8))).
    vm_compute. reflexivity. }
  apply orb_true_iff in E. destruct E as [E|E].
  - apply orb_true_iff in E. destruct E as [E|E].
    + apply Z.ltb_lt in E. lia.
    + left. now apply Z.eqb_eq.
  - right. apply existsb_exists in E. destruct E as (bit & Hin & E).
    exists bit. split; [now apply zrange_In | now apply Z.eqb_eq].
Qed.

Lemma zsum_combine_fst {B} (F : Z -> Z) (l : list Z) (l' : list B) :
  length l = length l' ->
  zsum (fun '(x, _) => F x) (combine l l') = zsum F l.
Proof.
  revert l'. induction l as [|x l IH]; intros [|y l'] H; cbn in *;
    try discriminate; auto. rewrite IH; auto.
Qed.

Lemma zsum_combine_snd {A} (G : Z -> Z) (l : list A) (l' : list Z) :
  length l = length l' ->
  zsum (fun '(_, y) => G y) (combine l l') = zsum G l'.
Proof.
  revert l'. induction l as [|x l IH]; intros [|y l'] H; cbn in *;
    try discriminate; auto. rewrite IH; auto.
Qed.

Lemma combine_map_r {A B C} (f : B -> C) (l : list A) (l' : list B) :
  combine l (map f l') = map (fun '(x, y) => (x, f y)) (combine l l').
Proof.
  revert l'. induction l as [|x l IH]; intros [|y l']; cbn; auto.
  now rewrite IH.
Qed.

Lemma b2z_eqb_bits p q :
  (p = 0 \/ p = 1) -> (q = 0 \/ q = 1) ->
  b2z (p =? q) = 1 - p - q + 2 * (p * q).
Proof. intros [-> | ->] [-> | ->]; reflexivity. Qed.

(** The count behind an entry, split into the two parity sums. *)
Lemma latAt_split sb a b :
  permutation256 sb -> 0 <= a < 256 -> 0 <= b < 256 ->
  exists k,
    latAt sb a b
    = 128 - (if a =? 0 then 0 else 128) - (if b =? 0 then 0 else 128)
      + 2 * k.
Proof.
  intros Hp Ha Hb. pose proof (permutation256_length sb Hp) as Hl.
  set (f1 := fun p : Z * Z => let '(x, _) := p in
                              1 + (-1) * parity (Z.land a x)).
  set (f2 := fun p : Z * Z => let '(_, y) := p in
                              (-1) * parity (Z.land b y)).
  set (f3 := fun p : Z * Z => let '(x, y) := p in
                              parity (Z.land a x) * parity (Z.land b y)).
  exists (zsum f3 (combine (zrange 0 256) sb)).
  unfold latAt.
  rewrite (zsum_ext_in _ (fun p => f1 p + (f2 p + 2 * f3 p))).
  2:{ intros [x y] _. unfold f1, f2, f3.
      rewrite b2z_eqb_bits by apply parity_cases. lia. }
  assert (L : length (zrange 0 256) = length sb)
    by (rewrite zrange_length; lia).
  rewrite (zsum_add f1), (zsum_add f2), (zsum_scale f3).
  unfold f1, f2.
  rewrite (zsum_combine_fst (fun x => 1 + (-1) * parity (Z.land a x)))
    by assumption.
  rewrite (zsum_combine_snd (fun y => (-1) * parity (Z.land b y)))
    by assumption.
  rewrite (zsum_perm _ _ _ Hp).
  rewrite zsum_add, !zsum_scale, zsum_const, zrange_length.
  rewrite !parity_sum by assumption.
  change (Z.of_nat (Z.to_nat (256 - 0))) with 256. lia.
Qed.

Lemma latAt_even sb a b :
  permutation256 sb -> 0 <= a < 256 -> 0 <= b < 256 ->
  Z.even (latAt sb a b) = true.
Proof.
  intros Hp Ha Hb. destruct (latAt_split sb a b Hp Ha Hb) as (k & ->).
  destruct (a =? 0), (b =? 0).
  - replace (128 - 0 - 0 + 2 * k) with (2 * (64 + k)) by lia.
    now rewrite Z.even_mul.
  - replace (128 - 0 - 128 + 2 * k) with (2 * k) by lia.
    now rewrite Z.even_mul.
  - replace (128 - 128 - 0 + 2 * k) with (2 * k) by lia.
    now rewrite Z.even_mul.
  - replace (128 - 128 - 128 + 2 * k) with (2 * (k - 64)) by lia.
    now rewrite Z.even_mul.
Qed.

Lemma sign_as_agreement t d :
  (t = 0 \/ t = 1) -> (d = 0 \/ d = 1) ->
  (-1) ^ Z.lxor t d = 2 * b2z (d =? t) - 1.
Proof. intros [-> | ->] [-> | ->]; reflexivity. Qed.

(** A Walsh coefficient of output bit [bit] is twice the entry of the
    table at the mask of that bit. *)
Lemma walshAt_latAt sb a bit :
  permutation256 sb -> 0 <= a < 256 -> 0 <= bit < 8 ->
  walshAt (map (bitOf bit) sb) a = 2 * latAt sb a (Z.shiftl 1 bit).
Proof.
  intros Hp Ha Hbit. pose proof (permutation256_length sb Hp) as Hl.
  unfold walshAt, walshSum, latAt. rewrite combine_map_r, zsum_map.
  rewrite (zsum_ext_in
             _ (fun p =>
                  2 * (let '(x, y) := p in
                       b2z (parity (Z.land a x)
                            =? parity (Z.land (Z.shiftl 1 bit) y)))
                  + (-1))).
  - rewrite zsum_add, zsum_scale, zsum_const, combine_length_eq,
      zrange_length by (rewrite zrange_length; lia).
    change (Z.of_nat (Z.to_nat (256 - 0))) with 256. lia.
  - intros [x y] Hin. apply in_combine_r in Hin.
    rewrite parity_single_bit
      by (assumption || now apply (permutation256_byte sb)).
    rewrite sign_as_agreement by (apply bitOf_cases || apply parity_cases).
    rewrite (Z.land_comm x a). lia.
Qed.

Lemma fold_max_abs_ge l m0 :
  m0 <= fold_left (fun m v => Z.max m (Z.abs v)) l m0
  /\ forall v, In v l ->
               Z.abs v <= fold_left (fun m v => Z.max m (Z.abs v)) l m0.
Proof.
  revert m0. induction l as [|x l IH]; intros m0; cbn [fold_left].
  - split; [lia | contradiction].
  - destruct (IH (Z.max m0 (Z.abs x))) as [H1 H2]. split; [lia|].
    intros v [->|Hv]; [lia | now apply H2].
Qed.

Lemma maxAbs_ge l v : In v l -> Z.abs v <= maxAbs l.
Proof. apply fold_max_abs_ge. Qed.

Lemma maxAbs_nonneg l : 0 <= maxAbs l.
Proof. apply fold_max_abs_ge. Qed.

Lemma walshOf_tl truthTable :
  tl (walshOf truthTable) = map (walshAt truthTable) (zrange 1 256).
Proof. rewrite walshOf_unfold. now rewrite (zrange_cons 0 256) by lia. Qed.

Lemma fold_min_num_spec (g : Z -> Z) l m0 :
  (l <> [] \/ exists z, m0 = Fin z) ->
  exists nl,
    fold_left (fun m b => min_num m (g b)) l m0 = Fin nl
    /\ (forall b, In b l -> nl <= g b)
    /\ (forall z, m0 = Fin z -> nl <= z).
Proof.
  revert m0. induction l as [|x l IH]; intros m0 H; cbn [fold_left].
  - destruct H as [H|(z & ->)]; [contradiction|].
    exists z. repeat split; [contradiction | intros ? [= ->]; lia].
  - destruct (IH (min_num m0 (g x))) as (nl & E & H1 & H2).
    { right. destruct m0; cbn; eauto. }
    exists nl. split; [assumption|]. split.
    + intros b [->|Hb]; [|now apply H1].
      destruct m0 as [z|]; cbn in H2.
      * specialize (H2 _ eq_refl). lia.
      * specialize (H2 _ eq_refl). lia.
    + intros z ->. cbn in H2. specialize (H2 _ eq_refl). lia.
Qed.

Lemma nonlinearityOf_spec sb :
  exists nl, nonlinearityOf sb = Fin nl
             /\ forall bit, 0 <= bit < 8 -> nl <= nlOfBit sb bit.
Proof.
  unfold nonlinearityOf, for_.
  destruct (fold_min_num_spec (nlOfBit sb) (zrange 0 8) Infinity)
    as (nl & E & H & _).
  - left. rewrite zrange_cons by lia. discriminate.
  - exists nl. split; [assumption|]. intros bit Hb. now apply H, zrange_In.
Qed.

Lemma nlOfBit_bound sb bit a :
  1 <= a < 256 ->
  Z.abs (walshAt (map (bitOf bit) sb) a) / 2 <= 128 - nlOfBit sb bit.
Proof.
  intros Ha. unfold nlOfBit. rewrite walshOf_tl.
  assert (Z.abs (walshAt (map (bitOf bit) sb) a)
          <= maxAbs (map (walshAt (map (bitOf bit) sb)) (zrange 1 256))).
  { apply maxAbs_ge, in_map, zrange_In. lia. }
  assert (Z.abs (walshAt (map (bitOf bit) sb) a) / 2
          <= maxAbs (map (walshAt (map (bitOf bit) sb)) (zrange 1 256)) / 2)
    by (apply Z.div_le_mono; lia).
  lia.
Qed.

Lemma nlOfBit_le_128 sb bit : nlOfBit sb bit <= 128.
Proof.
  unfold nlOfBit.
  pose proof (maxAbs_nonneg (tl (walshOf (map (bitOf bit) sb)))).
  assert (0 <= maxAbs (tl (walshOf (map (bitOf bit) sb))) / 2)
    by (apply Z.div_pos; lia).
  lia.
Qed.

End LatWalsh.

Section LatBound.

Lemma latAt_zero_output sb a :
  permutation256 sb -> 0 <= a < 256 -> a <> 0 -> latAt sb a 0 = 0.
Proof.
  intros Hp Ha Hne. pose proof (permutation256_length sb Hp) as Hl.
  unfold latAt.
  rewrite (zsum_ext_in
             _ (fun '(x, _) => 1 + (-1) * parity (Z.land a x))).
  2:{ intros [x y] _. rewrite Z.land_0_l.
      destruct (parity_cases (Z.land a x)) as [-> | ->]; reflexivity. }
  rewrite (zsum_combine_fst (fun x => 1 + (-1) * parity (Z.land a x)))
    by (rewrite zrange_length; lia).
  rewrite zsum_add, zsum_scale, zsum_const, zrange_length, parity_sum
    by assumption.
  destruct (Z.eqb_spec a 0); [contradiction|]. reflexivity.
Qed.

Lemma walshAt_zero_mask sb bit :
  permutation256 sb -> 0 <= bit < 8 ->
  walshAt (map (bitOf bit) sb) 0 = 0.
Proof.
  intros Hp Hbit. pose proof (permutation256_length sb Hp) as Hl.
  unfold walshAt, walshSum.
  rewrite (zsum_ext_in _ (fun '(_, t) => (-1) ^ Z.lxor t 0)).
  2:{ intros [x t] _. now rewrite Z.land_0_r. }
  rewrite (zsum_combine_snd (fun t => (-1) ^ Z.lxor t 0))
    by (rewrite zrange_length, length_map; lia).
  rewrite zsum_map, (zsum_perm _ _ _ Hp).
  apply Z.eqb_eq. revert bit Hbit.
  apply (zrange_forallb
           (fun bit => zsum (fun x => (-1) ^ Z.lxor (bitOf bit x) 0)
                            (zrange 0 256) =? 0) 0 8).
  vm_compute. reflexivity.
Qed.

Lemma latAt_single_bit_bound sb a b nl :
  permutation256 sb -> 0 <= a < 256 -> 0 <= b < 256 ->
  a <> 0 \/ b <> 0 -> hammingWeight b <= 1 ->
  (forall bit, 0 <= bit < 8 -> nl <= nlOfBit sb bit) ->
  Z.abs (latAt sb a b) <= 128 - nl.
Proof.
  intros Hp Ha Hb Hne Hw Hnl.
  pose proof (Hnl 0 ltac:(lia)) as H0.
  pose proof (nlOfBit_le_128 sb 0) as H128.
  destruct (single_bit_masks b Hb Hw) as [-> | (bit & Hbit & ->)].
  - rewrite latAt_zero_output by (assumption || lia). lia.
  - pose proof (walshAt_latAt sb a bit Hp Ha Hbit) as E.
    destruct (Z.eq_dec a 0) as [-> | Ha0].
    + rewrite walshAt_zero_mask in E by assumption.
      replace (latAt sb 0 (Z.shiftl 1 bit)) with 0 by lia. lia.
    + pose proof (nlOfBit_bound sb bit a ltac:(lia)) as B.
      rewrite E in B.
      replace (Z.abs (2 * latAt sb a (Z.shiftl 1 bit)) / 2)
        with (Z.abs (latAt sb a (Z.shiftl 1 bit))) in B.
      * specialize (Hnl bit Hbit). lia.
      * rewrite Z.abs_mul, Z.mul_comm. change (Z.abs 2) with 2.
        now rewrite Z.div_mul.
Qed.

End LatBound.

(** C4, as the code has it.  For every 256-permutation S-box every entry of
    the linear approximation table is even, and the absolute value of an
    entry [a][b] other than [0][0] is at most 128 minus the reported
    nonlinearity whenever the output mask [b] has at most one bit set: the
    reported nonlinearity is the minimum over the eight single output
    bits. *)
Theorem lat_even_and_single_bit_bound
        (sboxArray : list Z) (this : SBoxAnalyzer) :
  permutation256 sboxArray ->
  constructor sboxArray = inr this ->
  exists lat nl,
    linearApproxTable (buildLinearApproximationTable this) = Some lat
    /\ fst (calculateNonlinearity this) = Fin nl
    /\ (forall a b, 0 <= a < 256 -> 0 <= b < 256 ->
                    Z.even (get2 lat a b) = true)
    /\ (forall a b, 0 <= a < 256 -> 0 <= b < 256 ->
                    a <> 0 \/ b <> 0 -> hammingWeight b <= 1 ->
                    Z.abs (get2 lat a b) <= 128 - nl).
Proof.
  intros Hp Hc. apply constructor_inr in Hc. destruct Hc as [Hl Hc].
  destruct (nonlinearityOf_spec sboxArray) as (nl & Enl & Hnl).
  exists (latOf precomputeHammingWeights sboxArray), nl.
  split; [now apply buildLinearApproximationTable_eq|].
  split.
  { destruct (calculateNonlinearity_eq sboxArray this Hl Hc) as [E _].
    now rewrite E. }
  split.
  - intros a b Ha Hb. rewrite latOf_get2 by assumption.
    now apply latAt_even.
  - intros a b Ha Hb Hne Hw. rewrite latOf_get2 by assumption.
    now apply latAt_single_bit_bound.
Qed.

Lemma lat_even_and_single_bit_bound_witness :
  exists lat nl,
    linearApproxTable
      (buildLinearApproximationTable
         (mkAnalyzer identitySBox precomputeHammingWeights None None None))
    = Some lat
    /\ fst (calculateNonlinearity
              (mkAnalyzer identitySBox precomputeHammingWeights
                          None None None)) = Fin nl
    /\ (forall a b, 0 <= a < 256 -> 0 <= b < 256 ->
                    Z.even (get2 lat a b) = true)
    /\ (forall a b, 0 <= a < 256 -> 0 <= b < 256 ->
                    a <> 0 \/ b <> 0 -> hammingWeight b <= 1 ->
                    Z.abs (get2 lat a b) <= 128 - nl).
Proof.
  apply (lat_even_and_single_bit_bound
           identitySBox
           (mkAnalyzer identitySBox precomputeHammingWeights None None None)).
  - apply Permutation_refl.
  - reflexivity.
Defined.

(** C4 as stated fails: on the identity with the images of 0 and 255
    exchanged, a 256-permutation, the reported nonlinearity is 2 while entry
    [3][3] of the linear approximation table is 128, above 128 - 2. *)
Lemma lat_bound_fails_on_swapped_identity :
  permutation256 swappedSBox
  /\ constructor swappedSBox
     = inr (mkAnalyzer swappedSBox precomputeHammingWeights None None None)
  /\ exists lat,
      linearApproxTable
        (buildLinearApproximationTable
           (mkAnalyzer swappedSBox precomputeHammingWeights None None None))
      = Some lat
      /\ fst (calculateNonlinearity
                (mkAnalyzer swappedSBox precomputeHammingWeights
                            None None None)) = Fin 2
      /\ get2 lat 3 3 = 128
      /\ ~ (Z.abs (get2 lat 3 3) <= 128 - 2).
Proof.
  split; [apply swappedSBox_permutation|].
  split; [reflexivity|].
  assert (Hc : coherent swappedSBox
                 (mkAnalyzer swappedSBox precomputeHammingWeights
                             None None None)).
  { apply (constructor_inr swappedSBox). reflexivity. }
  assert (Hl : length swappedSBox = 256%nat) by reflexivity.
  exists (latOf precomputeHammingWeights swappedSBox).
  split; [now apply buildLinearApproximationTable_eq|].
  split.
  { destruct (calculateNonlinearity_eq swappedSBox _ Hl Hc) as [E _].
    rewrite E. vm_compute. reflexivity. }
  assert (E : get2 (latOf precomputeHammingWeights swappedSBox) 3 3 = 128).
  { rewrite latOf_get2 by (assumption || lia). vm_compute. reflexivity. }
  split; [assumption|]. rewrite E. lia.
Qed.

(** ** Correlation immunity *)
Section CorrelationImmunity.

Lemma for_break_exists (c : Z -> bool) l h0 :
  for_break_list l (fun mask h => if c mask then (true, false) else (h, true))
                 h0
  = if existsb c l then true else h0.
Proof.
  revert h0. induction l as [|x l IH]; intros h0; cbn [for_break_list existsb].
  - reflexivity.
  - destruct (c x); cbn [orb]; [reflexivity | apply IH].
Qed.

Lemma hasZeroWalshAt_eq this walsh weight :
  hammingWeights this = precomputeHammingWeights ->
  hasZeroWalshAt this walsh weight = zeroAtWeight walsh weight.
Proof.
  intros Hh. unfold hasZeroWalshAt, zeroAtWeight, for_break.
  change size with 256. rewrite for_break_exists.
  rewrite Hh.
  assert (E : existsb (fun mask => (get precomputeHammingWeights mask =? weight)
                                   && (get walsh mask =? 0)) (zrange 0 256)
              = existsb (fun mask => (hammingWeight mask =? weight)
                                     && (get walsh mask =? 0)) (zrange 0 256)).
  { generalize (fun x => proj1 (zrange_In 0 256 x)).
    generalize (zrange 0 256) as l.
    induction l as [|x l IH]; intros H; cbn [existsb]; [reflexivity|].
    rewrite hammingWeights_get by (apply H; now left).
    f_equal. apply IH. intros y Hy. apply H. now right. }
  rewrite E. now destruct (existsb _ _).
Qed.

Lemma ciOfWalsh_eq this walsh :
  hammingWeights this = precomputeHammingWeights ->
  ciOfWalsh this walsh = ciExistsOf walsh.
Proof.
  intros Hh. unfold ciOfWalsh, ciExistsOf, for_break. change (n + 1) with 9.
  generalize 0 as ci. generalize (zrange 1 9) as l.
  induction l as [|w l IH]; intros ci; cbn [for_break_list ciExistsFrom].
  - reflexivity.
  - rewrite hasZeroWalshAt_eq by assumption.
    destruct (zeroAtWeight walsh w); [apply IH | reflexivity].
Qed.

Lemma ciExistsFrom_spec (h : Z -> bool) walsh k lo :
  (forall w, zeroAtWeight walsh w = h w) ->
  Z.of_nat k = 9 - lo -> 1 <= lo ->
  let r := ciExistsFrom walsh (zrange lo 9) (lo - 1) in
  lo - 1 <= r <= 8
  /\ (forall w, lo <= w <= r -> h w = true)
  /\ (r < 8 -> h (r + 1) = false).
Proof.
  intros Hh. revert lo. induction k as [|k IH]; intros lo Hk Hlo; cbn zeta.
  - rewrite zrange_nil by lia. cbn [ciExistsFrom].
    repeat split; try lia.
  - rewrite zrange_cons by lia. cbn [ciExistsFrom]. rewrite Hh.
    destruct (h lo) eqn:E.
    + specialize (IH (lo + 1) ltac:(lia) ltac:(lia)). cbn zeta in IH.
      replace (lo + 1 - 1) with lo in IH by lia.
      destruct IH as (H1 & H2 & H3). repeat split; try lia; auto.
      intros w Hw. destruct (Z.eq_dec w lo) as [->|]; [assumption|].
      apply H2. lia.
    + repeat split; try lia.
      intros _. now replace (lo - 1 + 1) with lo by lia.
Qed.

Lemma zeroAtWeight_true walsh weight :
  zeroAtWeight walsh weight = true <->
  exists mask, 0 <= mask < 256 /\ hammingWeight mask = weight
               /\ get walsh mask = 0.
Proof.
  unfold zeroAtWeight. rewrite existsb_exists. split.
  - intros (mask & Hin & E). apply andb_true_iff in E. destruct E as [E1 E2].
    apply zrange_In in Hin. apply Z.eqb_eq in E1, E2.
    exists mask. split; [assumption|]. now split.
  - intros (mask & Hm & E1 & E2). exists mask. split; [now apply zrange_In|].
    apply andb_true_iff. split; now apply Z.eqb_eq.
Qed.

Lemma ciExistsOf_spec walsh : isCIExists walsh (ciExistsOf walsh).
Proof.
  pose proof (ciExistsFrom_spec (zeroAtWeight walsh) walsh 8 1
                                (fun _ => eq_refl) eq_refl ltac:(lia))
    as (H1 & H2 & H3).
  change (1 - 1) with 0 in *. fold (ciExistsOf walsh) in *.
  unfold isCIExists. split; [lia|]. split.
  - intros weight Hw. apply zeroAtWeight_true. now apply H2.
  - intros Hlt mask Hm Hwt Hz. specialize (H3 Hlt).
    assert (zeroAtWeight walsh (ciExistsOf walsh + 1) = true)
      by (apply zeroAtWeight_true; eauto).
    congruence.
Qed.

Lemma calculateCorrelationImmunity_eq sb this :
  length sb = 256%nat -> coherent sb this ->
  fst (calculateCorrelationImmunity this) = correlationImmunityOf sb
  /\ coherent sb (snd (calculateCorrelationImmunity this)).
Proof.
  intros Hl Hc. unfold calculateCorrelationImmunity, correlationImmunityOf.
  change n with 8.
  apply (for_thread
           sb _
           (fun bit m =>
              Z.max m (ciExistsOf (walshOf (map (bitOf bit) sb)))));
    [|exact Hc].
  intros bit m this' Hbit Hc'.
  destruct (getBooleanFunction_spec sb this' bit Hc' Hbit) as [E1 E2].
  destruct (getBooleanFunction bit this') as [tt this''].
  cbn [fst snd] in *. split; [|assumption].
  f_equal. rewrite ciOfWalsh_eq by now apply coherent_hw with sb.
  rewrite walshHadamardTransform_eq.
  - subst tt. now rewrite truthTableOf_eq.
  - now apply coherent_hw with sb.
  - subst tt. now rewrite truthTableOf_eq, length_map.
Qed.

Lemma fold_max_spec (g : Z -> Z) l m0 :
  let r := fold_left (fun m b => Z.max m (g b)) l m0 in
  m0 <= r /\ (forall b, In b l -> g b <= r)
  /\ (r = m0 \/ exists b, In b l /\ r = g b).
Proof.
  revert m0. induction l as [|x l IH]; intros m0; cbn [fold_left]; cbn zeta.
  - repeat split; auto; try lia. contradiction.
  - destruct (IH (Z.max m0 (g x))) as (H1 & H2 & H3). cbn zeta in *.
    split; [lia|]. split.
    + intros b [->|Hb]; [lia | now apply H2].
    + destruct H3 as [H3|(b & Hb & H3)].
      * destruct (Z.max_spec m0 (g x)) as [[_ E]|[_ E]];
          rewrite E in H3 |- *.
        -- right. exists x. split; [now left | assumption].
        -- now left.
      * right. exists b. split; [now right | assumption].
Qed.

End CorrelationImmunity.

(** C1, as the code has it.  For every 256-permutation S-box the reported
    correlation immunity is the maximum over the eight output bits of the
    largest [k] such that, for each weight from 1 up to [k], some mask of
    that weight has a zero Walsh coefficient; it is 0 for a bit when no
    weight-1 mask has a zero coefficient. *)
Theorem correlation_immunity_some_mask_per_weight
        (sboxArray : list Z) (this : SBoxAnalyzer) :
  permutation256 sboxArray ->
  constructor sboxArray = inr this ->
  exists ci : Z -> Z,
    (forall bit, 0 <= bit < 8 ->
       isCIExists
         (walshHadamardTransform (snd (getBooleanFunction bit this))
                                 (fst (getBooleanFunction bit this)))
         (ci bit))
    /\ (forall bit, 0 <= bit < 8 ->
                    ci bit <= fst (calculateCorrelationImmunity this))
    /\ (exists bit, 0 <= bit < 8
                    /\ fst (calculateCorrelationImmunity this) = ci bit).
Proof.
  intros Hp Hc. apply constructor_inr in Hc. destruct Hc as [Hl Hc].
  exists (fun bit => ciExistsOf (walshOf (map (bitOf bit) sboxArray))).
  destruct (calculateCorrelationImmunity_eq sboxArray this Hl Hc) as [E _].
  rewrite E. unfold correlationImmunityOf, for_.
  pose proof (fold_max_spec
                (fun bit => ciExistsOf (walshOf (map (bitOf bit) sboxArray)))
                (zrange 0 8) 0) as (H1 & H2 & H3).
  cbn zeta in *. split; [|split].
  - intros bit Hbit.
    destruct (getBooleanFunction_spec sboxArray this bit Hc Hbit) as [E1 E2].
    rewrite E1, truthTableOf_eq by assumption.
    rewrite walshHadamardTransform_eq;
      [|now apply coherent_hw with sboxArray | now rewrite length_map].
    apply ciExistsOf_spec.
  - intros bit Hbit. apply H2. now apply zrange_In.
  - destruct H3 as [H3|(bit & Hin & H3)].
    + exists 0. split; [lia|]. rewrite H3.
      pose proof (H2 0 ltac:(apply zrange_In; lia)) as Hle. cbn beta in Hle.
      rewrite H3 in Hle.
      destruct (ciExistsOf_spec (walshOf (map (bitOf 0) sboxArray)))
        as (Hge & _).
      lia.
    + exists bit. split; [now apply zrange_In | assumption].
Qed.

Lemma correlation_immunity_some_mask_per_weight_witness :
  exists ci : Z -> Z,
    (forall bit, 0 <= bit < 8 ->
       isCIExists
         (walshHadamardTransform
            (snd (getBooleanFunction bit
                    (mkAnalyzer identitySBox precomputeHammingWeights
                                None None None)))
            (fst (getBooleanFunction bit
                    (mkAnalyzer identitySBox precomputeHammingWeights
                                None None None))))
         (ci bit))
    /\ (forall bit, 0 <= bit < 8 ->
                    ci bit
                    <= fst (calculateCorrelationImmunity
                              (mkAnalyzer identitySBox precomputeHammingWeights
                                          None None None)))
    /\ (exists bit, 0 <= bit < 8
                    /\ fst (calculateCorrelationImmunity
                              (mkAnalyzer identitySBox precomputeHammingWeights
                                          None None None)) = ci bit).
Proof.
  apply (correlation_immunity_some_mask_per_weight
           identitySBox
           (mkAnalyzer identitySBox precomputeHammingWeights None None None)).
  - apply Permutation_refl.
  - reflexivity.
Defined.

(** C1 as stated fails: on the identity permutation the analyzer reports
    correlation immunity 8, while the largest [k] such that the Walsh
    coefficient is zero at every non-zero mask of weight at most [k] is 0 for
    every output bit: the coefficient of output bit [i] at the weight-1 mask
    [1 << i] is 256. *)
Lemma correlation_immunity_differs_on_identity :
  permutation256 identitySBox
  /\ constructor identitySBox
     = inr (mkAnalyzer identitySBox precomputeHammingWeights None None None)
  /\ fst (calculateCorrelationImmunity
            (mkAnalyzer identitySBox precomputeHammingWeights None None None))
     = 8
  /\ correlationImmunityAll identitySBox = 0
  /\ forall bit, 0 <= bit < 8 ->
       hammingWeight (Z.shiftl 1 bit) = 1
       /\ get (walshHadamardTransform
                 (snd (getBooleanFunction bit
                         (mkAnalyzer identitySBox precomputeHammingWeights
                                     None None None)))
                 (fst (getBooleanFunction bit
                         (mkAnalyzer identitySBox precomputeHammingWeights
                                     None None None))))
              (Z.shiftl 1 bit) = 256.
Proof.
  split; [apply identitySBox_permutation|].
  split; [reflexivity|].
  assert (Hc : coherent identitySBox
                 (mkAnalyzer identitySBox precomputeHammingWeights
                             None None None)).
  { apply (constructor_inr identitySBox). reflexivity. }
  assert (Hl : length identitySBox = 256%nat) by reflexivity.
  split.
  { destruct (calculateCorrelationImmunity_eq identitySBox _ Hl Hc) as [E _].
    rewrite E. vm_compute. reflexivity. }
  split; [vm_compute; reflexivity|].
  intros bit Hbit.
  destruct (getBooleanFunction_spec identitySBox _ bit Hc Hbit) as [E1 E2].
  rewrite E1, truthTableOf_eq by assumption.
  rewrite walshHadamardTransform_eq;
    [|now apply coherent_hw with identitySBox | now rewrite length_map].
  assert (E : (hammingWeight (Z.shiftl 1 bit) =? 1)
              && (get (walshOf (map (bitOf bit) identitySBox))
                      (Z.shiftl 1 bit) =? 256) = true).
  { clear E1 E2. revert bit Hbit.
    apply (zrange_forallb
             (fun bit => (hammingWeight (Z.shiftl 1 bit) =? 1)
                         && (get (walshOf (map (bitOf bit) identitySBox))
                                 (Z.shiftl 1 bit) =? 256)) 0 8).
    vm_compute. reflexivity. }
  apply andb_true_iff in E. destruct E as [Ea Eb].
  split; now apply Z.eqb_eq.
Qed.

(** ** Balance, bijection and the input validator *)
Section Validation.

Lemma get_incr arr i' i :
  0 <= i < Z.of_nat (length arr) ->
  get (incr arr i') i = get arr i + b2z (i' =? i).
Proof.
  intros Hi. unfold get, incr, updZ.
  destruct (Z.leb_spec 0 i') as [Hi'|Hi'].
  - destruct (Z.eqb_spec i' i) as [->|Hne].
    + rewrite nth_upd_same by lia. cbn. lia.
    + rewrite nth_upd_other by lia. cbn. lia.
  - destruct (Z.eqb_spec i' i) as [->|Hne]; [lia|]. cbn. lia.
Qed.

Lemma counts_spec sb counts i :
  0 <= i < Z.of_nat (length counts) ->
  length (for_of sb (fun value counts => incr counts value) counts)
  = length counts
  /\ get (for_of sb (fun value counts => incr counts value) counts) i
     = get counts i + zsum (fun y => b2z (y =? i)) sb.
Proof.
  unfold for_of. revert counts.
  induction sb as [|y sb IH]; intros counts Hi; cbn [fold_left zsum].
  - split; [reflexivity | lia].
  - assert (Hl : length (incr counts y) = length counts)
      by apply updZ_length.
    destruct (IH (incr counts y)) as [E1 E2]; [lia|].
    split; [lia|]. rewrite E2, get_incr by assumption. lia.
Qed.

Lemma zsum_indicator_pos sb v :
  0 < zsum (fun y => b2z (y =? v)) sb -> In v sb.
Proof.
  induction sb as [|y sb IH]; cbn [zsum]; [lia|].
  destruct (Z.eqb_spec y v) as [->|Hne]; [now left|].
  cbn [b2z]. intros H. right. apply IH. lia.
Qed.

Lemma isBalanced_permutation this :
  length (sbox this) = 256%nat ->
  isBalanced this = true -> permutation256 (sbox this).
Proof.
  intros Hl H. unfold isBalanced in H. change size with 256 in H.
  apply covering_permutation; [assumption|].
  intros v Hv.
  destruct (counts_spec (sbox this) (fill 256 0) v) as [E1 E2].
  { rewrite fill_length; lia. }
  rewrite forallb_forall in H.
  assert (Hin : In (get (for_of (sbox this)
                                (fun value counts => incr counts value)
                                (fill 256 0)) v)
                   (for_of (sbox this)
                           (fun value counts => incr counts value)
                           (fill 256 0))).
  { apply get_In. rewrite E1, fill_length; lia. }
  apply H in Hin. apply Z.eqb_eq in Hin.
  apply zsum_indicator_pos.
  assert (G : get (fill 256 0) v = 0).
  { unfold get, fill. apply nth_repeat. }
  lia.
Qed.

Lemma nodup_length_le (l : list Z) :
  (length (nodup Z.eq_dec l) <= length l)%nat.
Proof.
  induction l as [|a l IH]; cbn [nodup length]; [lia|].
  destruct (in_dec Z.eq_dec a l); cbn [length]; lia.
Qed.

Lemma nodup_length_NoDup (l : list Z) :
  length (nodup Z.eq_dec l) = length l -> NoDup l.
Proof.
  induction l as [|a l IH]; cbn [nodup length]; intros H.
  - constructor.
  - pose proof (nodup_length_le l).
    destruct (in_dec Z.eq_dec a l) as [Hin|Hin]; cbn [length] in H.
    + lia.
    + constructor; [assumption|]. apply IH. lia.
Qed.

Lemma isBijection_permutation this :
  length (sbox this) = 256%nat ->
  (forall y, In y (sbox this) -> 0 <= y < 256) ->
  isBijection this = true -> permutation256 (sbox this).
Proof.
  intros Hl Hb H. unfold isBijection in H. change size with 256 in H.
  apply Z.eqb_eq in H.
  apply nodup_permutation; try assumption.
  apply nodup_length_NoDup. lia.
Qed.

Lemma runFullAnalysis_flags this :
  res_isBalanced (fst (runFullAnalysis this)) = isBalanced this
  /\ res_isBijection (fst (runFullAnalysis this)) = isBijection this.
Proof.
  unfold runFullAnalysis.
  destruct (calculateNonlinearity this) as [nl this1].
  destruct (calculateDifferentialUniformity this1) as [du this2].
  destruct (calculateAlgebraicDegree this2) as [ad this3].
  destruct (calculateLAP this3) as [lap this4].
  destruct (calculateDAP this4) as [dap this5].
  destruct (calculateBIC_NL this5) as [bicnl this6].
  destruct (calculateCorrelationImmunity this6) as [ci this7].
  split; reflexivity.
Qed.

Lemma runAnalysis_inr sboxArray this :
  constructor sboxArray = inr this ->
  runAnalysis sboxArray
  = inr (fst (runFullAnalysis this),
         generateSummary (fst (runFullAnalysis this))).
Proof.
  intros E. unfold runAnalysis. rewrite E.
  destruct (runFullAnalysis this) as [results this']. reflexivity.
Qed.

Lemma existsb_eqb_In v l : existsb (Z.eqb v) l = true <-> In v l.
Proof.
  rewrite existsb_exists. split.
  - intros (y & Hy & E). apply Z.eqb_eq in E. now subst.
  - intros H. exists v. split; [assumption | apply Z.eqb_refl].
Qed.

(** On bytes the loop of the validator ends with a duplicate or with all
    values distinct. *)
Lemma checkValues_spec values i seen :
  (forall v, In v values -> 0 <= v < 256) ->
  match checkValues values i seen with
  | inl e => NotAPermutation e
  | inr _ => NoDup values /\ forall v, In v values -> ~ In v seen
  end.
Proof.
  revert i seen. induction values as [|val rest IH]; intros i seen Hb;
    cbn [checkValues].
  - split; [constructor | intros v []].
  - assert (Hv : 0 <= val < 256) by (apply Hb; now left).
    replace (val <? 0) with false by (symmetry; apply Z.ltb_ge; lia).
    replace (255 <? val) with false by (symmetry; apply Z.ltb_ge; lia).
    cbn [orb].
    destruct (existsb (Z.eqb val) seen) eqn:E; [exact I|].
    assert (Hns : ~ In val seen).
    { intros Hin. apply existsb_eqb_In in Hin. congruence. }
    specialize (IH (i + 1) (val :: seen)
                   (fun v Hin => Hb v (or_intror Hin))).
    destruct (checkValues rest (i + 1) (val :: seen)) as [e|s'];
      [assumption|].
    destruct IH as [Hn Hd]. split.
    + constructor; [|assumption].
      intros Hin. apply (Hd val Hin). now left.
    + intros v [<-|Hin]; [assumption|].
      intros Hs. apply (Hd v Hin). now right.
Qed.

Lemma validateSBoxValues_rejects values :
  length values = 256%nat ->
  (forall v, In v values -> 0 <= v < 256) ->
  ~ permutation256 values ->
  exists e, validateSBoxValues values = inl e /\ NotAPermutation e.
Proof.
  intros Hl Hb Hnp. unfold validateSBoxValues. rewrite Hl.
  change (negb (Z.of_nat 256 =? 256)) with false. cbn iota.
  pose proof (checkValues_spec values 0 [] Hb) as H.
  destruct (checkValues values 0 []) as [e|seen].
  - exists e. now split.
  - destruct H as [Hn _]. exfalso. apply Hnp.
    now apply nodup_permutation.
Qed.

Lemma validateSBoxValues_length values :
  length values <> 256%nat ->
  validateSBoxValues values
  = inl (InvalidSBoxLength (Z.of_nat (length values))).
Proof.
  intros Hl. unfold validateSBoxValues.
  destruct (Z.eqb_spec (Z.of_nat (length values)) 256); [lia|].
  reflexivity.
Qed.

Lemma runAnalysis_length sboxArray :
  length sboxArray <> 256%nat ->
  runAnalysis sboxArray
  = inl (InvalidSBoxLength (Z.of_nat (length sboxArray))).
Proof.
  intros Hl. unfold runAnalysis, constructor.
  destruct (Z.eqb_spec (Z.of_nat (length sboxArray)) 256); [lia|].
  reflexivity.
Qed.

Lemma bytes_checked (l : list Z) :
  forallb (fun v => (0 <=? v) && (v <? 256)) l = true ->
  forall v, In v l -> 0 <= v < 256.
Proof.
  intros E v Hv. rewrite forallb_forall in E. apply E in Hv.
  apply andb_true_iff in Hv. destruct Hv as [H1 H2].
  apply Z.leb_le in H1. apply Z.ltb_lt in H2. lia.
Qed.

Lemma duplicateSBox_not_permutation : ~ permutation256 duplicateSBox.
Proof.
  intros Hp.
  assert (Hin : In 42 duplicateSBox).
  { apply (Permutation_in _ (Permutation_sym Hp)), zrange_In. lia. }
  apply existsb_eqb_In in Hin. vm_compute in Hin. discriminate.
Qed.

End Validation.

(** C2, as the code has it.  An input whose length is not 256 fails the
    analysis with [InvalidSBoxLength] and no report; a 256-long sequence of
    bytes that is not a permutation is rejected with [NotAPermutation] by
    [validateSBoxValues], the check of the upload path, while the analysis
    itself, whose constructor tests the length only, accepts it and delivers
    a report. *)
Theorem analysis_rejects_length_validator_rejects_duplicates
        (sboxArray : list Z) :
  (length sboxArray <> 256%nat ->
   exists e, runAnalysis sboxArray = inl e /\ IsInvalidSBoxLength e)
  /\ (length sboxArray = 256%nat ->
      (forall v, In v sboxArray -> 0 <= v < 256) ->
      ~ permutation256 sboxArray ->
      (exists e, validateSBoxValues sboxArray = inl e /\ NotAPermutation e)
      /\ exists report, runAnalysis sboxArray = inr report).
Proof.
  split.
  - intros Hl. eexists. split; [now apply runAnalysis_length | exact I].
  - intros Hl Hb Hnp. split; [now apply validateSBoxValues_rejects|].
    destruct (constructor_coherent sboxArray Hl) as (this & E & _).
    rewrite (runAnalysis_inr _ _ E). eexists. reflexivity.
Qed.

Lemma analysis_rejects_length_validator_rejects_duplicates_witness :
  (exists e, runAnalysis (repeat 0 255) = inl e /\ IsInvalidSBoxLength e)
  /\ (exists e, validateSBoxValues duplicateSBox = inl e /\ NotAPermutation e)
  /\ exists report, runAnalysis duplicateSBox = inr report.
Proof.
  split.
  - apply (proj1 (analysis_rejects_length_validator_rejects_duplicates
                    (repeat 0 255))).
    vm_compute. discriminate.
  - apply (proj2 (analysis_rejects_length_validator_rejects_duplicates
                    duplicateSBox)).
    + reflexivity.
    + apply bytes_checked. vm_compute. reflexivity.
    + exact duplicateSBox_not_permutation.
Defined.

(** C2 as stated fails: the 256-long sequence with a duplicated 7 and a
    missing 42 is not a permutation, yet its analysis does not fail: it
    returns a report. *)
Lemma analysis_accepts_duplicate_sbox :
  length duplicateSBox = 256%nat
  /\ ~ permutation256 duplicateSBox
  /\ exists report, runAnalysis duplicateSBox = inr report.
Proof.
  split; [reflexivity|]. split; [exact duplicateSBox_not_permutation|].
  destruct (constructor_coherent duplicateSBox eq_refl) as (this & E & _).
  rewrite (runAnalysis_inr _ _ E). eexists. reflexivity.
Qed.


(** ** The report of the full analysis *)
Section Report.

Lemma calculateDAP_eq sb this :
  coherent sb this ->
  dap_maxDifferential (fst (calculateDAP this)) = maxDiffOf (ddtOf sb)
  /\ dap_table (fst (calculateDAP this)) = ddtOf sb
  /\ coherent sb (snd (calculateDAP this)).
Proof.
  intros Hc. pose proof Hc as (Hs & Hh & Hb & Hl & Hd).
  unfold calculateDAP.
  destruct (differenceTable this) as [t|] eqn:E.
  - rewrite E. cbn [fst snd dap_maxDifferential dap_table].
    rewrite (Hd t eq_refl).
    split; [reflexivity|]. split; [reflexivity|]. exact Hc.
  - unfold buildDifferenceDistributionTable, with_differenceTable.
    cbn [differenceTable fst snd dap_maxDifferential dap_table].
    rewrite Hs. split; [reflexivity|]. split; [reflexivity|].
    coherent_split; [reflexivity | assumption | assumption | assumption | ].
    intros t H. symmetry. exact (some_inj _ _ H).
Qed.

Lemma calculateDifferentialUniformity_eq sb this :
  coherent sb this ->
  fst (calculateDifferentialUniformity this) = maxDiffOf (ddtOf sb)
  /\ coherent sb (snd (calculateDifferentialUniformity this)).
Proof.
  intros Hc. unfold calculateDifferentialUniformity.
  destruct (calculateDAP_eq sb this Hc) as (E1 & _ & E3).
  destruct (calculateDAP this) as [dap this']. cbn [fst snd] in *.
  now split.
Qed.

Lemma calculateBooleanFunctionDegree_fresh sb this truthTable :
  hammingWeights this = precomputeHammingWeights ->
  calculateBooleanFunctionDegree this truthTable
  = calculateBooleanFunctionDegree (freshAnalyzer sb) truthTable.
Proof.
  intros Hh. unfold calculateBooleanFunctionDegree, freshAnalyzer.
  cbn [hammingWeights]. rewrite Hh. reflexivity.
Qed.

Lemma calculateAlgebraicDegree_eq sb this :
  length sb = 256%nat -> coherent sb this ->
  fst (calculateAlgebraicDegree this) = algebraicDegreeOf sb
  /\ coherent sb (snd (calculateAlgebraicDegree this)).
Proof.
  intros Hl Hc. unfold calculateAlgebraicDegree, algebraicDegreeOf.
  change n with 8.
  apply (for_thread
           sb _
           (fun bit m =>
              Z.max m (calculateBooleanFunctionDegree
                         (freshAnalyzer sb) (map (bitOf bit) sb))));
    [|exact Hc].
  intros bit m this' Hbit Hc'.
  destruct (getBooleanFunction_spec sb this' bit Hc' Hbit) as [E1 E2].
  destruct (getBooleanFunction bit this') as [tt this''].
  cbn [fst snd] in *. split; [|assumption].
  subst tt. rewrite truthTableOf_eq by assumption.
  rewrite (calculateBooleanFunctionDegree_fresh sb this'')
    by (apply coherent_hw with sb; assumption).
  reflexivity.
Qed.

Lemma fold_combine_map {S A B} (F : S -> A -> B -> S) (f : A -> B) l s0 :
  fold_left (fun s '(a, p) => F s a p) (combine l (map f l)) s0
  = fold_left (fun s a => F s a (f a)) l s0.
Proof.
  revert s0. induction l as [|a l IH]; intros s0; cbn [map combine fold_left].
  - reflexivity.
  - apply IH.
Qed.

Lemma combine_map_map {A B C D} (f : A -> C) (g : B -> D) l l' :
  combine (map f l) (map g l')
  = map (fun '(x, y) => (f x, g y)) (combine l l').
Proof.
  revert l'. induction l as [|x l IH]; intros [|y l']; cbn; auto.
  now rewrite IH.
Qed.

Lemma agree_latAt sb a b :
  agree (map (fun x => parity (Z.land a x)) (zrange 0 256))
        (map (fun y => parity (Z.land b y)) sb) - 128
  = latAt sb a b.
Proof.
  unfold agree, latAt. rewrite combine_map_map, zsum_map.
  f_equal. apply zsum_ext_in. now intros [x y] _.
Qed.

Lemma maxBiasOf_fast sb :
  length sb = 256%nat ->
  maxBiasOf (latOf precomputeHammingWeights sb) = maxBiasFast sb.
Proof.
  intros Hl. unfold maxBiasOf, maxBiasFast, for_. change size with 256.
  cbn zeta.
  rewrite (fold_combine_map
             (fun m a p =>
                fold_left
                  (fun m '(b, q) =>
                     if negb (a =? 0) || negb (b =? 0)
                     then Z.max m (Z.abs (agree p q - 128)) else m)
                  (combine (zrange 0 256)
                           (map (fun b => map (fun y => parity (Z.land b y)) sb)
                                (zrange 0 256))) m)
             (fun a => map (fun x => parity (Z.land a x)) (zrange 0 256))).
  apply fold_left_ext_in. intros m a Ha. apply zrange_In in Ha.
  rewrite (fold_combine_map
             (fun m b q =>
                if negb (a =? 0) || negb (b =? 0)
                then Z.max m
                       (Z.abs (agree (map (fun x => parity (Z.land a x))
                                          (zrange 0 256)) q - 128))
                else m)
             (fun b => map (fun y => parity (Z.land b y)) sb)).
  apply fold_left_ext_in. intros m' b Hb. apply zrange_In in Hb.
  rewrite latOf_get2 by assumption. rewrite <- agree_latAt. reflexivity.
Qed.

Lemma calculateLAP_eq sb this :
  length sb = 256%nat -> coherent sb this ->
  lap_maxBias (fst (calculateLAP this)) = maxBiasFast sb
  /\ lap_maxLAP (fst (calculateLAP this))
     = ((inject_Z (maxBiasFast sb) / inject_Z 128) ^ 2)%Q
  /\ coherent sb (snd (calculateLAP this)).
Proof.
  intros Hlen Hc. pose proof Hc as (Hs & Hh & Hb & Hl & Hd).
  unfold calculateLAP. change (Z.shiftl 1 (n - 1)) with 128.
  destruct (linearApproxTable this) as [t|] eqn:E.
  - rewrite E. cbn [fst snd lap_maxBias lap_maxLAP].
    rewrite (Hl t eq_refl), maxBiasOf_fast by assumption.
    split; [reflexivity|]. split; [reflexivity|]. exact Hc.
  - unfold buildLinearApproximationTable, with_linearApproxTable.
    cbn [linearApproxTable fst snd lap_maxBias lap_maxLAP].
    rewrite Hs, Hh, maxBiasOf_fast by assumption.
    split; [reflexivity|]. split; [reflexivity|].
    coherent_split; [reflexivity | reflexivity | assumption | | assumption].
    intros t H. symmetry. exact (some_inj _ _ H).
Qed.

Lemma calculateSAC_fresh sb this :
  sbox this = sb -> calculateSAC this = calculateSAC (freshAnalyzer sb).
Proof.
  intros Hs. unfold calculateSAC, freshAnalyzer. cbn [sbox].
  rewrite Hs. reflexivity.
Qed.

Lemma isBalanced_fresh sb this :
  sbox this = sb -> isBalanced this = isBalanced (freshAnalyzer sb).
Proof.
  intros Hs. unfold isBalanced, freshAnalyzer. cbn [sbox].
  rewrite Hs. reflexivity.
Qed.

Lemma isBijection_fresh sb this :
  sbox this = sb -> isBijection this = isBijection (freshAnalyzer sb).
Proof.
  intros Hs. unfold isBijection, freshAnalyzer. cbn [sbox].
  rewrite Hs. reflexivity.
Qed.

(** The fields of the report that the scenarios read, in closed form. *)
Lemma runFullAnalysis_report sb this :
  length sb = 256%nat -> coherent sb this ->
  res_nonlinearity (fst (runFullAnalysis this)) = nonlinearityOf sb
  /\ res_sac (fst (runFullAnalysis this)) = calculateSAC (freshAnalyzer sb)
  /\ res_differentialUniformity (fst (runFullAnalysis this))
     = maxDiffOf (ddtOf sb)
  /\ res_algebraicDegree (fst (runFullAnalysis this)) = algebraicDegreeOf sb
  /\ lap_maxBias (res_lap (fst (runFullAnalysis this))) = maxBiasFast sb
  /\ lap_maxLAP (res_lap (fst (runFullAnalysis this)))
     = ((inject_Z (maxBiasFast sb) / inject_Z 128) ^ 2)%Q
  /\ res_isBalanced (fst (runFullAnalysis this))
     = isBalanced (freshAnalyzer sb)
  /\ res_isBijection (fst (runFullAnalysis this))
     = isBijection (freshAnalyzer sb).
Proof.
  intros Hl Hc. unfold runFullAnalysis.
  rewrite (isBalanced_fresh sb this), (isBijection_fresh sb this)
    by (apply coherent_sbox; assumption).
  destruct (calculateNonlinearity_eq sb this Hl Hc) as [E1 C1].
  destruct (calculateNonlinearity this) as [nl this1]. cbn [fst snd] in *.
  rewrite (calculateSAC_fresh sb this1) by (apply coherent_sbox; assumption).
  destruct (calculateDifferentialUniformity_eq sb this1 C1) as [E2 C2].
  destruct (calculateDifferentialUniformity this1) as [du this2].
  cbn [fst snd] in *.
  destruct (calculateAlgebraicDegree_eq sb this2 Hl C2) as [E3 C3].
  destruct (calculateAlgebraicDegree this2) as [ad this3].
  cbn [fst snd] in *.
  destruct (calculateLAP_eq sb this3 Hl C3) as (E4 & E5 & C4).
  destruct (calculateLAP this3) as [lap this4]. cbn [fst snd] in *.
  destruct (calculateDAP this4) as [dap this5].
  destruct (calculateBIC_NL this5) as [bicnl this6].
  destruct (calculateCorrelationImmunity this6) as [ci this7].
  cbn [fst res_nonlinearity res_sac res_differentialUniformity
       res_algebraicDegree res_lap res_isBalanced res_isBijection].
  split; [exact E1|]. split; [reflexivity|]. split; [exact E2|].
  split; [exact E3|]. split; [exact E4|]. split; [exact E5|].
  split; reflexivity.
Qed.

End Report.

(** ** What the analyzer throws *)
Section Exceptions.

Lemma row_returns {A} (t : list (list A)) i :
  0 <= i < Z.of_nat (length t) ->
  Throwing.row t i = inr (nth (Z.to_nat i) t []).
Proof.
  intros H. unfold Throwing.row.
  destruct (Z.leb_spec 0 i) as [_|Hn]; [|lia].
  rewrite (nth_error_nth' t []) by lia. reflexivity.
Qed.

(** A loop whose body does not throw, as long as an invariant of the state
    holds, is the loop of the body's values. *)
Lemma for_list_returns {S} (I : S -> Prop) l
      (bodyT : Z -> S -> Throwing.Exception + S) (body : Z -> S -> S) s :
  I s ->
  (forall i s, In i l -> I s -> bodyT i s = inr (body i s) /\ I (body i s)) ->
  Throwing.for_list l bodyT s = inr (fold_left (fun s i => body i s) l s)
  /\ I (fold_left (fun s i => body i s) l s).
Proof.
  revert s. induction l as [|i l IH]; intros s Hs Hstep;
    cbn [Throwing.for_list fold_left].
  - now split.
  - destruct (Hstep i s (or_introl eq_refl) Hs) as [-> Hs'].
    apply IH; [exact Hs'|].
    intros j s' Hj. apply Hstep. now right.
Qed.

Lemma for_throwing_returns {S} (I : S -> Prop) lo hi
      (bodyT : Z -> S -> Throwing.Exception + S) (body : Z -> S -> S) s :
  I s ->
  (forall i s, lo <= i < hi -> I s ->
               bodyT i s = inr (body i s) /\ I (body i s)) ->
  Throwing.for_throwing lo hi bodyT s = inr (for_ lo hi body s)
  /\ I (for_ lo hi body s).
Proof.
  intros Hs Hstep. unfold Throwing.for_throwing, for_.
  apply for_list_returns; [exact Hs|].
  intros i s' Hi. apply Hstep. now apply zrange_In.
Qed.

Lemma set2_length {A} (t : list (list A)) i j v :
  length (set2 t i j v) = length t.
Proof. unfold set2. apply updZ_length. Qed.

Lemma incr2_length (t : list (list Z)) i j :
  length (incr2 t i j) = length t.
Proof. unfold incr2. apply updZ_length. Qed.

Lemma fill_rows {A} n (v : A) : 0 <= n -> length (fill n v) = Z.to_nat n.
Proof. intros _. unfold fill. apply repeat_length. Qed.

(** [calculateSAC] does not throw: its matrix has the eight rows that it
    writes and reads. *)
Lemma calculateSAC_returns this :
  Throwing.calculateSAC this = inr (calculateSAC this).
Proof.
  unfold Throwing.calculateSAC, calculateSAC. cbv zeta.
  match goal with
  | |- Throwing.bind (Throwing.for_throwing ?lo ?hi ?bT ?s) _ = _ =>
      let H := open_constr:(for_throwing_returns
                              (fun t : list (list Q) => length t = 8%nat)
                              lo hi bT _ s) in
      edestruct H as [E1 I1]
  end.
  { reflexivity. }
  { intros inputBit t Hi Ht.
    match goal with
    | |- Throwing.for_throwing ?lo ?hi ?bT ?s = _ /\ _ =>
        let H := open_constr:(for_throwing_returns
                                (fun t : list (list Q) => length t = 8%nat)
                                lo hi bT _ s) in
        edestruct H as [E2 I2]
    end.
    { exact Ht. }
    { intros outputBit t' Ho Ht'.
      rewrite row_returns by (rewrite Ht'; change n with 8 in Hi; lia).
      cbn [Throwing.bind]. split; [reflexivity|].
      cbv beta. now rewrite set2_length. }
    rewrite E2. split; [reflexivity | exact I2]. }
  rewrite E1. cbn [Throwing.bind].
  match goal with
  | |- Throwing.bind (Throwing.for_throwing ?lo ?hi ?bT ?s) _ = _ =>
      let H := open_constr:(for_throwing_returns (fun _ : Q => True)
                                                 lo hi bT _ s) in
      edestruct H as [E3 _]
  end.
  { exact I. }
  { intros i q Hi _.
    match goal with
    | |- Throwing.for_throwing ?lo ?hi ?bT ?s = _ /\ _ =>
        let H := open_constr:(for_throwing_returns (fun _ : Q => True)
                                                   lo hi bT _ s) in
        edestruct H as [E4 _]
    end.
    { exact I. }
    { intros j q' Hj _.
      rewrite row_returns by (rewrite I1; change n with 8 in Hi; lia).
      cbn [Throwing.bind]. split; [reflexivity | exact I]. }
    rewrite E4. split; [reflexivity | exact I]. }
  rewrite E3. cbn [Throwing.bind]. reflexivity.
Qed.

Lemma if_inr {A B} (c : bool) (x y : B) :
  (if c then @inr A B x else inr y) = inr (if c then x else y).
Proof. now destruct c. Qed.

Ltac loop_returns I E HI :=
  match goal with
  | |- context [Throwing.for_throwing ?lo ?hi ?bT ?s] =>
      let H := open_constr:(for_throwing_returns I lo hi bT _ s) in
      edestruct H as [E HI]
  end.

(** [buildLinearApproximationTable] does not throw, and its table has 256
    rows. *)
Lemma buildLinearApproximationTable_returns this :
  Throwing.buildLinearApproximationTable this
  = inr (buildLinearApproximationTable this)
  /\ length (latOf (hammingWeights this) (sbox this)) = 256%nat.
Proof.
  unfold Throwing.buildLinearApproximationTable,
    buildLinearApproximationTable, latOf.
  loop_returns (fun t : list (list Z) => length t = 256%nat) E1 I1.
  { reflexivity. }
  { intros a t Ha Ht.
    loop_returns (fun t : list (list Z) => length t = 256%nat) E2 I2.
    { exact Ht. }
    { intros b t' Hb Ht'.
      rewrite row_returns by (rewrite Ht'; change size with 256 in Ha; lia).
      cbn [Throwing.bind]. split; [reflexivity|].
      cbv beta. now rewrite set2_length. }
    rewrite E2. split; [reflexivity | exact I2]. }
  rewrite E1. cbn [Throwing.bind]. split; [reflexivity | exact I1].
Qed.

(** [calculateLAP] does not throw when the cache is empty or holds a table
    of 256 rows. *)
Lemma calculateLAP_returns this :
  (forall t, linearApproxTable this = Some t -> length t = 256%nat) ->
  Throwing.calculateLAP this = inr (calculateLAP this).
Proof.
  intros Hcache.
  assert (Hloop : forall t : list (list Z),
            length t = 256%nat ->
            Throwing.for_throwing
              0 size
              (fun a maxBias =>
                 Throwing.for_throwing
                   0 size
                   (fun b maxBias =>
                      if negb (a =? 0) || negb (b =? 0)
                      then Throwing.bind
                             (Throwing.row t a)
                             (fun r => inr (Z.max maxBias (Z.abs (get r b))))
                      else inr maxBias)
                   maxBias)
              0
            = inr (maxBiasOf t)).
  { intros t Ht. unfold maxBiasOf.
    loop_returns (fun _ : Z => True) E1 I1.
    { exact I. }
    { intros a m Ha _.
      loop_returns (fun _ : Z => True) E2 I2.
      { exact I. }
      { intros b m' Hb _.
        rewrite row_returns by (rewrite Ht; change size with 256 in Ha; lia).
        cbn [Throwing.bind]. rewrite if_inr.
        split; [reflexivity | exact I]. }
      rewrite E2. split; [reflexivity | exact I]. }
    exact E1. }
  unfold Throwing.calculateLAP, calculateLAP.
  destruct (linearApproxTable this) as [t|] eqn:E.
  - cbn [Throwing.bind]. rewrite E, (Hloop t (Hcache t eq_refl)).
    cbn [Throwing.bind]. reflexivity.
  - destruct (buildLinearApproximationTable_returns this) as [-> Hlen].
    cbn [Throwing.bind]. unfold buildLinearApproximationTable.
    cbn [linearApproxTable with_linearApproxTable].
    rewrite (Hloop _ Hlen). cbn [Throwing.bind]. reflexivity.
Qed.

(** The access that throws: with a table without rows in the cache, the
    first read of [calculateLAP] is a [TypeError]. *)
Lemma calculateLAP_throws this :
  linearApproxTable this = Some [] ->
  Throwing.calculateLAP this = inl Throwing.TypeError.
Proof.
  intros E. unfold Throwing.calculateLAP. rewrite E.
  cbn [Throwing.bind]. rewrite E.
  unfold Throwing.for_throwing. change size with 256.
  rewrite (zrange_cons 0 256) by lia. cbn [Throwing.for_list].
  change (negb (0 =? 0) || negb (0 =? 0)) with false. cbn iota.
  rewrite (zrange_cons (0 + 1) 256) by lia. cbn [Throwing.for_list].
  change (negb (0 =? 0) || negb (0 + 1 =? 0)) with true. cbn iota.
  reflexivity.
Qed.

(** [buildDifferenceDistributionTable] does not throw: the input
    difference of two bytes is a byte, and the table has 256 rows. *)
Lemma buildDifferenceDistributionTable_returns this :
  Throwing.buildDifferenceDistributionTable this
  = inr (buildDifferenceDistributionTable this)
  /\ length (ddtOf (sbox this)) = 256%nat.
Proof.
  unfold Throwing.buildDifferenceDistributionTable,
    buildDifferenceDistributionTable, ddtOf.
  loop_returns (fun t : list (list Z) => length t = 256%nat) E1 I1.
  { reflexivity. }
  { intros x1 t Hx1 Ht.
    loop_returns (fun t : list (list Z) => length t = 256%nat) E2 I2.
    { exact Ht. }
    { intros x2 t' Hx2 Ht'. cbv zeta.
      change size with 256 in Hx1, Hx2.
      pose proof (lxor_byte x1 x2 Hx1 Hx2) as Hd.
      rewrite row_returns by (rewrite Ht'; lia).
      cbn [Throwing.bind]. split; [reflexivity|].
      cbv beta. now rewrite incr2_length. }
    rewrite E2. split; [reflexivity | exact I2]. }
  rewrite E1. cbn [Throwing.bind]. split; [reflexivity | exact I1].
Qed.

Lemma calculateDAP_returns this :
  (forall t, differenceTable this = Some t -> length t = 256%nat) ->
  Throwing.calculateDAP this = inr (calculateDAP this).
Proof.
  intros Hcache.
  assert (Hloop : forall t : list (list Z),
            length t = 256%nat ->
            Throwing.for_throwing
              1 size
              (fun i maxDiff =>
                 Throwing.for_throwing
                   0 size
                   (fun j maxDiff =>
                      Throwing.bind
                        (Throwing.row t i)
                        (fun r => inr (Z.max maxDiff (get r j))))
                   maxDiff)
              0
            = inr (maxDiffOf t)).
  { intros t Ht. unfold maxDiffOf.
    loop_returns (fun _ : Z => True) E1 I1.
    { exact I. }
    { intros i m Hi _.
      loop_returns (fun _ : Z => True) E2 I2.
      { exact I. }
      { intros j m' Hj _.
        rewrite row_returns by (rewrite Ht; change size with 256 in Hi; lia).
        cbn [Throwing.bind]. split; [reflexivity | exact I]. }
      rewrite E2. split; [reflexivity | exact I]. }
    exact E1. }
  unfold Throwing.calculateDAP, calculateDAP.
  destruct (differenceTable this) as [t|] eqn:E.
  - cbn [Throwing.bind]. rewrite E, (Hloop t (Hcache t eq_refl)).
    cbn [Throwing.bind]. reflexivity.
  - destruct (buildDifferenceDistributionTable_returns this) as [-> Hlen].
    cbn [Throwing.bind]. unfold buildDifferenceDistributionTable.
    cbn [differenceTable with_differenceTable].
    rewrite (Hloop _ Hlen). cbn [Throwing.bind]. reflexivity.
Qed.

Lemma calculateDifferentialUniformity_returns this :
  (forall t, differenceTable this = Some t -> length t = 256%nat) ->
  Throwing.calculateDifferentialUniformity this
  = inr (calculateDifferentialUniformity this).
Proof.
  intros Hcache.
  unfold Throwing.calculateDifferentialUniformity,
    calculateDifferentialUniformity.
  rewrite (calculateDAP_returns this Hcache). cbn [Throwing.bind].
  destruct (calculateDAP this) as [dap this']. reflexivity.
Qed.

(** [computeTransparencyOrderForMask] does not throw: two bits index one
    of the four rows of its table. *)
Lemma chiSquaredForMask_returns this inputBit1 inputBit2 outputMask :
  Throwing.chiSquaredForMask this inputBit1 inputBit2 outputMask
  = inr (chiSquaredForMask this inputBit1 inputBit2 outputMask).
Proof.
  unfold Throwing.chiSquaredForMask, chiSquaredForMask. cbv zeta.
  loop_returns (fun t : list (list Z) => length t = 4%nat) E1 I1.
  { reflexivity. }
  { intros x t Hx Ht.
    assert (Hindex : 0 <= Z.lor (Z.shiftl (Z.land (Z.shiftr x inputBit1) 1) 1)
                                (Z.land (Z.shiftr x inputBit2) 1) < 4).
    { destruct (land_1_cases (Z.shiftr x inputBit1)) as [->| ->];
        destruct (land_1_cases (Z.shiftr x inputBit2)) as [->| ->];
        cbn; lia. }
    rewrite row_returns by (rewrite Ht; lia).
    cbn [Throwing.bind]. split; [reflexivity|].
    cbv beta. now rewrite incr2_length. }
  rewrite E1. cbn [Throwing.bind].
  loop_returns (fun _ : Q => True) E3 I3.
  { exact I. }
  { intros i q Hi _.
    loop_returns (fun _ : Q => True) E4 I4.
    { exact I. }
    { intros j q' Hj _.
      rewrite row_returns by (rewrite I1; lia).
      cbn [Throwing.bind]. split; [reflexivity | exact I]. }
    rewrite E4. split; [reflexivity | exact I]. }
  rewrite E3. reflexivity.
Qed.

Lemma calculateTransparencyOrderSquared_returns this :
  Throwing.calculateTransparencyOrderSquared this
  = inr (calculateTransparencyOrderSquared this).
Proof.
  unfold Throwing.calculateTransparencyOrderSquared,
    calculateTransparencyOrderSquared.
  loop_returns (fun _ : Q => True) E1 I1.
  { exact I. }
  { intros i q Hi _.
    loop_returns (fun _ : Q => True) E2 I2.
    { exact I. }
    { intros j q' Hj _.
      loop_returns (fun _ : Q => True) E3 I3.
      { exact I. }
      { intros outputMask q'' Hm _.
        rewrite chiSquaredForMask_returns. cbn [Throwing.bind].
        split; [reflexivity | exact I]. }
      rewrite E3. split; [reflexivity | exact I]. }
    rewrite E2. split; [reflexivity | exact I]. }
  exact E1.
Qed.

Lemma coherent_tables sb this :
  coherent sb this ->
  (forall t, linearApproxTable this = Some t -> length t = 256%nat)
  /\ (forall t, differenceTable this = Some t -> length t = 256%nat).
Proof.
  intros (Hs & Hh & _ & Hl & Hd). split; intros t E.
  - rewrite (Hl t E), <- Hs, <- Hh.
    apply buildLinearApproximationTable_returns.
  - rewrite (Hd t E), <- Hs. apply buildDifferenceDistributionTable_returns.
Qed.

(** The [try] block of [runFullAnalysis] runs to its end: the report has
    every field, with the value of its evaluator, and no [error]. *)
Lemma runFullAnalysis_returns sb this :
  length sb = 256%nat -> coherent sb this ->
  Throwing.runFullAnalysis this = Throwing.complete (fst (runFullAnalysis this)).
Proof.
  intros Hl Hc. unfold Throwing.runFullAnalysis, runFullAnalysis.
  destruct (calculateNonlinearity_eq sb this Hl Hc) as [_ C1].
  destruct (calculateNonlinearity this) as [nl this1].
  cbn [fst snd] in C1. cbn [Throwing.assign app].
  rewrite calculateSAC_returns. cbn [Throwing.bind Throwing.assign app].
  rewrite (calculateDifferentialUniformity_returns this1)
    by apply (coherent_tables sb this1 C1).
  destruct (calculateDifferentialUniformity_eq sb this1 C1) as [_ C2].
  destruct (calculateDifferentialUniformity this1) as [du this2].
  cbn [fst snd] in C2. cbn [Throwing.assign app].
  destruct (calculateAlgebraicDegree_eq sb this2 Hl C2) as [_ C3].
  destruct (calculateAlgebraicDegree this2) as [ad this3].
  cbn [fst snd] in C3. cbn [Throwing.assign app].
  rewrite (calculateLAP_returns this3)
    by apply (coherent_tables sb this3 C3).
  destruct (calculateLAP_eq sb this3 Hl C3) as (_ & _ & C4).
  destruct (calculateLAP this3) as [lap this4].
  cbn [fst snd] in C4. cbn [Throwing.assign app].
  rewrite (calculateDAP_returns this4)
    by apply (coherent_tables sb this4 C4).
  destruct (calculateDAP this4) as [dap this5].
  cbn [Throwing.assign app].
  destruct (calculateBIC_NL this5) as [bicnl this6].
  cbn [Throwing.assign app].
  destruct (calculateCorrelationImmunity this6) as [ci this7].
  cbn [Throwing.assign app].
  unfold Throwing.calculateTransparencyOrderAsync.
  rewrite calculateTransparencyOrderSquared_returns.
  unfold Throwing.complete.
  cbn [fst res_size res_isBalanced res_isBijection res_nonlinearity res_sac
       res_differentialUniformity res_algebraicDegree res_lap res_dap
       res_bicNL res_bicSAC res_correlationImmunity
       res_transparencyOrderSquared].
  reflexivity.
Qed.

End Exceptions.

(** C10. For every 256-long array of bytes, permutation or not, the
    constructor succeeds and no evaluator of the full analysis throws: the
    [try] block of [runFullAnalysis] runs to its end, so that the report has
    every field, with the value of its evaluator, and no [error] field;
    each method that indexes a table of rows returns when it is called on
    the new analyzer; and when the array is not a permutation the report's
    [isBalanced] and [isBijection] flags are both false. *)
Theorem analysis_total_on_byte_arrays (sboxArray : list Z) :
  length sboxArray = 256%nat ->
  (forall v, In v sboxArray -> 0 <= v < 256) ->
  exists this results summary,
    constructor sboxArray = inr this
    /\ results = fst (runFullAnalysis this)
    /\ Throwing.runFullAnalysis this = Throwing.complete results
    /\ (forall e, ~ In (Throwing.Error e) (Throwing.runFullAnalysis this))
    /\ Throwing.calculateSAC this = inr (calculateSAC this)
    /\ Throwing.calculateDifferentialUniformity this
       = inr (calculateDifferentialUniformity this)
    /\ Throwing.calculateLAP this = inr (calculateLAP this)
    /\ Throwing.calculateDAP this = inr (calculateDAP this)
    /\ Throwing.calculateTransparencyOrderAsync this
       = Some (calculateTransparencyOrderSquared this)
    /\ runAnalysis sboxArray = inr (results, summary)
    /\ (~ permutation256 sboxArray ->
        res_isBalanced results = false /\ res_isBijection results = false).
Proof.
  intros Hl Hb.
  destruct (constructor_coherent sboxArray Hl) as (this & E & Hc).
  exists this, (fst (runFullAnalysis this)),
    (generateSummary (fst (runFullAnalysis this))).
  pose proof (runFullAnalysis_returns sboxArray this Hl Hc) as Hrun.
  destruct (coherent_tables sboxArray this Hc) as [Hlat Hddt].
  split; [assumption|]. split; [reflexivity|]. split; [exact Hrun|].
  split.
  { intros e Hin. rewrite Hrun in Hin. unfold Throwing.complete in Hin.
    cbn [In] in Hin.
    repeat (destruct Hin as [Hin|Hin]; [discriminate|]). exact Hin. }
  split; [apply calculateSAC_returns|].
  split; [now apply calculateDifferentialUniformity_returns|].
  split; [now apply calculateLAP_returns|].
  split; [now apply calculateDAP_returns|].
  split.
  { unfold Throwing.calculateTransparencyOrderAsync.
    now rewrite calculateTransparencyOrderSquared_returns. }
  split; [now apply runAnalysis_inr|].
  intros Hnp. destruct (runFullAnalysis_flags this) as [-> ->].
  pose proof (coherent_sbox _ _ Hc) as Hs.
  split.
  - destruct (isBalanced this) eqn:Eb; [|reflexivity].
    exfalso. apply Hnp. rewrite <- Hs.
    apply isBalanced_permutation; [now rewrite Hs | assumption].
  - destruct (isBijection this) eqn:Eb; [|reflexivity].
    exfalso. apply Hnp. rewrite <- Hs.
    apply isBijection_permutation; rewrite ?Hs; assumption.
Qed.

Lemma analysis_total_on_byte_arrays_witness :
  exists this results summary,
    constructor duplicateSBox = inr this
    /\ results = fst (runFullAnalysis this)
    /\ Throwing.runFullAnalysis this = Throwing.complete results
    /\ (forall e, ~ In (Throwing.Error e) (Throwing.runFullAnalysis this))
    /\ Throwing.calculateSAC this = inr (calculateSAC this)
    /\ Throwing.calculateDifferentialUniformity this
       = inr (calculateDifferentialUniformity this)
    /\ Throwing.calculateLAP this = inr (calculateLAP this)
    /\ Throwing.calculateDAP this = inr (calculateDAP this)
    /\ Throwing.calculateTransparencyOrderAsync this
       = Some (calculateTransparencyOrderSquared this)
    /\ runAnalysis duplicateSBox = inr (results, summary)
    /\ (~ permutation256 duplicateSBox ->
        res_isBalanced results = false /\ res_isBijection results = false).
Proof.
  apply (analysis_total_on_byte_arrays duplicateSBox).
  - reflexivity.
  - apply bytes_checked. vm_compute. reflexivity.
Defined.

(** ** Largest entries of the tables, from bounds *)
Section Extremes.

Lemma fold_left_inflate {A} (f : Z -> A -> Z) l m0 :
  (forall m x, m <= f m x) -> m0 <= fold_left f l m0.
Proof.
  intros Hf. revert m0. induction l as [|x l IH]; intros m0; cbn [fold_left].
  - lia.
  - specialize (IH (f m0 x)). specialize (Hf m0 x). lia.
Qed.

Lemma fold_left_reach {A} (f : Z -> A -> Z) l m0 x v :
  (forall m x, m <= f m x) -> In x l -> (forall m, v <= f m x) ->
  v <= fold_left f l m0.
Proof.
  intros Hf Hin Hx. revert m0.
  induction l as [|y l IH]; intros m0; [contradiction|].
  cbn [fold_left]. destruct Hin as [->|Hin].
  - pose proof (fold_left_inflate f l (f m0 x) Hf). specialize (Hx m0). lia.
  - now apply IH.
Qed.

Lemma fold_left_below {A} (f : Z -> A -> Z) l m0 M :
  m0 <= M -> (forall m x, In x l -> m <= M -> f m x <= M) ->
  fold_left f l m0 <= M.
Proof.
  revert m0. induction l as [|y l IH]; intros m0 H0 Hf; cbn [fold_left].
  - exact H0.
  - apply IH.
    + apply Hf; [now left | exact H0].
    + intros m x Hx. apply Hf. now right.
Qed.

Lemma maxDiffOf_ge table i j :
  1 <= i < 256 -> 0 <= j < 256 -> get2 table i j <= maxDiffOf table.
Proof.
  intros Hi Hj. unfold maxDiffOf, for_. change size with 256.
  apply fold_left_reach with (x := i).
  - intros m x. apply fold_left_inflate. intros; lia.
  - now apply zrange_In.
  - intros m. apply fold_left_reach with (x := j).
    + intros; lia.
    + now apply zrange_In.
    + intros; lia.
Qed.

Lemma maxDiffOf_le table M :
  0 <= M ->
  (forall i j, 1 <= i < 256 -> 0 <= j < 256 -> get2 table i j <= M) ->
  maxDiffOf table <= M.
Proof.
  intros HM H. unfold maxDiffOf, for_. change size with 256.
  apply fold_left_below; [exact HM|].
  intros m i Hi Hm. apply zrange_In in Hi.
  apply fold_left_below; [exact Hm|].
  intros m' j Hj Hm'. apply zrange_In in Hj.
  specialize (H i j Hi Hj). lia.
Qed.

Lemma maxBiasOf_ge table a b :
  0 <= a < 256 -> 0 <= b < 256 -> a <> 0 \/ b <> 0 ->
  Z.abs (get2 table a b) <= maxBiasOf table.
Proof.
  intros Ha Hb Hab. unfold maxBiasOf, for_. change size with 256.
  assert (Hstep : forall a' m b',
             m <= (if negb (a' =? 0) || negb (b' =? 0)
                   then Z.max m (Z.abs (get2 table a' b')) else m)).
  { intros a' m b'. destruct (negb (a' =? 0) || negb (b' =? 0)); lia. }
  apply fold_left_reach with (x := a).
  - intros m x. apply fold_left_inflate. intros m' b'. apply Hstep.
  - now apply zrange_In.
  - intros m. apply fold_left_reach with (x := b).
    + intros m' b'. apply Hstep.
    + now apply zrange_In.
    + intros m'.
      replace (negb (a =? 0) || negb (b =? 0)) with true; [lia|].
      symmetry. apply orb_true_iff.
      destruct Hab as [H|H]; [left|right];
        apply negb_true_iff, Z.eqb_neq; exact H.
Qed.

(** The inner loop of the difference distribution table meets the input
    difference [alpha] at one second input only. *)
Lemma ddtAt_count sb alpha beta :
  0 <= alpha < 256 -> ddtAt sb alpha beta = ddtCount sb alpha beta.
Proof.
  intros Ha. unfold ddtAt, ddtCount. apply zsum_ext_in.
  intros x1 H1. apply zrange_In in H1.
  rewrite (zsum_ext_in
             _ (fun x2 =>
                  b2z (Z.lxor (get sb x1) (get sb (Z.lxor x1 alpha)) =? beta)
                  * b2z (Z.lxor x1 alpha =? x2))).
  - rewrite zsum_scale, zsum_indicator;
      [lia | apply zrange_NoDup | apply zrange_In; now apply lxor_byte].
  - intros x2 _.
    destruct (Z.eqb_spec (Z.lxor x1 x2) alpha) as [E|E].
    + apply lxor_eq_iff in E. subst x2. rewrite Z.eqb_refl.
      cbn [andb b2z]. lia.
    + destruct (Z.eqb_spec (Z.lxor x1 alpha) x2) as [E'|E'].
      * symmetry in E'. apply lxor_eq_iff in E'. contradiction.
      * cbn [andb b2z]. lia.
Qed.

Lemma zsum_b2z_le {A} (P : A -> bool) l :
  zsum (fun x => b2z (P x)) l <= Z.of_nat (length l).
Proof.
  induction l as [|x l IH]; cbn [zsum length]; [lia|].
  destruct (P x); cbn [b2z]; lia.
Qed.

Lemma zsum_b2z_absent v l :
  ~ In v l -> zsum (fun y => b2z (y =? v)) l = 0.
Proof.
  induction l as [|x l IH]; intros Hn; cbn [zsum]; [reflexivity|].
  rewrite IH by (intros H; apply Hn; now right).
  destruct (Z.eqb_spec x v) as [->|]; [|reflexivity].
  exfalso. apply Hn. now left.
Qed.

Lemma ddtCount_le_256 sb alpha beta : ddtCount sb alpha beta <= 256.
Proof.
  unfold ddtCount.
  pose proof (zsum_b2z_le
                (fun x => Z.lxor (get sb x) (get sb (Z.lxor x alpha)) =? beta)
                (zrange 0 256)) as H.
  rewrite zrange_length in H. exact H.
Qed.

(** The differential uniformity between a witness entry and a bound on all
    entries. *)
Lemma differential_uniformity_ge sb alpha beta :
  1 <= alpha < 256 -> 0 <= beta < 256 ->
  ddtCount sb alpha beta <= maxDiffOf (ddtOf sb).
Proof.
  intros Ha Hb. rewrite <- ddtAt_count, <- ddtOf_get2 by lia.
  now apply maxDiffOf_ge.
Qed.

Lemma differential_uniformity_le sb M :
  0 <= M ->
  (forall alpha beta, 1 <= alpha < 256 -> 0 <= beta < 256 ->
                      ddtCount sb alpha beta <= M) ->
  maxDiffOf (ddtOf sb) <= M.
Proof.
  intros HM H. apply maxDiffOf_le; [exact HM|].
  intros i j Hi Hj. rewrite ddtOf_get2, ddtAt_count by lia. now apply H.
Qed.

(** Reading the tries. *)
Lemma key_inj u v : 0 <= u -> 0 <= v -> key u = key v -> u = v.
Proof.
  unfold key. intros Hu Hv E. apply Z2Pos.inj in E; lia.
Qed.

Lemma lookup_add t u y v :
  0 <= u -> 0 <= v ->
  lookup (PositiveMap.add (key u) y t) v = if u =? v then y else lookup t v.
Proof.
  intros Hu Hv. unfold lookup. destruct (Z.eqb_spec u v) as [->|Hne].
  - now rewrite PositiveMap.gss.
  - rewrite PositiveMap.gso; [reflexivity|].
    intros E. apply Hne. symmetry. now apply key_inj.
Qed.

Lemma lookup_fold_combine l lo t0 x :
  0 <= lo -> 0 <= x ->
  lookup (fold_left (fun t '(k, y) => PositiveMap.add (key k) y t)
                    (combine (zrange lo (lo + Z.of_nat (length l))) l) t0) x
  = if (lo <=? x) && (x <? lo + Z.of_nat (length l))
    then nth (Z.to_nat (x - lo)) l 0 else lookup t0 x.
Proof.
  intros Hlo Hx. revert lo t0 Hlo.
  induction l as [|y l IH]; intros lo t0 Hlo.
  - cbn [length]. rewrite zrange_nil by lia. cbn [combine fold_left].
    destruct (Z.leb_spec lo x); destruct (Z.ltb_spec x (lo + Z.of_nat 0));
      cbn [andb]; try reflexivity; lia.
  - rewrite zrange_cons by (cbn [length]; lia).
    cbn [combine fold_left].
    replace (lo + Z.of_nat (length (y :: l)))
      with (lo + 1 + Z.of_nat (length l)) by (cbn [length]; lia).
    rewrite IH by lia. rewrite lookup_add by lia.
    destruct (Z.leb_spec (lo + 1) x);
      destruct (Z.ltb_spec x (lo + 1 + Z.of_nat (length l)));
      destruct (Z.leb_spec lo x);
      destruct (Z.eqb_spec lo x);
      cbn [andb]; try lia; try reflexivity.
    + replace (Z.to_nat (x - lo)) with (S (Z.to_nat (x - (lo + 1)))) by lia.
      reflexivity.
    + subst x. now rewrite Z.sub_diag.
Qed.

Lemma lookup_trieOf l x :
  0 <= x < Z.of_nat (length l) -> lookup (trieOf l) x = get l x.
Proof.
  intros Hx. unfold trieOf.
  rewrite (lookup_fold_combine l 0) by lia.
  destruct (Z.leb_spec 0 x); destruct (Z.ltb_spec x (0 + Z.of_nat (length l)));
    cbn [andb]; try lia.
  now rewrite Z.sub_0_r.
Qed.

Lemma lookup_histogram_gen row h0 beta :
  0 <= beta -> (forall v, In v row -> 0 <= v) ->
  lookup (fold_left (fun h v => PositiveMap.add (key v) (lookup h v + 1) h)
                    row h0) beta
  = lookup h0 beta + zsum (fun v => b2z (v =? beta)) row.
Proof.
  intros Hb. revert h0. induction row as [|v row IH]; intros h0 Hrow.
  - cbn [fold_left zsum]. lia.
  - cbn [fold_left zsum].
    rewrite IH by (intros u Hu; apply Hrow; now right).
    assert (Hv : 0 <= v) by (apply Hrow; now left).
    rewrite lookup_add by assumption.
    destruct (Z.eqb_spec v beta) as [->|]; cbn [b2z]; lia.
Qed.

Lemma lookup_histogram row beta :
  0 <= beta -> (forall v, In v row -> 0 <= v) ->
  lookup (histogram row) beta = zsum (fun v => b2z (v =? beta)) row.
Proof.
  intros Hb Hrow. unfold histogram.
  rewrite lookup_histogram_gen by assumption.
  unfold lookup. now rewrite PositiveMap.gempty.
Qed.

Lemma rowBounded_spec m row beta :
  0 <= m -> (forall v, In v row -> 0 <= v) -> rowBounded m row = true ->
  zsum (fun v => b2z (v =? beta)) row <= m.
Proof.
  intros Hm Hrow E. unfold rowBounded in E. cbn zeta in E.
  destruct (in_dec Z.eq_dec beta row) as [Hin|Hn].
  - rewrite forallb_forall in E. specialize (E beta Hin).
    apply Z.leb_le in E.
    assert (Hb : 0 <= beta) by now apply Hrow.
    rewrite lookup_histogram in E by assumption.
    exact E.
  - now rewrite zsum_b2z_absent.
Qed.

Lemma ddtBounded_unfold m sb :
  ddtBounded m sb
  = forallb (fun alpha => rowBounded m (diffRow (trieOf sb) (zrange 0 256) alpha))
            (zrange 1 256).
Proof. reflexivity. Qed.

Lemma diffRow_eq sb alpha :
  length sb = 256%nat -> 0 <= alpha < 256 ->
  diffRow (trieOf sb) (zrange 0 256) alpha
  = map (fun x => Z.lxor (get sb x) (get sb (Z.lxor x alpha))) (zrange 0 256).
Proof.
  intros Hl Ha. unfold diffRow. apply map_ext_in. intros x Hx.
  apply zrange_In in Hx.
  assert (Hx' : 0 <= Z.lxor x alpha < 256) by (apply lxor_byte; lia).
  rewrite !lookup_trieOf by (rewrite Hl; lia). reflexivity.
Qed.

Lemma ddtBounded_spec m sb alpha beta :
  length sb = 256%nat -> (forall v, In v sb -> 0 <= v < 256) ->
  0 <= m -> ddtBounded m sb = true ->
  1 <= alpha < 256 -> ddtCount sb alpha beta <= m.
Proof.
  intros Hl Hsb Hm E Ha. rewrite ddtBounded_unfold in E.
  rewrite forallb_forall in E.
  specialize (E alpha (proj2 (zrange_In 1 256 alpha) Ha)).
  rewrite diffRow_eq in E by (assumption || lia).
  unfold ddtCount.
  rewrite <- (zsum_map (fun v => b2z (v =? beta))
                       (fun x => Z.lxor (get sb x) (get sb (Z.lxor x alpha)))).
  apply rowBounded_spec; [exact Hm | | exact E].
  intros v Hv. apply in_map_iff in Hv. destruct Hv as (x & <- & Hx).
  apply zrange_In in Hx.
  assert (Hx' : 0 <= Z.lxor x alpha < 256) by (apply lxor_byte; lia).
  assert (H1 : 0 <= get sb x < 256) by (apply Hsb, get_In; rewrite Hl; lia).
  assert (H2 : 0 <= get sb (Z.lxor x alpha) < 256)
    by (apply Hsb, get_In; rewrite Hl; lia).
  pose proof (lxor_byte _ _ H1 H2). lia.
Qed.

End Extremes.

(** ** The scenarios: the identity, the FIPS-197 table, the dashboard's table *)
Section Scenarios.

Lemma identity_nonlinearity : nonlinearityOf identitySBox = Fin 0.
Proof. vm_cast_no_check (eq_refl (Fin 0)). Qed.

Lemma identity_differential_uniformity :
  maxDiffOf (ddtOf identitySBox) = 256.
Proof.
  assert (E : ddtCount identitySBox 1 1 = 256) by (vm_compute; reflexivity).
  pose proof (differential_uniformity_ge identitySBox 1 1) as Hge.
  rewrite E in Hge.
  assert (Hle : maxDiffOf (ddtOf identitySBox) <= 256).
  { apply differential_uniformity_le; [lia|].
    intros alpha beta _ _. apply ddtCount_le_256. }
  revert Hge Hle. generalize (maxDiffOf (ddtOf identitySBox)).
  intros v Hge Hle. lia.
Qed.

Lemma identity_algebraic_degree : algebraicDegreeOf identitySBox = 1.
Proof. vm_cast_no_check (eq_refl 1). Qed.

Lemma identity_max_bias_above_threshold :
  (maxBiasFast identitySBox <=? 32) = false.
Proof.
  assert (E : latAt identitySBox 1 1 = 128) by (vm_compute; reflexivity).
  pose proof (maxBiasOf_ge (latOf precomputeHammingWeights identitySBox) 1 1)
    as Hge.
  rewrite latOf_get2, E in Hge by (reflexivity || lia).
  rewrite maxBiasOf_fast in Hge by reflexivity.
  change (Z.abs 128) with 128 in Hge.
  apply Z.leb_gt.
  revert Hge. generalize (maxBiasFast identitySBox). intros v Hge. lia.
Qed.

Lemma identity_sac_above_threshold :
  Qle_bool (sac_score (calculateSAC (freshAnalyzer identitySBox))) js_0_1
  = false.
Proof. vm_cast_no_check (eq_refl false). Qed.

Lemma fips_nonlinearity : nonlinearityOf fipsSBox = Fin 112.
Proof. vm_cast_no_check (eq_refl (Fin 112)). Qed.

Lemma fips_ddt_bounded : ddtBounded 4 fipsSBox = true.
Proof. vm_cast_no_check (eq_refl true). Qed.

Lemma fips_differential_uniformity : maxDiffOf (ddtOf fipsSBox) = 4.
Proof.
  assert (E : ddtCount fipsSBox 1 31 = 4) by (vm_compute; reflexivity).
  pose proof (differential_uniformity_ge fipsSBox 1 31) as Hge.
  rewrite E in Hge.
  assert (Hle : maxDiffOf (ddtOf fipsSBox) <= 4).
  { apply differential_uniformity_le; [lia|].
    intros alpha beta Ha _.
    apply ddtBounded_spec;
      [ reflexivity
      | apply bytes_checked; vm_compute; reflexivity
      | lia
      | exact fips_ddt_bounded
      | exact Ha ]. }
  revert Hge Hle. generalize (maxDiffOf (ddtOf fipsSBox)).
  intros v Hge Hle. lia.
Qed.

Lemma fips_algebraic_degree : algebraicDegreeOf fipsSBox = 7.
Proof. vm_cast_no_check (eq_refl 7). Qed.

Lemma fips_max_bias : maxBiasFast fipsSBox = 16.
Proof. vm_cast_no_check (eq_refl 16). Qed.

Lemma fips_sac_score :
  Qeq_bool (sac_score (calculateSAC (freshAnalyzer fipsSBox))) (27 # 1024)
  = true.
Proof. vm_cast_no_check (eq_refl true). Qed.

Lemma fips_flags :
  isBalanced (freshAnalyzer fipsSBox) = true
  /\ isBijection (freshAnalyzer fipsSBox) = true.
Proof. split; vm_compute; reflexivity. Qed.

Lemma standard_flags :
  isBalanced (freshAnalyzer standardSBox) = false
  /\ isBijection (freshAnalyzer standardSBox) = false.
Proof. split; vm_compute; reflexivity. Qed.

Lemma standard_nonlinearity : nonlinearityOf standardSBox = Fin 98.
Proof. vm_cast_no_check (eq_refl (Fin 98)). Qed.

Lemma standard_sac_score :
  Qeq_bool (sac_score (calculateSAC (freshAnalyzer standardSBox))) (27 # 1024)
  = true.
Proof. vm_cast_no_check (eq_refl true). Qed.

Lemma fresh_coherent sb :
  length sb = 256%nat ->
  constructor sb = inr (freshAnalyzer sb) /\ coherent sb (freshAnalyzer sb).
Proof.
  intros Hl. destruct (constructor_coherent sb Hl) as (this & E & Hc).
  assert (E' : constructor sb = inr (freshAnalyzer sb)).
  { unfold constructor. rewrite Hl.
    change (negb (Z.of_nat 256 =? 256)) with false. reflexivity. }
  split; [exact E'|]. rewrite E' in E. injection E as <-. exact Hc.
Qed.

(** The four tests of the summary, one by one. *)
Lemma generateSummary_eq (results : Results) :
  let nlOk := geb_num (res_nonlinearity results) 100 in
  let duOk := res_differentialUniformity results <=? 4 in
  let lapOk := lap_maxBias (res_lap results) <=? 32 in
  let sacOk := Qle_bool (sac_score (res_sac results)) js_0_1 in
  let summary := generateSummary results in
  strengths summary
  = (if nlOk then ["High nonlinearity (≥100)"%string] else [])
      ++ (if duOk then ["Good differential uniformity (≤4)"%string] else [])
      ++ (if lapOk then ["Good linear resistance"%string] else [])
      ++ (if sacOk then ["Satisfies SAC criterion"%string] else [])
  /\ weaknesses summary
     = (if nlOk then []
        else [("Low nonlinearity (" ++ showNum (res_nonlinearity results)
               ++ ")")%string])
         ++ (if duOk then []
             else [("High differential uniformity ("
                    ++ showZ (res_differentialUniformity results)
                    ++ ")")%string])
         ++ (if lapOk then [] else ["Vulnerable to linear cryptanalysis"%string])
         ++ (if sacOk then [] else ["Poor avalanche properties"%string])
  /\ securityLevel summary
     = (if Nat.eqb (length (weaknesses summary)) 0 then "High"
        else if Nat.leb (length (weaknesses summary)) 2 then "Medium"
             else "Low")%string.
Proof.
  cbn zeta. unfold generateSummary.
  destruct (geb_num (res_nonlinearity results) 100);
    destruct (res_differentialUniformity results <=? 4);
    destruct (lap_maxBias (res_lap results) <=? 32);
    destruct (Qle_bool (sac_score (res_sac results)) js_0_1);
    cbn [app strengths weaknesses securityLevel];
    (split; [reflexivity|split; reflexivity]).
Qed.

(** A score that is a multiple of 2^-14, as [calculateSAC] produces, is at
    most the double [0.1] exactly when it is at most one tenth. *)
Lemma sac_threshold_on_dyadics (k : Z) :
  Qle_bool (k # 16384) js_0_1 = Qle_bool (k # 16384) (1 # 10).
Proof.
  unfold Qle_bool, js_0_1. cbn [Qnum Qden].
  destruct (Z.leb_spec (k * Z.pos 36028797018963968)
                       (3602879701896397 * Z.pos 16384));
    destruct (Z.leb_spec (k * Z.pos 10) (1 * Z.pos 16384));
    try reflexivity; lia.
Qed.

End Scenarios.

(** C6. Analysis of the identity permutation [S[i] = i] yields nonlinearity
    0, differential uniformity 256 and algebraic degree 1, in the report of
    the full analysis and from each evaluator called on a fresh analyzer. *)
Theorem identity_metrics :
  constructor identitySBox = inr (freshAnalyzer identitySBox)
  /\ res_nonlinearity (fst (runFullAnalysis (freshAnalyzer identitySBox)))
     = Fin 0
  /\ res_differentialUniformity
       (fst (runFullAnalysis (freshAnalyzer identitySBox))) = 256
  /\ res_algebraicDegree
       (fst (runFullAnalysis (freshAnalyzer identitySBox))) = 1
  /\ fst (calculateNonlinearity (freshAnalyzer identitySBox)) = Fin 0
  /\ fst (calculateDifferentialUniformity (freshAnalyzer identitySBox)) = 256
  /\ fst (calculateAlgebraicDegree (freshAnalyzer identitySBox)) = 1.
Proof.
  assert (Hl : length identitySBox = 256%nat) by reflexivity.
  destruct (fresh_coherent identitySBox Hl) as [E Hc].
  destruct (runFullAnalysis_report identitySBox _ Hl Hc)
    as (R1 & _ & R3 & R4 & _).
  split; [exact E|].
  split; [rewrite R1; exact identity_nonlinearity|].
  split; [rewrite R3; exact identity_differential_uniformity|].
  split; [rewrite R4; exact identity_algebraic_degree|].
  split.
  { destruct (calculateNonlinearity_eq identitySBox _ Hl Hc) as [-> _].
    exact identity_nonlinearity. }
  split.
  { destruct (calculateDifferentialUniformity_eq identitySBox _ Hc) as [-> _].
    exact identity_differential_uniformity. }
  destruct (calculateAlgebraicDegree_eq identitySBox _ Hl Hc) as [-> _].
  exact identity_algebraic_degree.
Qed.

(** C9. The summary tests nonlinearity >= 100, differential uniformity <= 4,
    LAP max bias <= 32 and SAC score <= 0.1, each met test giving a strength
    and each missed one a weakness, and the security level is High with no
    weakness, Medium with at most two, Low otherwise; for the identity
    permutation the level is Low and the weaknesses include
    'Low nonlinearity (0)' and 'High differential uniformity (256)'. *)
Theorem summary_thresholds_and_identity_low :
  (forall results : Results,
     let nlOk := geb_num (res_nonlinearity results) 100 in
     let duOk := res_differentialUniformity results <=? 4 in
     let lapOk := lap_maxBias (res_lap results) <=? 32 in
     let sacOk := Qle_bool (sac_score (res_sac results)) js_0_1 in
     let summary := generateSummary results in
     strengths summary
     = (if nlOk then ["High nonlinearity (≥100)"%string] else [])
         ++ (if duOk then ["Good differential uniformity (≤4)"%string] else [])
         ++ (if lapOk then ["Good linear resistance"%string] else [])
         ++ (if sacOk then ["Satisfies SAC criterion"%string] else [])
     /\ weaknesses summary
        = (if nlOk then []
           else [("Low nonlinearity (" ++ showNum (res_nonlinearity results)
                  ++ ")")%string])
            ++ (if duOk then []
                else [("High differential uniformity ("
                       ++ showZ (res_differentialUniformity results)
                       ++ ")")%string])
            ++ (if lapOk then []
                else ["Vulnerable to linear cryptanalysis"%string])
            ++ (if sacOk then [] else ["Poor avalanche properties"%string])
     /\ securityLevel summary
        = (if Nat.eqb (length (weaknesses summary)) 0 then "High"
           else if Nat.leb (length (weaknesses summary)) 2 then "Medium"
                else "Low")%string)
  /\ (let summary :=
        generateSummary (fst (runFullAnalysis (freshAnalyzer identitySBox))) in
      runAnalysis identitySBox
      = inr (fst (runFullAnalysis (freshAnalyzer identitySBox)), summary)
      /\ securityLevel summary = "Low"%string
      /\ In "Low nonlinearity (0)"%string (weaknesses summary)
      /\ In "High differential uniformity (256)"%string (weaknesses summary)
      /\ exists w1 w2,
          In w1 (weaknesses summary) /\ In w2 (weaknesses summary)
          /\ String.prefix "Low nonlinearity" w1 = true
          /\ String.prefix "High differential uniformity" w2 = true).
Proof.
  split; [exact generateSummary_eq|].
  assert (Hl : length identitySBox = 256%nat) by reflexivity.
  destruct (fresh_coherent identitySBox Hl) as [E Hc].
  destruct (runFullAnalysis_report identitySBox _ Hl Hc)
    as (R1 & R2 & R3 & _ & R5 & _).
  cbn zeta.
  destruct (generateSummary_eq
              (fst (runFullAnalysis (freshAnalyzer identitySBox))))
    as (_ & W & L).
  rewrite R1, R2, R3, R5 in W.
  rewrite identity_nonlinearity, identity_differential_uniformity,
    identity_max_bias_above_threshold, identity_sac_above_threshold in W.
  change (geb_num (Fin 0) 100) with false in W.
  change (256 <=? 4) with false in W.
  cbn [app] in W.
  change (showNum (Fin 0)) with "0"%string in W.
  change (showZ 256) with "256"%string in W.
  cbn [String.append] in W.
  split; [apply runAnalysis_inr; exact E|].
  rewrite L, W. cbn [length Nat.eqb Nat.leb].
  clear.
  split; [reflexivity|].
  split; [left; reflexivity|].
  split; [right; left; reflexivity|].
  exists "Low nonlinearity (0)"%string,
    "High differential uniformity (256)"%string.
  split; [left; reflexivity|]. split; [right; left; reflexivity|].
  split; reflexivity.
Qed.

Section StandardAES.

Lemma fips_sac_far_from_one_eighth :
  Qle_bool (Qabs (sac_score (calculateSAC (freshAnalyzer fipsSBox)) - (1 # 8)))
           (1 # 1000000000) = false.
Proof. vm_cast_no_check (eq_refl false). Qed.

Lemma standard_sac_far_from_one_eighth :
  Qle_bool
    (Qabs (sac_score (calculateSAC (freshAnalyzer standardSBox)) - (1 # 8)))
    (1 # 1000000000) = false.
Proof. vm_cast_no_check (eq_refl false). Qed.

Lemma Qle_bool_false (x y : Q) : Qle_bool x y = false -> ~ (x <= y)%Q.
Proof.
  intros E H. apply Qle_bool_iff in H. congruence.
Qed.

End StandardAES.

(** C5, as the code has it.  Analysis of the standard AES S-box (the table
    of FIPS-197) yields nonlinearity 112, differential uniformity 4, LAP max
    bias 16 with LAP = 1/64 = 0.015625, algebraic degree 7, SAC score
    27/1024 = 0.0263671875, balanced = true and bijection = true. *)
Theorem fips_sbox_metrics :
  constructor fipsSBox = inr (freshAnalyzer fipsSBox)
  /\ res_nonlinearity (fst (runFullAnalysis (freshAnalyzer fipsSBox)))
     = Fin 112
  /\ res_differentialUniformity
       (fst (runFullAnalysis (freshAnalyzer fipsSBox))) = 4
  /\ lap_maxBias (res_lap (fst (runFullAnalysis (freshAnalyzer fipsSBox))))
     = 16
  /\ (lap_maxLAP (res_lap (fst (runFullAnalysis (freshAnalyzer fipsSBox))))
      == 1 # 64)%Q
  /\ res_algebraicDegree (fst (runFullAnalysis (freshAnalyzer fipsSBox))) = 7
  /\ (sac_score (res_sac (fst (runFullAnalysis (freshAnalyzer fipsSBox))))
      == 27 # 1024)%Q
  /\ res_isBalanced (fst (runFullAnalysis (freshAnalyzer fipsSBox))) = true
  /\ res_isBijection (fst (runFullAnalysis (freshAnalyzer fipsSBox))) = true.
Proof.
  assert (Hl : length fipsSBox = 256%nat) by reflexivity.
  destruct (fresh_coherent fipsSBox Hl) as [E Hc].
  destruct (runFullAnalysis_report fipsSBox _ Hl Hc)
    as (R1 & R2 & R3 & R4 & R5 & R6 & R7 & R8).
  split; [exact E|].
  split; [rewrite R1; exact fips_nonlinearity|].
  split; [rewrite R3; exact fips_differential_uniformity|].
  split; [rewrite R5; exact fips_max_bias|].
  split; [rewrite R6, fips_max_bias; reflexivity|].
  split; [rewrite R4; exact fips_algebraic_degree|].
  split; [rewrite R2; apply Qeq_bool_iff; exact fips_sac_score|].
  rewrite R7, R8. exact fips_flags.
Qed.

(** C5 as stated fails: the SAC score of the standard AES S-box is 27/1024,
    not within 1e-9 of 0.125, for the table of FIPS-197 and for the table
    that [loadStandardAESSBox] holds alike; on the latter, which repeats 0x67
    and lacks 0x16, the report is moreover neither balanced nor bijective
    and its nonlinearity is 98. *)
Lemma standard_aes_sac_score_is_not_one_eighth :
  constructor fipsSBox = inr (freshAnalyzer fipsSBox)
  /\ ~ (Qabs (sac_score
                (res_sac (fst (runFullAnalysis (freshAnalyzer fipsSBox))))
              - (1 # 8)) <= 1 # 1000000000)%Q
  /\ constructor standardSBox = inr (freshAnalyzer standardSBox)
  /\ ~ (Qabs (sac_score
                (res_sac (fst (runFullAnalysis (freshAnalyzer standardSBox))))
              - (1 # 8)) <= 1 # 1000000000)%Q
  /\ res_isBalanced (fst (runFullAnalysis (freshAnalyzer standardSBox)))
     = false
  /\ res_isBijection (fst (runFullAnalysis (freshAnalyzer standardSBox)))
     = false
  /\ res_nonlinearity (fst (runFullAnalysis (freshAnalyzer standardSBox)))
     = Fin 98.
Proof.
  assert (Hl : length fipsSBox = 256%nat) by reflexivity.
  assert (Hl' : length standardSBox = 256%nat) by reflexivity.
  destruct (fresh_coherent fipsSBox Hl) as [E Hc].
  destruct (fresh_coherent standardSBox Hl') as [E' Hc'].
  destruct (runFullAnalysis_report fipsSBox _ Hl Hc) as (_ & R2 & _).
  destruct (runFullAnalysis_report standardSBox _ Hl' Hc')
    as (R1' & R2' & _ & _ & _ & _ & R7' & R8').
  split; [exact E|].
  split; [rewrite R2; apply Qle_bool_false, fips_sac_far_from_one_eighth|].
  split; [exact E'|].
  split; [rewrite R2'; apply Qle_bool_false, standard_sac_far_from_one_eighth|].
  rewrite R7', R8', R1'.
  split; [apply standard_flags|]. split; [apply standard_flags|].
  exact standard_nonlinearity.
Qed.

(** ** The AES-128 core of the specification *)
Section AESFacts.
Import AES.

Lemma lxor4_swap (a b c d : Z) :
  Z.lxor (Z.lxor a b) (Z.lxor c d) = Z.lxor (Z.lxor a c) (Z.lxor b d).
Proof. apply Z.bits_inj'. intros k _. rewrite !Z.lxor_spec. btauto. Qed.

Lemma lxor16_transpose
      (x00 x01 x02 x03 x10 x11 x12 x13 x20 x21 x22 x23 x30 x31 x32 x33 : Z) :
  Z.lxor
    (Z.lxor
       (Z.lxor (Z.lxor (Z.lxor (Z.lxor x00 x01) x02) x03)
               (Z.lxor (Z.lxor (Z.lxor x10 x11) x12) x13))
       (Z.lxor (Z.lxor (Z.lxor x20 x21) x22) x23))
    (Z.lxor (Z.lxor (Z.lxor x30 x31) x32) x33)
  = Z.lxor
      (Z.lxor
         (Z.lxor (Z.lxor (Z.lxor (Z.lxor x00 x10) x20) x30)
                 (Z.lxor (Z.lxor (Z.lxor x01 x11) x21) x31))
         (Z.lxor (Z.lxor (Z.lxor x02 x12) x22) x32))
      (Z.lxor (Z.lxor (Z.lxor x03 x13) x23) x33).
Proof. apply Z.bits_inj'. intros k _. rewrite !Z.lxor_spec. btauto. Qed.

Lemma lxor_cancel_r x y : Z.lxor (Z.lxor x y) y = x.
Proof. now rewrite Z.lxor_assoc, Z.lxor_nilpotent, Z.lxor_0_r. Qed.

Lemma xtime_byte b : 0 <= b < 256 -> 0 <= xtime b < 256.
Proof.
  intros H.
  assert (E : (0 <=? xtime b) && (xtime b <? 256) = true).
  { revert b H.
    apply (byte_forallb (fun b => (0 <=? xtime b) && (xtime b <? 256))).
    vm_compute. reflexivity. }
  apply andb_true_iff in E. destruct E as [E1 E2].
  apply Z.leb_le in E1. apply Z.ltb_lt in E2. lia.
Qed.

Lemma xtime_lxor x y :
  0 <= x < 256 -> 0 <= y < 256 ->
  xtime (Z.lxor x y) = Z.lxor (xtime x) (xtime y).
Proof.
  intros Hx Hy. apply Z.eqb_eq. revert y Hy.
  apply (byte_forallb
           (fun y => xtime (Z.lxor x y) =? Z.lxor (xtime x) (xtime y))).
  revert x Hx.
  apply (byte_forallb
           (fun x =>
              forallb (fun y => xtime (Z.lxor x y)
                                =? Z.lxor (xtime x) (xtime y))
                      (zrange 0 256))).
  vm_compute. reflexivity.
Qed.

Lemma mul_loop_lxor k x y c p p' :
  0 <= x < 256 -> 0 <= y < 256 ->
  mul_loop k (Z.lxor x y) c (Z.lxor p p')
  = Z.lxor (mul_loop k x c p) (mul_loop k y c p').
Proof.
  revert x y c p p'. induction k as [|k IH]; intros x y c p p' Hx Hy;
    cbn [mul_loop].
  - reflexivity.
  - rewrite xtime_lxor by assumption.
    destruct (Z.testbit c 0).
    + rewrite lxor4_swap. apply IH; now apply xtime_byte.
    + apply IH; now apply xtime_byte.
Qed.

Lemma mul_lxor x y c :
  0 <= x < 256 -> 0 <= y < 256 ->
  mul (Z.lxor x y) c = Z.lxor (mul x c) (mul y c).
Proof.
  intros Hx Hy. unfold mul.
  change 0 with (Z.lxor 0 0) at 1. now apply mul_loop_lxor.
Qed.

Lemma mul_loop_byte k b c p :
  0 <= b < 256 -> 0 <= p < 256 -> 0 <= mul_loop k b c p < 256.
Proof.
  revert b c p. induction k as [|k IH]; intros b c p Hb Hp; cbn [mul_loop].
  - assumption.
  - apply IH; [now apply xtime_byte|].
    destruct (Z.testbit c 0); [now apply lxor_byte | assumption].
Qed.

Lemma mul_byte b c : 0 <= b < 256 -> 0 <= mul b c < 256.
Proof. intros H. apply mul_loop_byte; [assumption | lia]. Qed.

(** Entry by entry, the product of the inverse matrix and the MDS matrix is
    the identity on every byte. *)
Lemma mds_inverse_entries a :
  0 <= a < 256 ->
  Z.lxor (Z.lxor (Z.lxor (mul (mul a 2) 14) (mul (mul a 1) 11)) (mul (mul a 1) 13)) (mul (mul a 3) 9) = a
  /\ Z.lxor (Z.lxor (Z.lxor (mul (mul a 3) 14) (mul (mul a 2) 11)) (mul (mul a 1) 13)) (mul (mul a 1) 9) = 0
  /\ Z.lxor (Z.lxor (Z.lxor (mul (mul a 1) 14) (mul (mul a 3) 11)) (mul (mul a 2) 13)) (mul (mul a 1) 9) = 0
  /\ Z.lxor (Z.lxor (Z.lxor (mul (mul a 1) 14) (mul (mul a 1) 11)) (mul (mul a 3) 13)) (mul (mul a 2) 9) = 0
  /\ Z.lxor (Z.lxor (Z.lxor (mul (mul a 2) 9) (mul (mul a 1) 14)) (mul (mul a 1) 11)) (mul (mul a 3) 13) = 0
  /\ Z.lxor (Z.lxor (Z.lxor (mul (mul a 3) 9) (mul (mul a 2) 14)) (mul (mul a 1) 11)) (mul (mul a 1) 13) = a
  /\ Z.lxor (Z.lxor (Z.lxor (mul (mul a 1) 9) (mul (mul a 3) 14)) (mul (mul a 2) 11)) (mul (mul a 1) 13) = 0
  /\ Z.lxor (Z.lxor (Z.lxor (mul (mul a 1) 9) (mul (mul a 1) 14)) (mul (mul a 3) 11)) (mul (mul a 2) 13) = 0
  /\ Z.lxor (Z.lxor (Z.lxor (mul (mul a 2) 13) (mul (mul a 1) 9)) (mul (mul a 1) 14)) (mul (mul a 3) 11) = 0
  /\ Z.lxor (Z.lxor (Z.lxor (mul (mul a 3) 13) (mul (mul a 2) 9)) (mul (mul a 1) 14)) (mul (mul a 1) 11) = 0
  /\ Z.lxor (Z.lxor (Z.lxor (mul (mul a 1) 13) (mul (mul a 3) 9)) (mul (mul a 2) 14)) (mul (mul a 1) 11) = a
  /\ Z.lxor (Z.lxor (Z.lxor (mul (mul a 1) 13) (mul (mul a 1) 9)) (mul (mul a 3) 14)) (mul (mul a 2) 11) = 0
  /\ Z.lxor (Z.lxor (Z.lxor (mul (mul a 2) 11) (mul (mul a 1) 13)) (mul (mul a 1) 9)) (mul (mul a 3) 14) = 0
  /\ Z.lxor (Z.lxor (Z.lxor (mul (mul a 3) 11) (mul (mul a 2) 13)) (mul (mul a 1) 9)) (mul (mul a 1) 14) = 0
  /\ Z.lxor (Z.lxor (Z.lxor (mul (mul a 1) 11) (mul (mul a 3) 13)) (mul (mul a 2) 9)) (mul (mul a 1) 14) = 0
  /\ Z.lxor (Z.lxor (Z.lxor (mul (mul a 1) 11) (mul (mul a 1) 13)) (mul (mul a 3) 9)) (mul (mul a 2) 14) = a.
Proof.
  intros H.
  assert (E : (Z.lxor (Z.lxor (Z.lxor (mul (mul a 2) 14) (mul (mul a 1) 11)) (mul (mul a 1) 13)) (mul (mul a 3) 9) =? a)
     && (Z.lxor (Z.lxor (Z.lxor (mul (mul a 3) 14) (mul (mul a 2) 11)) (mul (mul a 1) 13)) (mul (mul a 1) 9) =? 0)
     && (Z.lxor (Z.lxor (Z.lxor (mul (mul a 1) 14) (mul (mul a 3) 11)) (mul (mul a 2) 13)) (mul (mul a 1) 9) =? 0)
     && (Z.lxor (Z.lxor (Z.lxor (mul (mul a 1) 14) (mul (mul a 1) 11)) (mul (mul a 3) 13)) (mul (mul a 2) 9) =? 0)
     && (Z.lxor (Z.lxor (Z.lxor (mul (mul a 2) 9) (mul (mul a 1) 14)) (mul (mul a 1) 11)) (mul (mul a 3) 13) =? 0)
     && (Z.lxor (Z.lxor (Z.lxor (mul (mul a 3) 9) (mul (mul a 2) 14)) (mul (mul a 1) 11)) (mul (mul a 1) 13) =? a)
     && (Z.lxor (Z.lxor (Z.lxor (mul (mul a 1) 9) (mul (mul a 3) 14)) (mul (mul a 2) 11)) (mul (mul a 1) 13) =? 0)
     && (Z.lxor (Z.lxor (Z.lxor (mul (mul a 1) 9) (mul (mul a 1) 14)) (mul (mul a 3) 11)) (mul (mul a 2) 13) =? 0)
     && (Z.lxor (Z.lxor (Z.lxor (mul (mul a 2) 13) (mul (mul a 1) 9)) (mul (mul a 1) 14)) (mul (mul a 3) 11) =? 0)
     && (Z.lxor (Z.lxor (Z.lxor (mul (mul a 3) 13) (mul (mul a 2) 9)) (mul (mul a 1) 14)) (mul (mul a 1) 11) =? 0)
     && (Z.lxor (Z.lxor (Z.lxor (mul (mul a 1) 13) (mul (mul a 3) 9)) (mul (mul a 2) 14)) (mul (mul a 1) 11) =? a)
     && (Z.lxor (Z.lxor (Z.lxor (mul (mul a 1) 13) (mul (mul a 1) 9)) (mul (mul a 3) 14)) (mul (mul a 2) 11) =? 0)
     && (Z.lxor (Z.lxor (Z.lxor (mul (mul a 2) 11) (mul (mul a 1) 13)) (mul (mul a 1) 9)) (mul (mul a 3) 14) =? 0)
     && (Z.lxor (Z.lxor (Z.lxor (mul (mul a 3) 11) (mul (mul a 2) 13)) (mul (mul a 1) 9)) (mul (mul a 1) 14) =? 0)
     && (Z.lxor (Z.lxor (Z.lxor (mul (mul a 1) 11) (mul (mul a 3) 13)) (mul (mul a 2) 9)) (mul (mul a 1) 14) =? 0)
     && (Z.lxor (Z.lxor (Z.lxor (mul (mul a 1) 11) (mul (mul a 1) 13)) (mul (mul a 3) 9)) (mul (mul a 2) 14) =? a)
              = true).
  { revert a H.
    apply (byte_forallb
             (fun a => (Z.lxor (Z.lxor (Z.lxor (mul (mul a 2) 14) (mul (mul a 1) 11)) (mul (mul a 1) 13)) (mul (mul a 3) 9) =? a)
     && (Z.lxor (Z.lxor (Z.lxor (mul (mul a 3) 14) (mul (mul a 2) 11)) (mul (mul a 1) 13)) (mul (mul a 1) 9) =? 0)
     && (Z.lxor (Z.lxor (Z.lxor (mul (mul a 1) 14) (mul (mul a 3) 11)) (mul (mul a 2) 13)) (mul (mul a 1) 9) =? 0)
     && (Z.lxor (Z.lxor (Z.lxor (mul (mul a 1) 14) (mul (mul a 1) 11)) (mul (mul a 3) 13)) (mul (mul a 2) 9) =? 0)
     && (Z.lxor (Z.lxor (Z.lxor (mul (mul a 2) 9) (mul (mul a 1) 14)) (mul (mul a 1) 11)) (mul (mul a 3) 13) =? 0)
     && (Z.lxor (Z.lxor (Z.lxor (mul (mul a 3) 9) (mul (mul a 2) 14)) (mul (mul a 1) 11)) (mul (mul a 1) 13) =? a)
     && (Z.lxor (Z.lxor (Z.lxor (mul (mul a 1) 9) (mul (mul a 3) 14)) (mul (mul a 2) 11)) (mul (mul a 1) 13) =? 0)
     && (Z.lxor (Z.lxor (Z.lxor (mul (mul a 1) 9) (mul (mul a 1) 14)) (mul (mul a 3) 11)) (mul (mul a 2) 13) =? 0)
     && (Z.lxor (Z.lxor (Z.lxor (mul (mul a 2) 13) (mul (mul a 1) 9)) (mul (mul a 1) 14)) (mul (mul a 3) 11) =? 0)
     && (Z.lxor (Z.lxor (Z.lxor (mul (mul a 3) 13) (mul (mul a 2) 9)) (mul (mul a 1) 14)) (mul (mul a 1) 11) =? 0)
     && (Z.lxor (Z.lxor (Z.lxor (mul (mul a 1) 13) (mul (mul a 3) 9)) (mul (mul a 2) 14)) (mul (mul a 1) 11) =? a)
     && (Z.lxor (Z.lxor (Z.lxor (mul (mul a 1) 13) (mul (mul a 1) 9)) (mul (mul a 3) 14)) (mul (mul a 2) 11) =? 0)
     && (Z.lxor (Z.lxor (Z.lxor (mul (mul a 2) 11) (mul (mul a 1) 13)) (mul (mul a 1) 9)) (mul (mul a 3) 14) =? 0)
     && (Z.lxor (Z.lxor (Z.lxor (mul (mul a 3) 11) (mul (mul a 2) 13)) (mul (mul a 1) 9)) (mul (mul a 1) 14) =? 0)
     && (Z.lxor (Z.lxor (Z.lxor (mul (mul a 1) 11) (mul (mul a 3) 13)) (mul (mul a 2) 9)) (mul (mul a 1) 14) =? 0)
     && (Z.lxor (Z.lxor (Z.lxor (mul (mul a 1) 11) (mul (mul a 1) 13)) (mul (mul a 3) 9)) (mul (mul a 2) 14) =? a))).
    vm_compute. reflexivity. }
  repeat (apply andb_true_iff in E; destruct E as [E ?]).
  repeat match goal with
         | H : (_ =? _) = true |- _ => apply Z.eqb_eq in H
         end.
  repeat (split; [assumption|]). assumption.
Qed.

Ltac solve_bytes :=
  repeat match goal with
         | |- 0 <= mul _ _ < 256 => apply mul_byte
         | |- 0 <= Z.lxor _ _ < 256 => apply lxor_byte
         | |- 0 <= _ < 256 => assumption
         end.

Lemma mix_column_inverse a0 a1 a2 a3 :
  0 <= a0 < 256 -> 0 <= a1 < 256 -> 0 <= a2 < 256 -> 0 <= a3 < 256 ->
  mulMatrix invMdsMatrix (mulMatrix mdsMatrix [a0; a1; a2; a3])
  = [a0; a1; a2; a3].
Proof.
  intros H0 H1 H2 H3.
  unfold mulMatrix, dot, mdsMatrix, invMdsMatrix.
  cbn [map combine fold_left].
  rewrite !Z.lxor_0_l.
  rewrite !mul_lxor by solve_bytes.
  pose proof (mds_inverse_entries a0 H0) as E0.
  pose proof (mds_inverse_entries a1 H1) as E1.
  pose proof (mds_inverse_entries a2 H2) as E2.
  pose proof (mds_inverse_entries a3 H3) as E3.
  decompose [and] E0. decompose [and] E1.
  decompose [and] E2. decompose [and] E3. clear E0 E1 E2 E3.
  f_equal; [|f_equal; [|f_equal; [|f_equal]]];
    rewrite lxor16_transpose;
    repeat match goal with
           | H : Z.lxor _ _ = _ |- _ => first [rewrite H | idtac]; clear H
           end;
    rewrite ?Z.lxor_0_l, ?Z.lxor_0_r; reflexivity.
Qed.

Lemma wfWord_inv w :
  wfWord w ->
  exists a b c d,
    w = [a; b; c; d]
    /\ 0 <= a < 256 /\ 0 <= b < 256 /\ 0 <= c < 256 /\ 0 <= d < 256.
Proof.
  intros [Hl Hb].
  destruct w as [|a [|b [|c [|d [|e w]]]]]; try discriminate Hl.
  exists a, b, c, d. split; [reflexivity|].
  repeat split; apply Hb; cbn; auto.
Qed.

Lemma wfWord_intro a b c d :
  0 <= a < 256 -> 0 <= b < 256 -> 0 <= c < 256 -> 0 <= d < 256 ->
  wfWord [a; b; c; d].
Proof.
  intros Ha Hb Hc Hd. split; [reflexivity|].
  intros x [<-|[<-|[<-|[<-|[]]]]]; assumption.
Qed.

Lemma wfState_inv state :
  wfState state ->
  exists w0 w1 w2 w3,
    state = [w0; w1; w2; w3]
    /\ wfWord w0 /\ wfWord w1 /\ wfWord w2 /\ wfWord w3.
Proof.
  intros [Hl Hb].
  destruct state as [|a [|b [|c [|d [|e w]]]]]; try discriminate Hl.
  exists a, b, c, d. split; [reflexivity|].
  split; [|split; [|split]]; apply Hb; cbn; auto.
Qed.

Lemma wfState_intro w0 w1 w2 w3 :
  wfWord w0 -> wfWord w1 -> wfWord w2 -> wfWord w3 ->
  wfState [w0; w1; w2; w3].
Proof.
  intros H0 H1 H2 H3. split; [reflexivity|].
  intros x [<-|[<-|[<-|[<-|[]]]]]; assumption.
Qed.

Ltac explode_state state H :=
  let w0 := fresh "w" in
  let w1 := fresh "w" in
  let w2 := fresh "w" in
  let w3 := fresh "w" in
  let E := fresh "E" in
  let H0 := fresh "Hw" in
  let H1 := fresh "Hw" in
  let H2 := fresh "Hw" in
  let H3 := fresh "Hw" in
  destruct (wfState_inv state H) as (w0 & w1 & w2 & w3 & E & H0 & H1 & H2 & H3);
  subst state;
  destruct (wfWord_inv _ H0) as (? & ? & ? & ? & -> & ? & ? & ? & ?);
  destruct (wfWord_inv _ H1) as (? & ? & ? & ? & -> & ? & ? & ? & ?);
  destruct (wfWord_inv _ H2) as (? & ? & ? & ? & -> & ? & ? & ? & ?);
  destruct (wfWord_inv _ H3) as (? & ? & ? & ? & -> & ? & ? & ? & ?);
  clear H0 H1 H2 H3.

Ltac solve_wf :=
  repeat match goal with
         | |- wfState _ => apply wfState_intro
         | |- wfWord _ => first [assumption | apply wfWord_intro]
         | |- 0 <= _ < 256 => solve_bytes
         end.

Lemma xorWord_wf u v : wfWord u -> wfWord v -> wfWord (xorWord u v).
Proof.
  intros Hu Hv.
  destruct (wfWord_inv _ Hu) as (? & ? & ? & ? & -> & ? & ? & ? & ?).
  destruct (wfWord_inv _ Hv) as (? & ? & ? & ? & -> & ? & ? & ? & ?).
  unfold xorWord. cbn [combine map]. solve_wf.
Qed.

Lemma AddRoundKey_wf state rk :
  wfState state -> wfState rk -> wfState (AddRoundKey state rk).
Proof.
  intros Hs Hk.
  destruct (wfState_inv _ Hs) as (? & ? & ? & ? & -> & ? & ? & ? & ?).
  destruct (wfState_inv _ Hk) as (? & ? & ? & ? & -> & ? & ? & ? & ?).
  unfold AddRoundKey. cbn [combine map].
  apply wfState_intro; now apply xorWord_wf.
Qed.

Lemma AddRoundKey_involutive state rk :
  wfState state -> wfState rk ->
  AddRoundKey (AddRoundKey state rk) rk = state.
Proof.
  intros Hs Hk. explode_state state Hs. explode_state rk Hk.
  unfold AddRoundKey, xorWord. cbn [combine map].
  now rewrite !lxor_cancel_r.
Qed.

Lemma SubWord_wf sb w :
  (forall b, 0 <= b < 256 -> 0 <= get sb b < 256) ->
  wfWord w -> wfWord (SubWord sb w).
Proof.
  intros Hsb [Hl Hb]. unfold SubWord. split.
  - now rewrite length_map.
  - intros b Hin. apply in_map_iff in Hin. destruct Hin as (x & <- & Hx).
    apply Hsb. now apply Hb.
Qed.

Lemma SubBytes_wf sb state :
  (forall b, 0 <= b < 256 -> 0 <= get sb b < 256) ->
  wfState state -> wfState (SubBytes sb state).
Proof.
  intros Hsb [Hl Hb]. unfold SubBytes. split.
  - now rewrite length_map.
  - intros w Hin. apply in_map_iff in Hin. destruct Hin as (x & <- & Hx).
    apply SubWord_wf; [assumption | now apply Hb].
Qed.

Lemma SubBytes_inverse sb inv state :
  (forall b, 0 <= b < 256 -> get inv (get sb b) = b) ->
  wfState state -> SubBytes inv (SubBytes sb state) = state.
Proof.
  intros Hinv [Hl Hb]. unfold SubBytes, SubWord. rewrite map_map.
  rewrite <- (map_id state) at 2. apply map_ext_in. intros w Hw.
  rewrite map_map. rewrite <- (map_id w) at 2. apply map_ext_in.
  intros b Hin. apply Hinv. now apply (Hb w Hw).
Qed.

Lemma ShiftRows_wf state : wfState state -> wfState (ShiftRows state).
Proof.
  intros Hs. explode_state state Hs.
  match goal with
  | |- wfState ?s => let s' := eval vm_compute in s in change (wfState s')
  end.
  solve_wf.
Qed.

Lemma ShiftRows_inverse state :
  wfState state -> InvShiftRows (ShiftRows state) = state.
Proof. intros Hs. explode_state state Hs. reflexivity. Qed.

Lemma mulMatrix_mds_wf w : wfWord w -> wfWord (mulMatrix mdsMatrix w).
Proof.
  intros Hw. destruct (wfWord_inv _ Hw) as (? & ? & ? & ? & -> & ? & ? & ? & ?).
  unfold mulMatrix, dot, mdsMatrix. cbn [map combine fold_left].
  rewrite !Z.lxor_0_l. solve_wf.
Qed.

Lemma MixColumns_wf state : wfState state -> wfState (MixColumns state).
Proof.
  intros [Hl Hb]. unfold MixColumns. split.
  - now rewrite length_map.
  - intros w Hin. apply in_map_iff in Hin. destruct Hin as (x & <- & Hx).
    apply mulMatrix_mds_wf. now apply Hb.
Qed.

Lemma MixColumns_inverse state :
  wfState state -> InvMixColumns (MixColumns state) = state.
Proof.
  intros [Hl Hb]. unfold InvMixColumns, MixColumns. rewrite map_map.
  rewrite <- (map_id state) at 2. apply map_ext_in. intros w Hw.
  destruct (wfWord_inv _ (Hb w Hw)) as (? & ? & ? & ? & -> & ? & ? & ? & ?).
  now apply mix_column_inverse.
Qed.

Lemma get_set_same (arr : list Z) i v :
  0 <= i < Z.of_nat (length arr) -> get (set arr i v) i = v.
Proof.
  intros H. unfold get, set, updZ.
  replace (0 <=? i) with true by (symmetry; apply Z.leb_le; lia).
  rewrite nth_upd_same by lia. reflexivity.
Qed.

Lemma get_set_other (arr : list Z) i j v :
  0 <= j -> i <> j -> get (set arr i v) j = get arr j.
Proof.
  intros Hj Hne. unfold get, set, updZ.
  destruct (Z.leb_spec 0 i); [|reflexivity].
  rewrite nth_upd_other by lia. reflexivity.
Qed.

Lemma invert_loop (sb : list Z) l inv0 :
  length inv0 = 256%nat ->
  (forall i, In i l -> 0 <= get sb i < 256) ->
  NoDup (map (get sb) l) ->
  let inv := fold_left (fun inv i => set inv (get sb i) i) l inv0 in
  length inv = 256%nat
  /\ (forall i, In i l -> get inv (get sb i) = i)
  /\ (forall v, 0 <= v -> ~ In v (map (get sb) l) -> get inv v = get inv0 v).
Proof.
  revert inv0. induction l as [|i l IH]; intros inv0 Hl Hb Hn; cbn zeta;
    cbn [fold_left].
  - split; [assumption|]. split; [intros i []|reflexivity].
  - cbn [map] in Hn. inversion Hn as [|? ? Hnotin Hn']; subst.
    destruct (IH (set inv0 (get sb i) i)) as (L & A & B).
    + unfold set. now rewrite updZ_length.
    + intros j Hj. apply Hb. now right.
    + assumption.
    + cbn zeta in *. split; [assumption|]. split.
      * intros j [<-|Hj]; [|now apply A].
        rewrite B; [|apply Hb; now left|assumption].
        apply get_set_same. rewrite Hl. apply Hb. now left.
      * intros v Hv Hnot. rewrite B; [|assumption|].
        -- apply get_set_other; [assumption|].
           intros E. apply Hnot. left. exact E.
        -- intros Hin. apply Hnot. now right.
Qed.

Lemma invertSBox_spec sb b :
  permutation256 sb -> 0 <= b < 256 -> get (invertSBox sb) (get sb b) = b.
Proof.
  intros Hp Hb. unfold invertSBox, for_.
  destruct (invert_loop sb (zrange 0 256) (fill 256 0)) as (_ & A & _).
  - reflexivity.
  - intros i Hi. apply zrange_In in Hi. now apply permutation256_get.
  - rewrite map_get_zrange
      by (rewrite (permutation256_length sb Hp); reflexivity).
    apply (Permutation_NoDup (Permutation_sym Hp)), zrange_NoDup.
  - apply A. now apply zrange_In.
Qed.

Lemma rc_byte k : 0 <= rc k < 256.
Proof.
  induction k as [|k IH]; [cbn; lia|].
  destruct k as [|k]; [cbn; lia|].
  change (rc (S (S k))) with (xtime (rc (S k))). now apply xtime_byte.
Qed.

Lemma RotWord_wf w : wfWord w -> wfWord (RotWord w).
Proof.
  intros Hw. destruct (wfWord_inv _ Hw) as (? & ? & ? & ? & -> & ? & ? & ? & ?).
  cbn [RotWord app]. solve_wf.
Qed.

Lemma nth_wfWord (ws : list (list Z)) k :
  (forall w, In w ws -> wfWord w) -> (k < length ws)%nat ->
  wfWord (nth k ws []).
Proof. intros H Hk. apply H. now apply nth_In. Qed.

Lemma nextWord_wf sb ws :
  (forall b, 0 <= b < 256 -> 0 <= get sb b < 256) ->
  (forall w, In w ws -> wfWord w) -> (1 <= length ws)%nat ->
  wfWord (nextWord sb ws (length ws)).
Proof.
  intros Hsb Hws Hl. unfold nextWord.
  assert (Hp : wfWord (nth (length ws - 1) ws [])) by (apply nth_wfWord; auto; lia).
  assert (Hk : wfWord (nth (length ws - 4) ws [])) by (apply nth_wfWord; auto; lia).
  destruct (Nat.eqb (length ws mod 4) 0).
  - apply xorWord_wf; [apply xorWord_wf; [assumption|]|].
    + apply SubWord_wf; [assumption|]. now apply RotWord_wf.
    + apply wfWord_intro; try lia. apply rc_byte.
  - now apply xorWord_wf.
Qed.

Lemma expandWords_wf sb count ws :
  (forall b, 0 <= b < 256 -> 0 <= get sb b < 256) ->
  (forall w, In w ws -> wfWord w) -> (1 <= length ws)%nat ->
  (forall w, In w (expandWords sb count ws) -> wfWord w)
  /\ length (expandWords sb count ws) = (length ws + count)%nat.
Proof.
  intros Hsb. revert ws. induction count as [|count IH]; intros ws Hws Hl;
    cbn [expandWords].
  - split; [assumption | lia].
  - destruct (IH (ws ++ [nextWord sb ws (length ws)])) as [A B].
    + intros w Hin. apply in_app_or in Hin. destruct Hin as [Hin|[<-|[]]].
      * now apply Hws.
      * now apply nextWord_wf.
    + rewrite length_app. cbn [length]. lia.
    + split; [assumption|]. rewrite B, length_app. cbn [length]. lia.
Qed.

Lemma nth_byte (l : list Z) k :
  (forall b, In b l -> 0 <= b < 256) -> 0 <= nth k l 0 < 256.
Proof.
  intros H. destruct (nth_in_or_default k l 0) as [Hin | ->]; [now apply H | lia].
Qed.

Lemma load_wf bytes :
  (forall b, In b bytes -> 0 <= b < 256) -> wfState (load bytes).
Proof.
  intros Hb. unfold load. split.
  - now rewrite length_map, length_seq.
  - intros w Hin. apply in_map_iff in Hin. destruct Hin as (c & <- & _).
    split.
    + now rewrite length_map, length_seq.
    + intros b Hin. apply in_map_iff in Hin. destruct Hin as (r & <- & _).
      now apply nth_byte.
Qed.

Lemma words_wf key sb :
  (forall b, 0 <= b < 256 -> 0 <= get sb b < 256) ->
  (forall b, In b key -> 0 <= b < 256) ->
  (forall w, In w (words key sb) -> wfWord w)
  /\ length (words key sb) = 44%nat.
Proof.
  intros Hsb Hk. unfold words.
  destruct (load_wf key Hk) as [Hl Hw].
  destruct (expandWords_wf sb 40 (load key) Hsb Hw ltac:(lia)) as [A B].
  split; [assumption|]. rewrite B, Hl. reflexivity.
Qed.

Lemma In_firstn {A} (x : A) k l : In x (firstn k l) -> In x l.
Proof.
  intros H. rewrite <- (firstn_skipn k l). apply in_or_app. now left.
Qed.

Lemma In_skipn {A} (x : A) k l : In x (skipn k l) -> In x l.
Proof.
  intros H. rewrite <- (firstn_skipn k l). apply in_or_app. now right.
Qed.

Lemma roundKey_wf ws r :
  (forall w, In w ws -> wfWord w) -> length ws = 44%nat -> (r <= 10)%nat ->
  wfState (roundKey ws r).
Proof.
  intros Hw Hl Hr. unfold roundKey. split.
  - rewrite length_firstn, length_skipn. lia.
  - intros w Hin. apply Hw. apply In_firstn in Hin. now apply In_skipn in Hin.
Qed.

Lemma KeyExpansion_nth key sb r :
  (r <= 10)%nat ->
  nth r (KeyExpansion key sb) [] = roundKey (words key sb) r.
Proof.
  intros Hr. unfold KeyExpansion.
  rewrite nth_indep with (d' := roundKey (words key sb) 0)
    by (rewrite length_map, length_seq; lia).
  rewrite map_nth, seq_nth by lia. reflexivity.
Qed.

Lemma load_unload state : wfState state -> load (unload state) = state.
Proof. intros Hs. explode_state state Hs. reflexivity. Qed.

Lemma unload_length state : wfState state -> length (unload state) = 16%nat.
Proof. intros Hs. explode_state state Hs. reflexivity. Qed.

Lemma unload_load bytes : length bytes = 16%nat -> unload (load bytes) = bytes.
Proof.
  intros H.
  do 16 (destruct bytes as [|? bytes]; [discriminate H|]).
  destruct bytes; [reflexivity | discriminate H].
Qed.

Section Rounds.

Variables (sb inv : list Z) (rk : nat -> AESState).
Hypothesis sb_bytes : forall b, 0 <= b < 256 -> 0 <= get sb b < 256.
Hypothesis inv_sb : forall b, 0 <= b < 256 -> get inv (get sb b) = b.

Lemma encRound_wf state r :
  wfState state -> wfState (rk r) -> wfState (encRound sb state (rk r)).
Proof.
  intros Hs Hk. unfold encRound.
  apply AddRoundKey_wf; [|assumption].
  apply MixColumns_wf, ShiftRows_wf, SubBytes_wf; assumption.
Qed.

Lemma decRound_encRound state r :
  wfState state -> wfState (rk r) ->
  decRound inv (ShiftRows (SubBytes sb (encRound sb state (rk r)))) (rk r)
  = ShiftRows (SubBytes sb state).
Proof.
  intros Hs Hk. unfold decRound.
  pose proof (encRound_wf state r Hs Hk) as He.
  rewrite ShiftRows_inverse by (apply SubBytes_wf; assumption).
  rewrite SubBytes_inverse by assumption.
  unfold encRound.
  rewrite AddRoundKey_involutive
    by (try assumption;
        apply MixColumns_wf, ShiftRows_wf, SubBytes_wf; assumption).
  apply MixColumns_inverse, ShiftRows_wf, SubBytes_wf; assumption.
Qed.

Lemma rounds_inverse rs state :
  (forall r, In r rs -> wfState (rk r)) -> wfState state ->
  wfState (fold_left (fun st r => encRound sb st (rk r)) rs state)
  /\ fold_left (fun st r => decRound inv st (rk r)) (rev rs)
               (ShiftRows
                  (SubBytes sb
                     (fold_left (fun st r => encRound sb st (rk r)) rs state)))
     = ShiftRows (SubBytes sb state).
Proof.
  revert state. induction rs as [|r rs IH]; intros state Hk Hs;
    cbn [fold_left rev].
  - now split.
  - assert (Hr : wfState (rk r)) by (apply Hk; now left).
    destruct (IH (encRound sb state (rk r))) as [W E].
    + intros r' Hr'. apply Hk. now right.
    + now apply encRound_wf.
    + split; [assumption|].
      rewrite fold_left_app. cbn [fold_left]. rewrite E.
      now apply decRound_encRound.
Qed.

Lemma invCipher_cipher rks state :
  (forall r, (r <= 10)%nat -> rk r = nth r rks []) ->
  (forall r, (r <= 10)%nat -> wfState (rk r)) ->
  wfState state ->
  wfState (cipher sb rks state)
  /\ invCipher inv rks (cipher sb rks state) = state.
Proof.
  intros Hrk Hwf Hs. unfold cipher, invCipher. cbn beta zeta.
  unfold AESState in *.
  rewrite <- !(Hrk 0%nat) by lia. rewrite <- !(Hrk 10%nat) by lia.
  rewrite (fold_left_ext_in
             (fun st r => encRound sb st (nth r rks []))
             (fun st r => encRound sb st (rk r)))
    by (intros st r Hr; apply in_seq in Hr; rewrite Hrk by lia; reflexivity).
  rewrite (fold_left_ext_in
             (fun st r => decRound inv st (nth r rks []))
             (fun st r => decRound inv st (rk r)))
    by (intros st r Hr; apply in_rev, in_seq in Hr; rewrite Hrk by lia;
        reflexivity).
  assert (H0 : wfState (AddRoundKey state (rk 0%nat)))
    by (apply AddRoundKey_wf; [assumption | apply Hwf; lia]).
  destruct (rounds_inverse (seq 1 9) (AddRoundKey state (rk 0%nat)))
    as [W E].
  { intros r Hr. apply in_seq in Hr. apply Hwf. lia. }
  { assumption. }
  assert (W' : wfState
                 (ShiftRows
                    (SubBytes sb
                       (fold_left (fun st r => encRound sb st (rk r))
                                  (seq 1 9)
                                  (AddRoundKey state (rk 0%nat))))))
    by (apply ShiftRows_wf, SubBytes_wf; assumption).
  split.
  - apply AddRoundKey_wf; [assumption | apply Hwf; lia].
  - rewrite AddRoundKey_involutive by (try assumption; apply Hwf; lia).
    rewrite E.
    rewrite ShiftRows_inverse by (apply SubBytes_wf; assumption).
    rewrite SubBytes_inverse by assumption.
    apply AddRoundKey_involutive; [assumption | apply Hwf; lia].
Qed.

End Rounds.

Lemma isPermutation256_true sb : permutation256 sb -> isPermutation256 sb = true.
Proof.
  intros Hp. unfold isPermutation256. apply forallb_forall. intros v Hv.
  apply existsb_eqb_In. apply (Permutation_in _ (Permutation_sym Hp) Hv).
Qed.

Lemma checkInputs_ok block key sb :
  permutation256 sb -> length block = 16%nat -> length key = 16%nat ->
  checkInputs block key sb = None.
Proof.
  intros Hp Hb Hk. unfold checkInputs.
  rewrite (permutation256_length sb Hp), (isPermutation256_true sb Hp), Hb, Hk.
  reflexivity.
Qed.

(** The test vector of FIPS-197, Appendix B, on the model. *)
Lemma aes_fips197_vector :
  encrypt_block fipsPlaintext fipsKey fipsSBox = inr fipsCiphertext
  /\ decrypt_block fipsCiphertext fipsKey fipsSBox = inr fipsPlaintext.
Proof. split; vm_compute; reflexivity. Qed.

End AESFacts.

(** C3. For every 256-permutation S-box, every 16-byte key and every 16-byte
    plaintext, encryption succeeds and decrypting its result with the same
    key and S-box returns the plaintext byte for byte. *)
Theorem aes_decrypt_encrypt_round_trip (sb key plaintext : list Z) :
  permutation256 sb ->
  length key = 16%nat -> (forall b, In b key -> 0 <= b < 256) ->
  length plaintext = 16%nat -> (forall b, In b plaintext -> 0 <= b < 256) ->
  exists ciphertext,
    AES.encrypt_block plaintext key sb = inr ciphertext
    /\ AES.decrypt_block ciphertext key sb = inr plaintext.
Proof.
  intros Hp Hkl Hkb Hpl Hpb.
  assert (Hsb : forall b, 0 <= b < 256 -> 0 <= get sb b < 256)
    by (intros b Hb; now apply permutation256_get).
  destruct (words_wf key sb Hsb Hkb) as [Hw Hwl].
  destruct (invCipher_cipher
              sb (AES.invertSBox sb)
              (fun r => AES.roundKey (AES.words key sb) r)
              Hsb (fun b Hb => invertSBox_spec sb b Hp Hb)
              (AES.KeyExpansion key sb) (AES.load plaintext)) as [W E].
  - intros r Hr. symmetry. now apply KeyExpansion_nth.
  - intros r Hr. now apply roundKey_wf.
  - now apply load_wf.
  - exists (AES.unload (AES.cipher sb (AES.KeyExpansion key sb)
                                   (AES.load plaintext))).
    unfold AES.encrypt_block, AES.decrypt_block.
    rewrite (checkInputs_ok plaintext key sb) by assumption.
    rewrite checkInputs_ok
      by (assumption || now apply unload_length).
    split; [reflexivity|].
    rewrite load_unload by assumption.
    rewrite E. now rewrite unload_load.
Qed.

Lemma aes_decrypt_encrypt_round_trip_witness :
  exists ciphertext,
    AES.encrypt_block fipsPlaintext fipsKey fipsSBox = inr ciphertext
    /\ AES.decrypt_block ciphertext fipsKey fipsSBox = inr fipsPlaintext.
Proof.
  apply (aes_decrypt_encrypt_round_trip fipsSBox fipsKey fipsPlaintext).
  - apply covering_checked; vm_compute; reflexivity.
  - reflexivity.
  - apply bytes_checked. vm_compute. reflexivity.
  - reflexivity.
  - apply bytes_checked. vm_compute. reflexivity.
Defined.

(** * Further properties of the code

    ** The input boundary of the dashboard *)
Section Validator.

Lemma checkValues_inr values i seen seen' :
  checkValues values i seen = inr seen' ->
  (forall v, In v values -> 0 <= v < 256)
  /\ NoDup values
  /\ (forall v, In v values -> ~ In v seen)
  /\ seen' = rev values ++ seen.
Proof.
  revert i seen. induction values as [|val rest IH]; intros i seen;
    cbn [checkValues].
  - intros [= <-]. split; [intros v []|]. split; [constructor|].
    split; [intros v []|reflexivity].
  - destruct (Z.ltb_spec val 0); [discriminate|].
    destruct (Z.ltb_spec 255 val); [discriminate|]. cbn [orb].
    destruct (existsb (Z.eqb val) seen) eqn:E; [discriminate|].
    intros Hc. apply IH in Hc. destruct Hc as (Hb & Hn & Hd & ->).
    assert (Hns : ~ In val seen).
    { intros Hin. apply existsb_eqb_In in Hin. congruence. }
    split; [intros v [<-|Hv]; [lia | now apply Hb]|].
    split.
    { constructor; [|assumption]. intros Hin. apply (Hd val Hin). now left. }
    split.
    { intros v [<-|Hv]; [assumption|].
      intros Hs. apply (Hd v Hv). now right. }
    cbn [rev]. now rewrite <- app_assoc.
Qed.

Lemma checkValues_accepts values i seen :
  (forall v, In v values -> 0 <= v < 256) ->
  NoDup values ->
  (forall v, In v values -> ~ In v seen) ->
  checkValues values i seen = inr (rev values ++ seen).
Proof.
  revert i seen. induction values as [|val rest IH]; intros i seen Hb Hn Hd;
    cbn [checkValues]; [reflexivity|].
  assert (Hv : 0 <= val < 256) by (apply Hb; now left).
  destruct (Z.ltb_spec val 0); [lia|].
  destruct (Z.ltb_spec 255 val); [lia|]. cbn [orb].
  destruct (existsb (Z.eqb val) seen) eqn:E.
  { apply existsb_eqb_In in E. exfalso. apply (Hd val); [now left | exact E]. }
  inversion Hn as [|? ? Hnotin Hn']; subst.
  rewrite IH.
  - cbn [rev]. now rewrite <- app_assoc.
  - intros v Hin. apply Hb. now right.
  - assumption.
  - intros v Hin [<-|Hs]; [contradiction|].
    apply (Hd v); [now right | assumption].
Qed.

Lemma for_collect (c : Z -> bool) lo hi (m0 : list Z) :
  for_ lo hi (fun i m => if c i then m ++ [i] else m) m0
  = m0 ++ filter c (zrange lo hi).
Proof.
  unfold for_. generalize (zrange lo hi) as l. intros l. revert m0.
  induction l as [|i l IH]; intros m0; cbn [fold_left filter].
  - now rewrite app_nil_r.
  - rewrite IH. destruct (c i); [|reflexivity].
    now rewrite <- app_assoc.
Qed.

Lemma filter_nil {A} (c : A -> bool) l :
  (forall x, In x l -> c x = false) -> filter c l = [].
Proof.
  induction l as [|x l IH]; intros H; cbn [filter]; [reflexivity|].
  rewrite H by now left. apply IH. intros y Hy. apply H. now right.
Qed.

Lemma permutation256_NoDup sb : permutation256 sb -> NoDup sb.
Proof.
  intros H. apply (Permutation_NoDup (Permutation_sym H)), zrange_NoDup.
Qed.

Lemma permutation256_In sb v : permutation256 sb -> 0 <= v < 256 -> In v sb.
Proof.
  intros H Hv. apply (Permutation_in _ (Permutation_sym H)).
  now apply zrange_In.
Qed.

(** What the validator does after the loop, on the set the loop built. *)
Lemma validateSBoxValues_after_loop values seen :
  length values = 256%nat ->
  checkValues values 0 [] = inr seen ->
  permutation256 values /\ validateSBoxValues values = inr tt.
Proof.
  intros Hl E. pose proof (checkValues_inr _ _ _ _ E) as (Hb & Hn & _ & Es).
  assert (Hp : permutation256 values) by now apply nodup_permutation.
  split; [exact Hp|].
  unfold validateSBoxValues. rewrite Hl.
  change (negb (Z.of_nat 256 =? 256)) with false. cbn iota. rewrite E.
  rewrite (for_collect (fun i => negb (existsb (Z.eqb i) seen))).
  rewrite filter_nil; [reflexivity|].
  intros i Hi. apply zrange_In in Hi. apply negb_false_iff.
  apply existsb_eqb_In. subst seen. rewrite app_nil_r. apply in_rev.
  rewrite rev_involutive. now apply permutation256_In.
Qed.

Lemma validator_accepts_permutation values :
  permutation256 values -> validateSBoxValues values = inr tt.
Proof.
  intros Hp. pose proof (permutation256_length _ Hp) as Hl.
  apply (validateSBoxValues_after_loop values (rev values ++ [])); [exact Hl|].
  apply checkValues_accepts.
  - intros v Hv. now apply (permutation256_byte values).
  - now apply permutation256_NoDup.
  - intros v _ [].
Qed.

Lemma validator_accepted_is_permutation values :
  validateSBoxValues values = inr tt -> permutation256 values.
Proof.
  intros E.
  destruct (Nat.eq_dec (length values) 256) as [Hl|Hl].
  - destruct (checkValues values 0 []) as [e|seen] eqn:Ec.
    + unfold validateSBoxValues in E. rewrite Hl, Ec in E.
      change (negb (Z.of_nat 256 =? 256)) with false in E. discriminate.
    + now apply (validateSBoxValues_after_loop values seen).
  - rewrite validateSBoxValues_length in E by assumption. discriminate.
Qed.

End Validator.

(** X1. [validateSBoxValues] returns normally on the permutations of
    0..255 and on nothing else, whatever integers the array holds. *)
Theorem validateSBoxValues_accepts_exactly_permutations (values : list Z) :
  validateSBoxValues values = inr tt <-> permutation256 values.
Proof.
  split.
  - apply validator_accepted_is_permutation.
  - apply validator_accepts_permutation.
Qed.

(** X2. [validateSBoxValues] returns normally or throws the length error, a
    value error or a duplicate error.  Its last check never fires: 256
    distinct values between 0 and 255 leave no value missing, so the error
    'S-box is missing values' is never thrown. *)
Theorem validateSBoxValues_outcomes (values : list Z) :
  validateSBoxValues values = inr tt
  \/ validateSBoxValues values
     = inl (InvalidSBoxLength (Z.of_nat (length values)))
  \/ (exists pos val,
        validateSBoxValues values = inl (InvalidSBoxValue pos val))
  \/ (exists val pos,
        validateSBoxValues values = inl (DuplicateValue val pos)).
Proof.
  destruct (Nat.eq_dec (length values) 256) as [Hl|Hl].
  - destruct (checkValues values 0 []) as [e|seen] eqn:Ec.
    + assert (E : validateSBoxValues values = inl e).
      { unfold validateSBoxValues. rewrite Hl, Ec. reflexivity. }
      rewrite E. right. right.
      assert (G : forall vs i s e',
                 checkValues vs i s = inl e' ->
                 (exists pos val, e' = InvalidSBoxValue pos val)
                 \/ (exists val pos, e' = DuplicateValue val pos)).
      { induction vs as [|v vs IH]; intros i s e'; cbn [checkValues];
          [discriminate|].
        destruct ((v <? 0) || (255 <? v)).
        { intros [= <-]. left. now exists i, v. }
        destruct (existsb (Z.eqb v) s).
        { intros [= <-]. right. now exists v, i. }
        apply IH. }
      destruct (G _ _ _ _ Ec) as [(pos & val & ->)|(val & pos & ->)].
      * left. now exists pos, val.
      * right. now exists val, pos.
    + left. now apply (validateSBoxValues_after_loop values seen).
  - right. left. now apply validateSBoxValues_length.
Qed.

Section FirstOffender.

Lemma checkValues_inl values i seen e :
  checkValues values i seen = inl e ->
  exists k,
    (k < length values)%nat
    /\ (forall v, In v (firstn k values) -> 0 <= v < 256)
    /\ NoDup (firstn k values)
    /\ (forall v, In v (firstn k values) -> ~ In v seen)
    /\ ((e = InvalidSBoxValue (i + Z.of_nat k) (nth k values 0)
         /\ ~ 0 <= nth k values 0 < 256)
        \/ (e = DuplicateValue (nth k values 0) (i + Z.of_nat k)
            /\ 0 <= nth k values 0 < 256
            /\ In (nth k values 0) (firstn k values ++ seen))).
Proof.
  revert i seen. induction values as [|val rest IH]; intros i seen;
    cbn [checkValues]; [discriminate|].
  destruct (Z.ltb_spec val 0) as [Hlo|Hlo].
  { intros [= <-]. exists 0%nat. cbn [length firstn nth].
    split; [lia|]. split; [intros v []|]. split; [constructor|].
    split; [intros v []|]. left. split; [now rewrite Z.add_0_r | lia]. }
  destruct (Z.ltb_spec 255 val) as [Hhi|Hhi].
  { intros [= <-]. exists 0%nat. cbn [length firstn nth].
    split; [lia|]. split; [intros v []|]. split; [constructor|].
    split; [intros v []|]. left. split; [now rewrite Z.add_0_r | lia]. }
  cbn [orb]. destruct (existsb (Z.eqb val) seen) eqn:E.
  { intros [= <-]. exists 0%nat. cbn [length firstn nth app].
    split; [lia|]. split; [intros v []|]. split; [constructor|].
    split; [intros v []|]. right. split; [now rewrite Z.add_0_r|].
    split; [lia|]. now apply existsb_eqb_In. }
  assert (Hns : ~ In val seen).
  { intros Hin. apply existsb_eqb_In in Hin. congruence. }
  intros Hc. apply IH in Hc.
  destruct Hc as (k & Hk & Hb & Hn & Hd & Hcase).
  exists (S k). cbn [length firstn nth].
  split; [lia|].
  split; [intros v [<-|Hv]; [lia | now apply Hb]|].
  split.
  { constructor; [|assumption]. intros Hin. apply (Hd val Hin). now left. }
  split.
  { intros v [<-|Hv]; [assumption|].
    intros Hs. apply (Hd v Hv). now right. }
  replace (i + Z.of_nat (S k)) with (i + 1 + Z.of_nat k) by lia.
  destruct Hcase as [[-> Hr]|(-> & Hr & Hin)]; [left; now split|].
  right. split; [reflexivity|]. split; [assumption|].
  cbn [app]. apply in_app_or in Hin. destruct Hin as [Hin|[<-|Hin]].
  - right. apply in_or_app. now left.
  - now left.
  - right. apply in_or_app. now right.
Qed.

Lemma validateSBoxValues_inl_loop values e :
  length values = 256%nat ->
  validateSBoxValues values = inl e ->
  checkValues values 0 [] = inl e.
Proof.
  intros Hl E.
  destruct (checkValues values 0 []) as [e'|seen] eqn:Ec.
  - unfold validateSBoxValues in E. rewrite Hl, Ec in E.
    change (negb (Z.of_nat 256 =? 256)) with false in E. cbn iota in E.
    injection E as ->. reflexivity.
  - destruct (validateSBoxValues_after_loop values seen Hl Ec) as [_ E'].
    rewrite E' in E. discriminate.
Qed.

End FirstOffender.

(** X3. The value and duplicate errors of [validateSBoxValues] name the first
    offending position: every value before it is an integer of 0..255 and
    they are pairwise distinct; the value at the position is out of range
    (value error), or is in range and occurs before the position (duplicate
    error). *)
Theorem validateSBoxValues_reports_first_offender (values : list Z) :
  (forall pos val,
     validateSBoxValues values = inl (InvalidSBoxValue pos val) ->
     0 <= pos < 256 /\ get values pos = val /\ ~ 0 <= val < 256
     /\ (forall v, In v (firstn (Z.to_nat pos) values) -> 0 <= v < 256)
     /\ NoDup (firstn (Z.to_nat pos) values))
  /\ (forall val pos,
        validateSBoxValues values = inl (DuplicateValue val pos) ->
        0 <= pos < 256 /\ get values pos = val /\ 0 <= val < 256
        /\ In val (firstn (Z.to_nat pos) values)
        /\ (forall v, In v (firstn (Z.to_nat pos) values) -> 0 <= v < 256)
        /\ NoDup (firstn (Z.to_nat pos) values)).
Proof.
  assert (Hlen : forall e, validateSBoxValues values = inl e ->
                           (forall found, e <> InvalidSBoxLength found) ->
                           length values = 256%nat).
  { intros e E Hne. destruct (Nat.eq_dec (length values) 256) as [Hl|Hl];
      [assumption|].
    rewrite validateSBoxValues_length in E by assumption.
    injection E as <-. now destruct (Hne (Z.of_nat (length values))). }
  split.
  - intros pos val E.
    assert (Hl : length values = 256%nat) by (apply (Hlen _ E); discriminate).
    apply validateSBoxValues_inl_loop, checkValues_inl in E; [|exact Hl].
    destruct E as (k & Hk & Hb & Hn & _ & [[E Hr]|[E _]]); [|discriminate].
    injection E as E1 E2. subst pos val. rewrite ?Z.add_0_l, Nat2Z.id.
    unfold get. rewrite Nat2Z.id.
    split; [lia|]. split; [reflexivity|]. split; [assumption|]. now split.
  - intros val pos E.
    assert (Hl : length values = 256%nat) by (apply (Hlen _ E); discriminate).
    apply validateSBoxValues_inl_loop, checkValues_inl in E; [|exact Hl].
    destruct E as (k & Hk & Hb & Hn & _ & [[E _]|(E & Hr & Hin)]);
      [discriminate|].
    injection E as E1 E2. subst pos val. rewrite ?Z.add_0_l, Nat2Z.id.
    unfold get. rewrite Nat2Z.id. rewrite app_nil_r in Hin.
    split; [lia|]. split; [reflexivity|]. split; [assumption|].
    split; [assumption|]. now split.
Qed.

Lemma validateSBoxValues_reports_first_offender_witness :
  (0 <= 255 < 256 /\ get (zrange 1 257) 255 = 256 /\ ~ 0 <= 256 < 256
   /\ (forall v, In v (firstn (Z.to_nat 255) (zrange 1 257)) -> 0 <= v < 256)
   /\ NoDup (firstn (Z.to_nat 255) (zrange 1 257)))
  /\ (0 <= 42 < 256 /\ get duplicateSBox 42 = 7 /\ 0 <= 7 < 256
      /\ In 7 (firstn (Z.to_nat 42) duplicateSBox)
      /\ (forall v, In v (firstn (Z.to_nat 42) duplicateSBox) -> 0 <= v < 256)
      /\ NoDup (firstn (Z.to_nat 42) duplicateSBox)).
Proof.
  split.
  - apply (proj1 (validateSBoxValues_reports_first_offender (zrange 1 257))).
    vm_compute. reflexivity.
  - apply (proj2 (validateSBoxValues_reports_first_offender duplicateSBox)).
    vm_compute. reflexivity.
Defined.

Section Distinctness.

Lemma collectDistinct_spec values seen :
  match collectDistinct values seen with
  | Some s => NoDup values /\ (forall v, In v values -> ~ In v seen)
              /\ s = rev values ++ seen
  | None => ~ (NoDup values /\ forall v, In v values -> ~ In v seen)
  end.
Proof.
  revert seen. induction values as [|val rest IH]; intros seen;
    cbn [collectDistinct].
  - split; [constructor|]. split; [intros v []|reflexivity].
  - destruct (existsb (Z.eqb val) seen) eqn:E.
    + apply existsb_eqb_In in E. intros [_ Hd].
      apply (Hd val); [now left | exact E].
    + assert (Hns : ~ In val seen).
      { intros Hin. apply existsb_eqb_In in Hin. congruence. }
      specialize (IH (val :: seen)).
      destruct (collectDistinct rest (val :: seen)) as [s|].
      * destruct IH as (Hn & Hd & ->). split.
        { constructor; [|assumption]. intros Hin. apply (Hd val Hin).
          now left. }
        split.
        { intros v [<-|Hv]; [assumption|].
          intros Hs. apply (Hd v Hv). now right. }
        cbn [rev]. now rewrite <- app_assoc.
      * intros [Hn Hd]. apply IH. inversion Hn as [|? ? Hnotin Hn']; subst.
        split; [assumption|].
        intros v Hv [<-|Hs]; [contradiction|].
        apply (Hd v); [now right | assumption].
Qed.

Lemma isValidPermutation_true sb :
  isValidPermutation (Some sb) = true <-> length sb = 256%nat /\ NoDup sb.
Proof.
  unfold isValidPermutation.
  destruct (Z.eqb_spec (Z.of_nat (length sb)) 256) as [Hl|Hl]; cbn [negb].
  - pose proof (collectDistinct_spec sb []) as H.
    destruct (collectDistinct sb []) as [s|].
    + destruct H as (Hn & _ & ->). rewrite app_nil_r, length_rev.
      split; [intros _; split; [lia | assumption]|].
      intros _. now apply Z.eqb_eq.
    + split; [discriminate|]. intros [_ Hn]. exfalso. apply H.
      split; [assumption | intros v _ []].
  - split; [discriminate|]. intros [Hl' _]. lia.
Qed.

Lemma NoDup_map_add k (l : list Z) : NoDup (map (Z.add k) l) <-> NoDup l.
Proof.
  split.
  - apply NoDup_map_inv.
  - apply Finite.Injective_map_NoDup. intros x y. lia.
Qed.

End Distinctness.

(** X4. [isValidPermutation] tests the length and the distinctness of the
    values, not their range: it holds of whatever [validateSBoxValues]
    accepts, agrees with it on arrays of bytes, and does not change when
    every value is shifted by the same amount. *)
Theorem isValidPermutation_ignores_range (sb : list Z) :
  (validateSBoxValues sb = inr tt -> isValidPermutation (Some sb) = true)
  /\ ((forall v, In v sb -> 0 <= v < 256) ->
      isValidPermutation (Some sb) = true -> validateSBoxValues sb = inr tt)
  /\ (forall k, isValidPermutation (Some (map (Z.add k) sb))
                = isValidPermutation (Some sb))
  /\ isValidPermutation None = false.
Proof.
  split.
  { intros E. apply validator_accepted_is_permutation in E.
    apply isValidPermutation_true. split.
    - now apply permutation256_length.
    - now apply permutation256_NoDup. }
  split.
  { intros Hb E. apply isValidPermutation_true in E. destruct E as [Hl Hn].
    apply validator_accepts_permutation.
    now apply nodup_permutation. }
  split; [|reflexivity].
  intros k.
  destruct (isValidPermutation (Some sb)) eqn:E.
  - apply isValidPermutation_true in E. destruct E as [Hl Hn].
    apply isValidPermutation_true. rewrite length_map.
    split; [assumption | now apply NoDup_map_add].
  - destruct (isValidPermutation (Some (map (Z.add k) sb))) eqn:E';
      [|reflexivity].
    apply isValidPermutation_true in E'. rewrite length_map in E'.
    destruct E' as [Hl Hn]. apply NoDup_map_add in Hn.
    rewrite (proj2 (isValidPermutation_true sb) (conj Hl Hn)) in E.
    discriminate.
Qed.

Lemma isValidPermutation_ignores_range_witness :
  isValidPermutation (Some identitySBox) = true
  /\ validateSBoxValues identitySBox = inr tt.
Proof.
  assert (E : validateSBoxValues identitySBox = inr tt)
    by (vm_compute; reflexivity).
  split.
  - apply (proj1 (isValidPermutation_ignores_range identitySBox)). exact E.
  - apply (proj1 (proj2 (isValidPermutation_ignores_range identitySBox))).
    + intros v Hv. apply zrange_In in Hv. exact Hv.
    + apply (proj1 (isValidPermutation_ignores_range identitySBox)). exact E.
Defined.

Section Statistics.

Lemma fold_min_num_all (l : list Z) (m0 : num) :
  match fold_left min_num l m0 with
  | Fin lo =>
      (forall v, In v l -> lo <= v)
      /\ (forall z, m0 = Fin z -> lo <= z)
      /\ (In lo l \/ m0 = Fin lo)
  | Infinity => l = [] /\ m0 = Infinity
  end.
Proof.
  revert m0. induction l as [|x l IH]; intros m0; cbn [fold_left].
  - destruct m0 as [z|].
    + split; [intros v []|]. split; [intros z' [= ->]; lia | now right].
    + now split.
  - specialize (IH (min_num m0 x)).
    destruct (fold_left min_num l (min_num m0 x)) as [lo|].
    + destruct IH as (H1 & H2 & H3).
      assert (Hx : lo <= Z.min (match m0 with Fin z => z | Infinity => x end) x).
      { destruct m0 as [z|]; cbn [min_num] in H2.
        - apply H2. reflexivity.
        - rewrite Z.min_id. apply H2. reflexivity. }
      split; [intros v [<-|Hv]; [lia | now apply H1]|].
      split; [intros z ->; lia|].
      destruct H3 as [H3|H3]; [left; now right|].
      destruct m0 as [z|]; cbn [min_num] in H3; injection H3 as H3.
      * destruct (Z.min_spec z x) as [[_ E]|[_ E]]; rewrite E in H3.
        -- right. now subst.
        -- left. left. now subst.
      * left. left. now subst.
    + destruct IH as [_ IH]. destruct m0; discriminate.
Qed.

Lemma fold_max_lower_all (l : list Z) (m0 : lower) :
  match fold_left max_lower l m0 with
  | Above hi =>
      (forall v, In v l -> v <= hi)
      /\ (forall z, m0 = Above z -> z <= hi)
      /\ (In hi l \/ m0 = Above hi)
  | MinusInfinity => l = [] /\ m0 = MinusInfinity
  end.
Proof.
  revert m0. induction l as [|x l IH]; intros m0; cbn [fold_left].
  - destruct m0 as [z|].
    + split; [intros v []|]. split; [intros z' [= ->]; lia | now right].
    + now split.
  - specialize (IH (max_lower m0 x)).
    destruct (fold_left max_lower l (max_lower m0 x)) as [hi|].
    + destruct IH as (H1 & H2 & H3).
      assert (Hx : Z.max (match m0 with Above z => z | MinusInfinity => x end) x
                   <= hi).
      { destruct m0 as [z|]; cbn [max_lower] in H2.
        - apply H2. reflexivity.
        - rewrite Z.max_id. apply H2. reflexivity. }
      split; [intros v [<-|Hv]; [lia | now apply H1]|].
      split; [intros z ->; lia|].
      destruct H3 as [H3|H3]; [left; now right|].
      destruct m0 as [z|]; cbn [max_lower] in H3; injection H3 as H3.
      * destruct (Z.max_spec z x) as [[_ E]|[_ E]]; rewrite E in H3.
        -- left. left. now subst.
        -- right. now subst.
      * left. left. now subst.
    + destruct IH as [_ IH]. destruct m0; discriminate.
Qed.

Lemma nodup_length_eq_iff (l : list Z) :
  length (nodup Z.eq_dec l) = length l <-> NoDup l.
Proof.
  split; [apply nodup_length_NoDup|].
  intros H. now rewrite nodup_fixed_point.
Qed.

End Statistics.

(** X5. The statistics of a loaded S-box: the distinct values and the duplicates
    add up to the size; [isPermutation] holds exactly when the size is 256
    and there is no duplicate; of a non-empty S-box [min] and [max] are two
    of its values and bound all of them, of an empty one they are [Infinity]
    and [-Infinity]. *)
Theorem getStatistics_consistent (sbox : list Z) :
  exists stats,
    getStatistics (Some sbox) = Some stats
    /\ stat_size stats = Z.of_nat (length sbox)
    /\ stat_uniqueValues stats + stat_duplicates stats = stat_size stats
    /\ 0 <= stat_duplicates stats
    /\ (stat_isPermutation stats = true
        <-> stat_size stats = 256 /\ stat_duplicates stats = 0)
    /\ match stat_min stats, stat_max stats with
       | Fin lo, Above hi =>
           In lo sbox /\ In hi sbox /\ forall v, In v sbox -> lo <= v <= hi
       | Infinity, MinusInfinity => sbox = []
       | _, _ => False
       end.
Proof.
  eexists. split; [reflexivity|].
  cbn [stat_size stat_uniqueValues stat_duplicates stat_isPermutation
       stat_min stat_max].
  pose proof (nodup_length_le sbox) as Hle.
  split; [reflexivity|]. split; [lia|]. split; [lia|]. split.
  - rewrite isValidPermutation_true. split.
    + intros [Hl Hn]. apply nodup_length_eq_iff in Hn. lia.
    + intros [Hl Hd]. split; [lia|]. apply nodup_length_eq_iff. lia.
  - unfold min_of, max_of.
    pose proof (fold_min_num_all sbox Infinity) as Hmin.
    pose proof (fold_max_lower_all sbox MinusInfinity) as Hmax.
    destruct (fold_left min_num sbox Infinity) as [lo|];
      destruct (fold_left max_lower sbox MinusInfinity) as [hi|].
    + destruct Hmin as (H1 & _ & [H3|H3]); [|discriminate].
      destruct Hmax as (H4 & _ & [H6|H6]); [|discriminate].
      split; [assumption|]. split; [assumption|].
      intros v Hv. specialize (H1 v Hv). specialize (H4 v Hv). lia.
    + destruct Hmax as [-> _]. destruct Hmin as (_ & _ & [[]|H]).
      discriminate.
    + destruct Hmin as [-> _]. destruct Hmax as (_ & _ & [[]|H]).
      discriminate.
    + now destruct Hmin.
Qed.

Section Shuffle.

Lemma set_length {A} (arr : list A) i v : length (set arr i v) = length arr.
Proof. apply updZ_length. Qed.

Lemma swap_length arr i j : length (swap arr i j) = length arr.
Proof. unfold swap. cbn zeta. now rewrite !set_length. Qed.

Lemma get_swap arr i j k :
  0 <= i < Z.of_nat (length arr) -> 0 <= j < Z.of_nat (length arr) ->
  0 <= k < Z.of_nat (length arr) ->
  get (swap arr i j) k
  = if k =? j then get arr i else if k =? i then get arr j else get arr k.
Proof.
  intros Hi Hj Hk. unfold swap. cbn zeta.
  destruct (Z.eqb_spec k j) as [->|Hkj].
  - rewrite get_set_same by (rewrite set_length; lia). reflexivity.
  - rewrite get_set_other by lia.
    destruct (Z.eqb_spec k i) as [->|Hki].
    + now rewrite get_set_same.
    + rewrite get_set_other by lia. reflexivity.
Qed.

(** A swap of two slots keeps the values distinct and brings no new value. *)
Lemma swap_In arr i j v :
  0 <= i < Z.of_nat (length arr) -> 0 <= j < Z.of_nat (length arr) ->
  In v (swap arr i j) -> In v arr.
Proof.
  intros Hi Hj Hv. apply (In_nth _ _ 0) in Hv. destruct Hv as (k & Hk & <-).
  rewrite swap_length in Hk.
  pose proof (get_swap arr i j (Z.of_nat k) Hi Hj ltac:(lia)) as E.
  unfold get at 1 in E. rewrite Nat2Z.id in E. rewrite E.
  destruct (Z.of_nat k =? j); [|destruct (Z.of_nat k =? i)];
    apply get_In; lia.
Qed.

Lemma swap_NoDup arr i j :
  0 <= i < Z.of_nat (length arr) -> 0 <= j < Z.of_nat (length arr) ->
  NoDup arr -> NoDup (swap arr i j).
Proof.
  intros Hi Hj Hn. apply (NoDup_nth _ 0). rewrite swap_length.
  intros x y Hx Hy E.
  pose proof (get_swap arr i j (Z.of_nat x) Hi Hj ltac:(lia)) as Ex.
  pose proof (get_swap arr i j (Z.of_nat y) Hi Hj ltac:(lia)) as Ey.
  unfold get at 1 in Ex. unfold get at 1 in Ey.
  rewrite Nat2Z.id in Ex, Ey. rewrite Ex, Ey in E. clear Ex Ey.
  assert (G : forall a b, 0 <= a < Z.of_nat (length arr) ->
                          0 <= b < Z.of_nat (length arr) ->
                          get arr a = get arr b -> a = b).
  { intros a b Ha Hb Eab. unfold get in Eab.
    apply (proj1 (NoDup_nth arr 0) Hn) in Eab; lia. }
  destruct (Z.eqb_spec (Z.of_nat x) j); destruct (Z.eqb_spec (Z.of_nat y) j);
    destruct (Z.eqb_spec (Z.of_nat x) i); destruct (Z.eqb_spec (Z.of_nat y) i);
    try lia; apply G in E; lia.
Qed.

Lemma shuffle_invariant (draw : Z -> Z) counters arr :
  (forall i, In i counters ->
             0 <= i < Z.of_nat (length arr)
             /\ 0 <= draw i < Z.of_nat (length arr)) ->
  NoDup arr ->
  let arr' := fold_left (fun sbox i => swap sbox i (draw i)) counters arr in
  length arr' = length arr /\ NoDup arr' /\ forall v, In v arr' -> In v arr.
Proof.
  revert arr. induction counters as [|i counters IH]; intros arr H Hn;
    cbn [fold_left]; cbn zeta.
  - now split.
  - destruct (H i (or_introl eq_refl)) as [Hi Hj].
    destruct (IH (swap arr i (draw i))) as (E1 & E2 & E3).
    + intros k Hk. rewrite swap_length. apply H. now right.
    + now apply swap_NoDup.
    + cbn zeta in *. rewrite swap_length in E1.
      split; [assumption|]. split; [assumption|].
      intros v Hv. apply (swap_In arr i (draw i)); auto.
Qed.

Lemma generateRandomSBox_permutation (draw : Z -> Z) :
  (forall i, 1 <= i < 256 -> 0 <= draw i <= i) ->
  permutation256 (generateRandomSBox draw).
Proof.
  intros Hd. unfold generateRandomSBox, for_down. cbn zeta.
  rewrite zrange_length.
  change (Z.of_nat (Z.to_nat (256 - 0)) - 1 + 1) with 256.
  change (0 + 1) with 1.
  destruct (shuffle_invariant draw (rev (zrange 1 256)) (zrange 0 256))
    as (E1 & E2 & E3).
  - intros i Hi. apply in_rev, zrange_In in Hi. rewrite zrange_length.
    specialize (Hd i). change (Z.of_nat (Z.to_nat (256 - 0))) with 256. lia.
  - apply zrange_NoDup.
  - cbn zeta in *. rewrite zrange_length in E1.
    apply nodup_permutation; [assumption | assumption|].
    intros v Hv. apply E3, zrange_In in Hv. exact Hv.
Qed.

End Shuffle.

(** X6. Whatever [Math.random] returns, [generateRandomSBox] stores a
    permutation of 0..255: every draw [Math.floor(Math.random() * (i + 1))]
    lies in [0 .. i], each round swaps two slots of the array, and the result
    passes [validateSBoxValues] and [isValidPermutation]. *)
Theorem generateRandomSBox_is_permutation (draw : Z -> Z) :
  (forall i, 1 <= i < 256 -> 0 <= draw i <= i) ->
  permutation256 (generateRandomSBox draw)
  /\ validateSBoxValues (generateRandomSBox draw) = inr tt
  /\ isValidPermutation (Some (generateRandomSBox draw)) = true.
Proof.
  intros Hd. pose proof (generateRandomSBox_permutation draw Hd) as Hp.
  split; [exact Hp|]. split.
  - now apply validator_accepts_permutation.
  - apply isValidPermutation_true. split.
    + now apply permutation256_length.
    + now apply permutation256_NoDup.
Qed.

Lemma generateRandomSBox_is_permutation_witness :
  permutation256 (generateRandomSBox (fun i => i / 2))
  /\ validateSBoxValues (generateRandomSBox (fun i => i / 2)) = inr tt
  /\ isValidPermutation (Some (generateRandomSBox (fun i => i / 2))) = true.
Proof.
  apply (generateRandomSBox_is_permutation (fun i => i / 2)).
  intros i Hi. split.
  - apply Z.div_pos; lia.
  - apply Z.div_le_upper_bound; lia.
Defined.

(** ** The evaluators of the analyzer on arbitrary arrays *)
Section HammingWeight.

Lemma zsum_succ_range (g : Z -> Z) lo hi :
  zsum g (zrange (lo + 1) (hi + 1)) = zsum (fun i => g (i + 1)) (zrange lo hi).
Proof.
  unfold zrange. replace (hi + 1 - (lo + 1)) with (hi - lo) by lia.
  rewrite !zsum_map. apply zsum_ext_in. intros k _. f_equal. lia.
Qed.

Lemma land_1_bit n : Z.land n 1 = b2z (Z.testbit n 0).
Proof.
  change 1 with (Z.ones 1). rewrite Z.land_ones by lia.
  change (2 ^ 1) with 2. rewrite <- Z.bit0_mod.
  now destruct (Z.testbit n 0).
Qed.

Lemma hammingWeight_loop_bits fuel n weight :
  0 <= n < 2 ^ Z.of_nat fuel ->
  hammingWeight_loop fuel n weight
  = weight + zsum (fun i => b2z (Z.testbit n i)) (zrange 0 (Z.of_nat fuel)).
Proof.
  revert n weight. induction fuel as [|fuel IH]; intros n weight Hn.
  - cbn [hammingWeight_loop]. rewrite zrange_nil by lia. cbn [zsum]. lia.
  - cbn [hammingWeight_loop].
    destruct (Z.eqb_spec n 0) as [->|Hne].
    + rewrite (zsum_ext_in _ (fun _ => 0))
        by (intros i _; now rewrite Z.testbit_0_l).
      rewrite zsum_const. lia.
    + rewrite IH.
      * rewrite (zrange_cons 0 (Z.of_nat (S fuel))) by lia.
        replace (Z.of_nat (S fuel)) with (Z.of_nat fuel + 1) by lia.
        cbn [zsum]. rewrite (zsum_succ_range _ 0 (Z.of_nat fuel)).
        rewrite land_1_bit.
        rewrite (zsum_ext_in (fun i => b2z (Z.testbit (Z.shiftr n 1) i))
                             (fun i => b2z (Z.testbit n (i + 1)))).
        { lia. }
        intros i Hi. apply zrange_In in Hi.
        now rewrite Z.shiftr_spec by lia.
      * rewrite Z.shiftr_div_pow2 by lia. change (2 ^ 1) with 2.
        replace (2 ^ Z.of_nat (S fuel)) with (2 * 2 ^ Z.of_nat fuel) in Hn
          by (rewrite Nat2Z.inj_succ, Z.pow_succ_r; lia).
        split; [apply Z.div_pos; lia|].
        apply Z.div_lt_upper_bound; lia.
Qed.

Lemma hammingWeight_loop_spare fuel n weight :
  0 <= n < 2 ^ Z.of_nat fuel ->
  hammingWeight_loop (S fuel) n weight = hammingWeight_loop fuel n weight.
Proof.
  revert n weight. induction fuel as [|fuel IH]; intros n weight Hn.
  - cbn [hammingWeight_loop]. replace n with 0 by (cbn in Hn; lia).
    reflexivity.
  - change (hammingWeight_loop (S (S fuel)) n weight)
      with (if n =? 0 then weight
            else hammingWeight_loop (S fuel) (Z.shiftr n 1)
                                    (weight + Z.land n 1)).
    cbn [hammingWeight_loop].
    destruct (n =? 0); [reflexivity|].
    apply IH.
    rewrite Z.shiftr_div_pow2 by lia. change (2 ^ 1) with 2.
    replace (2 ^ Z.of_nat (S fuel)) with (2 * 2 ^ Z.of_nat fuel) in Hn
      by (rewrite Nat2Z.inj_succ, Z.pow_succ_r; lia).
    split; [apply Z.div_pos; lia|].
    apply Z.div_lt_upper_bound; lia.
Qed.

Lemma hammingWeight_loop_more extra fuel n weight :
  0 <= n < 2 ^ Z.of_nat fuel ->
  hammingWeight_loop (extra + fuel) n weight
  = hammingWeight_loop fuel n weight.
Proof.
  intros Hn. induction extra as [|extra IH]; [reflexivity|].
  cbn [Nat.add]. rewrite hammingWeight_loop_spare; [exact IH|].
  split; [lia|].
  apply Z.lt_le_trans with (2 ^ Z.of_nat fuel); [lia|].
  apply Z.pow_le_mono_r; lia.
Qed.

End HammingWeight.

(** X7. On a non-negative 31-bit integer [hammingWeight] counts the
    one bits: the loop ends because the argument has been shifted down to
    zero, within 31 rounds, and more fuel does not change the result. *)
Theorem hammingWeight_counts_one_bits (v : Z) :
  0 <= v < 2 ^ 31 ->
  hammingWeight v = zsum (fun i => b2z (Z.testbit v i)) (zrange 0 31)
  /\ 0 <= hammingWeight v <= 31
  /\ forall fuel, (31 <= fuel)%nat ->
                  hammingWeight_loop fuel v 0 = hammingWeight v.
Proof.
  intros Hv.
  assert (E31 : forall fuel, (31 <= fuel)%nat ->
                  hammingWeight_loop fuel v 0
                  = zsum (fun i => b2z (Z.testbit v i)) (zrange 0 31)).
  { intros fuel Hf. replace fuel with ((fuel - 31) + 31)%nat by lia.
    rewrite hammingWeight_loop_more by exact Hv.
    rewrite hammingWeight_loop_bits by exact Hv. reflexivity. }
  assert (E : hammingWeight v
              = zsum (fun i => b2z (Z.testbit v i)) (zrange 0 31)).
  { unfold hammingWeight. apply E31. lia. }
  split; [exact E|]. split.
  - rewrite E. split.
    + apply zsum_nonneg. intros i _. now destruct (Z.testbit v i).
    + pose proof (zsum_b2z_le (fun i => Z.testbit v i) (zrange 0 31)) as H.
      rewrite zrange_length in H. exact H.
  - intros fuel Hf. rewrite E. now apply E31.
Qed.

Lemma hammingWeight_counts_one_bits_witness :
  hammingWeight 1000000 = zsum (fun i => b2z (Z.testbit 1000000 i)) (zrange 0 31)
  /\ 0 <= hammingWeight 1000000 <= 31
  /\ forall fuel, (31 <= fuel)%nat ->
                  hammingWeight_loop fuel 1000000 0 = hammingWeight 1000000.
Proof.
  apply (hammingWeight_counts_one_bits 1000000). lia.
Defined.

Section Spectrum.

Lemma pparity_Ndouble n :
  match Pos.Ndouble n with
  | N0 => false
  | Npos r => pparity r
  end = match n with
        | N0 => false
        | Npos r => pparity r
        end.
Proof. now destruct n. Qed.

Lemma pparity_Nsucc_double n :
  match Pos.Nsucc_double n with
  | N0 => false
  | Npos r => pparity r
  end = negb match n with
             | N0 => false
             | Npos r => pparity r
             end.
Proof. now destruct n. Qed.

Lemma pparity_lxor p q :
  match Pos.lxor p q with
  | N0 => false
  | Npos r => pparity r
  end = xorb (pparity p) (pparity q).
Proof.
  revert q. induction p as [p IH|p IH|]; intros [q|q|]; cbn [Pos.lxor];
    rewrite ?pparity_Ndouble, ?pparity_Nsucc_double, ?IH; cbn [pparity];
    try (destruct (pparity p)); try (destruct (pparity q)); reflexivity.
Qed.

Lemma parity_lxor u v :
  0 <= u -> 0 <= v ->
  parity (Z.lxor u v) = Z.lxor (parity u) (parity v).
Proof.
  intros Hu Hv. destruct u as [|p|p]; [| |lia].
  { rewrite Z.lxor_0_l. cbn [parity]. now rewrite Z.lxor_0_l. }
  destruct v as [|q|q]; [| |lia].
  { rewrite Z.lxor_0_r. cbn [parity]. now rewrite Z.lxor_0_r. }
  cbn [Z.lxor parity]. pose proof (pparity_lxor p q) as E.
  destruct (Pos.lxor p q) as [|r]; cbn [Z.of_N parity];
    destruct (pparity p), (pparity q); cbn in E |- *;
    try rewrite E; try reflexivity; discriminate.
Qed.

Lemma land_lxor_distr_r x y w :
  Z.land (Z.lxor x y) w = Z.lxor (Z.land x w) (Z.land y w).
Proof.
  apply Z.bits_inj'. intros k _.
  rewrite Z.land_spec, !Z.lxor_spec, !Z.land_spec.
  now destruct (Z.testbit x k), (Z.testbit y k), (Z.testbit w k).
Qed.

(** The character of mask [w] at [x], and its orthogonality. *)
Lemma character_product x y w :
  0 <= x < 256 -> 0 <= y < 256 ->
  (1 - 2 * parity (Z.land x w)) * (1 - 2 * parity (Z.land y w))
  = 1 - 2 * parity (Z.land (Z.lxor x y) w).
Proof.
  intros Hx Hy. rewrite land_lxor_distr_r.
  rewrite parity_lxor by (apply land_byte; assumption).
  destruct (parity_cases (Z.land x w)) as [-> | ->];
    destruct (parity_cases (Z.land y w)) as [-> | ->]; reflexivity.
Qed.

Lemma character_sum a :
  0 <= a < 256 ->
  zsum (fun w => 1 - 2 * parity (Z.land a w)) (zrange 0 256)
  = if a =? 0 then 256 else 0.
Proof.
  intros Ha.
  rewrite (zsum_ext_in _ (fun w => 1 + (-2) * parity (Z.land a w)))
    by (intros; lia).
  rewrite (zsum_add (fun _ => 1)), zsum_const, zsum_scale, parity_sum
    by assumption.
  rewrite zrange_length. destruct (a =? 0); reflexivity.
Qed.

Lemma zsum_mul {A B} (f : A -> Z) (g : B -> Z) l l' :
  zsum f l * zsum g l' = zsum (fun x => zsum (fun y => f x * g y) l') l.
Proof.
  induction l as [|x l IH]; cbn [zsum]; [lia|].
  rewrite Z.mul_add_distr_r, IH, zsum_scale. reflexivity.
Qed.

Lemma zsum_pick (g : Z -> Z) x l :
  NoDup l -> In x l -> zsum (fun y => g y * b2z (x =? y)) l = g x.
Proof.
  induction 1 as [|a l Hn Hd IH]; intros Hin; [contradiction|].
  cbn [zsum]. destruct Hin as [->|Hin].
  - rewrite Z.eqb_refl. cbn [b2z].
    rewrite (zsum_ext_in _ (fun _ => 0)), zsum_const; [lia|].
    intros b Hb. destruct (Z.eqb_spec x b) as [->|]; [contradiction|].
    cbn [b2z]. lia.
  - rewrite IH by assumption.
    destruct (Z.eqb_spec x a) as [->|]; [contradiction|]. cbn [b2z]. lia.
Qed.

Lemma walshAt_characters truthTable w :
  length truthTable = 256%nat ->
  (forall t, In t truthTable -> t = 0 \/ t = 1) ->
  walshAt truthTable w
  = zsum (fun x => (1 - 2 * get truthTable x)
                   * (1 - 2 * parity (Z.land x w))) (zrange 0 256).
Proof.
  intros Hl Ht. unfold walshAt, walshSum.
  rewrite <- (zsum_get_combine
                (fun x t => (-1) ^ Z.lxor t (parity (Z.land x w)))
                truthTable 256) by lia.
  apply zsum_ext_in. intros x Hx. apply zrange_In in Hx.
  destruct (Ht (get truthTable x)) as [-> | ->];
    [apply get_In; lia | | ];
    destruct (parity_cases (Z.land x w)) as [-> | ->]; reflexivity.
Qed.

(** Parseval's identity for the transform of the analyzer. *)
Lemma walshAt_energy truthTable :
  length truthTable = 256%nat ->
  (forall t, In t truthTable -> t = 0 \/ t = 1) ->
  zsum (fun w => walshAt truthTable w ^ 2) (zrange 0 256) = 65536.
Proof.
  intros Hl Ht.
  rewrite (zsum_ext_in
             _ (fun w =>
                  zsum (fun x =>
                          zsum (fun y =>
                                  (1 - 2 * get truthTable x)
                                  * (1 - 2 * get truthTable y)
                                  * (1 - 2 * parity (Z.land (Z.lxor x y) w)))
                               (zrange 0 256))
                       (zrange 0 256))).
  2:{ intros w _. rewrite walshAt_characters by assumption.
      rewrite Z.pow_2_r, zsum_mul.
      apply zsum_ext_in. intros x Hx. apply zrange_In in Hx.
      apply zsum_ext_in. intros y Hy. apply zrange_In in Hy.
      rewrite <- character_product by assumption. ring. }
  rewrite zsum_swap.
  rewrite (zsum_ext_in _ (fun x => 256)).
  { rewrite zsum_const, zrange_length. reflexivity. }
  intros x Hx. pose proof Hx as Hx'. apply zrange_In in Hx'.
  rewrite zsum_swap.
  rewrite (zsum_ext_in
             _ (fun y => 256 * ((1 - 2 * get truthTable x)
                                * (1 - 2 * get truthTable y))
                         * b2z (x =? y))).
  - rewrite zsum_pick by (apply zrange_NoDup || assumption).
    destruct (Ht (get truthTable x)) as [-> | ->];
      [apply get_In; lia | reflexivity | reflexivity].
  - intros y Hy. apply zrange_In in Hy.
    rewrite zsum_scale, character_sum by now apply lxor_byte.
    destruct (Z.eqb_spec (Z.lxor x y) 0) as [E|E];
      destruct (Z.eqb_spec x y) as [E'|E']; cbn [b2z]; try lia.
    + apply Z.lxor_eq in E. contradiction.
    + subst y. rewrite Z.lxor_nilpotent in E. contradiction.
Qed.

End Spectrum.

(** X8. Parseval's identity: for an analyzer built by the constructor
    and a truth table of 256 bits, the squares of the 256 coefficients
    returned by [walshHadamardTransform] add up to 65536. *)
Theorem walsh_spectrum_energy
        (sboxArray : list Z) (this : SBoxAnalyzer) (truthTable : list Z) :
  constructor sboxArray = inr this ->
  length truthTable = 256%nat ->
  (forall t, In t truthTable -> t = 0 \/ t = 1) ->
  zsum (fun w => get (walshHadamardTransform this truthTable) w ^ 2)
       (zrange 0 256) = 65536.
Proof.
  intros Hc Hl Ht. apply constructor_inr in Hc. destruct Hc as [_ Hc].
  rewrite walshHadamardTransform_eq
    by (assumption || now apply coherent_hw with sboxArray).
  rewrite <- (walshAt_energy truthTable Hl Ht).
  apply zsum_ext_in. intros w Hw. apply zrange_In in Hw.
  now rewrite walshOf_get.
Qed.

Lemma walsh_spectrum_energy_witness :
  zsum (fun w => get (walshHadamardTransform
                        (freshAnalyzer identitySBox)
                        (map (bitOf 0) identitySBox)) w ^ 2)
       (zrange 0 256) = 65536.
Proof.
  apply (walsh_spectrum_energy identitySBox).
  - reflexivity.
  - reflexivity.
  - intros t Ht. apply in_map_iff in Ht. destruct Ht as (v & <- & _).
    apply bitOf_cases.
Defined.

Section NonlinearityRange.

Lemma fold_left_map_r {A B C} (f : A -> C -> A) (g : B -> C) l a :
  fold_left f (map g l) a = fold_left (fun a x => f a (g x)) l a.
Proof. revert a. induction l as [|x l IH]; intros a; cbn; auto. Qed.

Lemma even_abs v : Z.even (Z.abs v) = Z.even v.
Proof. destruct v; reflexivity. Qed.

Lemma maxAbs_even l :
  (forall v, In v l -> Z.even v = true) -> Z.even (maxAbs l) = true.
Proof.
  intros H. unfold maxAbs.
  assert (G : forall m0, Z.even m0 = true ->
                Z.even (fold_left (fun m v => Z.max m (Z.abs v)) l m0) = true).
  { induction l as [|x l IH]; intros m0 H0; cbn [fold_left]; [exact H0|].
    apply IH.
    - intros v Hv. apply H. now right.
    - destruct (Z.max_spec m0 (Z.abs x)) as [[_ ->]|[_ ->]]; [|exact H0].
      rewrite even_abs. apply H. now left. }
  now apply G.
Qed.

Lemma maxAbs_le l M :
  0 <= M -> (forall v, In v l -> Z.abs v <= M) -> maxAbs l <= M.
Proof.
  intros HM H. unfold maxAbs. apply fold_left_below; [exact HM|].
  intros m v Hv Hm. specialize (H v Hv). lia.
Qed.

Lemma walshAt_bitOf_signs sb bit w :
  length sb = 256%nat ->
  exists k, 0 <= k <= 256 /\ walshAt (map (bitOf bit) sb) w = 256 - 2 * k.
Proof.
  intros Hl. apply walshAt_signs.
  - now rewrite length_map.
  - intros t Ht. apply in_map_iff in Ht. destruct Ht as (v & <- & _).
    apply bitOf_cases.
Qed.

Lemma nlOfBit_nonneg sb bit : length sb = 256%nat -> 0 <= nlOfBit sb bit.
Proof.
  intros Hl. unfold nlOfBit.
  assert (H : maxAbs (tl (walshOf (map (bitOf bit) sb))) <= 256).
  { apply maxAbs_le; [lia|]. rewrite walshOf_tl. intros v Hv.
    apply in_map_iff in Hv. destruct Hv as (w & <- & _).
    destruct (walshAt_bitOf_signs sb bit w Hl) as (k & Hk & ->). lia. }
  pose proof (maxAbs_nonneg (tl (walshOf (map (bitOf bit) sb)))) as H0.
  assert (maxAbs (tl (walshOf (map (bitOf bit) sb))) / 2 <= 128)
    by (apply Z.div_le_upper_bound; lia).
  lia.
Qed.

Lemma nonlinearityOf_attained sb :
  exists bit, 0 <= bit < 8 /\ nonlinearityOf sb = Fin (nlOfBit sb bit)
              /\ forall bit', 0 <= bit' < 8 -> nlOfBit sb bit <= nlOfBit sb bit'.
Proof.
  unfold nonlinearityOf, for_.
  rewrite <- (fold_left_map_r min_num (nlOfBit sb)).
  pose proof (fold_min_num_all (map (nlOfBit sb) (zrange 0 8)) Infinity) as H.
  destruct (fold_left min_num (map (nlOfBit sb) (zrange 0 8)) Infinity)
    as [lo|].
  - destruct H as (H1 & _ & [H3|H3]); [|discriminate].
    apply in_map_iff in H3. destruct H3 as (bit & <- & Hbit).
    apply zrange_In in Hbit. exists bit. split; [exact Hbit|].
    split; [reflexivity|]. intros bit' Hb'. apply H1.
    apply in_map, zrange_In. exact Hb'.
  - destruct H as [H _]. discriminate.
Qed.

Lemma zsum_le_const {A} (f : A -> Z) l M :
  (forall x, In x l -> f x <= M) -> zsum f l <= M * Z.of_nat (length l).
Proof.
  induction l as [|x l IH]; intros H; cbn [zsum length]; [lia|].
  assert (f x <= M) by (apply H; now left).
  assert (zsum f l <= M * Z.of_nat (length l))
    by (apply IH; intros y Hy; apply H; now right).
  lia.
Qed.

(** On a permutation some coefficient at a non-zero mask is at least 18 in
    absolute value: the one at mask 0 vanishes, and the 255 others carry the
    whole energy 65536. *)
Lemma nlOfBit_permutation sb bit :
  permutation256 sb -> 0 <= bit < 8 -> nlOfBit sb bit <= 119.
Proof.
  intros Hp Hbit. pose proof (permutation256_length _ Hp) as Hl.
  unfold nlOfBit.
  set (M := maxAbs (tl (walshOf (map (bitOf bit) sb)))).
  assert (HM0 : 0 <= M) by apply maxAbs_nonneg.
  assert (Hev : Z.even M = true).
  { apply maxAbs_even. rewrite walshOf_tl. intros v Hv.
    apply in_map_iff in Hv. destruct Hv as (w & <- & _).
    destruct (walshAt_bitOf_signs sb bit w Hl) as (k & Hk & ->).
    replace (256 - 2 * k) with (2 * (128 - k)) by lia.
    now rewrite Z.even_mul. }
  assert (Hsum : 65536 <= M ^ 2 * 255).
  { pose proof (walshAt_energy (map (bitOf bit) sb)) as E.
    rewrite (zrange_cons 0 256) in E by lia. cbn [zsum] in E.
    rewrite walshAt_zero_mask in E by assumption.
    rewrite <- E.
    - change (0 ^ 2) with 0. rewrite Z.add_0_l.
      change 255 with (Z.of_nat (length (zrange (0 + 1) 256))).
      apply zsum_le_const. intros w Hw.
      assert (Hin : In (walshAt (map (bitOf bit) sb) w)
                       (tl (walshOf (map (bitOf bit) sb)))).
      { rewrite walshOf_tl. now apply in_map. }
      apply maxAbs_ge in Hin. fold M in Hin. rewrite !Z.pow_2_r.
      rewrite <- (Z.abs_square (walshAt (map (bitOf bit) sb) w)).
      apply Z.mul_le_mono_nonneg; lia.
    - now rewrite length_map.
    - intros t Ht. apply in_map_iff in Ht. destruct Ht as (v & <- & _).
      apply bitOf_cases. }
  clearbody M.
  assert (H17 : 17 <= M) by nia.
  apply Z.even_spec in Hev. destruct Hev as [h ->].
  rewrite (Z.mul_comm 2 h), Z.div_mul by lia. lia.
Qed.

(** On a constant table every coefficient at a non-zero mask vanishes. *)
Lemma nlOfBit_constant c bit : nlOfBit (repeat c 256) bit = 128.
Proof.
  unfold nlOfBit.
  assert (E : maxAbs (tl (walshOf (map (bitOf bit) (repeat c 256)))) = 0).
  { apply Z.le_antisymm; [|apply maxAbs_nonneg].
    apply maxAbs_le; [lia|]. rewrite walshOf_tl. intros v Hv.
    apply in_map_iff in Hv. destruct Hv as (w & <- & Hw).
    apply zrange_In in Hw.
    rewrite walshAt_characters.
    - rewrite (zsum_ext_in
                 _ (fun x => (1 - 2 * bitOf bit c)
                             * (1 - 2 * parity (Z.land w x)))).
      + rewrite zsum_scale, character_sum by lia.
        replace (w =? 0) with false by (symmetry; apply Z.eqb_neq; lia).
        rewrite Z.mul_0_r. reflexivity.
      + intros x Hx. apply zrange_In in Hx. rewrite (Z.land_comm w x).
        f_equal. f_equal. f_equal.
        assert (Hin : In (get (map (bitOf bit) (repeat c 256)) x)
                         (map (bitOf bit) (repeat c 256))).
        { apply get_In. rewrite length_map, repeat_length. lia. }
        apply in_map_iff in Hin. destruct Hin as (v & <- & Hv).
        apply repeat_spec in Hv. now subst v.
    - now rewrite length_map, repeat_length.
    - intros t Ht. apply in_map_iff in Ht. destruct Ht as (v & <- & _).
      apply bitOf_cases. }
  rewrite E. reflexivity.
Qed.

End NonlinearityRange.

(** X9. On every array of 256 integers [calculateNonlinearity]
    returns an integer between 0 and 128, never [Infinity]; on a permutation
    of 0..255 it returns 119 at most. *)
Theorem nonlinearity_range (sboxArray : list Z) (this : SBoxAnalyzer) :
  constructor sboxArray = inr this ->
  exists nl,
    fst (calculateNonlinearity this) = Fin nl
    /\ 0 <= nl <= 128
    /\ (permutation256 sboxArray -> nl <= 119).
Proof.
  intros Hc. apply constructor_inr in Hc. destruct Hc as [Hl Hc].
  destruct (calculateNonlinearity_eq sboxArray this Hl Hc) as [E _].
  destruct (nonlinearityOf_attained sboxArray) as (bit & Hbit & Enl & _).
  exists (nlOfBit sboxArray bit). rewrite E.
  split; [exact Enl|]. split.
  - split; [now apply nlOfBit_nonneg | apply nlOfBit_le_128].
  - intros Hp. now apply nlOfBit_permutation.
Qed.

Lemma nonlinearity_range_witness :
  exists nl,
    fst (calculateNonlinearity (freshAnalyzer identitySBox)) = Fin nl
    /\ 0 <= nl <= 128
    /\ (permutation256 identitySBox -> nl <= 119).
Proof.
  apply (nonlinearity_range identitySBox). reflexivity.
Defined.

(** X10. A constant S-box, which sends every input to the same
    byte, is reported with the largest nonlinearity, 128, because the
    coefficient at mask 0 is left out of the maximum; the summary lists it
    under the strengths as 'High nonlinearity'. *)
Theorem constant_sbox_nonlinearity (c : Z) :
  let this := freshAnalyzer (repeat c 256) in
  constructor (repeat c 256) = inr this
  /\ fst (calculateNonlinearity this) = Fin 128
  /\ In "High nonlinearity (≥100)"%string
        (strengths (generateSummary (fst (runFullAnalysis this)))).
Proof.
  cbn zeta.
  assert (Hl : length (repeat c 256) = 256%nat) by apply repeat_length.
  destruct (fresh_coherent (repeat c 256) Hl) as [E Hc].
  assert (Enl : nonlinearityOf (repeat c 256) = Fin 128).
  { destruct (nonlinearityOf_attained (repeat c 256)) as (bit & _ & -> & _).
    now rewrite nlOfBit_constant. }
  split; [exact E|]. split.
  - destruct (calculateNonlinearity_eq _ _ Hl Hc) as [-> _]. exact Enl.
  - destruct (runFullAnalysis_report _ _ Hl Hc) as (R1 & _).
    destruct (generateSummary_eq
                (fst (runFullAnalysis (freshAnalyzer (repeat c 256)))))
      as (S & _).
    cbn zeta in S. rewrite S, R1, Enl.
    change (geb_num (Fin 128) 100) with true. cbn iota.
    apply in_or_app. left. now left.
Qed.

Section DifferenceTable.

Lemma fold_left_invariant {A B} (P : A -> Prop) (f : A -> B -> A) l a :
  P a -> (forall a x, In x l -> P a -> P (f a x)) -> P (fold_left f l a).
Proof.
  revert a. induction l as [|x l IH]; intros a Ha Hf; cbn [fold_left];
    [exact Ha|].
  apply IH.
  - apply Hf; [now left | exact Ha].
  - intros a' y Hy. apply Hf. now right.
Qed.

Lemma maxDiffOf_even table :
  (forall i j, 1 <= i < 256 -> 0 <= j < 256 ->
               Z.even (get2 table i j) = true) ->
  Z.even (maxDiffOf table) = true.
Proof.
  intros H. unfold maxDiffOf, for_. change size with 256.
  apply (fold_left_invariant (fun m => Z.even m = true)); [reflexivity|].
  intros m i Hi Hm. apply zrange_In in Hi.
  apply (fold_left_invariant (fun m => Z.even m = true)); [exact Hm|].
  intros m' j Hj Hm'. apply zrange_In in Hj.
  destruct (Z.max_spec m' (get2 table i j)) as [[_ ->]|[_ ->]];
    [now apply H | exact Hm'].
Qed.

Lemma zsum_ge_term (f : Z -> Z) l x :
  (forall y, In y l -> 0 <= f y) -> In x l -> f x <= zsum f l.
Proof.
  induction l as [|a l IH]; intros Hf Hin; [contradiction|].
  cbn [zsum].
  assert (0 <= f a) by (apply Hf; now left).
  assert (0 <= zsum f l)
    by (apply zsum_nonneg; intros y Hy; apply Hf; now right).
  destruct Hin as [->|Hin]; [lia|].
  assert (f x <= zsum f l) by (apply IH; [intros y Hy; apply Hf; now right|exact Hin]).
  lia.
Qed.

Lemma ddtCount_zero_input sb beta :
  beta <> 0 -> ddtCount sb 0 beta = 0.
Proof.
  intros Hb. unfold ddtCount.
  rewrite (zsum_ext_in _ (fun _ => 0)); [now rewrite zsum_const|].
  intros x _. rewrite Z.lxor_0_r, Z.lxor_nilpotent.
  destruct (Z.eqb_spec 0 beta); [lia | reflexivity].
Qed.

Lemma ddtCount_zero_output sb :
  length sb = 256%nat ->
  (forall alpha, 1 <= alpha < 256 -> ddtCount sb alpha 0 = 0) <-> NoDup sb.
Proof.
  intros Hl. split.
  - intros H. apply (NoDup_nth sb 0). intros i j Hi Hj E.
    destruct (Nat.eq_dec i j) as [|Hne]; [assumption|]. exfalso.
    set (x := Z.of_nat i). set (y := Z.of_nat j).
    assert (Hx : 0 <= x < 256) by (subst x; lia).
    assert (Hy : 0 <= y < 256) by (subst y; lia).
    assert (Ha : 0 <= Z.lxor x y < 256) by now apply lxor_byte.
    assert (Hne' : Z.lxor x y <> 0).
    { intros E0. apply Z.lxor_eq in E0. subst x y. lia. }
    specialize (H (Z.lxor x y) ltac:(lia)).
    pose proof (zsum_ge_term
                  (fun x0 => b2z (Z.lxor (get sb x0)
                                         (get sb (Z.lxor x0 (Z.lxor x y)))
                                  =? 0))
                  (zrange 0 256) x) as G.
    unfold ddtCount in H. rewrite H in G.
    replace (Z.lxor x (Z.lxor x y)) with y in G
      by (now rewrite <- Z.lxor_assoc, Z.lxor_nilpotent, Z.lxor_0_l).
    assert (Exy : get sb x = get sb y).
    { unfold get, x, y. now rewrite !Nat2Z.id. }
    rewrite Exy, Z.lxor_nilpotent in G. cbn [Z.eqb b2z] in G.
    assert (1 <= 0); [|lia].
    apply G; [|now apply zrange_In].
    intros z _.
    destruct (Z.lxor (get sb z) (get sb (Z.lxor z (Z.lxor x y))) =? 0);
      cbn [b2z]; lia.
  - intros Hn alpha Ha. unfold ddtCount.
    rewrite (zsum_ext_in _ (fun _ => 0)); [now rewrite zsum_const|].
    intros x Hx. apply zrange_In in Hx.
    destruct (Z.eqb_spec (Z.lxor (get sb x) (get sb (Z.lxor x alpha))) 0)
      as [E|E]; [|reflexivity].
    exfalso. apply Z.lxor_eq in E. unfold get in E.
    assert (Hxa : 0 <= Z.lxor x alpha < 256) by (apply lxor_byte; lia).
    apply (proj1 (NoDup_nth sb 0) Hn) in E; [|lia|lia].
    assert (E' : x = Z.lxor x alpha) by lia.
    symmetry in E'. apply lxor_eq_iff in E'.
    rewrite Z.lxor_nilpotent in E'. lia.
Qed.

End DifferenceTable.

(** X11. On every array of 256 bytes the differential uniformity is an
    even number between 2 and 256. *)
Theorem differential_uniformity_range
        (sboxArray : list Z) (this : SBoxAnalyzer) :
  constructor sboxArray = inr this ->
  (forall v, In v sboxArray -> 0 <= v < 256) ->
  Z.even (fst (calculateDifferentialUniformity this)) = true
  /\ 2 <= fst (calculateDifferentialUniformity this) <= 256.
Proof.
  intros Hc Hb. apply constructor_inr in Hc. destruct Hc as [Hl Hc].
  destruct (calculateDifferentialUniformity_eq sboxArray this Hc) as [-> _].
  assert (Hev : Z.even (maxDiffOf (ddtOf sboxArray)) = true).
  { apply maxDiffOf_even. intros i j Hi Hj.
    rewrite ddtOf_get2 by lia. apply ddtAt_even. }
  assert (Hle : maxDiffOf (ddtOf sboxArray) <= 256).
  { apply differential_uniformity_le; [lia|].
    intros alpha beta _ _. apply ddtCount_le_256. }
  assert (Hge : 1 <= maxDiffOf (ddtOf sboxArray)).
  { assert (Hrow : zsum (fun beta => ddtAt sboxArray 1 beta) (zrange 0 256)
                   = 256).
    { apply ddtAt_row_sum; [|lia]. intros x Hx. apply Hb, get_In. lia. }
    pose proof (zsum_le_const (fun beta => ddtAt sboxArray 1 beta)
                              (zrange 0 256)
                              (maxDiffOf (ddtOf sboxArray))) as G.
    rewrite Hrow, zrange_length in G.
    change (Z.of_nat (Z.to_nat (256 - 0))) with 256 in G.
    assert (256 <= maxDiffOf (ddtOf sboxArray) * 256); [|lia].
    apply G. intros beta Hbeta. apply zrange_In in Hbeta.
    rewrite <- ddtOf_get2 by lia. apply maxDiffOf_ge; lia. }
  revert Hev Hle Hge. generalize (maxDiffOf (ddtOf sboxArray)).
  intros du Hev Hle Hge. split; [exact Hev|].
  apply Z.even_spec in Hev. destruct Hev as [h ->]. lia.
Qed.

Lemma differential_uniformity_range_witness :
  Z.even (fst (calculateDifferentialUniformity (freshAnalyzer duplicateSBox)))
  = true
  /\ 2 <= fst (calculateDifferentialUniformity (freshAnalyzer duplicateSBox))
     <= 256.
Proof.
  apply (differential_uniformity_range duplicateSBox).
  - reflexivity.
  - apply bytes_checked. vm_compute. reflexivity.
Defined.

(** X12. In the difference distribution table of an array of 256
    bytes, row 0 is zero outside entry [0][0], and column 0 is zero below
    row 0 exactly when the values of the array are pairwise distinct. *)
Theorem ddt_zero_row_and_column
        (sboxArray : list Z) (this : SBoxAnalyzer) :
  constructor sboxArray = inr this ->
  (forall v, In v sboxArray -> 0 <= v < 256) ->
  exists ddt,
    differenceTable (buildDifferenceDistributionTable this) = Some ddt
    /\ (forall beta, 1 <= beta < 256 -> get2 ddt 0 beta = 0)
    /\ ((forall alpha, 1 <= alpha < 256 -> get2 ddt alpha 0 = 0)
        <-> NoDup sboxArray).
Proof.
  intros Hc _. apply constructor_inr in Hc. destruct Hc as [Hl Hc].
  exists (ddtOf sboxArray).
  split; [now apply buildDifferenceDistributionTable_eq|]. split.
  - intros beta Hbeta. rewrite ddtOf_get2, ddtAt_count by lia.
    apply ddtCount_zero_input. lia.
  - rewrite <- (ddtCount_zero_output sboxArray Hl).
    split; intros H alpha Ha; specialize (H alpha Ha);
      rewrite ddtOf_get2, ddtAt_count in * by lia; exact H.
Qed.

Lemma ddt_zero_row_and_column_witness :
  exists ddt,
    differenceTable
      (buildDifferenceDistributionTable (freshAnalyzer duplicateSBox))
    = Some ddt
    /\ (forall beta, 1 <= beta < 256 -> get2 ddt 0 beta = 0)
    /\ ((forall alpha, 1 <= alpha < 256 -> get2 ddt alpha 0 = 0)
        <-> NoDup duplicateSBox).
Proof.
  apply (ddt_zero_row_and_column duplicateSBox).
  - reflexivity.
  - apply bytes_checked. vm_compute. reflexivity.
Defined.

Section LinearTable.

Lemma latAt_abs_le sb a b : length sb = 256%nat -> Z.abs (latAt sb a b) <= 128.
Proof.
  intros Hl. unfold latAt.
  set (f := fun '(x, y) => b2z (parity (Z.land a x) =? parity (Z.land b y))).
  assert (H01 : forall p : Z * Z, 0 <= f p <= 1).
  { intros [x y]. unfold f.
    destruct (parity (Z.land a x) =? parity (Z.land b y)); cbn; lia. }
  pose proof (zsum_nonneg f (combine (zrange 0 256) sb)
                          (fun p _ => proj1 (H01 p))) as H0.
  pose proof (zsum_le_const f (combine (zrange 0 256) sb) 1
                            (fun p _ => proj2 (H01 p))) as H1.
  rewrite combine_length_eq, zrange_length in H1
    by (rewrite zrange_length; lia).
  change (Z.of_nat (Z.to_nat (256 - 0))) with 256 in H1. lia.
Qed.

Lemma maxBiasOf_range table :
  (forall a b, 0 <= a < 256 -> 0 <= b < 256 -> Z.abs (get2 table a b) <= 128) ->
  0 <= maxBiasOf table <= 128.
Proof.
  intros H. unfold maxBiasOf, for_. change size with 256. split.
  - apply fold_left_inflate. intros m a. apply fold_left_inflate.
    intros m' b. destruct (negb (a =? 0) || negb (b =? 0)); lia.
  - apply fold_left_below; [lia|].
    intros m a Ha Hm. apply zrange_In in Ha.
    apply fold_left_below; [exact Hm|].
    intros m' b Hb Hm'. apply zrange_In in Hb.
    specialize (H a b Ha Hb).
    destruct (negb (a =? 0) || negb (b =? 0)); lia.
Qed.

Lemma maxAbs_attained l :
  maxAbs l = 0 \/ exists v, In v l /\ maxAbs l = Z.abs v.
Proof.
  unfold maxAbs. destruct (fold_max_spec Z.abs l 0) as (_ & _ & H).
  exact H.
Qed.

Lemma squared_ratio_range (b : Z) :
  0 <= b <= 128 ->
  (0 <= (inject_Z b / inject_Z 128) ^ 2 <= 1)%Q.
Proof.
  intros Hb. unfold Qle, Qdiv, Qmult, Qinv, inject_Z, Qpower, Qpower_positive.
  cbn [Qnum Qden pow_pos Pos.iter_op Pos.mul Qmult Z.mul Pos.to_nat].
  cbn. nia.
Qed.

(** On a permutation the bias at a single-bit output mask is half a Walsh
    coefficient of that bit, so the largest bias is at least 128 minus the
    nonlinearity of any bit. *)
Lemma maxBias_ge_nlOfBit sb bit :
  permutation256 sb -> 0 <= bit < 8 ->
  128 - nlOfBit sb bit <= maxBiasFast sb.
Proof.
  intros Hp Hbit. pose proof (permutation256_length _ Hp) as Hl.
  rewrite <- maxBiasOf_fast by assumption.
  assert (H0 : 0 <= maxBiasOf (latOf precomputeHammingWeights sb)).
  { refine (proj1 (maxBiasOf_range _ _)). intros a b Ha Hb.
    rewrite latOf_get2 by assumption. apply latAt_abs_le. exact Hl. }
  unfold nlOfBit.
  destruct (maxAbs_attained (tl (walshOf (map (bitOf bit) sb))))
    as [-> | (v & Hv & ->)].
  { change (0 / 2) with 0. lia. }
  rewrite walshOf_tl in Hv. apply in_map_iff in Hv.
  destruct Hv as (a & <- & Ha). apply zrange_In in Ha.
  rewrite walshAt_latAt by (assumption || lia).
  rewrite Z.abs_mul, (Z.mul_comm (Z.abs 2)). change (Z.abs 2) with 2.
  rewrite Z.div_mul by lia.
  assert (Hb : 0 <= Z.shiftl 1 bit < 256).
  { rewrite Z.shiftl_1_l. split; [apply Z.pow_nonneg; lia|].
    change 256 with (2 ^ 8). apply Z.pow_lt_mono_r; lia. }
  rewrite <- (latOf_get2 sb a (Z.shiftl 1 bit)) by (assumption || lia).
  pose proof (maxBiasOf_ge (latOf precomputeHammingWeights sb) a
                           (Z.shiftl 1 bit)) as G.
  specialize (G ltac:(lia) Hb ltac:(left; lia)). lia.
Qed.

End LinearTable.

(** X13. On every array of 256 integers the largest bias reported by
    [calculateLAP] lies between 0 and 128 and the probability [maxLAP]
    between 0 and 1; on a permutation of 0..255 the largest bias and the
    reported nonlinearity add up to 128 at least. *)
Theorem lap_range_and_nonlinearity
        (sboxArray : list Z) (this : SBoxAnalyzer) :
  constructor sboxArray = inr this ->
  0 <= lap_maxBias (fst (calculateLAP this)) <= 128
  /\ (0 <= lap_maxLAP (fst (calculateLAP this)) <= 1)%Q
  /\ (permutation256 sboxArray ->
      exists nl, fst (calculateNonlinearity this) = Fin nl
                 /\ 128 <= lap_maxBias (fst (calculateLAP this)) + nl).
Proof.
  intros Hc. apply constructor_inr in Hc. destruct Hc as [Hl Hc].
  destruct (calculateLAP_eq sboxArray this Hl Hc) as (E1 & E2 & _).
  rewrite E1, E2.
  assert (Hr : 0 <= maxBiasFast sboxArray <= 128).
  { rewrite <- maxBiasOf_fast by assumption.
    apply maxBiasOf_range. intros a b Ha Hb.
    rewrite latOf_get2 by assumption. apply latAt_abs_le. exact Hl. }
  split; [exact Hr|]. split; [now apply squared_ratio_range|].
  intros Hp.
  destruct (calculateNonlinearity_eq sboxArray this Hl Hc) as [-> _].
  destruct (nonlinearityOf_attained sboxArray) as (bit & Hbit & -> & _).
  exists (nlOfBit sboxArray bit). split; [reflexivity|].
  pose proof (maxBias_ge_nlOfBit sboxArray bit Hp Hbit). lia.
Qed.

Lemma lap_range_and_nonlinearity_witness :
  0 <= lap_maxBias (fst (calculateLAP (freshAnalyzer identitySBox))) <= 128
  /\ (0 <= lap_maxLAP (fst (calculateLAP (freshAnalyzer identitySBox))) <= 1)%Q
  /\ (permutation256 identitySBox ->
      exists nl,
        fst (calculateNonlinearity (freshAnalyzer identitySBox)) = Fin nl
        /\ 128 <= lap_maxBias (fst (calculateLAP (freshAnalyzer identitySBox)))
                  + nl).
Proof.
  apply (lap_range_and_nonlinearity identitySBox). reflexivity.
Defined.

(** ** The algebraic normal form *)
Section Moebius.

Lemma bit_test mask i :
  0 <= i -> negb (Z.land (Z.shiftr mask i) 1 =? 0) = Z.testbit mask i.
Proof.
  intros Hi. rewrite land_1_bit, Z.shiftr_spec by lia. cbn [Z.add].
  now destruct (Z.testbit mask i).
Qed.

Lemma testbit_flip mask i j :
  0 <= i -> 0 <= j ->
  Z.testbit (Z.lxor mask (Z.shiftl 1 j)) i
  = xorb (Z.testbit mask i) (i =? j).
Proof.
  intros Hi Hj. rewrite Z.lxor_spec, Z.shiftl_1_l, Z.pow2_bits_eqb by lia.
  now rewrite (Z.eqb_sym j i).
Qed.

Lemma flip_byte mask i :
  0 <= mask < 256 -> 0 <= i < 8 -> 0 <= Z.lxor mask (Z.shiftl 1 i) < 256.
Proof.
  intros Hm Hi. apply lxor_byte; [assumption|].
  rewrite Z.shiftl_1_l. split; [apply Z.pow_nonneg; lia|].
  change 256 with (2 ^ 8). apply Z.pow_lt_mono_r; lia.
Qed.

(** A pass reads, at the masks it rewrites, values that it has not
    rewritten. *)
Lemma pass_spec (c : Z -> bool) (r : Z -> Z) l anf :
  NoDup l ->
  (forall m, In m l -> 0 <= m < Z.of_nat (length anf)) ->
  (forall m, In m l -> c m = true ->
             0 <= r m < Z.of_nat (length anf) /\ c (r m) = false) ->
  let out :=
    fold_left (fun cur m =>
                 if c m
                 then set cur m (Z.lxor (get cur m) (get cur (r m)))
                 else cur) l anf in
  length out = length anf
  /\ forall m, 0 <= m < Z.of_nat (length anf) ->
               get out m
               = if c m && existsb (Z.eqb m) l
                 then Z.lxor (get anf m) (get anf (r m))
                 else get anf m.
Proof.
  intros Hn. revert anf. induction Hn as [|m0 l Hnotin Hn IH];
    intros anf Hl Hr; cbn zeta; cbn [fold_left existsb].
  - split; [reflexivity|]. intros m _. now rewrite andb_false_r.
  - set (anf1 := if c m0
                 then set anf m0 (Z.lxor (get anf m0) (get anf (r m0)))
                 else anf).
    assert (Hlen1 : length anf1 = length anf).
    { subst anf1. destruct (c m0); [apply updZ_length | reflexivity]. }
    destruct (IH anf1) as [E1 E2].
    { intros m Hm. rewrite Hlen1. apply Hl. now right. }
    { intros m Hm Hc. rewrite Hlen1. apply Hr; [now right | exact Hc]. }
    cbn zeta in E1, E2. rewrite Hlen1 in E1, E2.
    split; [exact E1|].
    intros m Hm. rewrite (E2 m Hm).
    assert (Hm0 : 0 <= m0 < Z.of_nat (length anf)) by (apply Hl; now left).
    assert (Hget : forall k, 0 <= k -> (c k = false \/ k <> m0) ->
                             get anf1 k = get anf k).
    { intros k Hk Hcase. subst anf1. destruct (c m0) eqn:Ec0; [|reflexivity].
      apply get_set_other; [exact Hk|].
      destruct Hcase as [Hck|Hne]; [|congruence].
      intros ->. congruence. }
    destruct (Z.eqb_spec m m0) as [->|Hne].
    + replace (existsb (Z.eqb m0) l) with false.
      2:{ symmetry. apply not_true_is_false. intros Hin.
          apply existsb_eqb_In in Hin. contradiction. }
      rewrite andb_false_r, orb_true_l. subst anf1.
      destruct (c m0) eqn:Ec0; cbn [andb]; [|reflexivity].
      now rewrite get_set_same.
    + rewrite orb_false_l.
      destruct (c m) eqn:Ecm; cbn [andb].
      * destruct (existsb (Z.eqb m) l) eqn:Ein.
        -- apply existsb_eqb_In in Ein.
           destruct (Hr m (or_intror Ein) Ecm) as [Hrm Hcr].
           rewrite !Hget; [reflexivity | lia | now left | lia | now right].
        -- apply Hget; [lia | now right].
      * apply Hget; [lia | now left].
Qed.

Lemma existsb_eqb_zrange m lo hi :
  lo <= m < hi -> existsb (Z.eqb m) (zrange lo hi) = true.
Proof. intros H. apply existsb_eqb_In, zrange_In. exact H. Qed.

(** One pass of [computeANF] on a table of 256 entries. *)
Lemma computeANF_pass i anf :
  length anf = 256%nat -> 0 <= i < 8 ->
  length (for_ 0 size
               (fun mask anf =>
                  if negb (Z.land (Z.shiftr mask i) 1 =? 0)
                  then set anf mask
                           (Z.lxor (get anf mask)
                                   (get anf (Z.lxor mask (Z.shiftl 1 i))))
                  else anf) anf) = 256%nat
  /\ forall mask, 0 <= mask < 256 ->
       get (for_ 0 size
                 (fun mask anf =>
                    if negb (Z.land (Z.shiftr mask i) 1 =? 0)
                    then set anf mask
                             (Z.lxor (get anf mask)
                                     (get anf (Z.lxor mask (Z.shiftl 1 i))))
                    else anf) anf) mask
       = moebiusStep i (get anf) mask.
Proof.
  intros Hl Hi. unfold for_. change size with 256.
  destruct (pass_spec (fun m => negb (Z.land (Z.shiftr m i) 1 =? 0))
                      (fun m => Z.lxor m (Z.shiftl 1 i))
                      (zrange 0 256) anf) as [E1 E2].
  - apply zrange_NoDup.
  - intros m Hm. apply zrange_In in Hm. lia.
  - intros m Hm Hc. apply zrange_In in Hm. rewrite Hl. split.
    + now apply flip_byte.
    + rewrite bit_test in * by lia. rewrite testbit_flip by lia.
      rewrite Hc, Z.eqb_refl. reflexivity.
  - cbn zeta in E1, E2. rewrite Hl in E1, E2. split; [exact E1|].
    intros mask Hm. rewrite (E2 mask) by lia.
    rewrite existsb_eqb_zrange, andb_true_r by lia. reflexivity.
Qed.

Lemma moebiusStep_ext_bytes i f g :
  0 <= i < 8 ->
  (forall m, 0 <= m < 256 -> f m = g m) ->
  forall m, 0 <= m < 256 -> moebiusStep i f m = moebiusStep i g m.
Proof.
  intros Hi H m Hm. unfold moebiusStep.
  rewrite !H by (assumption || now apply flip_byte). reflexivity.
Qed.

Lemma fold_moebiusStep_ext_bytes l f g :
  (forall i, In i l -> 0 <= i < 8) ->
  (forall m, 0 <= m < 256 -> f m = g m) ->
  forall m, 0 <= m < 256 ->
            fold_left (fun f i => moebiusStep i f) l f m
            = fold_left (fun f i => moebiusStep i f) l g m.
Proof.
  revert f g. induction l as [|i l IH]; intros f g Hl H m Hm;
    cbn [fold_left]; [now apply H|].
  apply IH; [intros j Hj; apply Hl; now right | | exact Hm].
  apply moebiusStep_ext_bytes; [apply Hl; now left | exact H].
Qed.

(** Passes that act as [moebiusStep] on the entries, one after the other. *)
Lemma passes_fold (body : Z -> list Z -> list Z) l anf :
  (forall i anf, In i l -> length anf = 256%nat ->
                 length (body i anf) = 256%nat
                 /\ forall mask, 0 <= mask < 256 ->
                      get (body i anf) mask = moebiusStep i (get anf) mask) ->
  (forall i, In i l -> 0 <= i < 8) ->
  length anf = 256%nat ->
  length (fold_left (fun anf i => body i anf) l anf) = 256%nat
  /\ forall mask, 0 <= mask < 256 ->
       get (fold_left (fun anf i => body i anf) l anf) mask
       = fold_left (fun f i => moebiusStep i f) l (get anf) mask.
Proof.
  intros Hbody. revert anf. induction l as [|i l IH]; intros anf Hi Hl.
  - now split.
  - destruct (Hbody i anf (or_introl eq_refl) Hl) as [E1 E2].
    destruct (IH (fun j a Hj => Hbody j a (or_intror Hj)) (body i anf)
                 (fun j Hj => Hi j (or_intror Hj)) E1) as [E3 E4].
    cbn [fold_left]. split; [exact E3|].
    intros mask Hm. rewrite (E4 mask Hm).
    exact (fold_moebiusStep_ext_bytes
             l _ _ (fun j Hj => Hi j (or_intror Hj)) E2 mask Hm).
Qed.

Lemma computeANF_moebius truthTable :
  length truthTable = 256%nat ->
  length (computeANF truthTable) = 256%nat
  /\ forall mask, 0 <= mask < 256 ->
       get (computeANF truthTable) mask = moebius (get truthTable) mask.
Proof.
  intros Hl. unfold computeANF, moebius. change n with 8.
  unfold for_ at 1 3.
  apply passes_fold; [|intros i Hi; now apply zrange_In|exact Hl].
  intros i anf Hi Ha. apply zrange_In in Hi. now apply computeANF_pass.
Qed.

(** The passes are involutions and commute. *)
Lemma moebiusStep_ext i f g :
  (forall m, f m = g m) -> forall m, moebiusStep i f m = moebiusStep i g m.
Proof. intros H m. unfold moebiusStep. now rewrite !H. Qed.

Lemma moebiusStep_involutive i f m :
  0 <= i -> moebiusStep i (moebiusStep i f) m = f m.
Proof.
  intros Hi. unfold moebiusStep. rewrite !bit_test by lia.
  rewrite testbit_flip, Z.eqb_refl by lia.
  destruct (Z.testbit m i); cbn [xorb negb]; [|reflexivity].
  now rewrite Z.lxor_assoc, Z.lxor_nilpotent, Z.lxor_0_r.
Qed.

Lemma lxor_flip_swap m i j :
  Z.lxor (Z.lxor m (Z.shiftl 1 i)) (Z.shiftl 1 j)
  = Z.lxor (Z.lxor m (Z.shiftl 1 j)) (Z.shiftl 1 i).
Proof.
  now rewrite !Z.lxor_assoc, (Z.lxor_comm (Z.shiftl 1 i)).
Qed.

Lemma lxor_4 a b c d :
  Z.lxor (Z.lxor a b) (Z.lxor c d) = Z.lxor (Z.lxor a c) (Z.lxor b d).
Proof.
  rewrite !Z.lxor_assoc. f_equal.
  rewrite <- !Z.lxor_assoc. f_equal. apply Z.lxor_comm.
Qed.

Lemma moebiusStep_commute i j f m :
  0 <= i -> 0 <= j ->
  moebiusStep i (moebiusStep j f) m = moebiusStep j (moebiusStep i f) m.
Proof.
  intros Hi Hj. destruct (Z.eq_dec i j) as [->|Hne]; [reflexivity|].
  unfold moebiusStep. rewrite !bit_test by lia.
  rewrite !testbit_flip by lia.
  replace (j =? i) with false by (symmetry; apply Z.eqb_neq; lia).
  replace (i =? j) with false by (symmetry; apply Z.eqb_neq; lia).
  rewrite !xorb_false_r. rewrite (lxor_flip_swap m j i).
  destruct (Z.testbit m i), (Z.testbit m j); try reflexivity.
  apply lxor_4.
Qed.

Lemma moebiusStep_fold_commute i l f m :
  0 <= i -> (forall j, In j l -> 0 <= j) ->
  moebiusStep i (fold_left (fun f j => moebiusStep j f) l f) m
  = fold_left (fun f j => moebiusStep j f) l (moebiusStep i f) m.
Proof.
  intros Hi. revert f m. induction l as [|j l IH]; intros f m Hl;
    cbn [fold_left]; [reflexivity|].
  rewrite IH by (intros k Hk; apply Hl; now right).
  assert (G : forall l' f g,
             (forall m, f m = g m) ->
             forall m, fold_left (fun f j => moebiusStep j f) l' f m
                       = fold_left (fun f j => moebiusStep j f) l' g m).
  { induction l' as [|k l' IH']; intros f' g' H m'; cbn [fold_left];
      [apply H|].
    apply IH'. now apply moebiusStep_ext. }
  apply G. intros m'. apply moebiusStep_commute; [exact Hi|].
  apply Hl. now left.
Qed.

Lemma fold_moebiusStep_ext l f g :
  (forall m, f m = g m) ->
  forall m, fold_left (fun f j => moebiusStep j f) l f m
            = fold_left (fun f j => moebiusStep j f) l g m.
Proof.
  revert f g. induction l as [|k l IH]; intros f g H m; cbn [fold_left];
    [apply H|].
  apply IH. now apply moebiusStep_ext.
Qed.

Lemma fold_moebiusStep_involutive l f m :
  (forall j, In j l -> 0 <= j) ->
  fold_left (fun f j => moebiusStep j f) l
            (fold_left (fun f j => moebiusStep j f) l f) m = f m.
Proof.
  revert f m. induction l as [|i l IH]; intros f m Hl; cbn [fold_left];
    [reflexivity|].
  assert (Hi : 0 <= i) by (apply Hl; now left).
  assert (Hl' : forall j, In j l -> 0 <= j) by (intros j Hj; apply Hl; now right).
  rewrite (fold_moebiusStep_ext
             l _ (fold_left (fun f j => moebiusStep j f) l
                            (moebiusStep i (moebiusStep i f))))
    by (intros m'; now apply moebiusStep_fold_commute).
  rewrite IH by exact Hl'. now apply moebiusStep_involutive.
Qed.

Lemma moebius_involutive f m : moebius (moebius f) m = f m.
Proof.
  unfold moebius, for_. apply fold_moebiusStep_involutive.
  intros j Hj. apply zrange_In in Hj. lia.
Qed.

Lemma moebius_ext_bytes f g :
  (forall m, 0 <= m < 256 -> f m = g m) ->
  forall m, 0 <= m < 256 -> moebius f m = moebius g m.
Proof.
  intros H m Hm. unfold moebius, for_.
  apply fold_moebiusStep_ext_bytes; [|exact H|exact Hm].
  intros i Hi. now apply zrange_In.
Qed.

Lemma get_ext (l l' : list Z) :
  length l = length l' ->
  (forall m, 0 <= m < Z.of_nat (length l) -> get l m = get l' m) ->
  l = l'.
Proof.
  intros Hl H. apply (nth_ext l l' 0 0 Hl). intros k Hk.
  specialize (H (Z.of_nat k) ltac:(lia)). unfold get in H.
  now rewrite Nat2Z.id in H.
Qed.

Lemma lxor_below n a b :
  0 <= n -> 0 <= a < 2 ^ n -> 0 <= b < 2 ^ n -> 0 <= Z.lxor a b < 2 ^ n.
Proof.
  intros Hn Ha Hb.
  assert (H0 : 0 <= Z.lxor a b) by (apply Z.lxor_nonneg; lia).
  split; [exact H0|].
  destruct (Z.eq_dec (Z.lxor a b) 0) as [->|Hne]; [lia|].
  apply Z.log2_lt_pow2; [lia|].
  pose proof (Z.log2_lxor a b (proj1 Ha) (proj1 Hb)) as Hl.
  assert (Hla : a = 0 \/ Z.log2 a < n).
  { destruct (Z.eq_dec a 0); [now left|]. right.
    apply Z.log2_lt_pow2; lia. }
  assert (Hlb : b = 0 \/ Z.log2 b < n).
  { destruct (Z.eq_dec b 0); [now left|]. right.
    apply Z.log2_lt_pow2; lia. }
  destruct Hla as [->|Hla], Hlb as [->|Hlb].
  - now rewrite Z.lxor_0_l in Hne.
  - rewrite Z.lxor_0_l. exact Hlb.
  - rewrite Z.lxor_0_r. exact Hla.
  - lia.
Qed.

(** The exclusive or of two 32-bit integers is a 32-bit integer: on them
    [Z.lxor] is the operator [^] of the code. *)
Lemma lxor_int32 a b :
  - 2 ^ 31 <= a < 2 ^ 31 -> - 2 ^ 31 <= b < 2 ^ 31 ->
  - 2 ^ 31 <= Z.lxor a b < 2 ^ 31.
Proof.
  intros Ha Hb.
  assert (Hnot : forall x, Z.lnot x = - x - 1) by (intros x; unfold Z.lnot; lia).
  destruct (Z.leb_spec 0 a) as [Pa|Na], (Z.leb_spec 0 b) as [Pb|Nb].
  - pose proof (lxor_below 31 a b) as H. lia.
  - pose proof (lxor_below 31 a (Z.lnot b)) as H.
    rewrite Z.lxor_comm, <- Z.lnot_lxor_l, Z.lxor_comm, !Hnot in H. lia.
  - pose proof (lxor_below 31 (Z.lnot a) b) as H.
    rewrite <- Z.lnot_lxor_l, !Hnot in H. lia.
  - pose proof (lxor_below 31 (Z.lnot a) (Z.lnot b)) as H.
    rewrite Z.lxor_lnot_lnot, !Hnot in H. lia.
Qed.

Lemma updZ_Forall {A} (P : A -> Prop) i (f : A -> A) l :
  Forall P l -> (forall x, In x l -> P (f x)) -> Forall P (updZ i f l).
Proof.
  intros Hl Hf. apply Forall_forall. intros y Hy.
  rewrite Forall_forall in Hl. unfold updZ in Hy.
  destruct (0 <=? i); [|now apply Hl].
  apply upd_In in Hy. destruct Hy as [Hy|(x & Hx & ->)];
    [now apply Hl | now apply Hf].
Qed.

(** [computeANF] keeps 32-bit integers 32-bit integers. *)
Lemma computeANF_int32 t :
  Forall (fun v => - 2 ^ 31 <= v < 2 ^ 31) t ->
  Forall (fun v => - 2 ^ 31 <= v < 2 ^ 31) (computeANF t).
Proof.
  intros Ht. unfold computeANF, for_.
  apply fold_left_invariant; [exact Ht|].
  intros anf i _ Hanf.
  apply fold_left_invariant; [exact Hanf|].
  intros anf' mask _ Hanf'.
  destruct (negb (Z.land (Z.shiftr mask i) 1 =? 0)); [|exact Hanf'].
  assert (Hget : forall k, - 2 ^ 31 <= get anf' k < 2 ^ 31).
  { intros k. unfold get.
    destruct (Nat.lt_ge_cases (Z.to_nat k) (length anf')) as [Hk|Hk].
    - rewrite Forall_forall in Hanf'. apply Hanf'. now apply nth_In.
    - rewrite nth_overflow by exact Hk. lia. }
  unfold set. apply updZ_Forall; [exact Hanf'|].
  intros _ _. apply lxor_int32; apply Hget.
Qed.

End Moebius.

(** X14. [computeANF] is its own inverse on arrays of 256
    32-bit integers, the numbers on which the operator [^] of the code is
    the exclusive or of the integers: the result is again an array of 256
    32-bit integers, the algebraic normal form of the algebraic normal form
    of a truth table is the truth table, and the first coefficient is the
    first value of the table. *)
Theorem computeANF_involutive (truthTable : list Z) :
  length truthTable = 256%nat ->
  (forall v, In v truthTable -> - 2 ^ 31 <= v < 2 ^ 31) ->
  length (computeANF truthTable) = 256%nat
  /\ (forall v, In v (computeANF truthTable) -> - 2 ^ 31 <= v < 2 ^ 31)
  /\ computeANF (computeANF truthTable) = truthTable
  /\ get (computeANF truthTable) 0 = get truthTable 0.
Proof.
  intros Hl Hb.
  destruct (computeANF_moebius truthTable Hl) as [E1 E2].
  destruct (computeANF_moebius (computeANF truthTable) E1) as [E3 E4].
  split; [exact E1|]. split; [|split].
  - apply Forall_forall, computeANF_int32, Forall_forall. exact Hb.
  - apply get_ext; [congruence|]. rewrite E3.
    intros m Hm. rewrite E4 by exact Hm.
    rewrite (moebius_ext_bytes _ (moebius (get truthTable)) E2 m Hm).
    apply moebius_involutive.
  - rewrite E2 by lia. reflexivity.
Qed.

Lemma computeANF_involutive_witness :
  length (computeANF (map (bitOf 0) fipsSBox)) = 256%nat
  /\ (forall v, In v (computeANF (map (bitOf 0) fipsSBox)) ->
                - 2 ^ 31 <= v < 2 ^ 31)
  /\ computeANF (computeANF (map (bitOf 0) fipsSBox)) = map (bitOf 0) fipsSBox
  /\ get (computeANF (map (bitOf 0) fipsSBox)) 0
     = get (map (bitOf 0) fipsSBox) 0.
Proof.
  apply (computeANF_involutive (map (bitOf 0) fipsSBox)).
  - reflexivity.
  - intros v Hv.
    assert (H : 0 <= v < 256)
      by (revert v Hv; apply bytes_checked; vm_compute; reflexivity).
    lia.
Defined.

Section TopCoefficient.

Lemma fold_lxor_acc (f : Z -> Z) l acc :
  fold_left (fun a x => Z.lxor a (f x)) l acc
  = Z.lxor acc (fold_left (fun a x => Z.lxor a (f x)) l 0).
Proof.
  revert acc. induction l as [|x l IH]; intros acc; cbn [fold_left].
  - now rewrite Z.lxor_0_r.
  - rewrite IH, (IH (Z.lxor 0 (f x))), Z.lxor_0_l. apply Z.lxor_assoc.
Qed.

Lemma map_seq_from {A} (f : nat -> A) a b :
  map f (seq a b) = map (fun k => f (a + k)%nat) (seq 0 b).
Proof.
  revert a. induction b as [|b IH]; intros a; [reflexivity|].
  cbn [seq map]. rewrite Nat.add_0_r. f_equal.
  rewrite IH, <- seq_shift, map_map. apply map_ext. intros k.
  f_equal. lia.
Qed.

Lemma zrange_split lo mid hi :
  lo <= mid <= hi -> zrange lo hi = zrange lo mid ++ zrange mid hi.
Proof.
  intros H. unfold zrange.
  replace (Z.to_nat (hi - lo))
    with (Z.to_nat (mid - lo) + Z.to_nat (hi - mid))%nat by lia.
  rewrite seq_app, map_app. f_equal. cbn [Nat.add].
  rewrite map_seq_from. apply map_ext. intros k. lia.
Qed.

Lemma xorAll_split f lo mid hi :
  lo <= mid <= hi ->
  xorAll f lo hi = Z.lxor (xorAll f lo mid) (xorAll f mid hi).
Proof.
  intros H. unfold xorAll, for_.
  rewrite (zrange_split lo mid hi H), fold_left_app.
  apply fold_lxor_acc.
Qed.

Lemma xorAll_single f lo : xorAll f lo (lo + 1) = f lo.
Proof.
  unfold xorAll, for_. rewrite zrange_cons, zrange_nil by lia.
  cbn [fold_left]. apply Z.lxor_0_l.
Qed.

Lemma low_bits_set k m :
  0 <= k < 8 -> 0 <= m < 256 -> m mod 2 ^ (k + 1) = 2 ^ (k + 1) - 1 ->
  Z.testbit m k = true /\ Z.lxor m (Z.shiftl 1 k) = m - 2 ^ k.
Proof.
  intros Hk Hm E.
  assert (G : negb (m mod 2 ^ (k + 1) =? 2 ^ (k + 1) - 1)
              || (Z.testbit m k && (Z.lxor m (Z.shiftl 1 k) =? m - 2 ^ k))
              = true).
  { revert m Hm E. intros m Hm _. revert m Hm.
    apply (byte_forallb
             (fun m => negb (m mod 2 ^ (k + 1) =? 2 ^ (k + 1) - 1)
                       || (Z.testbit m k
                           && (Z.lxor m (Z.shiftl 1 k) =? m - 2 ^ k)))).
    revert k Hk.
    apply (zrange_forallb
             (fun k =>
                forallb
                  (fun m => negb (m mod 2 ^ (k + 1) =? 2 ^ (k + 1) - 1)
                            || (Z.testbit m k
                                && (Z.lxor m (Z.shiftl 1 k) =? m - 2 ^ k)))
                  (zrange 0 256)) 0 8).
    vm_compute. reflexivity. }
  rewrite E, Z.eqb_refl in G. cbn [negb orb] in G.
  apply andb_true_iff in G. destruct G as [G1 G2].
  split; [exact G1 | now apply Z.eqb_eq].
Qed.

(** After the passes of bits [0 .. k - 1] the value at a mask whose [k]
    lowest bits are set is the exclusive or of the table over the block of
    [2 ^ k] masks that ends there. *)
Lemma moebius_block (f : Z -> Z) (k : nat) :
  (k <= 8)%nat ->
  forall h, 0 <= h -> (h + 1) * 2 ^ Z.of_nat k <= 256 ->
    fold_left (fun f i => moebiusStep i f) (zrange 0 (Z.of_nat k)) f
              (h * 2 ^ Z.of_nat k + 2 ^ Z.of_nat k - 1)
    = xorAll f (h * 2 ^ Z.of_nat k) ((h + 1) * 2 ^ Z.of_nat k).
Proof.
  induction k as [|k IH]; intros Hk h Hh Hlim.
  - cbn [Z.of_nat]. rewrite zrange_nil by lia. cbn [fold_left].
    change (2 ^ 0) with 1. rewrite !Z.mul_1_r.
    replace (h + 1 - 1) with h by lia. now rewrite xorAll_single.
  - replace (Z.of_nat (S k)) with (Z.of_nat k + 1) in * by lia.
    assert (Hp : 0 < 2 ^ Z.of_nat k) by (apply Z.pow_pos_nonneg; lia).
    assert (E2 : 2 ^ (Z.of_nat k + 1) = 2 * 2 ^ Z.of_nat k)
      by (rewrite Z.pow_add_r by lia; change (2 ^ 1) with 2; lia).
    rewrite E2 in Hlim |- *.
    rewrite zrange_snoc, fold_left_app by lia. cbn [fold_left].
    set (g := fold_left (fun f i => moebiusStep i f)
                        (zrange 0 (Z.of_nat k)) f) in *.
    set (m := h * (2 * 2 ^ Z.of_nat k) + 2 * 2 ^ Z.of_nat k - 1).
    assert (Hm : 0 <= m < 256) by (subst m; nia).
    destruct (low_bits_set (Z.of_nat k) m) as [B1 B2]; [lia | exact Hm | |].
    { rewrite E2. subst m.
      replace (h * (2 * 2 ^ Z.of_nat k) + 2 * 2 ^ Z.of_nat k - 1)
        with (2 * 2 ^ Z.of_nat k - 1 + h * (2 * 2 ^ Z.of_nat k)) by lia.
      rewrite Z.mod_add by lia. apply Z.mod_small. lia. }
    unfold moebiusStep. rewrite bit_test, B1, B2 by lia.
    replace m with ((2 * h + 1) * 2 ^ Z.of_nat k + 2 ^ Z.of_nat k - 1) at 1
      by (subst m; lia).
    replace (m - 2 ^ Z.of_nat k)
      with ((2 * h) * 2 ^ Z.of_nat k + 2 ^ Z.of_nat k - 1)
      by (subst m; lia).
    subst g. rewrite !IH by (lia || nia).
    rewrite Z.lxor_comm.
    replace (h * (2 * 2 ^ Z.of_nat k)) with (2 * h * 2 ^ Z.of_nat k) by lia.
    replace ((h + 1) * (2 * 2 ^ Z.of_nat k))
      with ((2 * h + 1 + 1) * 2 ^ Z.of_nat k) by lia.
    symmetry. apply xorAll_split. nia.
Qed.

Lemma moebius_top f : moebius f 255 = xorAll f 0 256.
Proof.
  unfold moebius, for_.
  exact (moebius_block f 8 (le_n 8) 0 (Z.le_refl 0) (Z.le_refl 256)).
Qed.

Lemma lxor_bits a b :
  (a = 0 \/ a = 1) -> (b = 0 \/ b = 1) -> Z.lxor a b = (a + b) mod 2.
Proof. intros [-> | ->] [-> | ->]; reflexivity. Qed.

Lemma xorAll_bits f lo hi :
  (forall x, lo <= x < hi -> f x = 0 \/ f x = 1) ->
  xorAll f lo hi = zsum f (zrange lo hi) mod 2.
Proof.
  intros H. unfold xorAll, for_.
  assert (G : forall l acc,
             (forall x, In x l -> f x = 0 \/ f x = 1) ->
             (acc = 0 \/ acc = 1) ->
             fold_left (fun a x => Z.lxor a (f x)) l acc
             = (acc + zsum f l) mod 2).
  { induction l as [|x l IH]; intros acc Hl Ha; cbn [fold_left zsum].
    - destruct Ha as [-> | ->]; reflexivity.
    - rewrite IH.
      + rewrite lxor_bits by (assumption || (apply Hl; now left)).
        rewrite Z.add_mod_idemp_l by lia. f_equal. lia.
      + intros y Hy. apply Hl. now right.
      + rewrite lxor_bits by (assumption || (apply Hl; now left)).
        pose proof (Z.mod_pos_bound (acc + f x) 2). lia. }
  rewrite G; [reflexivity | | now left].
  intros x Hx. apply H. now apply zrange_In.
Qed.

Lemma bitOf_balanced bit :
  0 <= bit < 8 -> zsum (bitOf bit) (zrange 0 256) = 128.
Proof.
  intros Hbit. apply Z.eqb_eq. revert bit Hbit.
  apply (zrange_forallb
           (fun bit => zsum (bitOf bit) (zrange 0 256) =? 128) 0 8).
  vm_compute. reflexivity.
Qed.

(** The coefficient of the monomial of degree 8 vanishes on a permutation. *)
Lemma computeANF_top_permutation sb bit :
  permutation256 sb -> 0 <= bit < 8 ->
  get (computeANF (map (bitOf bit) sb)) 255 = 0.
Proof.
  intros Hp Hbit. pose proof (permutation256_length _ Hp) as Hl.
  destruct (computeANF_moebius (map (bitOf bit) sb)) as [_ E];
    [now rewrite length_map|].
  rewrite E, moebius_top by lia.
  rewrite xorAll_bits.
  - rewrite <- (zsum_map (fun v => v) (get (map (bitOf bit) sb))).
    rewrite map_get_zrange by (rewrite length_map; lia).
    rewrite zsum_map, (zsum_perm _ _ _ Hp), bitOf_balanced by assumption.
    reflexivity.
  - intros x Hx.
    assert (Hin : In (get (map (bitOf bit) sb) x) (map (bitOf bit) sb)).
    { apply get_In. rewrite length_map. lia. }
    apply in_map_iff in Hin. destruct Hin as (v & <- & _).
    apply bitOf_cases.
Qed.

Lemma hammingWeight_byte_le v :
  0 <= v < 256 ->
  0 <= hammingWeight v <= 8 /\ (v <> 255 -> hammingWeight v <= 7).
Proof.
  intros Hv.
  assert (G : (0 <=? hammingWeight v) && (hammingWeight v <=? 8)
              && ((v =? 255) || (hammingWeight v <=? 7)) = true).
  { revert v Hv.
    apply (byte_forallb
             (fun v => (0 <=? hammingWeight v) && (hammingWeight v <=? 8)
                       && ((v =? 255) || (hammingWeight v <=? 7)))).
    vm_compute. reflexivity. }
  apply andb_true_iff in G. destruct G as [G G3].
  apply andb_true_iff in G. destruct G as [G1 G2].
  apply Z.leb_le in G1, G2. split; [lia|].
  intros Hne. apply orb_true_iff in G3. destruct G3 as [G3|G3].
  - apply Z.eqb_eq in G3. contradiction.
  - now apply Z.leb_le.
Qed.

Lemma booleanFunctionDegree_range sb truthTable :
  0 <= calculateBooleanFunctionDegree (freshAnalyzer sb) truthTable <= 8
  /\ (get (computeANF truthTable) 255 <> 1 ->
      calculateBooleanFunctionDegree (freshAnalyzer sb) truthTable <= 7).
Proof.
  unfold calculateBooleanFunctionDegree, freshAnalyzer.
  cbn [hammingWeights]. cbn zeta. unfold for_. change size with 256.
  split; [split|].
  - apply fold_left_inflate. intros m term.
    destruct (get (computeANF truthTable) term =? 1); lia.
  - apply fold_left_below; [lia|]. intros m term Ht Hm.
    apply zrange_In in Ht.
    destruct (get (computeANF truthTable) term =? 1); [|lia].
    rewrite hammingWeights_get by exact Ht.
    pose proof (hammingWeight_byte_le term Ht). lia.
  - intros Htop. apply fold_left_below; [lia|]. intros m term Ht Hm.
    apply zrange_In in Ht.
    destruct (Z.eqb_spec (get (computeANF truthTable) term) 1) as [E|E];
      [|lia].
    rewrite hammingWeights_get by exact Ht.
    destruct (hammingWeight_byte_le term Ht) as [_ H7].
    assert (term <> 255) by (intros ->; contradiction).
    specialize (H7 ltac:(assumption)). lia.
Qed.

Lemma algebraicDegreeOf_range sb :
  0 <= algebraicDegreeOf sb <= 8
  /\ (permutation256 sb -> algebraicDegreeOf sb <= 7).
Proof.
  unfold algebraicDegreeOf, for_. split; [split|].
  - apply fold_left_inflate. intros m bit. lia.
  - apply fold_left_below; [lia|]. intros m bit _ Hm.
    pose proof (proj1 (booleanFunctionDegree_range sb (map (bitOf bit) sb))).
    lia.
  - intros Hp. apply fold_left_below; [lia|]. intros m bit Hbit Hm.
    apply zrange_In in Hbit.
    pose proof (proj2 (booleanFunctionDegree_range sb (map (bitOf bit) sb)))
      as H.
    rewrite computeANF_top_permutation in H by assumption.
    specialize (H ltac:(discriminate)). lia.
Qed.

End TopCoefficient.

(** X15. The algebraic degree reported for an array of 256 integers
    lies between 0 and 8, and for a permutation of 0..255 it is 7 at most:
    every output bit of a permutation is balanced, so the coefficient of the
    monomial of all eight input bits vanishes. *)
Theorem algebraic_degree_range (sboxArray : list Z) (this : SBoxAnalyzer) :
  constructor sboxArray = inr this ->
  0 <= fst (calculateAlgebraicDegree this) <= 8
  /\ (permutation256 sboxArray -> fst (calculateAlgebraicDegree this) <= 7)
  /\ (permutation256 sboxArray ->
      forall bit, 0 <= bit < 8 ->
        get (computeANF (fst (getBooleanFunction bit this))) 255 = 0).
Proof.
  intros Hc. apply constructor_inr in Hc. destruct Hc as [Hl Hc].
  destruct (calculateAlgebraicDegree_eq sboxArray this Hl Hc) as [-> _].
  destruct (algebraicDegreeOf_range sboxArray) as [H1 H2].
  split; [exact H1|]. split; [exact H2|].
  intros Hp bit Hbit.
  destruct (getBooleanFunction_spec sboxArray this bit Hc Hbit) as [-> _].
  rewrite truthTableOf_eq by exact Hl.
  now apply computeANF_top_permutation.
Qed.

Lemma algebraic_degree_range_witness :
  0 <= fst (calculateAlgebraicDegree (freshAnalyzer fipsSBox)) <= 8
  /\ (permutation256 fipsSBox ->
      fst (calculateAlgebraicDegree (freshAnalyzer fipsSBox)) <= 7)
  /\ (permutation256 fipsSBox ->
      forall bit, 0 <= bit < 8 ->
        get (computeANF (fst (getBooleanFunction bit (freshAnalyzer fipsSBox))))
            255 = 0).
Proof.
  apply (algebraic_degree_range fipsSBox). reflexivity.
Defined.

(** ** Avalanche *)
Section Avalanche.

Lemma xor_mask_Permutation e :
  0 <= e < 256 ->
  Permutation (map (fun x => Z.lxor x e) (zrange 0 256)) (zrange 0 256).
Proof.
  intros He. apply Permutation_sym, NoDup_Permutation_bis.
  - apply zrange_NoDup.
  - now rewrite length_map.
  - intros x Hx. apply zrange_In in Hx. apply in_map_iff.
    exists (Z.lxor x e). split.
    + now rewrite Z.lxor_assoc, Z.lxor_nilpotent, Z.lxor_0_r.
    + apply zrange_In. now apply lxor_byte.
Qed.

Lemma zsum_xor_mask (h : Z -> Z) e :
  0 <= e < 256 ->
  zsum (fun x => h (Z.lxor x e)) (zrange 0 256) = zsum h (zrange 0 256).
Proof.
  intros He. rewrite <- (zsum_map h (fun x => Z.lxor x e)).
  apply zsum_perm. now apply xor_mask_Permutation.
Qed.

(** A count over the bytes that is the same at [x] and at [x xor 2^i] is
    even. *)
Lemma zsum_paired (g : Z -> Z) i :
  0 <= i < 8 ->
  (forall x, g (Z.lxor x (Z.shiftl 1 i)) = g x) ->
  zsum g (zrange 0 256)
  = 2 * zsum (fun x => b2z (Z.testbit x i) * g x) (zrange 0 256).
Proof.
  intros Hi Hg.
  assert (He : 0 <= Z.shiftl 1 i < 256).
  { rewrite Z.shiftl_1_l. split; [apply Z.pow_nonneg; lia|].
    change 256 with (2 ^ 8). apply Z.pow_lt_mono_r; lia. }
  pose proof (zsum_xor_mask (fun x => b2z (Z.testbit x i) * g x)
                            (Z.shiftl 1 i) He) as E.
  cbn beta in E.
  rewrite (zsum_ext_in _ (fun x => g x + (-1) * (b2z (Z.testbit x i) * g x)))
    in E.
  - rewrite zsum_add, zsum_scale in E. lia.
  - intros x _. rewrite Hg, testbit_flip, Z.eqb_refl by lia.
    destruct (Z.testbit x i); cbn [xorb b2z]; lia.
Qed.

Lemma flipCount_eq sb inputBit outputBit :
  flipCount sb inputBit outputBit
  = zsum (fun x =>
            b2z (negb (Z.land (Z.shiftr (get sb x) outputBit) 1
                       =? Z.land (Z.shiftr
                                    (get sb (Z.lxor x (Z.shiftl 1 inputBit)))
                                    outputBit) 1)))
         (zrange 0 256).
Proof.
  unfold flipCount. change size with 256. cbn zeta.
  now rewrite for_count_zsum.
Qed.

Lemma flipCount_even sb inputBit outputBit :
  0 <= inputBit < 8 ->
  exists k, 0 <= k <= 128 /\ flipCount sb inputBit outputBit = 2 * k.
Proof.
  intros Hi. rewrite flipCount_eq.
  pose proof (zsum_b2z_le
                (fun x =>
                   negb (Z.land (Z.shiftr (get sb x) outputBit) 1
                         =? Z.land (Z.shiftr
                                      (get sb (Z.lxor x (Z.shiftl 1 inputBit)))
                                      outputBit) 1))
                (zrange 0 256)) as Hle.
  rewrite zrange_length in Hle.
  change (Z.of_nat (Z.to_nat (256 - 0))) with 256 in Hle.
  rewrite zsum_paired with (i := inputBit) in Hle |- *; [|exact Hi| |exact Hi|].
  - eexists. split; [|reflexivity]. split; [|lia].
    apply zsum_nonneg. intros x _.
    destruct (Z.testbit x inputBit); destruct (negb _); cbn [b2z]; lia.
  - intros x.
    rewrite Z.lxor_assoc, Z.lxor_nilpotent, Z.lxor_0_r.
    now rewrite Z.eqb_sym.
  - intros x.
    rewrite Z.lxor_assoc, Z.lxor_nilpotent, Z.lxor_0_r.
    now rewrite Z.eqb_sym.
Qed.

Lemma deviation_range (f : Z) :
  0 <= f <= 256 ->
  (0 <= Qabs (inject_Z f / inject_Z 256 - (1 # 2)) <= 1 # 2)%Q.
Proof.
  intros Hf. split; [apply Qabs_nonneg|].
  apply Qabs_Qle_condition.
  unfold Qle, Qminus, Qplus, Qopp, Qdiv, Qmult, Qinv, inject_Z.
  cbn. lia.
Qed.

Lemma fold_Qplus_range {A} (g : A -> Q) (c : Q) l :
  (forall x, In x l -> (0 <= g x <= c)%Q) ->
  forall s0 k,
    (0 <= s0 <= inject_Z k * c)%Q ->
    (0 <= fold_left (fun s x => s + g x) l s0
     <= inject_Z (k + Z.of_nat (length l)) * c)%Q.
Proof.
  induction l as [|x l IH]; intros Hg s0 k Hs; cbn [fold_left length].
  - now rewrite Z.add_0_r.
  - replace (k + Z.of_nat (S (length l)))
      with ((k + 1) + Z.of_nat (length l)) by lia.
    apply IH; [intros y Hy; apply Hg; now right|].
    destruct (Hg x (or_introl eq_refl)) as [G0 G1]. destruct Hs as [S0 S1].
    split.
    + rewrite <- (Qplus_0_r 0). now apply Qplus_le_compat.
    + rewrite inject_Z_plus, Qmult_plus_distr_l.
      apply Qplus_le_compat; [exact S1|].
      now rewrite Qmult_1_l.
Qed.

Lemma nested_Qplus_range (g : Z -> Z -> Q) (c : Q) l1 l2 :
  (forall i j, In i l1 -> In j l2 -> (0 <= g i j <= c)%Q) ->
  forall s0 k,
    (0 <= s0 <= inject_Z k * c)%Q ->
    (0 <= fold_left (fun s i => fold_left (fun s j => s + g i j) l2 s) l1 s0
     <= inject_Z (k + Z.of_nat (length l1 * length l2)) * c)%Q.
Proof.
  induction l1 as [|i l1 IH]; intros Hg s0 k Hs; cbn [fold_left length Nat.mul].
  - now rewrite Z.add_0_r.
  - replace (k + Z.of_nat (length l2 + length l1 * length l2))
      with ((k + Z.of_nat (length l2)) + Z.of_nat (length l1 * length l2))
      by lia.
    apply IH; [intros i' j Hi' Hj; apply Hg; [now right | exact Hj]|].
    apply fold_Qplus_range; [|exact Hs].
    intros j Hj. apply Hg; [now left | exact Hj].
Qed.

Lemma maxQ_cases a b : maxQ a b = a \/ maxQ a b = b.
Proof. unfold maxQ. destruct (Qle_bool a b); auto. Qed.

Lemma max_ofQ_range xs :
  (forall x, In x xs -> (0 <= x <= 1 # 2)%Q) ->
  (0 <= max_ofQ xs <= 1 # 2)%Q.
Proof.
  intros H. unfold max_ofQ.
  apply (fold_left_invariant (fun m => (0 <= m <= 1 # 2)%Q)).
  - destruct xs as [|x xs]; cbn [hd].
    + split; [apply Qle_refl | discriminate].
    + apply H. now left.
  - intros m x Hx Hm. destruct (maxQ_cases m x) as [-> | ->];
      [exact Hm | now apply H].
Qed.

Lemma get2Q_map_zrange (f : Z -> Z -> Q) n m i j :
  0 <= i < n -> 0 <= j < m ->
  get2Q (map (fun a => map (f a) (zrange 0 m)) (zrange 0 n)) i j = f i j.
Proof.
  intros Hi Hj. unfold get2Q, getQ.
  rewrite nth_map_zrange by lia. rewrite nth_map_zrange by lia.
  f_equal; lia.
Qed.

Lemma sacMatrix_eq this :
  sac_matrix (calculateSAC this)
  = map (fun i =>
           map (fun j => (inject_Z (flipCount (sbox this) i j)
                          / inject_Z 256)%Q) (zrange 0 8))
        (zrange 0 8).
Proof.
  unfold calculateSAC. cbn [sac_matrix]. change n with 8.
  change size with 256.
  apply (for_set2_map
           (fun i j => (inject_Z (flipCount (sbox this) i j)
                        / inject_Z 256)%Q) 0%Q 8 8); lia.
Qed.

End Avalanche.

(** X16. For an array of 256 integers [calculateSAC] returns an 8 x 8
    matrix whose entry for input bit [i] and output bit [j] is an even count
    between 0 and 256 divided by 256, a score between 0 and 1/2 and a largest
    deviation between 0 and 1/2. *)
Theorem sac_matrix_and_score_range
        (sboxArray : list Z) (this : SBoxAnalyzer) :
  constructor sboxArray = inr this ->
  length (sac_matrix (calculateSAC this)) = 8%nat
  /\ (forall row, In row (sac_matrix (calculateSAC this)) ->
                  length row = 8%nat)
  /\ (forall i j, 0 <= i < 8 -> 0 <= j < 8 ->
        exists k, 0 <= k <= 128
                  /\ get2Q (sac_matrix (calculateSAC this)) i j
                     = (inject_Z (2 * k) / inject_Z 256)%Q)
  /\ (0 <= sac_score (calculateSAC this) <= 1 # 2)%Q
  /\ (0 <= sac_maxDeviation (calculateSAC this) <= 1 # 2)%Q.
Proof.
  intros _.
  assert (Hentry : forall i j, 0 <= i < 8 -> 0 <= j < 8 ->
            (0 <= Qabs (get2Q (sac_matrix (calculateSAC this)) i j - (1 # 2))
             <= 1 # 2)%Q).
  { intros i j Hi Hj. rewrite sacMatrix_eq, get2Q_map_zrange by assumption.
    destruct (flipCount_even (sbox this) i j Hi) as (k & Hk & ->).
    apply deviation_range. lia. }
  split; [now rewrite sacMatrix_eq, length_map, zrange_length|]. split.
  { intros row Hrow. rewrite sacMatrix_eq in Hrow.
    apply in_map_iff in Hrow. destruct Hrow as (i & <- & _).
    now rewrite length_map, zrange_length. }
  split.
  { intros i j Hi Hj. rewrite sacMatrix_eq, get2Q_map_zrange by assumption.
    destruct (flipCount_even (sbox this) i j Hi) as (k & Hk & ->).
    now exists k. }
  split.
  - change (sac_score (calculateSAC this))
      with ((for_ 0 8
               (fun i sacScore =>
                  for_ 0 8
                       (fun j sacScore =>
                          (sacScore
                           + Qabs (get2Q (sac_matrix (calculateSAC this)) i j
                                   - (1 # 2)))%Q)
                       sacScore) 0%Q / inject_Z 64)%Q).
    unfold for_.
    pose proof (nested_Qplus_range
                  (fun i j => Qabs (get2Q (sac_matrix (calculateSAC this)) i j
                                    - (1 # 2)))
                  (1 # 2) (zrange 0 8) (zrange 0 8)) as G.
    destruct (G (fun i j Hi Hj => Hentry i j (proj1 (zrange_In 0 8 i) Hi)
                                         (proj1 (zrange_In 0 8 j) Hj))
                0%Q 0) as [G0 G1].
    { split; [apply Qle_refl|]. discriminate. }
    split.
    + apply Qle_shift_div_l; [reflexivity|]. now rewrite Qmult_0_l.
    + apply Qle_shift_div_r; [reflexivity|]. exact G1.
  - change (sac_maxDeviation (calculateSAC this))
      with (max_ofQ (map (fun x => Qabs (x - (1 # 2))%Q)
                         (concat (sac_matrix (calculateSAC this))))).
    apply max_ofQ_range. intros x Hx. apply in_map_iff in Hx.
    destruct Hx as (y & <- & Hy). apply in_concat in Hy.
    destruct Hy as (row & Hrow & Hy). rewrite sacMatrix_eq in Hrow.
    apply in_map_iff in Hrow. destruct Hrow as (i & <- & Hi).
    apply in_map_iff in Hy. destruct Hy as (j & <- & Hj).
    apply zrange_In in Hi, Hj.
    destruct (flipCount_even (sbox this) i j Hi) as (k & Hk & ->).
    apply deviation_range. lia.
Qed.

Lemma sac_matrix_and_score_range_witness :
  length (sac_matrix (calculateSAC (freshAnalyzer duplicateSBox))) = 8%nat
  /\ (forall row,
        In row (sac_matrix (calculateSAC (freshAnalyzer duplicateSBox))) ->
        length row = 8%nat)
  /\ (forall i j, 0 <= i < 8 -> 0 <= j < 8 ->
        exists k, 0 <= k <= 128
                  /\ get2Q (sac_matrix
                              (calculateSAC (freshAnalyzer duplicateSBox))) i j
                     = (inject_Z (2 * k) / inject_Z 256)%Q)
  /\ (0 <= sac_score (calculateSAC (freshAnalyzer duplicateSBox)) <= 1 # 2)%Q
  /\ (0 <= sac_maxDeviation (calculateSAC (freshAnalyzer duplicateSBox))
      <= 1 # 2)%Q.
Proof.
  apply (sac_matrix_and_score_range duplicateSBox). reflexivity.
Defined.

(** ** Transparency order *)
Section Transparency.

Lemma index_class_size i j a :
  0 <= i < 8 -> 0 <= j < 8 -> i < j -> 0 <= a < 4 ->
  zsum (fun x =>
          b2z (Z.lor (Z.shiftl (Z.land (Z.shiftr x i) 1) 1)
                     (Z.land (Z.shiftr x j) 1) =? a))
       (zrange 0 256) = 64.
Proof.
  intros Hi Hj Hij Ha.
  assert (G : negb (i <? j)
              || (zsum (fun x =>
                          b2z (Z.lor (Z.shiftl (Z.land (Z.shiftr x i) 1) 1)
                                     (Z.land (Z.shiftr x j) 1) =? a))
                       (zrange 0 256) =? 64) = true).
  { revert a Ha.
    apply (zrange_forallb
             (fun a =>
                negb (i <? j)
                || (zsum (fun x =>
                            b2z (Z.lor (Z.shiftl (Z.land (Z.shiftr x i) 1) 1)
                                       (Z.land (Z.shiftr x j) 1) =? a))
                         (zrange 0 256) =? 64)) 0 4).
    revert j Hj Hij. intros j Hj _. revert j Hj.
    apply (zrange_forallb
             (fun j =>
                forallb
                  (fun a =>
                     negb (i <? j)
                     || (zsum (fun x =>
                                 b2z (Z.lor
                                        (Z.shiftl (Z.land (Z.shiftr x i) 1) 1)
                                        (Z.land (Z.shiftr x j) 1) =? a))
                              (zrange 0 256) =? 64))
                  (zrange 0 4)) 0 8).
    revert i Hi.
    apply (zrange_forallb
             (fun i =>
                forallb
                  (fun j =>
                     forallb
                       (fun a =>
                          negb (i <? j)
                          || (zsum (fun x =>
                                      b2z (Z.lor
                                             (Z.shiftl
                                                (Z.land (Z.shiftr x i) 1) 1)
                                             (Z.land (Z.shiftr x j) 1) =? a))
                                   (zrange 0 256) =? 64))
                       (zrange 0 4))
                  (zrange 0 8)) 0 8).
    vm_compute. reflexivity. }
  replace (i <? j) with true in G by (symmetry; apply Z.ltb_lt; lia).
  cbn [negb orb] in G. now apply Z.eqb_eq.
Qed.

Lemma zsum_le_pointwise {A} (f g : A -> Z) l :
  (forall x, In x l -> f x <= g x) -> zsum f l <= zsum g l.
Proof.
  induction l as [|x l IH]; intros H; cbn [zsum]; [lia|].
  assert (f x <= g x) by (apply H; now left).
  assert (zsum f l <= zsum g l) by (apply IH; intros y Hy; apply H; now right).
  lia.
Qed.

Lemma cell_range (observed : Z) :
  0 <= observed <= 64 ->
  (0 <= (inject_Z observed - inject_Z 256 / 8) ^ 2 / (inject_Z 256 / 8)
   <= 32)%Q.
Proof.
  intros Ho.
  unfold Qle, Qminus, Qplus, Qopp, Qdiv, Qmult, Qinv, inject_Z, Qpower,
    Qpower_positive.
  cbn. set (t := observed * 8 + -256).
  assert (H0 : 0 <= t * t) by apply Z.square_nonneg.
  assert (H1 : 0 <= (256 - t) * (256 + t))
    by (apply Z.mul_nonneg_nonneg; subst t; lia).
  lia.
Qed.

Lemma chiSquaredForMask_range this i j outputMask :
  0 <= i < 8 -> 0 <= j < 8 -> i < j ->
  (0 <= chiSquaredForMask this i j outputMask <= 256)%Q.
Proof.
  intros Hi Hj Hij. unfold chiSquaredForMask. cbn zeta.
  change size with 256.
  set (table :=
         for_ 0 256
              (fun x contingencyTable =>
                 incr2 contingencyTable
                       (Z.lor (Z.shiftl (Z.land (Z.shiftr x i) 1) 1)
                              (Z.land (Z.shiftr x j) 1))
                       (Z.land
                          (get (hammingWeights this)
                               (Z.land (get (sbox this) x) outputMask)) 1))
              (fill 4 (fill 256 0))).
  assert (Hobs : forall a b, 0 <= a < 4 -> 0 <= b < 2 ->
                             0 <= get2 table a b <= 64).
  { intros a b Ha Hb. subst table. unfold for_.
    destruct (fold_incr2
                4 256
                (fun x => Z.lor (Z.shiftl (Z.land (Z.shiftr x i) 1) 1)
                                (Z.land (Z.shiftr x j) 1))
                (fun x => Z.land
                            (get (hammingWeights this)
                                 (Z.land (get (sbox this) x) outputMask)) 1)
                (zrange 0 256) (fill 4 (fill 256 0)) a b) as [_ E].
    - apply (shape_fill 4 256); lia.
    - lia.
    - lia.
    - rewrite E, get2_fill, Z.add_0_l. split.
      + apply zsum_nonneg. intros x _.
        match goal with
        | |- 0 <= b2z ?c => destruct c; cbn [b2z]; lia
        end.
      + rewrite <- (index_class_size i j a) by assumption.
        apply zsum_le_pointwise. intros x _.
        destruct (_ =? a); cbn [andb b2z]; [|lia].
        destruct (_ =? b); cbn [b2z]; lia. }
  change (Qle_bool (inject_Z 256 / 8) 0) with false. cbn iota.
  unfold for_.
  pose proof (nested_Qplus_range
                (fun a b => ((inject_Z (get2 table a b) - inject_Z 256 / 8) ^ 2
                             / (inject_Z 256 / 8))%Q)
                32 (zrange 0 4) (zrange 0 2)) as G.
  destruct (G (fun a b Ha Hb =>
                 cell_range _ (Hobs a b (proj1 (zrange_In 0 4 a) Ha)
                                    (proj1 (zrange_In 0 2 b) Hb)))
              0%Q 0) as [G0 G1].
  { split; [apply Qle_refl | discriminate]. }
  split; [exact G0 | exact G1].
Qed.

End Transparency.

(** X17. The transparency order, whose square
    [calculateTransparencyOrderSquared] is, lies between 0 and 16 for every
    array of 256 integers: each of the four classes of a pair of input bits
    holds 64 inputs, so that no cell of the contingency table is further
    than 32 from its expected value 32, and the chi-squared statistic is 256
    at most. *)
Theorem transparency_order_range (sboxArray : list Z) (this : SBoxAnalyzer) :
  constructor sboxArray = inr this ->
  (0 <= calculateTransparencyOrderSquared this <= 16 * 16)%Q
  /\ forall i j outputMask,
       0 <= i < 8 -> 0 <= j < 8 -> i < j ->
       (0 <= chiSquaredForMask this i j outputMask <= 16 * 16)%Q.
Proof.
  intros _.
  assert (E : (16 * 16 == 256)%Q) by reflexivity.
  split.
  - rewrite E. unfold calculateTransparencyOrderSquared, for_.
    change n with 8. change size with 256.
    apply (fold_left_invariant (fun m => (0 <= m <= 256)%Q)).
    { split; [apply Qle_refl | discriminate]. }
    intros m i Hi Hm. apply zrange_In in Hi.
    apply (fold_left_invariant (fun m => (0 <= m <= 256)%Q)); [exact Hm|].
    intros m' j Hj Hm'. apply zrange_In in Hj.
    apply (fold_left_invariant (fun m => (0 <= m <= 256)%Q)); [exact Hm'|].
    intros m'' mask _ Hm''.
    destruct (maxQ_cases m'' (chiSquaredForMask this i j mask)) as [-> | ->];
      [exact Hm''|].
    apply chiSquaredForMask_range; lia.
  - intros i j outputMask Hi Hj Hij. rewrite E.
    now apply chiSquaredForMask_range.
Qed.

Lemma transparency_order_range_witness :
  (0 <= calculateTransparencyOrderSquared (freshAnalyzer duplicateSBox)
   <= 16 * 16)%Q
  /\ forall i j outputMask,
       0 <= i < 8 -> 0 <= j < 8 -> i < j ->
       (0 <= chiSquaredForMask (freshAnalyzer duplicateSBox) i j outputMask
        <= 16 * 16)%Q.
Proof.
  apply (transparency_order_range duplicateSBox). reflexivity.
Defined.

(** ** Bit independence *)
Section BitIndependence.

Lemma for_append {A} (f : Z -> A) lo hi (c0 : list A) :
  for_ lo hi (fun i c => c ++ [f i]) c0 = c0 ++ map f (zrange lo hi).
Proof.
  unfold for_. generalize (zrange lo hi) as l. intros l. revert c0.
  induction l as [|i l IH]; intros c0; cbn [fold_left map].
  - now rewrite app_nil_r.
  - rewrite IH, <- app_assoc. reflexivity.
Qed.

Lemma for_append_nested {A} (f : Z -> Z -> A) (lo' : Z -> Z) lo hi hi'
      (c0 : list A) :
  for_ lo hi (fun i c => for_ (lo' i) hi' (fun j c => c ++ [f i j]) c) c0
  = c0 ++ concat (map (fun i => map (f i) (zrange (lo' i) hi'))
                      (zrange lo hi)).
Proof.
  unfold for_ at 1. generalize (zrange lo hi) as l. intros l. revert c0.
  induction l as [|i l IH]; intros c0; cbn [fold_left map concat].
  - now rewrite app_nil_r.
  - rewrite IH, for_append, <- app_assoc. reflexivity.
Qed.

Lemma pairs_count {A} (f : Z -> Z -> A) :
  length (concat (map (fun i => map (f i) (zrange (i + 1) 8)) (zrange 0 8)))
  = 28%nat.
Proof.
  rewrite length_concat, map_map.
  rewrite (map_ext _ (fun i => Z.to_nat (8 - (i + 1))))
    by (intros i; now rewrite length_map, zrange_length).
  reflexivity.
Qed.

Lemma pairs_In {A} (f : Z -> Z -> A) v :
  In v (concat (map (fun i => map (f i) (zrange (i + 1) 8)) (zrange 0 8))) ->
  exists bit1 bit2, 0 <= bit1 /\ bit1 < bit2 < 8 /\ v = f bit1 bit2.
Proof.
  intros H. apply in_concat in H. destruct H as (row & Hrow & Hv).
  apply in_map_iff in Hrow. destruct Hrow as (i & <- & Hi).
  apply in_map_iff in Hv. destruct Hv as (j & <- & Hj).
  apply zrange_In in Hi, Hj. exists i, j. repeat split; lia.
Qed.

(** The correlations of [calculateBIC_SAC], pair by pair. *)
Lemma bicSAC_correlations this :
  bicsac_correlations (calculateBIC_SAC this)
  = concat
      (map (fun bit1 =>
              map (fun bit2 =>
                     Qabs (inject_Z (bitCorrelationOf (sbox this) bit1 bit2)
                           / inject_Z 256))
                  (zrange (bit1 + 1) 8))
           (zrange 0 8)).
Proof.
  unfold calculateBIC_SAC. cbn [bicsac_correlations]. change n with 8.
  change size with 256. cbn zeta.
  rewrite (for_ext 0 8 _
             (fun bit1 c =>
                for_ (bit1 + 1) 8
                     (fun bit2 c =>
                        c ++ [Qabs (inject_Z
                                      (bitCorrelationOf (sbox this) bit1 bit2)
                                    / inject_Z 256)]) c)).
  - now rewrite for_append_nested.
  - intros bit1 c _. apply for_ext. intros bit2 c' _.
    unfold bitCorrelationOf, bitOf.
    now rewrite for_add_zsum, Z.add_0_l.
Qed.

Lemma correlation_range (s : Z) :
  -256 <= s <= 256 ->
  (0 <= Qabs (inject_Z s / inject_Z 256) <= 1)%Q.
Proof.
  intros Hs. split; [apply Qabs_nonneg|].
  apply Qabs_Qle_condition.
  unfold Qle, Qopp, Qdiv, Qmult, Qinv, inject_Z. cbn. lia.
Qed.

Lemma bit_product_sum sb bit1 bit2 :
  length sb = 256%nat -> -256 <= bitCorrelationOf sb bit1 bit2 <= 256.
Proof.
  intros Hl. unfold bitCorrelationOf.
  destruct (zsum_signs
              (fun x => (2 * bitOf bit1 (get sb x) - 1)
                        * (2 * bitOf bit2 (get sb x) - 1))
              (zrange 0 256)) as (k & Hk & E).
  - intros x _.
    destruct (bitOf_cases bit1 (get sb x)) as [-> | ->];
      destruct (bitOf_cases bit2 (get sb x)) as [-> | ->]; cbn; auto.
  - rewrite zrange_length in *.
    change (Z.of_nat (Z.to_nat (256 - 0))) with 256 in *. lia.
Qed.

Lemma bit_product_balanced bit1 bit2 :
  0 <= bit1 -> bit1 < bit2 < 8 ->
  zsum (fun y => (2 * bitOf bit1 y - 1) * (2 * bitOf bit2 y - 1))
       (zrange 0 256) = 0.
Proof.
  intros H1 H2.
  assert (H1' : 0 <= bit1 < 8) by lia.
  assert (H2' : 0 <= bit2 < 8) by lia.
  assert (G : negb (bit1 <? bit2)
              || (zsum (fun y => (2 * bitOf bit1 y - 1) * (2 * bitOf bit2 y - 1))
                       (zrange 0 256) =? 0) = true).
  { clear H1 H2. revert bit2 H2'.
    apply (zrange_forallb
             (fun bit2 =>
                negb (bit1 <? bit2)
                || (zsum (fun y => (2 * bitOf bit1 y - 1)
                                   * (2 * bitOf bit2 y - 1))
                         (zrange 0 256) =? 0)) 0 8).
    revert bit1 H1'.
    apply (zrange_forallb
             (fun bit1 =>
                forallb
                  (fun bit2 =>
                     negb (bit1 <? bit2)
                     || (zsum (fun y => (2 * bitOf bit1 y - 1)
                                        * (2 * bitOf bit2 y - 1))
                              (zrange 0 256) =? 0))
                  (zrange 0 8)) 0 8).
    vm_compute. reflexivity. }
  replace (bit1 <? bit2) with true in G by (symmetry; apply Z.ltb_lt; lia).
  cbn [negb orb] in G. now apply Z.eqb_eq.
Qed.

Lemma bit_product_permutation sb bit1 bit2 :
  permutation256 sb -> 0 <= bit1 -> bit1 < bit2 < 8 ->
  bitCorrelationOf sb bit1 bit2 = 0.
Proof.
  intros Hp H1 H2. pose proof (permutation256_length _ Hp) as Hl.
  unfold bitCorrelationOf.
  rewrite <- (zsum_map (fun y => (2 * bitOf bit1 y - 1) * (2 * bitOf bit2 y - 1))
                       (get sb)).
  rewrite map_get_zrange by lia.
  rewrite (zsum_perm _ _ _ Hp). now apply bit_product_balanced.
Qed.

Lemma max_ofQ_constant (z : Q) xs :
  xs <> [] -> (forall x, In x xs -> x = z) -> max_ofQ xs = z.
Proof.
  intros Hne H. unfold max_ofQ.
  apply (fold_left_invariant (fun m => m = z)).
  - destruct xs as [|x xs]; [contradiction|]. cbn [hd]. apply H. now left.
  - intros m x Hx ->. rewrite (H x Hx). now destruct (maxQ_cases z z).
Qed.

Lemma sumQ_zero xs : (forall x, In x xs -> (x == 0)%Q) -> (sumQ xs == 0)%Q.
Proof.
  intros H. unfold sumQ.
  apply (fold_left_invariant (fun s => (s == 0)%Q)); [reflexivity|].
  intros s x Hx Hs. rewrite Hs, (H x Hx). reflexivity.
Qed.

End BitIndependence.

(** X18. [calculateBIC_SAC] examines the 28 pairs of distinct output
    bits and reports for each a correlation between 0 and 1; on a
    permutation of 0..255 all 28 correlations, their maximum and their
    average are 0: over all 256 outputs two distinct bits agree exactly as
    often as they differ. *)
Theorem bic_sac_vanishes_on_permutations
        (sboxArray : list Z) (this : SBoxAnalyzer) :
  constructor sboxArray = inr this ->
  length (bicsac_correlations (calculateBIC_SAC this)) = 28%nat
  /\ (forall c, In c (bicsac_correlations (calculateBIC_SAC this)) ->
                (0 <= c <= 1)%Q)
  /\ (permutation256 sboxArray ->
      (forall c, In c (bicsac_correlations (calculateBIC_SAC this)) ->
                 (c == 0)%Q)
      /\ (bicsac_maxCorrelation (calculateBIC_SAC this) == 0)%Q
      /\ (bicsac_averageCorrelation (calculateBIC_SAC this) == 0)%Q).
Proof.
  intros Hc. apply constructor_inr in Hc. destruct Hc as [Hl Hc].
  pose proof (coherent_sbox _ _ Hc) as Hs.
  split; [rewrite bicSAC_correlations; apply pairs_count|]. split.
  - intros c Hin. rewrite bicSAC_correlations in Hin.
    apply pairs_In in Hin. destruct Hin as (bit1 & bit2 & _ & _ & ->).
    apply correlation_range, bit_product_sum. now rewrite Hs.
  - intros Hp.
    assert (Hall : forall c,
               In c (bicsac_correlations (calculateBIC_SAC this)) ->
               c = Qabs (inject_Z 0 / inject_Z 256)).
    { intros c Hin. rewrite bicSAC_correlations in Hin.
      apply pairs_In in Hin. destruct Hin as (bit1 & bit2 & H1 & H2 & ->).
      rewrite Hs, bit_product_permutation by assumption. reflexivity. }
    split; [intros c Hin; now rewrite (Hall c Hin)|]. split.
    + change (bicsac_maxCorrelation (calculateBIC_SAC this))
        with (max_ofQ (bicsac_correlations (calculateBIC_SAC this))).
      rewrite (max_ofQ_constant (Qabs (inject_Z 0 / inject_Z 256)));
        [reflexivity | | exact Hall].
      intros E. apply (f_equal (@length Q)) in E.
      rewrite bicSAC_correlations, pairs_count in E. discriminate.
    + change (bicsac_averageCorrelation (calculateBIC_SAC this))
        with (sumQ (bicsac_correlations (calculateBIC_SAC this))
              / inject_Z (Z.of_nat
                            (length (bicsac_correlations
                                       (calculateBIC_SAC this)))))%Q.
      rewrite sumQ_zero; [reflexivity|].
      intros c Hin. now rewrite (Hall c Hin).
Qed.

Lemma bic_sac_vanishes_on_permutations_witness :
  length (bicsac_correlations (calculateBIC_SAC (freshAnalyzer fipsSBox)))
  = 28%nat
  /\ (forall c,
        In c (bicsac_correlations (calculateBIC_SAC (freshAnalyzer fipsSBox))) ->
        (0 <= c <= 1)%Q)
  /\ (permutation256 fipsSBox ->
      (forall c,
         In c (bicsac_correlations
                 (calculateBIC_SAC (freshAnalyzer fipsSBox))) ->
         (c == 0)%Q)
      /\ (bicsac_maxCorrelation (calculateBIC_SAC (freshAnalyzer fipsSBox))
          == 0)%Q
      /\ (bicsac_averageCorrelation (calculateBIC_SAC (freshAnalyzer fipsSBox))
          == 0)%Q).
Proof.
  apply (bic_sac_vanishes_on_permutations fipsSBox). reflexivity.
Defined.

Section BitIndependenceNonlinearity.

Lemma get_map_bitOf sb bit x :
  0 <= x < Z.of_nat (length sb) ->
  get (map (bitOf bit) sb) x = bitOf bit (get sb x).
Proof.
  intros Hx. unfold get.
  rewrite nth_indep with (d' := bitOf bit 0) by (rewrite length_map; lia).
  apply map_nth.
Qed.

(** The list threaded through the two loops of [calculateBIC_NL]. *)
Lemma calculateBIC_NL_loops sb this :
  length sb = 256%nat -> coherent sb this ->
  fst (for_ 0 n
            (fun bit1 st =>
               for_ (bit1 + 1) n
                    (fun bit2 '(correlations, this) =>
                       let '(f1, this) := getBooleanFunction bit1 this in
                       let '(f2, this) := getBooleanFunction bit2 this in
                       let combined :=
                         for_ 0 size
                              (fun x combined =>
                                 set combined x (Z.lxor (get f1 x) (get f2 x)))
                              (fill size 0) in
                       let walsh := walshHadamardTransform this combined in
                       let maxWalsh := maxAbsWalsh walsh in
                       let nonlinearity :=
                         Z.shiftl 1 (n - 1) - maxWalsh / 2 in
                       (correlations ++ [nonlinearity], this))
                    st)
            ([], this))
  = bicCorrelationsOf sb
  /\ coherent sb
       (snd (for_ 0 n
                  (fun bit1 st =>
                     for_ (bit1 + 1) n
                          (fun bit2 '(correlations, this) =>
                             let '(f1, this) := getBooleanFunction bit1 this in
                             let '(f2, this) := getBooleanFunction bit2 this in
                             let combined :=
                               for_ 0 size
                                    (fun x combined =>
                                       set combined x
                                           (Z.lxor (get f1 x) (get f2 x)))
                                    (fill size 0) in
                             let walsh :=
                               walshHadamardTransform this combined in
                             let maxWalsh := maxAbsWalsh walsh in
                             let nonlinearity :=
                               Z.shiftl 1 (n - 1) - maxWalsh / 2 in
                             (correlations ++ [nonlinearity], this))
                          st)
                  ([], this))).
Proof.
  intros Hl Hc. unfold bicCorrelationsOf. change n with 8.
  change size with 256. change (Z.shiftl 1 (8 - 1)) with 128.
  apply (for_thread
           sb _
           (fun bit1 correlations =>
              for_ (bit1 + 1) 8
                   (fun bit2 correlations =>
                      correlations ++ [bicPairOf sb bit1 bit2])
                   correlations));
    [|exact Hc].
  intros bit1 correlations this1 Hbit1 Hc1.
  apply (for_thread
           sb _
           (fun bit2 correlations =>
              correlations ++ [bicPairOf sb bit1 bit2]));
    [|exact Hc1].
  intros bit2 correlations' this2 Hbit2 Hc2.
  destruct (getBooleanFunction_spec sb this2 bit1 Hc2 Hbit1) as [E1 C1].
  destruct (getBooleanFunction bit1 this2) as [f1 this3].
  cbn [fst snd] in E1, C1.
  destruct (getBooleanFunction_spec sb this3 bit2 C1 ltac:(lia)) as [E2 C2].
  destruct (getBooleanFunction bit2 this3) as [f2 this4].
  cbn [fst snd] in E2, C2 |- *. split; [|exact C2].
  f_equal. f_equal. unfold bicPairOf. f_equal. f_equal.
  rewrite maxAbsWalsh_eq. f_equal. f_equal.
  rewrite for_set_map by reflexivity.
  rewrite walshHadamardTransform_eq;
    [ | now apply coherent_hw with sb
      | now rewrite length_map, zrange_length ].
  f_equal. apply map_ext_in. intros x Hx. apply zrange_In in Hx.
  subst f1 f2. rewrite !truthTableOf_eq by exact Hl.
  rewrite !get_map_bitOf by lia. reflexivity.
Qed.

Lemma calculateBIC_NL_eq sb this :
  length sb = 256%nat -> coherent sb this ->
  fst (calculateBIC_NL this)
  = {| bicnl_minNonlinearity :=
         fold_left min_num (bicCorrelationsOf sb) Infinity;
       bicnl_averageNonlinearity :=
         (inject_Z (sumZ (bicCorrelationsOf sb))
          / inject_Z (Z.of_nat (length (bicCorrelationsOf sb))))%Q;
       bicnl_correlations := bicCorrelationsOf sb |}
  /\ coherent sb (snd (calculateBIC_NL this)).
Proof.
  intros Hl Hc. unfold calculateBIC_NL.
  destruct (calculateBIC_NL_loops sb this Hl Hc) as [E1 E2].
  match type of E1 with
  | fst ?loops = _ => destruct loops as [correlations this']
  end.
  cbn [fst snd] in E1, E2 |- *. subst correlations. now split.
Qed.

Lemma bicPairOf_range sb bit1 bit2 : 0 <= bicPairOf sb bit1 bit2 <= 128.
Proof.
  unfold bicPairOf.
  set (table := map (fun x => Z.lxor (bitOf bit1 (get sb x))
                                     (bitOf bit2 (get sb x)))
                    (zrange 0 256)).
  assert (Hw : forall w, Z.abs (walshAt table w) <= 256).
  { intros w.
    destruct (walshAt_signs table w) as (k & Hk & ->).
    - subst table. now rewrite length_map, zrange_length.
    - intros t Ht. subst table. apply in_map_iff in Ht.
      destruct Ht as (x & <- & _).
      destruct (bitOf_cases bit1 (get sb x)) as [-> | ->];
        destruct (bitOf_cases bit2 (get sb x)) as [-> | ->]; cbn; auto.
    - lia. }
  assert (H : maxAbs (tl (walshOf table)) <= 256).
  { apply maxAbs_le; [lia|]. rewrite walshOf_tl. intros v Hv.
    apply in_map_iff in Hv. destruct Hv as (w & <- & _). apply Hw. }
  pose proof (maxAbs_nonneg (tl (walshOf table))) as H0.
  assert (maxAbs (tl (walshOf table)) / 2 <= 128)
    by (apply Z.div_le_upper_bound; lia).
  assert (0 <= maxAbs (tl (walshOf table)) / 2)
    by (apply Z.div_pos; lia).
  lia.
Qed.

Lemma bicCorrelationsOf_pairs sb :
  bicCorrelationsOf sb
  = concat (map (fun bit1 => map (bicPairOf sb bit1) (zrange (bit1 + 1) 8))
                (zrange 0 8)).
Proof.
  unfold bicCorrelationsOf.
  now rewrite (for_append_nested (bicPairOf sb) (fun i => i + 1) 0 8 8 []).
Qed.

End BitIndependenceNonlinearity.

(** X19. [calculateBIC_NL] examines the 28 pairs of distinct output
    bits; each of the 28 nonlinearities lies between 0 and 128, and the
    reported minimum is one of them, never [Infinity], and is below or equal
    to every one of them. *)
Theorem bic_nl_pairs (sboxArray : list Z) (this : SBoxAnalyzer) :
  constructor sboxArray = inr this ->
  length (bicnl_correlations (fst (calculateBIC_NL this))) = 28%nat
  /\ (forall c, In c (bicnl_correlations (fst (calculateBIC_NL this))) ->
                0 <= c <= 128)
  /\ exists m,
       bicnl_minNonlinearity (fst (calculateBIC_NL this)) = Fin m
       /\ In m (bicnl_correlations (fst (calculateBIC_NL this)))
       /\ forall c, In c (bicnl_correlations (fst (calculateBIC_NL this))) ->
                    m <= c.
Proof.
  intros Hc. apply constructor_inr in Hc. destruct Hc as [Hl Hc].
  destruct (calculateBIC_NL_eq sboxArray this Hl Hc) as [-> _].
  cbn [bicnl_correlations bicnl_minNonlinearity].
  assert (Hlen : length (bicCorrelationsOf sboxArray) = 28%nat)
    by (rewrite bicCorrelationsOf_pairs; apply pairs_count).
  split; [exact Hlen|]. split.
  - intros c Hin. rewrite bicCorrelationsOf_pairs in Hin.
    apply pairs_In in Hin. destruct Hin as (bit1 & bit2 & _ & _ & ->).
    apply bicPairOf_range.
  - pose proof (fold_min_num_all (bicCorrelationsOf sboxArray) Infinity) as H.
    destruct (fold_left min_num (bicCorrelationsOf sboxArray) Infinity)
      as [lo|].
    + destruct H as (H1 & _ & [H3|H3]); [|discriminate].
      exists lo. split; [reflexivity|]. split; [exact H3 | exact H1].
    + destruct H as [H _]. rewrite H in Hlen. discriminate.
Qed.

Lemma bic_nl_pairs_witness :
  length (bicnl_correlations (fst (calculateBIC_NL (freshAnalyzer fipsSBox))))
  = 28%nat
  /\ (forall c,
        In c (bicnl_correlations
                (fst (calculateBIC_NL (freshAnalyzer fipsSBox)))) ->
        0 <= c <= 128)
  /\ exists m,
       bicnl_minNonlinearity (fst (calculateBIC_NL (freshAnalyzer fipsSBox)))
       = Fin m
       /\ In m (bicnl_correlations
                  (fst (calculateBIC_NL (freshAnalyzer fipsSBox))))
       /\ forall c,
            In c (bicnl_correlations
                    (fst (calculateBIC_NL (freshAnalyzer fipsSBox)))) ->
            m <= c.
Proof.
  apply (bic_nl_pairs fipsSBox). reflexivity.
Defined.


(** ** The caches of the analyzer

    The evaluators share three caches: the truth tables of the output bits
    and the two tables.  Whatever the caches hold when an evaluator is
    called, its value is the one a new analyzer of the same S-box gives. *)
Section Repeatability.

Lemma calculateLAP_determined sb :
  exists r, forall this,
    coherent sb this ->
    fst (calculateLAP this) = r /\ coherent sb (snd (calculateLAP this)).
Proof.
  eexists. intros this Hc. pose proof Hc as (Hs & Hh & Hb & Hl & Hd).
  unfold calculateLAP.
  destruct (linearApproxTable this) as [t|] eqn:E.
  - rewrite E. cbn [fst snd]. rewrite (Hl t eq_refl).
    split; [reflexivity | exact Hc].
  - unfold buildLinearApproximationTable, with_linearApproxTable.
    cbn [linearApproxTable fst snd]. rewrite Hs, Hh.
    split; [reflexivity|].
    coherent_split; [reflexivity | reflexivity | assumption | | assumption].
    intros t H. symmetry. exact (some_inj _ _ H).
Qed.

Lemma calculateDAP_determined sb :
  exists r, forall this,
    coherent sb this ->
    fst (calculateDAP this) = r /\ coherent sb (snd (calculateDAP this)).
Proof.
  eexists. intros this Hc. pose proof Hc as (Hs & Hh & Hb & Hl & Hd).
  unfold calculateDAP.
  destruct (differenceTable this) as [t|] eqn:E.
  - rewrite E. cbn [fst snd]. rewrite (Hd t eq_refl).
    split; [reflexivity | exact Hc].
  - unfold buildDifferenceDistributionTable, with_differenceTable.
    cbn [differenceTable fst snd]. rewrite Hs.
    split; [reflexivity|].
    coherent_split; [reflexivity | assumption | assumption | assumption | ].
    intros t H. symmetry. exact (some_inj _ _ H).
Qed.

Lemma calculateBIC_SAC_fresh sb this :
  sbox this = sb -> calculateBIC_SAC this = calculateBIC_SAC (freshAnalyzer sb).
Proof.
  intros Hs. unfold calculateBIC_SAC, freshAnalyzer. cbn [sbox].
  rewrite Hs. reflexivity.
Qed.

Lemma calculateTransparencyOrderSquared_fresh sb this :
  coherent sb this ->
  calculateTransparencyOrderSquared this
  = calculateTransparencyOrderSquared (freshAnalyzer sb).
Proof.
  intros (Hs & Hh & _).
  unfold calculateTransparencyOrderSquared, chiSquaredForMask, freshAnalyzer.
  cbn [sbox hammingWeights]. rewrite Hs, Hh. reflexivity.
Qed.

Lemma calculateBIC_NL_fresh sb this :
  length sb = 256%nat -> coherent sb this ->
  fst (calculateBIC_NL this) = fst (calculateBIC_NL (freshAnalyzer sb))
  /\ coherent sb (snd (calculateBIC_NL this)).
Proof.
  intros Hl Hc.
  destruct (calculateBIC_NL_eq sb this Hl Hc) as [E C].
  destruct (calculateBIC_NL_eq sb (freshAnalyzer sb) Hl
              (proj2 (fresh_coherent sb Hl))) as [E' _].
  split; [congruence | exact C].
Qed.

(** Every evaluator, and the full analysis, on an analyzer of [sb] in any
    state of its caches. *)
Lemma evaluators_determined sb :
  length sb = 256%nat ->
  exists r, forall this,
    coherent sb this ->
    fst (runFullAnalysis this) = r
    /\ coherent sb (snd (runFullAnalysis this))
    /\ isBalanced this = res_isBalanced r
    /\ isBijection this = res_isBijection r
    /\ fst (calculateNonlinearity this) = res_nonlinearity r
    /\ calculateSAC this = res_sac r
    /\ fst (calculateDifferentialUniformity this)
       = res_differentialUniformity r
    /\ fst (calculateAlgebraicDegree this) = res_algebraicDegree r
    /\ fst (calculateLAP this) = res_lap r
    /\ fst (calculateDAP this) = res_dap r
    /\ fst (calculateBIC_NL this) = res_bicNL r
    /\ calculateBIC_SAC this = res_bicSAC r
    /\ fst (calculateCorrelationImmunity this) = res_correlationImmunity r
    /\ calculateTransparencyOrderSquared this
       = res_transparencyOrderSquared r.
Proof.
  intros Hl.
  destruct (calculateLAP_determined sb) as (lap & Hlap).
  destruct (calculateDAP_determined sb) as (dap & Hdap).
  exists (mkResults
            size (isBalanced (freshAnalyzer sb))
            (isBijection (freshAnalyzer sb)) (nonlinearityOf sb)
            (calculateSAC (freshAnalyzer sb)) (maxDiffOf (ddtOf sb))
            (algebraicDegreeOf sb) lap dap
            (fst (calculateBIC_NL (freshAnalyzer sb)))
            (calculateBIC_SAC (freshAnalyzer sb)) (correlationImmunityOf sb)
            (calculateTransparencyOrderSquared (freshAnalyzer sb))).
  intros this Hc.
  assert (Hrun : fst (runFullAnalysis this)
                 = mkResults
                     size (isBalanced (freshAnalyzer sb))
                     (isBijection (freshAnalyzer sb)) (nonlinearityOf sb)
                     (calculateSAC (freshAnalyzer sb)) (maxDiffOf (ddtOf sb))
                     (algebraicDegreeOf sb) lap dap
                     (fst (calculateBIC_NL (freshAnalyzer sb)))
                     (calculateBIC_SAC (freshAnalyzer sb))
                     (correlationImmunityOf sb)
                     (calculateTransparencyOrderSquared (freshAnalyzer sb))
                 /\ coherent sb (snd (runFullAnalysis this))).
  { unfold runFullAnalysis.
    rewrite (isBalanced_fresh sb this), (isBijection_fresh sb this)
      by (apply coherent_sbox; assumption).
    destruct (calculateNonlinearity_eq sb this Hl Hc) as [E1 C1].
    destruct (calculateNonlinearity this) as [nl this1]. cbn [fst snd] in *.
    rewrite (calculateSAC_fresh sb this1)
      by (apply coherent_sbox; assumption).
    destruct (calculateDifferentialUniformity_eq sb this1 C1) as [E2 C2].
    destruct (calculateDifferentialUniformity this1) as [du this2].
    cbn [fst snd] in *.
    destruct (calculateAlgebraicDegree_eq sb this2 Hl C2) as [E3 C3].
    destruct (calculateAlgebraicDegree this2) as [ad this3].
    cbn [fst snd] in *.
    destruct (Hlap this3 C3) as [E4 C4].
    destruct (calculateLAP this3) as [lap' this4]. cbn [fst snd] in *.
    destruct (Hdap this4 C4) as [E5 C5].
    destruct (calculateDAP this4) as [dap' this5]. cbn [fst snd] in *.
    destruct (calculateBIC_NL_fresh sb this5 Hl C5) as [E6 C6].
    destruct (calculateBIC_NL this5) as [bicnl this6]. cbn [fst snd] in *.
    rewrite (calculateBIC_SAC_fresh sb this6)
      by (apply coherent_sbox; assumption).
    destruct (calculateCorrelationImmunity_eq sb this6 Hl C6) as [E7 C7].
    destruct (calculateCorrelationImmunity this6) as [ci this7].
    cbn [fst snd] in *.
    rewrite (calculateTransparencyOrderSquared_fresh sb this7) by assumption.
    subst nl du ad lap' dap' bicnl ci.
    split; [reflexivity | exact C7]. }
  destruct Hrun as [Hrun Hcoh].
  split; [exact Hrun|]. split; [exact Hcoh|].
  cbn [res_isBalanced res_isBijection res_nonlinearity res_sac
       res_differentialUniformity res_algebraicDegree res_lap res_dap
       res_bicNL res_bicSAC res_correlationImmunity
       res_transparencyOrderSquared].
  split; [exact (isBalanced_fresh sb this (coherent_sbox _ _ Hc))|].
  split; [exact (isBijection_fresh sb this (coherent_sbox _ _ Hc))|].
  split; [exact (proj1 (calculateNonlinearity_eq sb this Hl Hc))|].
  split; [exact (calculateSAC_fresh sb this (coherent_sbox _ _ Hc))|].
  split; [exact (proj1 (calculateDifferentialUniformity_eq sb this Hc))|].
  split; [exact (proj1 (calculateAlgebraicDegree_eq sb this Hl Hc))|].
  split; [exact (proj1 (Hlap this Hc))|].
  split; [exact (proj1 (Hdap this Hc))|].
  split; [exact (proj1 (calculateBIC_NL_fresh sb this Hl Hc))|].
  split; [exact (calculateBIC_SAC_fresh sb this (coherent_sbox _ _ Hc))|].
  split; [exact (proj1 (calculateCorrelationImmunity_eq sb this Hl Hc))|].
  exact (calculateTransparencyOrderSquared_fresh sb this Hc).
Qed.

End Repeatability.


(** X20. The caches of the analyzer do not show in its results.  For
    an analyzer built from an array of 256 integers, a second
    [runFullAnalysis] on the same object returns the report of the first;
    every evaluator called alone, on the new object or on the object the
    full analysis leaves behind, returns the value of its field of the
    report; and the report's [differentialUniformity] is the
    [maxDifferential] of its [dap]. *)
Theorem analysis_independent_of_caches
        (sboxArray : list Z) (this : SBoxAnalyzer) :
  constructor sboxArray = inr this ->
  let report := fst (runFullAnalysis this) in
  let used := snd (runFullAnalysis this) in
  fst (runFullAnalysis used) = report
  /\ (forall this', this' = this \/ this' = used ->
        isBalanced this' = res_isBalanced report
        /\ isBijection this' = res_isBijection report
        /\ fst (calculateNonlinearity this') = res_nonlinearity report
        /\ calculateSAC this' = res_sac report
        /\ fst (calculateDifferentialUniformity this')
           = res_differentialUniformity report
        /\ fst (calculateAlgebraicDegree this') = res_algebraicDegree report
        /\ fst (calculateLAP this') = res_lap report
        /\ fst (calculateDAP this') = res_dap report
        /\ fst (calculateBIC_NL this') = res_bicNL report
        /\ calculateBIC_SAC this' = res_bicSAC report
        /\ fst (calculateCorrelationImmunity this')
           = res_correlationImmunity report
        /\ calculateTransparencyOrderSquared this'
           = res_transparencyOrderSquared report)
  /\ res_differentialUniformity report = dap_maxDifferential (res_dap report).
Proof.
  intros Hc report used. apply constructor_inr in Hc. destruct Hc as [Hl Hc].
  destruct (evaluators_determined sboxArray Hl) as (r & Hr).
  destruct (Hr this Hc) as (E & Hused & Hthis).
  fold report in E. fold used in Hused.
  destruct (Hr used Hused) as (E' & _ & Hused').
  rewrite E. split; [exact E'|]. split.
  - intros this' [->| ->]; assumption.
  - destruct Hthis as (_ & _ & _ & _ & <- & _ & _ & <- & _).
    unfold calculateDifferentialUniformity.
    destruct (calculateDAP this) as [dap this1]. reflexivity.
Qed.

Lemma analysis_independent_of_caches_witness :
  fst (runFullAnalysis (snd (runFullAnalysis (freshAnalyzer fipsSBox))))
  = fst (runFullAnalysis (freshAnalyzer fipsSBox)).
Proof.
  assert (E : constructor fipsSBox = inr (freshAnalyzer fipsSBox))
    by reflexivity.
  exact (proj1 (analysis_independent_of_caches
                  fipsSBox (freshAnalyzer fipsSBox) E)).
Defined.


(** ** Strings: trimming, splitting and joining *)
Section Strings.

Lemma trimStart_id (s : list Z) :
  isWhiteSpace (hd 32 s) = false -> trimStart s = s.
Proof.
  destruct s as [|c rest]; [reflexivity|]. cbn [hd trimStart].
  intros ->. reflexivity.
Qed.

Lemma last_app_cons {A} (l : list A) a l' d :
  last (l ++ a :: l') d = last (a :: l') d.
Proof.
  induction l as [|x l IH]; [reflexivity|].
  cbn [app]. rewrite <- IH. cbn [last].
  destruct (l ++ a :: l') eqn:E; [|reflexivity].
  now destruct l.
Qed.

Lemma rev_last_cons {A} (l : list A) (Hl : l <> []) d :
  rev l = last l d :: rev (removelast l).
Proof.
  rewrite (app_removelast_last d Hl) at 1.
  rewrite rev_app_distr. reflexivity.
Qed.

(** A string that neither starts nor ends with white space is its own
    trimmed form. *)
Lemma trim_id (s : list Z) :
  isWhiteSpace (hd 32 s) = false -> isWhiteSpace (last s 32) = false ->
  trim s = s.
Proof.
  intros H1 H2. unfold trim, trimEnd. rewrite (trimStart_id s H1).
  destruct s as [|c rest]; [reflexivity|].
  assert (Hne : c :: rest <> []) by discriminate.
  rewrite (rev_last_cons (c :: rest) Hne 32).
  rewrite trimStart_id by (cbn [hd]; exact H2).
  rewrite <- (rev_last_cons (c :: rest) Hne 32). apply rev_involutive.
Qed.

Lemma hd_join (sep t : list Z) ts d :
  t <> [] -> hd d (join sep (t :: ts)) = hd d t.
Proof.
  intros Ht. cbn [join]. destruct ts; [reflexivity|].
  destruct t; [contradiction|reflexivity].
Qed.

Lemma join_nil (sep : list Z) toks : join sep toks = [] -> last toks [] = [].
Proof.
  induction toks as [|t ts IH]; [reflexivity|].
  destruct ts as [|t' ts']; [intros E; exact E|].
  change (join sep (t :: t' :: ts'))
    with (t ++ sep ++ join sep (t' :: ts')).
  change (last (t :: t' :: ts') []) with (last (t' :: ts') []).
  intros E. apply app_eq_nil in E. destruct E as [_ E].
  apply app_eq_nil in E. destruct E as [_ E]. exact (IH E).
Qed.

Lemma last_join (sep : list Z) toks d :
  last toks [] <> [] -> last (join sep toks) d = last (last toks []) d.
Proof.
  induction toks as [|t ts IH]; [intros H; now contradiction H|].
  intros H. destruct ts as [|t' ts']; [reflexivity|].
  change (last (t :: t' :: ts') []) with (last (t' :: ts') []) in H |- *.
  change (join sep (t :: t' :: ts'))
    with (t ++ sep ++ join sep (t' :: ts')).
  specialize (IH H).
  destruct (join sep (t' :: ts')) as [|c r] eqn:E.
  - apply join_nil in E. contradiction.
  - rewrite app_assoc, last_app_cons. exact IH.
Qed.

Lemma splitSpaces_cons b s : exists p ps, splitSpaces b s = p :: ps.
Proof.
  revert b. induction s as [|c rest IH]; intros b; cbn [splitSpaces].
  - now exists [], [].
  - destruct (isWhiteSpace c).
    + destruct b; [apply IH|]. now exists [], (splitSpaces true rest).
    + destruct (IH false) as (p & ps & ->). now exists (c :: p), ps.
Qed.

Lemma splitSpaces_token tok rest p ps :
  Forall (fun c => isWhiteSpace c = false) tok ->
  splitSpaces false rest = p :: ps ->
  splitSpaces false (tok ++ rest) = (tok ++ p) :: ps.
Proof.
  intros Ht E. induction Ht as [|c tok Hc Ht IH]; [exact E|].
  cbn [app splitSpaces]. rewrite Hc, IH. reflexivity.
Qed.

Lemma splitSpaces_run s :
  isWhiteSpace (hd 32 s) = false ->
  splitSpaces true s = splitSpaces false s.
Proof.
  destruct s as [|c rest]; [reflexivity|]. cbn [hd splitSpaces].
  intros ->. reflexivity.
Qed.

(** Tokens without white space, joined by spaces, are split into
    themselves. *)
Lemma splitSpaces_join toks :
  toks <> [] ->
  Forall (fun tok => tok <> []
                     /\ Forall (fun c => isWhiteSpace c = false) tok) toks ->
  splitSpaces false (join [32] toks) = toks.
Proof.
  intros Hne H. induction H as [|t ts [Ht1 Ht2] Hts IH]; [contradiction|].
  destruct ts as [|t' ts'].
  - cbn [join]. rewrite <- (app_nil_r t) at 1.
    rewrite (splitSpaces_token t [] [] []) by (assumption || reflexivity).
    now rewrite app_nil_r.
  - change (join [32] (t :: t' :: ts'))
      with (t ++ 32 :: join [32] (t' :: ts')).
    rewrite (splitSpaces_token t _ [] (t' :: ts')).
    + now rewrite app_nil_r.
    + assumption.
    + cbn [splitSpaces]. change (isWhiteSpace 32) with true. cbn iota.
      assert (Hhd : isWhiteSpace (hd 32 (join [32] (t' :: ts'))) = false).
      { inversion Hts as [|? ? [Hn Hf] _]; subst.
        rewrite hd_join by assumption.
        destruct t' as [|c r]; [contradiction|].
        cbn [hd]. now inversion Hf. }
      rewrite (splitSpaces_run _ Hhd), IH by discriminate. reflexivity.
Qed.

Lemma splitChar_token sep tok rest :
  Forall (fun c => c <> sep) tok ->
  splitChar sep (tok ++ sep :: rest) = tok :: splitChar sep rest.
Proof.
  intros Ht. induction Ht as [|c tok Hc Ht IH]; cbn [app splitChar].
  - now rewrite Z.eqb_refl.
  - apply Z.eqb_neq in Hc. rewrite Hc, IH. reflexivity.
Qed.

Lemma splitChar_one sep tok :
  Forall (fun c => c <> sep) tok -> splitChar sep tok = [tok].
Proof.
  intros Ht. induction Ht as [|c tok Hc Ht IH]; cbn [splitChar].
  - reflexivity.
  - apply Z.eqb_neq in Hc. rewrite Hc, IH. reflexivity.
Qed.

(** Pieces without the separator, joined by it, are split into themselves. *)
Lemma splitChar_join sep toks :
  toks <> [] ->
  Forall (Forall (fun c => c <> sep)) toks ->
  splitChar sep (join [sep] toks) = toks.
Proof.
  intros Hne H. induction H as [|t ts Ht Hts IH]; [contradiction|].
  destruct ts as [|t' ts'].
  - cbn [join]. now apply splitChar_one.
  - change (join [sep] (t :: t' :: ts'))
      with (t ++ sep :: join [sep] (t' :: ts')).
    rewrite splitChar_token, IH by (assumption || discriminate).
    reflexivity.
Qed.

Lemma splitLines_line line rest :
  Forall (fun c => c <> 10 /\ c <> 13) line ->
  splitLines (line ++ 10 :: rest) = line :: splitLines rest.
Proof.
  intros Hl. induction Hl as [|c line [Hc1 Hc2] Hl IH].
  - reflexivity.
  - cbn [app]. cbn [splitLines]. fold splitLines.
    apply Z.eqb_neq in Hc1, Hc2. rewrite Hc1, Hc2. cbn [andb].
    destruct (line ++ 10 :: rest) as [|d rest'] eqn:E.
    + now destruct line.
    + rewrite IH. reflexivity.
Qed.

End Strings.


(** ** Text and hexadecimal inputs of the simulation *)
Section HexInput.

(** The two digits that [textToHex] writes for a byte. *)
Lemma byte_digits_checked :
  forallb (fun b =>
             let tok := padStart (toString16 b) 2 (code "0") in
             Nat.eqb (length tok) 2
             && forallb (fun c => negb (isWhiteSpace c)) tok
             && match parseInt tok 16 with
                | Some v => v =? b
                | None => false
                end)
          (zrange 0 256) = true.
Proof. vm_compute. reflexivity. Qed.

Lemma byte_digits b :
  0 <= b < 256 ->
  padStart (toString16 b) 2 (code "0") <> []
  /\ Forall (fun c => isWhiteSpace c = false)
            (padStart (toString16 b) 2 (code "0"))
  /\ parseInt (padStart (toString16 b) 2 (code "0")) 16 = Some b.
Proof.
  intros Hb. pose proof byte_digits_checked as H.
  rewrite forallb_forall in H. specialize (H b (proj2 (zrange_In 0 256 b) Hb)).
  cbv zeta in H. apply andb_prop in H. destruct H as [H H3].
  apply andb_prop in H. destruct H as [H1 H2].
  split; [|split].
  - intros E. rewrite E in H1. discriminate.
  - apply Forall_forall. intros c Hc. rewrite forallb_forall in H2.
    specialize (H2 c Hc). now destruct (isWhiteSpace c).
  - destruct (parseInt (padStart (toString16 b) 2 (code "0")) 16) as [v|];
      [|discriminate].
    apply Z.eqb_eq in H3. now subst v.
Qed.

Lemma parseBytes_digits bytes :
  (forall b, In b bytes -> 0 <= b < 256) ->
  parseBytes (map (fun b => padStart (toString16 b) 2 (code "0")) bytes)
  = inr bytes.
Proof.
  induction bytes as [|b bytes IH]; intros Hb; [reflexivity|].
  cbn [map parseBytes].
  assert (H : 0 <= b < 256) by (apply Hb; now left).
  destruct (byte_digits b H) as (_ & _ & ->).
  replace ((b <? 0) || (255 <? b)) with false by lia.
  rewrite IH by (intros b' Hb'; apply Hb; now right). reflexivity.
Qed.

(** Bytes written as two digits each and joined by spaces parse back. *)
Lemma parseHexString_digits bytes :
  length bytes = 16%nat ->
  (forall b, In b bytes -> 0 <= b < 256) ->
  parseHexString
    (join (lit " ")
          (map (fun b => padStart (toString16 b) 2 (code "0")) bytes))
  = inr (Some bytes).
Proof.
  intros Hl Hb. change (lit " ") with [32].
  set (toks := map (fun b => padStart (toString16 b) 2 (code "0")) bytes).
  assert (Htoks : Forall (fun tok =>
                            tok <> []
                            /\ Forall (fun c => isWhiteSpace c = false) tok)
                         toks).
  { apply Forall_forall. intros tok Hin. apply in_map_iff in Hin.
    destruct Hin as (b & <- & Hin).
    destruct (byte_digits b (Hb b Hin)) as (H1 & H2 & _). now split. }
  assert (Hne : toks <> []).
  { destruct bytes; [discriminate|]. discriminate. }
  assert (Hlast : last toks [] <> []
                  /\ isWhiteSpace (last (last toks []) 32) = false).
  { assert (Hin : In (last toks []) toks).
    { destruct toks as [|t ts]; [contradiction|].
      rewrite (app_removelast_last [] Hne) at 2.
      apply in_or_app. right. now left. }
    rewrite Forall_forall in Htoks. destruct (Htoks _ Hin) as [H1 H2].
    split; [exact H1|].
    rewrite Forall_forall in H2. apply H2.
    rewrite (app_removelast_last 32 H1) at 2.
    apply in_or_app. right. now left. }
  assert (Hhd : isWhiteSpace (hd 32 (join [32] toks)) = false).
  { destruct toks as [|t ts]; [contradiction|].
    inversion Htoks as [|? ? [Hn Hf] _]; subst.
    rewrite hd_join by assumption.
    destruct t as [|c r]; [contradiction|]. cbn [hd]. now inversion Hf. }
  assert (Htrim : trim (join [32] toks) = join [32] toks).
  { apply trim_id; [exact Hhd|].
    rewrite last_join by apply Hlast. apply Hlast. }
  assert (Hpos : join [32] toks <> []).
  { intros E. apply join_nil in E. now apply (proj1 Hlast). }
  unfold parseHexString. rewrite Htrim.
  destruct (join [32] toks) as [|c r] eqn:EJ; [contradiction|].
  replace (Z.of_nat (length (c :: r)) =? 0) with false
    by (symmetry; apply Z.eqb_neq; cbn [length]; lia).
  rewrite <- EJ, splitSpaces_join by assumption.
  assert (Hfilter : filter (fun b => 0 <? Z.of_nat (length b)) toks = toks).
  { clear - Htoks. induction Htoks as [|t ts [Hn _] _ IH]; [reflexivity|].
    cbn [filter]. destruct t as [|z t]; [contradiction|].
    replace (0 <? Z.of_nat (length (z :: t))) with true
      by (symmetry; apply Z.ltb_lt; cbn [length]; lia).
    now rewrite IH. }
  rewrite Hfilter.
  replace (Z.of_nat (length toks)) with 16
    by (unfold toks; rewrite length_map, Hl; reflexivity).
  cbn [Z.eqb Pos.eqb negb]. unfold toks. rewrite parseBytes_digits by assumption.
  reflexivity.
Qed.

Lemma lor_byte a b : 0 <= a < 256 -> 0 <= b < 256 -> 0 <= Z.lor a b < 256.
Proof.
  intros Ha Hb. split; [apply Z.lor_nonneg; lia|].
  destruct (Z.eq_dec (Z.lor a b) 0) as [E|E]; [lia|].
  assert (Hp : 0 < Z.lor a b)
    by (pose proof (proj2 (Z.lor_nonneg a b) (conj (proj1 Ha) (proj1 Hb)));
        lia).
  apply (Z.log2_lt_pow2 _ 8 Hp). rewrite Z.log2_lor by lia.
  apply Z.max_lub_lt.
  - destruct (Z.eq_dec a 0) as [->|]; [reflexivity|].
    apply Z.log2_lt_pow2; lia.
  - destruct (Z.eq_dec b 0) as [->|]; [reflexivity|].
    apply Z.log2_lt_pow2; lia.
Qed.

Lemma land_low x : 0 <= Z.land x 0x3F < 64.
Proof.
  change 0x3F with (Z.ones 6). rewrite Z.land_ones by lia.
  apply Z.mod_pos_bound. reflexivity.
Qed.

Lemma utf8_bytes cp b :
  0 <= cp < 0x110000 -> In b (utf8 cp) -> 0 <= b < 256.
Proof.
  intros Hcp. unfold utf8.
  pose proof (land_low cp). pose proof (land_low (Z.shiftr cp 6)).
  pose proof (land_low (Z.shiftr cp 12)).
  assert (H6 : Z.shiftr cp 6 = cp / 64)
    by (apply (Z.shiftr_div_pow2 cp 6); lia).
  assert (H12 : Z.shiftr cp 12 = cp / 4096)
    by (apply (Z.shiftr_div_pow2 cp 12); lia).
  assert (H18 : Z.shiftr cp 18 = cp / 262144)
    by (apply (Z.shiftr_div_pow2 cp 18); lia).
  destruct (cp <? 0x80) eqn:E1; [intros [<-|[]]; lia|].
  destruct (cp <? 0x800) eqn:E2.
  { intros [<-|[<-|[]]]; apply lor_byte; try lia.
    rewrite H6. split; [apply Z.div_pos; lia|].
    apply Z.div_lt_upper_bound; lia. }
  destruct (cp <? 0x10000) eqn:E3.
  { intros [<-|[<-|[<-|[]]]]; apply lor_byte; try lia.
    rewrite H12. split; [apply Z.div_pos; lia|].
    apply Z.div_lt_upper_bound; lia. }
  intros [<-|[<-|[<-|[<-|[]]]]]; apply lor_byte; try lia.
  rewrite H18. split; [apply Z.div_pos; lia|].
  apply Z.div_lt_upper_bound; lia.
Qed.

Lemma encode_bytes_upto (k : nat) text b :
  (length text <= k)%nat ->
  (forall c, In c text -> 0 <= c < 65536) ->
  In b (encode text) -> 0 <= b < 256.
Proof.
  revert text. induction k as [|k IH]; intros text Hk Hc.
  - destruct text; [intros []|cbn [length] in Hk; lia].
  - destruct text as [|c rest]; [intros []|].
    cbn [length] in Hk.
    assert (Hc0 : 0 <= c < 65536) by (apply Hc; now left).
    assert (Hrest : In b (encode rest) -> 0 <= b < 256).
    { apply IH; [lia|]. intros c' Hc'. apply Hc. now right. }
    cbn [encode]. fold encode.
    destruct ((0xD800 <=? c) && (c <? 0xDC00)) eqn:E1.
    + destruct rest as [|d rest'].
      * apply utf8_bytes. lia.
      * assert (Hd : 0 <= d < 65536) by (apply Hc; right; now left).
        destruct ((0xDC00 <=? d) && (d <? 0xE000)) eqn:E2.
        -- intros Hin. apply in_app_or in Hin. destruct Hin as [Hin|Hin].
           ++ revert Hin. apply utf8_bytes. lia.
           ++ revert Hin. apply IH; [cbn [length] in Hk; lia|].
              intros c' Hc'. apply Hc. right. now right.
        -- intros Hin. apply in_app_or in Hin. destruct Hin as [Hin|Hin].
           ++ revert Hin. apply utf8_bytes. lia.
           ++ now apply Hrest.
    + destruct ((0xDC00 <=? c) && (c <? 0xE000)) eqn:E2;
        intros Hin; apply in_app_or in Hin; destruct Hin as [Hin|Hin];
        try (now apply Hrest); revert Hin; apply utf8_bytes; lia.
Qed.

Lemma encode_bytes text b :
  (forall c, In c text -> 0 <= c < 65536) ->
  In b (encode text) -> 0 <= b < 256.
Proof. apply (encode_bytes_upto (length text)). lia. Qed.

(** Characters below 128 are their own encoding. *)
Lemma encode_ascii text :
  (forall c, In c text -> 0 <= c < 128) -> encode text = text.
Proof.
  induction text as [|c rest IH]; intros Hc; [reflexivity|].
  assert (H : 0 <= c < 128) by (apply Hc; now left).
  cbn [encode]. fold encode.
  replace ((0xD800 <=? c) && (c <? 0xDC00)) with false by lia.
  replace ((0xDC00 <=? c) && (c <? 0xE000)) with false by lia.
  unfold utf8. replace (c <? 0x80) with true by lia.
  cbn [app]. rewrite IH by (intros c' Hc'; apply Hc; now right).
  reflexivity.
Qed.

Lemma firstn_repeat_le {A} (a : A) k n :
  (k <= n)%nat -> firstn k (repeat a n) = repeat a k.
Proof.
  revert n. induction k as [|k IH]; intros n H; [reflexivity|].
  destruct n as [|n]; [lia|]. cbn [repeat firstn]. f_equal. apply IH. lia.
Qed.

(** Cutting to 16 bytes or padding with zeros, as [textToHex] does it. *)
Lemma pad_or_cut (bytes : list Z) :
  (if 16 <? Z.of_nat (length bytes) then firstn 16 bytes
   else bytes ++ repeat 0 (16 - length bytes))
  = firstn 16 (bytes ++ repeat 0 16).
Proof.
  destruct (16 <? Z.of_nat (length bytes)) eqn:E.
  - rewrite firstn_app.
    replace (16 - length bytes)%nat with 0%nat by lia.
    cbn [firstn]. now rewrite app_nil_r.
  - rewrite firstn_app, firstn_all2 by lia. f_equal.
    symmetry. apply firstn_repeat_le. lia.
Qed.

End HexInput.

(** X21. A text typed into the simulation always gives a block:
    [parseHexString] accepts what [textToHex] writes and returns the UTF-8
    bytes of the text, cut after 16 bytes or padded with zeros to 16 bytes;
    these are 16 numbers between 0 and 255, and for a text of characters
    below 128 they are the character codes themselves. *)
Theorem textToHex_parses_to_sixteen_bytes (text : list Z) :
  (forall c, In c text -> 0 <= c < 65536) ->
  let bytes := firstn 16 (encode text ++ repeat 0 16) in
  parseHexString (textToHex text) = inr (Some bytes)
  /\ length bytes = 16%nat
  /\ (forall b, In b bytes -> 0 <= b <= 255)
  /\ ((forall c, In c text -> c < 128) ->
      bytes = firstn 16 (text ++ repeat 0 16)).
Proof.
  intros Hc bytes.
  assert (Hlen : length bytes = 16%nat).
  { unfold bytes. rewrite length_firstn, length_app, repeat_length. lia. }
  assert (Hb : forall b, In b bytes -> 0 <= b < 256).
  { intros b Hin. unfold bytes in Hin.
    assert (Hin' : In b (encode text ++ repeat 0 16))
      by (rewrite <- (firstn_skipn 16 _); apply in_or_app; now left).
    clear Hin. apply in_app_or in Hin'. destruct Hin' as [Hin|Hin].
    - now apply (encode_bytes text).
    - apply repeat_spec in Hin. lia. }
  split; [|split; [exact Hlen|split]].
  - unfold textToHex. rewrite pad_or_cut. fold bytes.
    now apply parseHexString_digits.
  - intros b Hin. specialize (Hb b Hin). lia.
  - intros Ha. unfold bytes. rewrite encode_ascii; [reflexivity|].
    intros c Hin. specialize (Hc c Hin). specialize (Ha c Hin). lia.
Qed.

Lemma textToHex_parses_to_sixteen_bytes_witness :
  parseHexString (textToHex (lit "Hello World!"))
  = inr (Some [72; 101; 108; 108; 111; 32; 87; 111; 114; 108; 100; 33;
               0; 0; 0; 0]).
Proof.
  refine (proj1 (textToHex_parses_to_sixteen_bytes (lit "Hello World!") _)).
  intros c Hc. vm_compute in Hc.
  repeat (destruct Hc as [<-|Hc]; [lia|]). contradiction.
Defined.


(** ** Files of S-boxes *)
Section Files.

Lemma isCell_cell tok : isCell tok = true -> cell tok.
Proof.
  unfold isCell, cell. intros H.
  apply andb_prop in H. destruct H as [H H4].
  apply andb_prop in H. destruct H as [H H3].
  apply andb_prop in H. destruct H as [H1 H2].
  split; [|split; [|split]].
  - intros ->. discriminate.
  - now destruct (isWhiteSpace (hd 32 tok)).
  - now destruct (isWhiteSpace (last tok 32)).
  - apply Forall_forall. intros c Hc. rewrite forallb_forall in H4.
    specialize (H4 c Hc). lia.
Qed.

Lemma cell_trim tok : cell tok -> trim tok = tok.
Proof. intros (_ & H1 & H2 & _). now apply trim_id. Qed.

Lemma for_of_cells toks vals values :
  Forall cell toks ->
  map parseValue toks = map Some vals ->
  for_of toks
         (fun val values =>
            if 0 <? Z.of_nat (length val)
            then match parseValue val with
                 | Some num => values ++ [num]
                 | None => values
                 end
            else values)
         values
  = values ++ vals.
Proof.
  intros Hc. revert vals values.
  induction Hc as [|tok toks Htok Hc IH]; intros vals values E.
  - destruct vals; [|discriminate]. cbn. now rewrite app_nil_r.
  - destruct vals as [|v vals]; [discriminate|].
    cbn [map] in E. injection E as E1 E2.
    unfold for_of in *. cbn [fold_left].
    destruct Htok as (Hne & _). destruct tok as [|c r]; [contradiction|].
    replace (0 <? Z.of_nat (length (c :: r))) with true
      by (symmetry; apply Z.ltb_lt; cbn [length]; lia).
    rewrite E1, (IH vals _ E2), <- app_assoc. reflexivity.
Qed.

Lemma join_cells_no_break toks :
  Forall cell toks ->
  Forall (fun c => c <> 10 /\ c <> 13) (join [44] toks).
Proof.
  intros H. induction H as [|tok toks Htok H IH]; [constructor|].
  assert (Ht : Forall (fun c => c <> 10 /\ c <> 13) tok).
  { destruct Htok as (_ & _ & _ & Hf). revert Hf. apply Forall_impl.
    intros c Hc. tauto. }
  destruct toks as [|tok' toks']; [exact Ht|].
  change (join [44] (tok :: tok' :: toks'))
    with (tok ++ 44 :: join [44] (tok' :: toks')).
  apply Forall_app. split; [exact Ht|].
  constructor; [lia | exact IH].
Qed.

Lemma join_cells_trim toks :
  toks <> [] -> Forall cell toks ->
  join [44] toks <> [] /\ trim (join [44] toks) = join [44] toks.
Proof.
  intros Hne H.
  assert (Hlast : cell (last toks [])).
  { rewrite Forall_forall in H. apply H.
    rewrite (app_removelast_last [] Hne) at 2.
    apply in_or_app. right. now left. }
  destruct Hlast as (L1 & _ & L3 & _).
  split.
  - intros E. apply join_nil in E. contradiction.
  - apply trim_id.
    + destruct toks as [|t ts]; [contradiction|].
      inversion H as [|? ? (T1 & T2 & _) _]; subst.
      now rewrite hd_join.
    + now rewrite last_join.
Qed.

(** The values that the loop of [parseCSVFile] collects from one line. *)
Lemma line_values toks vals values :
  toks <> [] -> Forall cell toks ->
  map parseValue toks = map Some vals ->
  (if 0 <? Z.of_nat (length (trim (join [44] toks)))
   then
     for_of (map trim (splitChar (code ",") (join [44] toks)))
            (fun val values =>
               if 0 <? Z.of_nat (length val)
               then match parseValue val with
                    | Some num => values ++ [num]
                    | None => values
                    end
               else values)
            values
   else values)
  = values ++ vals.
Proof.
  intros Hne Hc E.
  destruct (join_cells_trim toks Hne Hc) as [Hj ->].
  destruct (join [44] toks) as [|c r] eqn:EJ; [contradiction|].
  replace (0 <? Z.of_nat (length (c :: r))) with true
    by (symmetry; apply Z.ltb_lt; cbn [length]; lia).
  rewrite <- EJ. change (code ",") with 44.
  rewrite splitChar_join.
  - replace (map trim toks) with toks.
    + now apply for_of_cells.
    + clear - Hc. induction Hc as [|t ts Ht _ IH]; [reflexivity|].
      cbn [map]. now rewrite (cell_trim t Ht), <- IH.
  - exact Hne.
  - revert Hc. apply Forall_impl. intros tok (_ & _ & _ & Hf).
    revert Hf. apply Forall_impl. intros c' Hc'. tauto.
Qed.

(** A file of lines of cells, each line ended by a line feed. *)
Lemma parseCSVFile_rows (rows : list (list (list Z))) (valss : list (list Z)) :
  Forall2 (fun toks vals =>
             toks <> [] /\ Forall cell toks
             /\ map parseValue toks = map Some vals)
          rows valss ->
  parseCSVFile (concat (map (fun toks => join [44] toks ++ [10]) rows))
  = if negb (Z.of_nat (length (concat valss)) =? 256)
    then inl (ExpectedValues (Z.of_nat (length (concat valss))))
    else match validateSBoxValues (concat valss) with
         | inl e => inl (Rejected e)
         | inr _ => inr (concat valss)
         end.
Proof.
  intros H. unfold parseCSVFile.
  match goal with
  | |- context [for_of ?lines ?F []] =>
      assert (E : forall values, for_of lines F values = values ++ concat valss)
  end; [|rewrite E; reflexivity].
  induction H as [|toks vals rows valss (Hne & Hc & Hv) H IH]; intros values.
  - cbn. now rewrite app_nil_r.
  - cbn [map concat]. rewrite <- app_assoc. cbn [app].
    rewrite splitLines_line by now apply join_cells_no_break.
    unfold for_of at 1. cbn [fold_left].
    rewrite (line_values toks vals values Hne Hc Hv).
    unfold for_of at 1 in IH. rewrite IH, app_assoc. reflexivity.
Qed.

(** What [exportSBox] writes for a byte, and how [parseValue] reads it. *)
Lemma hexByte_checked :
  forallb (fun b =>
             isCell (hexByte b)
             && match parseValue (hexByte b) with
                | Some v => v =? b
                | None => false
                end)
          (zrange 0 256) = true.
Proof. vm_compute. reflexivity. Qed.

Lemma hexByte_cell b :
  0 <= b < 256 -> cell (hexByte b) /\ parseValue (hexByte b) = Some b.
Proof.
  intros Hb. pose proof hexByte_checked as H.
  rewrite forallb_forall in H. specialize (H b (proj2 (zrange_In 0 256 b) Hb)).
  apply andb_prop in H. destruct H as [H1 H2].
  split; [now apply isCell_cell|].
  destruct (parseValue (hexByte b)) as [v|]; [|discriminate].
  apply Z.eqb_eq in H2. now subst v.
Qed.

Lemma for_concat {A} (f : Z -> list A) lo hi (c0 : list A) :
  for_ lo hi (fun i c => c ++ f i) c0 = c0 ++ concat (map f (zrange lo hi)).
Proof.
  unfold for_. generalize (zrange lo hi) as l. intros l. revert c0.
  induction l as [|i l IH]; intros c0; cbn [fold_left map concat].
  - now rewrite app_nil_r.
  - rewrite IH, <- app_assoc. reflexivity.
Qed.

(** The content of the CSV export: 16 lines of 16 cells. *)
Lemma exportSBox_csv sbox :
  exportSBox CSV sbox
  = concat (map (fun toks => join [44] toks ++ [10])
                (map (fun row =>
                        map (fun col => hexByte (get sbox (row * 16 + col)))
                            (zrange 0 16))
                     (zrange 0 16))).
Proof.
  unfold exportSBox. change (lit ",") with [44].
  rewrite (for_concat
             (fun row =>
                join [44]
                     (for_ 0 16
                           (fun col rowData =>
                              rowData ++ [hexByte (get sbox (row * 16 + col))])
                           [])
                ++ [10])).
  cbn [app]. rewrite map_map. apply (f_equal (@concat Z)).
  apply map_ext. intros row. rewrite for_append. reflexivity.
Qed.

Lemma Forall2_maps {A B C} (R : B -> C -> Prop) (f : A -> B) (g : A -> C) l :
  (forall x, In x l -> R (f x) (g x)) -> Forall2 R (map f l) (map g l).
Proof.
  induction l as [|x l IH]; intros H; cbn [map]; constructor.
  - apply H. now left.
  - apply IH. intros y Hy. apply H. now right.
Qed.

Lemma rows_of_sixteen (f : Z -> Z) :
  concat (map (fun row => map (fun col => f (row * 16 + col)) (zrange 0 16))
              (zrange 0 16))
  = map f (zrange 0 256).
Proof. vm_compute. reflexivity. Qed.

End Files.

(** X22. The CSV export can be loaded back: for an S-box of 256
    values between 0 and 255, [parseCSVFile] on the content that
    [exportSBox('csv')] writes reads exactly these values, so that the
    promise is resolved with the S-box if [validateSBoxValues] accepts it,
    and rejected with the validator's error otherwise; for a permutation of
    0..255 it is resolved with the S-box. *)
Theorem csv_export_loads_back (sbox : list Z) :
  length sbox = 256%nat ->
  (forall v, In v sbox -> 0 <= v <= 255) ->
  parseCSVFile (exportSBox CSV sbox)
  = match validateSBoxValues sbox with
    | inl e => inl (Rejected e)
    | inr _ => inr sbox
    end
  /\ (permutation256 sbox -> parseCSVFile (exportSBox CSV sbox) = inr sbox).
Proof.
  intros Hl Hb.
  assert (E : parseCSVFile (exportSBox CSV sbox)
              = match validateSBoxValues sbox with
                | inl e => inl (Rejected e)
                | inr _ => inr sbox
                end).
  { rewrite exportSBox_csv.
    rewrite (parseCSVFile_rows
               _ (map (fun row => map (fun col => get sbox (row * 16 + col))
                                      (zrange 0 16))
                      (zrange 0 16))).
    - rewrite (rows_of_sixteen (get sbox)).
      rewrite (map_get_zrange sbox 256) by (rewrite Hl; reflexivity).
      rewrite Hl. reflexivity.
    - apply Forall2_maps. intros row Hrow.
      apply zrange_In in Hrow.
      assert (Hget : forall col, In col (zrange 0 16) ->
                                 0 <= get sbox (row * 16 + col) < 256).
      { intros col Hcol. apply zrange_In in Hcol.
        assert (Hin : In (get sbox (row * 16 + col)) sbox)
          by (apply get_In; rewrite Hl; lia).
        specialize (Hb _ Hin). lia. }
      split; [|split].
      + change (zrange 0 16)
          with (0 :: zrange 1 16). discriminate.
      + apply Forall_map, Forall_forall. intros col Hcol.
        apply hexByte_cell. now apply Hget.
      + rewrite !map_map. apply map_ext_in. intros col Hcol.
        apply hexByte_cell. now apply Hget. }
  split; [exact E|].
  intros Hp. rewrite E, (validator_accepts_permutation sbox Hp). reflexivity.
Qed.

Lemma csv_export_loads_back_witness :
  parseCSVFile (exportSBox CSV fipsSBox) = inr fipsSBox.
Proof.
  refine (proj2 (csv_export_loads_back fipsSBox _ _) _).
  - reflexivity.
  - intros v Hv. apply (permutation256_byte fipsSBox) in Hv;
      [lia | exact fipsSBox_permutation].
  - exact fipsSBox_permutation.
Defined.


Section DecimalFiles.

(** Decimal numerals below 256 as cells, and how [parseValue] reads them. *)
Lemma decimal_checked :
  forallb (fun v =>
             isCell (lit (showZ v))
             && match parseValue (lit (showZ v)) with
                | Some w => w =? readAsHex v
                | None => false
                end
             && (0 <=? readAsHex v) && (readAsHex v <? 256))
          (zrange 0 256) = true.
Proof. vm_compute. reflexivity. Qed.

Lemma decimal_cell v :
  0 <= v < 256 ->
  cell (lit (showZ v))
  /\ parseValue (lit (showZ v)) = Some (readAsHex v)
  /\ 0 <= readAsHex v < 256.
Proof.
  intros Hv. pose proof decimal_checked as H.
  rewrite forallb_forall in H. specialize (H v (proj2 (zrange_In 0 256 v) Hv)).
  apply andb_prop in H. destruct H as [H H4].
  apply andb_prop in H. destruct H as [H H3].
  apply andb_prop in H. destruct H as [H1 H2].
  split; [now apply isCell_cell|]. split; [|lia].
  destruct (parseValue (lit (showZ v))) as [w|]; [|discriminate].
  apply Z.eqb_eq in H2. now subst w.
Qed.

(** Two members of a list with the same image leave a duplicate in the
    list of the images. *)
Lemma map_collision {A B} (f : A -> B) (l : list A) x y :
  NoDup l -> In x l -> In y l -> x <> y -> f x = f y -> ~ NoDup (map f l).
Proof.
  intros Hn Hx Hy Hxy Hf Hm.
  destruct (in_split x l Hx) as (l1 & l2 & ->).
  rewrite map_app in Hm. cbn [map] in Hm.
  apply NoDup_remove_2 in Hm. apply Hm.
  rewrite <- map_app, Hf. apply in_map.
  apply in_app_or in Hy. apply in_or_app.
  destruct Hy as [Hy|[Hy|Hy]]; [now left | congruence | now right].
Qed.

End DecimalFiles.

(** X23. [parseValue] tries hexadecimal first: a numeral of one
    or two decimal digits is read as hexadecimal (10 as 16, 64 as 100, 99 as
    153), a numeral of three digits as decimal.  A file that lists a
    permutation of 0..255 in decimal is therefore never loaded:
    [parseCSVFile] rejects it with the validator's error for a duplicate
    value. *)
Theorem decimal_file_is_rejected (sbox : list Z) :
  permutation256 sbox ->
  (forall v, 0 <= v < 256 ->
             parseValue (lit (showZ v)) = Some (readAsHex v))
  /\ exists val pos,
       parseCSVFile
         (join (lit ",") (map (fun v => lit (showZ v)) sbox) ++ [10])
       = inl (Rejected (DuplicateValue val pos)).
Proof.
  intros Hp. split; [intros v Hv; apply (decimal_cell v Hv)|].
  pose proof (permutation256_length sbox Hp) as Hl.
  assert (Hb : forall v, In v sbox -> 0 <= v < 256)
    by (intros v; apply (permutation256_byte sbox v Hp)).
  pose proof (parseCSVFile_rows
                [map (fun v => lit (showZ v)) sbox]
                [map readAsHex sbox]) as E.
  cbn [map concat] in E. rewrite !app_nil_r in E.
  change (lit ",") with [44]. rewrite E; clear E.
  - rewrite length_map, Hl. change (negb (Z.of_nat 256 =? 256)) with false.
    cbn iota.
    assert (Hlen : length (map readAsHex sbox) = 256%nat)
      by now rewrite length_map.
    destruct (validateSBoxValues (map readAsHex sbox)) as [e|[]] eqn:Ev.
    + apply (validateSBoxValues_inl_loop _ _ Hlen) in Ev.
      apply checkValues_inl in Ev.
      destruct Ev as (k & Hk & _ & _ & _ & [[_ Hr]|[-> _]]).
      * exfalso. apply Hr.
        assert (Hin : In (nth k (map readAsHex sbox) 0) (map readAsHex sbox))
          by now apply nth_In.
        apply in_map_iff in Hin. destruct Hin as (v & <- & Hv).
        apply (decimal_cell v (Hb v Hv)).
      * eexists. eexists. reflexivity.
    + exfalso. apply validator_accepted_is_permutation in Ev.
      apply permutation256_NoDup in Ev. revert Ev.
      apply (map_collision readAsHex sbox 64 100).
      * now apply permutation256_NoDup.
      * apply (permutation256_In sbox 64 Hp). lia.
      * apply (permutation256_In sbox 100 Hp). lia.
      * discriminate.
      * reflexivity.
  - constructor; [|constructor]. split; [|split].
    + destruct sbox; discriminate.
    + apply Forall_map, Forall_forall. intros v Hv.
      apply (decimal_cell v (Hb v Hv)).
    + rewrite !map_map. apply map_ext_in. intros v Hv.
      apply (decimal_cell v (Hb v Hv)).
Qed.

Lemma decimal_file_is_rejected_witness :
  (forall v, 0 <= v < 256 ->
             parseValue (lit (showZ v)) = Some (readAsHex v))
  /\ exists val pos,
       parseCSVFile
         (join (lit ",") (map (fun v => lit (showZ v)) fipsSBox) ++ [10])
       = inl (Rejected (DuplicateValue val pos)).
Proof.
  exact (decimal_file_is_rejected fipsSBox fipsSBox_permutation).
Defined.


Section HexOutcomes.

Lemma trimStart_nil_iff s :
  trimStart s = [] <-> Forall (fun c => isWhiteSpace c = true) s.
Proof.
  induction s as [|c rest IH]; cbn [trimStart].
  - split; [constructor | reflexivity].
  - destruct (isWhiteSpace c) eqn:E.
    + rewrite IH. split; [now constructor|]. intros H. now inversion H.
    + split; [discriminate|]. intros H. inversion H. congruence.
Qed.

Lemma trimStart_head s c rest :
  trimStart s = c :: rest -> isWhiteSpace c = false.
Proof.
  induction s as [|d s IH]; cbn [trimStart]; [discriminate|].
  destruct (isWhiteSpace d) eqn:E; [exact IH|]. intros [= <- _]. exact E.
Qed.

(** Nothing is left of a string after [trim()] exactly if all of its
    characters are white space. *)
Lemma trim_nil_iff s :
  trim s = [] <-> Forall (fun c => isWhiteSpace c = true) s.
Proof.
  split.
  - unfold trim, trimEnd. intros H.
    apply (f_equal (@rev Z)) in H. rewrite rev_involutive in H.
    cbn [rev] in H. apply trimStart_nil_iff in H.
    destruct (trimStart s) as [|c rest] eqn:E; [now apply trimStart_nil_iff|].
    apply trimStart_head in E.
    apply Forall_rev in H. rewrite rev_involutive in H.
    inversion H. congruence.
  - intros H. apply trimStart_nil_iff in H. unfold trim, trimEnd.
    rewrite H. reflexivity.
Qed.

Lemma parseBytes_inr toks bytes :
  parseBytes toks = inr bytes ->
  length bytes = length toks
  /\ Forall2 (fun tok b => parseInt tok 16 = Some b /\ 0 <= b <= 255)
             toks bytes.
Proof.
  revert bytes. induction toks as [|tok toks IH]; intros bytes;
    cbn [parseBytes].
  - intros [= <-]. split; [reflexivity | constructor].
  - destruct (parseInt tok 16) as [parsed|] eqn:Ei; [|discriminate].
    destruct ((parsed <? 0) || (255 <? parsed)) eqn:E; [discriminate|].
    destruct (parseBytes toks) as [e|rest]; [discriminate|].
    intros [= <-]. destruct (IH rest eq_refl) as [H1 H2].
    split; [cbn [length]; now rewrite H1|].
    constructor; [|exact H2]. split; [exact Ei | lia].
Qed.

End HexOutcomes.

(** X24. [parseHexString] returns [null] exactly for a string
    that is empty or all white space.  When it returns an array, the string
    has exactly 16 pieces between white space, the array holds the value of
    [parseInt(piece, 16)] for each of them in order, and these are 16
    numbers between 0 and 255; in every other case it throws. *)
Theorem parseHexString_outcomes (hexString : list Z) :
  (parseHexString hexString = inr None
   <-> Forall (fun c => isWhiteSpace c = true) hexString)
  /\ (forall bytes,
        parseHexString hexString = inr (Some bytes) ->
        length bytes = 16%nat
        /\ Forall2 (fun piece b => parseInt piece 16 = Some b /\ 0 <= b <= 255)
                   (filter (fun b => 0 <? Z.of_nat (length b))
                           (splitSpaces false (trim hexString)))
                   bytes)
  /\ (Exists (fun c => isWhiteSpace c = false) hexString ->
      length (filter (fun b => 0 <? Z.of_nat (length b))
                     (splitSpaces false (trim hexString))) <> 16%nat ->
      parseHexString hexString = inl WrongByteCount).
Proof.
  assert (Hblank : (Z.of_nat (length (trim hexString)) =? 0) = true
                   <-> Forall (fun c => isWhiteSpace c = true) hexString).
  { rewrite <- trim_nil_iff, Z.eqb_eq.
    destruct (trim hexString); cbn [length]; split;
      (reflexivity || discriminate || lia). }
  unfold parseHexString.
  set (toks := filter (fun b => 0 <? Z.of_nat (length b))
                      (splitSpaces false (trim hexString))) in *.
  destruct (Z.of_nat (length hexString) =? 0) eqn:E0.
  { apply Z.eqb_eq in E0. destruct hexString; [|cbn [length] in E0; lia].
    split; [split; [constructor | reflexivity]|].
    split; [discriminate|]. intros H. inversion H. }
  destruct (Z.of_nat (length (trim hexString)) =? 0) eqn:E1.
  { pose proof (proj1 Hblank eq_refl) as Hall.
    split; [split; [intros _; exact Hall | reflexivity]|].
    split; [discriminate|]. intros H. exfalso.
    apply Exists_exists in H. destruct H as (c & Hin & Hc).
    rewrite Forall_forall in Hall. specialize (Hall c Hin). congruence. }
  assert (Hnot : ~ Forall (fun c => isWhiteSpace c = true) hexString)
    by (intros H; apply Hblank in H; discriminate).
  destruct (Z.of_nat (length toks) =? 16) eqn:E2; cbn [negb].
  - apply Z.eqb_eq in E2.
    destruct (parseBytes toks) as [e|parsed] eqn:Ep.
    + split; [split; [discriminate | intros H; contradiction]|].
      split; [discriminate|]. intros _ H. lia.
    + split; [split; [discriminate | intros H; contradiction]|].
      split; [|intros _ H; lia].
      intros bytes [= <-]. destruct (parseBytes_inr toks parsed Ep) as [H1 H2].
      split; [lia | exact H2].
  - split; [split; [discriminate | intros H; contradiction]|].
    split; [discriminate|]. reflexivity.
Qed.
